(* ===== verification/_CoqProject ===== *)
-Q . S2P
Prelude.v
GoTime.v
GoStrings.v
GoText.v
Policy.v
SlidingWindow.v
Memory.v
MemoryProps.v
MemoryConc.v
MemoryBurst.v
RedisServer.v
Redis.v
RedisFleet.v
RedisProps.v
Limiter.v
Breaker.v
BreakerProps.v
Service.v
ServiceProps.v
Metrics.v
MetricsProps.v
Hub.v
HubProps.v
Stores.v
Lifecycle.v
GoFloat.v
GoDuration.v
GoNet.v
Config.v
ConfigProps.v
Http.v
Auth.v
Api.v
Dashboard.v
ApiProps.v
ApiUpdates.v
Sse.v
SseProps.v
