(* ===== verification/Prelude.v ===== *)
(** * A rate-limiting reverse proxy, verified

    The program (Go, under src/) limits the requests of each client in a sliding window.  A
    [Manager] asks a Redis limiter shared by all proxy instances and falls back to an in-memory
    limiter behind a circuit breaker; collectors count the traffic, a hub fans the numbers out to
    dashboards, and two small stores share the policy and the upstream through Redis.  A control
    plane, configured from the environment, shows and changes all of it behind an admin token.
    This library models those parts and proves what they promise.

    ** Files

    Shared ground:
    - Prelude.v: machine integers, slices, transition systems, automation, generic lemmas;
    - GoTime.v: what the code uses of package time (wall and monotonic readings, [Sub], [Add],
      [Before], durations);
    - GoStrings.v: formatting in base 10 and 36, [Atoi], [TrimSpace] on bytes;
    - GoText.v: [HasPrefix], [Contains], [Trim], [Cut], [EqualFold], [ParseBool];
    - GoFloat.v: [float64] over the Standard Library's executable binary64, conversions,
      [ParseFloat]; GoDuration.v: [time.ParseDuration];
    - GoNet.v: [net.SplitHostPort], base64 and HTTP Basic credentials, headers, URL escapes, and
      [http.ServeMux] (patterns by segments, precedence, cleaning of paths, redirects);
    - SlidingWindow.v: the specification, an exact sliding window over the log of all admitted
      instants, and the rate bound every step of it keeps.

    internal/limiter:
    - Policy.v (limiter.go): [Policy], [Normalize], [Decision], [deny];
    - Memory.v (memory.go): entries in a heap behind a map from keys, [Allow] as a machine whose
      states are the program points between two atomic actions, [Peek], [Reset], [cleanup], and
      the simulation of the specification; MemoryProps.v: refinement, rate bound, [prune], the
      janitor; MemoryConc.v: the same machine interleaved with other goroutines (no panic, bounded
      entries, wait-freedom); MemoryBurst.v: a concurrent burst admits exactly the limit;
    - RedisServer.v: the Redis commands the Lua script issues, as a class with its laws, and a
      reference server that meets them; Redis.v (redis.go): the script, [Allow], [Peek],
      [ActiveKeys], [Reset], [member], [toInt]; RedisFleet.v: several instances sharing a server,
      with lost replies, and the simulation of the specification in milliseconds; RedisProps.v:
      the fleet's refinement and rate bound, [Peek], uniqueness of members, the key-space walk;
    - Limiter.v (the [Limiter] interface): the contract as a class, with the law that an
      implementation is an exact window of its own unit, discharged by both limiters;
    - Breaker.v (manager.go): the failover state, its critical sections, and the goroutines
      (handlers and the prober) that run them; BreakerProps.v: the breaker under every
      interleaving; Service.v (manager.go): [AllowPolicy] over the contract, [Stats];
      ServiceProps.v: what a request comes to on every branch ([Service.decided]), in agreement
      with the goroutine model, the rate bound across failovers, the cost of an outage, cancelled
      callers, recovery;
    - Lifecycle.v (memory.go, manager.go): [Close] against the background goroutines, with
      executions, fairness and what counts as progress;
    - Stores.v (policystore.go, upstreamstore.go): [Load], [Save] and [Watch] of both stores.

    internal/metrics:
    - Metrics.v, MetricsProps.v (metrics.go): the totals, the per-second ring, the client table
      with its cap, [Snapshot], [Sweep];
    - Hub.v, HubProps.v (hub.go): subscribers, broadcasts as sequences of sends, shutdown.

    config:
    - Config.v (config.go): every variable, [Load], [Validate], the admin prefix, [Redact];
      ConfigProps.v: what a loaded configuration guarantees, what [Validate] accepts (stated over
      the prefix's segments, [literal_segment], and the split address) and reports, and what the
      environment cannot do.

    internal/api and internal/dashboard:
    - Http.v: requests, responses, query strings, [ParseForm], the JSON values a decoder stores;
    - Auth.v (auth.go): the token in three headers, [guard]; its exact specification;
    - Api.v (api.go): the handlers over a [world] made of the components above, their decoding
      and validation, the stream's handler up to its subscription, the routes; Dashboard.v
      (dashboard.go): the page's headers and routes; ApiProps.v: routing, authorisation, the table
      of endpoints and their handlers ([api_table]), the policy update, what an endpoint may
      touch;
      ApiUpdates.v: updates on their way to the fleet and to the proxy, exact windows, resets;
    - Sse.v (sse.go): the broadcaster and the handlers of the streams, from subscription to
      unsubscription, as machines over one hub, interleaved with requests (one that reaches the
      stream's handler starts a machine), and the parser a client uses; SseProps.v: no stream leaks, what
      a client reads, the end of the streams.

    ** Conventions

    A definition carries the name of the function or type it models.  Clock readings, random
    bytes, map iteration orders, replies of the network and the scheduler's choices are inputs.
    [int], [int64] and [time.Duration] are [Z] with the wrap-around written out where the code
    can reach it; a run-time panic is [None].  A critical section of a mutex and an operation on
    an atomic or a [sync.Map] are single steps where goroutines are interleaved: the in-memory
    limiter, the manager, the hub's callers, [Close].  The collector's operations (Metrics.v) are
    coarser, one step each, though the code's are sequences of such actions: newcomers recorded at
    the same time may exceed the cap proved there for as long as they overlap.  Requests other
    than streams are one step of the plane of Sse.v, and reading the clock and running the script
    are one step of a Redis fleet, so that scripts run in the order of their clock readings
    ([in_order]).

    ** What the theorems show

    Limiting: both limiters are the exact sliding window in every answer they give (the in-memory
    one in nanoseconds, under janitor sweeps and resets; the Redis one in milliseconds, across a
    fleet and an unreliable network), hence the rate bounds; concurrent use is safe and a burst
    admits exactly the limit.  Failover: the circuit is open exactly when the threshold is
    reached, lets one request per cooldown through, keeps an outage cheap, recovers, and keeps
    each backend's limit.  Sharing: a saved policy or upstream is the one all instances take
    over, and nothing stored can make them take over an unenforceable one.  Observation: totals,
    series and client table are exact and bounded, frames are delivered in order.  Lifecycle: [Close] may be called concurrently, never deadlocks,
    and under a fair scheduler returns and ends the background goroutine.  Configuration:
    [Validate] accepts exactly the configurations in range and names what is wrong with another, a
    loaded one is well typed, and an unreadable variable is as good as an unset one.  Control plane: no route escapes to the
    proxied application, every endpoint is answered by its handler and everything else by a 404,
    without the token nothing is shown or changed, the token is accepted in exactly the documented
    forms; an update is applied as asked or refused without effect, and
    one called shared is what the fleet takes over; a request touches its own part of the state
    only.  Streams: under every interleaving each subscriber belongs to one running stream, a
    client parses whole snapshots, and a shutdown ends every stream in a bounded number of steps.

    Some theorems document behaviour the code probably does not intend: a health flag or an error
    that outlives the outage, a probe used up by a caller that gave up, a new client dropped by the cap, a [Peek] that erases hits, hits out
    of order, a window that overflows or is cut by a nanosecond, an update lost to another, a
    multipart form that is never read, an admin token left in the redacted configuration, and
    configurations that pass validation though they cannot work.

    ** Bounds and fuel

    [Memory.allow_fuel] is 40: a call takes at most 4 steps for each of its 9 attempts, and
    [allow_measure] bounds them under any interference.  [GoStrings.digits] has fuel 13 for the
    base-36 digits of a [uint64] and 20 for decimals; [trim] has the length of its input, and so
    has [ParseDuration], which takes a character at least off its input in every round.  A stream
    has at most [buffer] + 3 steps left, besides keepalives, once the hub is closed.  Redis
    sequence numbers and the failure count are machine integers: the fleet theorems assume fewer
    than 2^64 requests, the breaker theorem fewer than 2^63 steps.  Clock hypotheses (readings
    that do not go back, between 1970 and 2255) are stated where they are used.

    ** Not modelled

    Redis itself, the text of JSON documents (how their values are stored into the structures of
    the program is written out), the parameters of media types and [http.ServeContent] are
    parameters or left out, and so are listeners, timeouts of connections and write deadlines;
    logging is dropped.  A page of a Redis scan and a reply of the network are inputs.  The
    dashboard's page itself (HTML and JavaScript) is a constant.  cmd/devredis starts a
    third-party server and has no logic of its own.  internal/proxy and cmd/proxy, which the
    documentation mentions, are not in the repository: what the control plane uses of
    internal/proxy is the class [Api.ProxyPackage], and nothing here is about forwarding. *)

From Stdlib Require Export ZArith Lia Bool.
From stdpp Require Export prelude strings gmap list sorting relations.

#[export] Set Default Goal Selector "!".
#[export] Set Warnings "-clear-no-such-hyp".

Declare Scope go_scope.
Delimit Scope go_scope with go.
Open Scope Z_scope.

(** ** Machine integers

    Go's [int] is 64 bits wide on the platforms the program targets; [int64], [int] and
    [time.Duration] are kept as [Z] with the wrap-around written out. *)

Abbreviation min_int64 := (-9223372036854775808).
Abbreviation max_int64 := 9223372036854775807.

Definition wrap64 (z : Z) : Z :=
  (z + 9223372036854775808) mod 18446744073709551616 - 9223372036854775808.

Definition wrapu64 (z : Z) : Z := z mod 18446744073709551616.

(** Saturation to the [int64] range, as [time.Time.Sub] does. *)
Definition sat64 (z : Z) : Z := Z.max min_int64 (Z.min z max_int64).

Definition in64 (z : Z) : bool := (min_int64 <=? z) && (z <=? max_int64).

(** ** Go slices of [int64]: the elements and the capacity of the backing array. *)
Record slice := MkSlice { elems : list Z; cap : Z }.

Definition nil_slice : slice := MkSlice [] 0.

(** [len(s)] *)
Definition len {A} (l : list A) : Z := Z.of_nat (length l).

(** Counting the elements of a list that satisfy a boolean test. *)
Fixpoint countb {A} (f : A → bool) (l : list A) : nat :=
  match l with
  | [] => 0%nat
  | x :: l' => if f x then S (countb f l') else countb f l'
  end.

(** A transition system, its reachable states and its invariants. *)
Record system := MkSystem {
  st : Type;
  init : st → Prop;
  step : st → st → Prop }.

Definition reachable (S : system) (s : st S) : Prop :=
  ∃ s0, init S s0 ∧ rtc (step S) s0 s.

Definition invariant (S : system) (I : st S → Prop) : Prop :=
  ∀ s, reachable S s → I s.

(** ** Automation *)

(** [zify_bool] turns the boolean comparisons the code tests into propositions. *)
Ltac zify_bool :=
  repeat match goal with
  | H : (_ && _) = true |- _ => apply andb_true_iff in H; destruct H
  | H : (_ || _) = false |- _ => apply orb_false_iff in H; destruct H
  | H : (_ <=? _) = true |- _ => apply Z.leb_le in H
  | H : (_ <=? _) = false |- _ => apply Z.leb_gt in H
  | H : (_ <? _) = true |- _ => apply Z.ltb_lt in H
  | H : (_ <? _) = false |- _ => apply Z.ltb_ge in H
  | H : (_ =? _) = true |- _ => apply Z.eqb_eq in H
  | H : (_ =? _) = false |- _ => apply Z.eqb_neq in H
  | H : negb _ = true |- _ => apply negb_true_iff in H
  | H : negb _ = false |- _ => apply negb_false_iff in H
  end.

(** [case_if] splits on the scrutinee of an [if] in the goal and reads the test. *)
Ltac case_if :=
  match goal with
  | |- context [if ?b then _ else _] => let E := fresh "E" in destruct b eqn:E; zify_bool
  end.

Create HintDb go discriminated.
Create Rewrite HintDb go.

(** ** Shared lemmas *)

Lemma wrap64_id (z : Z) : min_int64 ≤ z ≤ max_int64 → wrap64 z = z.
Proof. intros H. unfold wrap64. rewrite Z.mod_small; lia. Qed.

Lemma wrap64_range (z : Z) : min_int64 ≤ wrap64 z ≤ max_int64.
Proof.
  unfold wrap64.
  pose proof (Z.mod_pos_bound (z + 9223372036854775808) 18446744073709551616). lia.
Qed.

Lemma sat64_id (z : Z) : min_int64 ≤ z ≤ max_int64 → sat64 z = z.
Proof. unfold sat64. lia. Qed.

Lemma sat64_range (z : Z) : min_int64 ≤ sat64 z ≤ max_int64.
Proof. unfold sat64. lia. Qed.

Lemma in64_spec (z : Z) : in64 z = true ↔ min_int64 ≤ z ≤ max_int64.
Proof. unfold in64. rewrite andb_true_iff, !Z.leb_le. lia. Qed.

Lemma len_nonneg {A} (l : list A) : 0 ≤ len l.
Proof. unfold len. lia. Qed.

Lemma len_app {A} (l k : list A) : len (l ++ k) = len l + len k.
Proof. unfold len. rewrite length_app. lia. Qed.

Lemma len_nil {A} (l : list A) : len l = 0 ↔ l = [].
Proof. destruct l; unfold len; simpl; split; intros; try done; lia. Qed.

Lemma system_invariant (S : system) (I : st S → Prop) :
  (∀ s, init S s → I s) →
  (∀ s s', I s → step S s s' → I s') →
  invariant S I.
Proof.
  intros Hinit Hstep s (s0 & H0%Hinit & Hrtc).
  induction Hrtc; eauto.
Qed.

Lemma countb_app {A} (f : A → bool) (l k : list A) :
  countb f (l ++ k) = (countb f l + countb f k)%nat.
Proof. induction l as [|x l IH]; simpl; [done|]. case_if; lia. Qed.

Lemma countb_le_length {A} (f : A → bool) (l : list A) : (countb f l ≤ length l)%nat.
Proof. induction l; simpl; [done|]. case_if; lia. Qed.

Lemma countb_ext {A} (f g : A → bool) (l : list A) :
  (∀ x, x ∈ l → f x = g x) → countb f l = countb g l.
Proof.
  induction l as [|x l IH]; intros H; [done|]; simpl.
  rewrite H by left. by rewrite IH by (intros; apply H; by right).
Qed.

(** Replacing one element of a list changes the count by that element's test. *)
Lemma countb_insert {A} (f : A → bool) (l : list A) (i : nat) (x y : A) :
  l !! i = Some x →
  (countb f (<[i:=y]> l) + (if f x then 1 else 0) =
   countb f l + (if f y then 1 else 0))%nat.
Proof.
  revert i; induction l as [|z l IH]; intros [|i] H; simplify_eq/=.
  - destruct (f x), (f y); lia.
  - specialize (IH i H). destruct (f z); simpl; lia.
Qed.

Lemma filter_all {A} (P : A → Prop) `{!∀ x, Decision (P x)} (l : list A) :
  Forall P l → filter P l = l.
Proof.
  induction 1 as [|x l Hx _ IH]; [done|]. rewrite filter_cons. by rewrite decide_True, IH.
Qed.

Lemma filter_none {A} (P : A → Prop) `{!∀ x, Decision (P x)} (l : list A) :
  Forall (λ x, ¬ P x) l → filter P l = [].
Proof.
  induction 1 as [|x l Hx _ IH]; [done|]. rewrite filter_cons. by rewrite decide_False.
Qed.

Lemma Forall_snoc_intro {A} (P : A → Prop) (l : list A) (x : A) :
  Forall P l → P x → Forall P (l ++ [x]).
Proof. intros Hl Hx. apply Forall_app. split; [done|]. by constructor. Qed.

#[export] Hint Resolve len_nonneg wrap64_range sat64_range : go.
#[export] Hint Rewrite @len_app : go.
