(* ===== verification/GoTime.v ===== *)
(** * The parts of Go's package time the program uses

    [time.Duration] is an [int64] count of nanoseconds.  A [time.Time] keeps a wall clock
    reading and, when it comes from [time.Now], a monotonic one; arithmetic and comparison
    use the monotonic readings when both operands have one, as the package documents. *)

From S2P Require Import Prelude.

Open Scope Z_scope.

Abbreviation Duration := Z.

Definition Nanosecond : Duration := 1.
Definition Millisecond : Duration := 1000000.
Definition Second : Duration := 1000000000.
Definition Minute : Duration := 60 * Second.
Definition Hour : Duration := 60 * Minute.

(** [wall] is in nanoseconds since the Unix epoch, [mono] in nanoseconds since process start. *)
Record Time := MkTime { wall : Z; mono : option Z }.

#[export] Instance Time_eq_dec : EqDecision Time.
Proof. solve_decision. Defined.

(** [time.Time{}]: January 1 of year 1, UTC. *)
Definition ZeroTime : Time := MkTime (-62135596800000000000) None.

Definition IsZero (t : Time) : bool := wall t =? -62135596800000000000.

(** [time.Unix(0, ns)] carries no monotonic reading. *)
Definition Unix0 (ns : Z) : Time := MkTime ns None.

Definition UnixNano (t : Time) : Z := wrap64 (wall t).
Definition Unix (t : Time) : Z := wall t / 1000000000.
Definition UnixMilli (t : Time) : Z := wall t / 1000000.

(** The clock both operands share: monotonic when both have it, else the wall clock. *)
Definition readings (t u : Time) : Z * Z :=
  match mono t, mono u with
  | Some a, Some b => (a, b)
  | _, _ => (wall t, wall u)
  end.

Definition Sub (t u : Time) : Duration := let '(a, b) := readings t u in sat64 (a - b).
Definition After (t u : Time) : bool := let '(a, b) := readings t u in b <? a.
Definition Before (t u : Time) : bool := let '(a, b) := readings t u in a <? b.

(** [t.Add(d)] drops a monotonic reading that would overflow. *)
Definition Add (t : Time) (d : Duration) : Time :=
  MkTime (wall t + d)
    (match mono t with
     | Some m => if in64 (m + d) then Some (m + d) else None
     | None => None
     end).

(** [d.Milliseconds()]: integer division truncated toward zero. *)
Definition Milliseconds (d : Duration) : Z := Z.quot d 1000000.

(** Two readings of one process clock on which wall and monotonic time advance alike. *)
Definition in_step (t u : Time) : Prop :=
  match mono t, mono u with
  | Some a, Some b => a - b = wall t - wall u
  | _, _ => True
  end.

Lemma Sub_Unix0 (ns : Z) (now : Time) : Sub (Unix0 ns) now = sat64 (ns - wall now).
Proof. unfold Sub, readings, Unix0; simpl. by destruct (mono now). Qed.

Lemma UnixNano_id (t : Time) : min_int64 ≤ wall t ≤ max_int64 → UnixNano t = wall t.
Proof. apply wrap64_id. Qed.

Lemma IsZero_ZeroTime : IsZero ZeroTime = true.
Proof. reflexivity. Qed.

(** An instant reached from [now] by [Add] lies that far ahead of [now]. *)
Lemma Sub_Add (now : Time) (d : Duration) :
  min_int64 ≤ d ≤ max_int64 → Sub (Add now d) now = d.
Proof.
  intros Hd. unfold Sub, readings, Add; simpl.
  destruct (mono now) as [m|]; [destruct (in64 (m + d)) eqn:E|]; rewrite sat64_id; lia.
Qed.

Lemma After_Before (t u : Time) : After t u = Before u t.
Proof. unfold After, Before, readings. by destruct (mono t), (mono u). Qed.

#[export] Hint Rewrite Sub_Unix0 : go.
