(* ===== verification/GoStrings.v ===== *)
(** * The parts of Go's strings and strconv the program uses

    A Go string is a sequence of bytes, here a [string] of [ascii]. *)

From Stdlib Require Import Ascii.
From S2P Require Import Prelude.

Open Scope Z_scope.

(** ** Bytes *)

Definition code (c : ascii) : Z := Z.of_nat (nat_of_ascii c).

Definition bytes (s : string) : list ascii := String.list_ascii_of_string s.

(** ** Formatting integers *)

Definition digit36 (d : Z) : ascii :=
  ascii_of_nat (Z.to_nat (if d <? 10 then 48 + d else 87 + d)).

(** The digits of [n] in base [b], least significant last, in front of [acc]. *)
Fixpoint digits (b : Z) (fuel : nat) (n : Z) (acc : string) : string :=
  match fuel with
  | O => acc
  | S fuel =>
      let acc := String (digit36 (n mod b)) acc in
      if n <? b then acc else digits b fuel (n / b) acc
  end.

(** [strconv.FormatUint(n, 36)] and [strconv.FormatInt(n, 36)]: 13 digits hold any [uint64]. *)
Definition FormatUint36 (n : Z) : string := digits 36 13 n "".

Definition FormatInt36 (n : Z) : string :=
  if n <? 0 then String "-" (FormatUint36 (- n)) else FormatUint36 n.

(** The verb [%d]: 20 digits hold the magnitude of any [int]. *)
Definition FormatInt (n : Z) : string :=
  if n <? 0 then String "-" (digits 10 20 (- n) "") else digits 10 20 n "".

(** The value a digit string denotes in base [b]. *)
Definition value36 (c : ascii) : Z := if code c <? 58 then code c - 48 else code c - 87.

Fixpoint parse_base (b acc : Z) (s : string) : Z :=
  match s with
  | EmptyString => acc
  | String c s => parse_base b (acc * b + value36 c) s
  end.

(** ** [strconv.Atoi] *)

Definition is_digit (c : ascii) : bool := (48 <=? code c) && (code c <=? 57).

(** The digits of an unsigned decimal; [None] on an empty string or any other byte. *)
Fixpoint parse_digits (acc : Z) (s : string) : option Z :=
  match s with
  | EmptyString => Some acc
  | String c s => if is_digit c then parse_digits (acc * 10 + (code c - 48)) s else None
  end.

Definition parse_unsigned (s : string) : option Z :=
  match s with EmptyString => None | _ => parse_digits 0 s end.

(** An optional sign, decimal digits, and a value in the range of [int]; [None] is an error. *)
Definition Atoi (s : string) : option Z :=
  let r :=
    match s with
    | String "-" s' => Z.opp <$> parse_unsigned s'
    | String "+" s' => parse_unsigned s'
    | _ => parse_unsigned s
    end in
  n ← r; if in64 n then Some n else None.

(** ** [strings.TrimSpace] *)

(** The UTF-8 encodings of the code points [unicode.IsSpace] accepts.  No encoding overlaps the
    inside of another rune, so trimming runes is trimming these byte sequences, whatever the
    other bytes are. *)
Definition spaces : list (list ascii) :=
  map (map ascii_of_nat)
  [[9]; [10]; [11]; [12]; [13]; [32]; [194; 133]; [194; 160]; [225; 154; 128];
   [226; 128; 128]; [226; 128; 129]; [226; 128; 130]; [226; 128; 131]; [226; 128; 132];
   [226; 128; 133]; [226; 128; 134]; [226; 128; 135]; [226; 128; 136]; [226; 128; 137];
   [226; 128; 138]; [226; 128; 168]; [226; 128; 169]; [226; 128; 175]; [226; 129; 159];
   [227; 128; 128]]%nat.

Fixpoint strip_list (p l : list ascii) : option (list ascii) :=
  match p, l with
  | [], _ => Some l
  | a :: p, b :: l => if Ascii.eqb a b then strip_list p l else None
  | _ :: _, [] => None
  end.

(** One leading member of [seps] removed, if there is one. *)
Fixpoint strip_any (seps : list (list ascii)) (l : list ascii) : option (list ascii) :=
  match seps with
  | [] => None
  | p :: seps => match strip_list p l with Some l' => Some l' | None => strip_any seps l end
  end.

(** As many as the length of the list can be removed. *)
Fixpoint trim (seps : list (list ascii)) (fuel : nat) (l : list ascii) : list ascii :=
  match fuel with
  | O => l
  | S fuel => match strip_any seps l with Some l' => trim seps fuel l' | None => l end
  end.

Definition TrimLeft (l : list ascii) : list ascii := trim spaces (length l) l.
Definition TrimRight (l : list ascii) : list ascii :=
  reverse (trim (reverse <$> spaces) (length l) (reverse l)).

Definition TrimSpace (s : string) : string :=
  String.string_of_list_ascii (TrimRight (TrimLeft (bytes s))).

(** ** Lemmas *)

Lemma bytes_app s t : bytes (s +:+ t) = bytes s ++ bytes t.
Proof. induction s as [|c s IH]; [done|]. unfold bytes in *. simpl. by rewrite <- IH. Qed.

Lemma bytes_inj s t : bytes s = bytes t → s = t.
Proof.
  intros H. rewrite <- (String.string_of_list_ascii_of_string s),
    <- (String.string_of_list_ascii_of_string t). by f_equal.
Qed.

Lemma digit36_value d : 0 ≤ d < 36 → value36 (digit36 d) = d.
Proof.
  intros Hd. unfold value36, digit36, code.
  rewrite nat_ascii_embedding by (case_if; lia).
  destruct (Z.ltb_spec d 10); case_if; lia.
Qed.

Lemma digit36_not_dash d : 0 ≤ d < 36 → digit36 d ≠ "-"%char.
Proof.
  intros Hd E. apply (f_equal code) in E. unfold digit36, code in E.
  rewrite nat_ascii_embedding in E by (case_if; lia).
  change (nat_of_ascii "-") with 45%nat in E. revert E. case_if; lia.
Qed.

(** Parsing the digits of [n] followed by [acc] is parsing [acc] with [n] already read. *)
Lemma parse_digits_base b fuel :
  1 < b ≤ 36 →
  ∀ n acc, 0 ≤ n < b ^ Z.of_nat fuel →
  parse_base b 0 (digits b fuel n acc) = parse_base b n acc.
Proof.
  intros Hb. induction fuel as [|fuel IH]; intros n acc Hn; simpl.
  { change (b ^ Z.of_nat 0) with 1 in Hn. by replace n with 0 by lia. }
  pose proof (Z.mod_pos_bound n b ltac:(lia)). destruct (Z.ltb_spec n b).
  - simpl. rewrite digit36_value by lia. by rewrite Z.mod_small by lia.
  - rewrite IH.
    + simpl. rewrite digit36_value by lia. f_equal. pose proof (Z.div_mod n b). lia.
    + rewrite Nat2Z.inj_succ, Z.pow_succ_r in Hn by lia.
      split; [apply Z.div_pos; lia|apply Z.div_lt_upper_bound; lia].
Qed.

(** What holds of the digits below [b] holds of every character written. *)
Lemma digits_Forall (P : ascii → Prop) b fuel :
  (∀ d, 0 ≤ d < b → P (digit36 d)) → 0 < b →
  ∀ n acc, Forall P (bytes acc) → Forall P (bytes (digits b fuel n acc)).
Proof.
  intros HP Hb. induction fuel as [|fuel IH]; intros n acc Hacc; simpl; [done|].
  assert (Forall P (bytes (String (digit36 (n mod b)) acc))).
  { constructor; [apply HP, Z.mod_pos_bound; lia|exact Hacc]. }
  case_if; auto.
Qed.

Lemma digits_keeps b fuel : ∀ n acc, acc ≠ "" → digits b fuel n acc ≠ "".
Proof. induction fuel; intros n acc H; simpl; [done|]. case_if; [done|]. by apply IHfuel. Qed.

Lemma digits_nonempty b fuel n acc : digits b (S fuel) n acc ≠ "".
Proof. simpl. case_if; [done|]. by apply digits_keeps. Qed.

Lemma FormatUint36_parse n :
  0 ≤ n < 18446744073709551616 → parse_base 36 0 (FormatUint36 n) = n.
Proof.
  intros Hn. unfold FormatUint36. rewrite parse_digits_base; [done|lia|]. simpl Z.of_nat. lia.
Qed.

Lemma FormatUint36_inj n m :
  0 ≤ n < 18446744073709551616 → 0 ≤ m < 18446744073709551616 →
  FormatUint36 n = FormatUint36 m → n = m.
Proof.
  intros Hn Hm H. rewrite <- (FormatUint36_parse n), <- (FormatUint36_parse m) by done.
  by rewrite H.
Qed.

Lemma FormatUint36_no_dash n : "-"%char ∉ bytes (FormatUint36 n).
Proof.
  intros H. refine (proj1 (Forall_forall (λ c, c ≠ "-"%char) _) _ _ H eq_refl).
  apply digits_Forall; [apply digit36_not_dash|lia|constructor].
Qed.

(** ** Reading decimals back *)

Lemma digit10_is_digit d : 0 ≤ d < 10 → is_digit (digit36 d) = true.
Proof.
  intros Hd. unfold is_digit, digit36, code. destruct (Z.ltb_spec d 10); [|lia].
  rewrite nat_ascii_embedding by lia. rewrite andb_true_iff, !Z.leb_le. lia.
Qed.

Lemma value36_digit c : is_digit c = true → value36 c = code c - 48.
Proof.
  unfold is_digit, value36. intros H. zify_bool. destruct (Z.ltb_spec (code c) 58); lia.
Qed.

Lemma parse_digits_decimal s :
  ∀ acc, Forall (λ c, is_digit c = true) (bytes s) → parse_digits acc s = Some (parse_base 10 acc s).
Proof.
  induction s as [|c s IH]; intros acc H; simpl; [done|].
  apply Forall_cons in H as [Hc Hs]. rewrite Hc, value36_digit by done. by apply IH.
Qed.

Lemma parse_unsigned_digits n :
  0 ≤ n < 10 ^ 20 →
  parse_unsigned (digits 10 20 n "") = Some n
  ∧ Forall (λ c, is_digit c = true) (bytes (digits 10 20 n "")).
Proof.
  intros Hn. assert (HF : Forall (λ c, is_digit c = true) (bytes (digits 10 20 n ""))).
  { apply digits_Forall; [apply digit10_is_digit|lia|constructor]. }
  split; [|exact HF]. unfold parse_unsigned.
  destruct (digits 10 20 n "") as [|c s] eqn:E; [by apply digits_nonempty in E|].
  rewrite parse_digits_decimal by done. rewrite <- E. f_equal.
  apply parse_digits_base; simpl Z.of_nat; lia.
Qed.

(** [Atoi] of an unsigned decimal does not see a sign. *)
Lemma Atoi_unsigned s n :
  Forall (λ c, is_digit c = true) (bytes s) → parse_unsigned s = Some n →
  Atoi s = if in64 n then Some n else None.
Proof.
  intros HF Hp. unfold Atoi. destruct s as [|c s]; [done|].
  apply Forall_cons in HF as [Hc _].
  assert (c ≠ "-"%char ∧ c ≠ "+"%char) as [H1 H2] by (split; intros ->; discriminate Hc).
  destruct c as [[] [] [] [] [] [] [] []]; try (rewrite Hp; reflexivity); done.
Qed.

(** [strconv.Atoi] reads back what [%d] wrote. *)
Lemma Atoi_FormatInt n : min_int64 ≤ n ≤ max_int64 → Atoi (FormatInt n) = Some n.
Proof.
  intros Hn. unfold FormatInt. assert (H64 : in64 n = true) by by apply in64_spec.
  destruct (Z.ltb_spec n 0).
  - destruct (parse_unsigned_digits (- n)) as [Hp _]; [lia|].
    unfold Atoi. rewrite Hp. simpl. by rewrite Z.opp_involutive, H64.
  - destruct (parse_unsigned_digits n) as [Hp HF]; [lia|].
    by rewrite (Atoi_unsigned _ n), H64.
Qed.

(** The first and the last occurrence of a separator split a list in one way. *)
Lemma split_first {A} (x : A) (l l' r r' : list A) :
  x ∉ l → x ∉ l' → l ++ x :: r = l' ++ x :: r' → l = l' ∧ r = r'.
Proof.
  revert l'. induction l as [|y l IH]; intros [|y' l'] Hl Hl' H; simpl in H.
  - by injection H as ->.
  - injection H as -> _. by destruct Hl'; left.
  - injection H as -> _. by destruct Hl; left.
  - injection H as -> H. apply not_elem_of_cons in Hl as [_ Hl].
    apply not_elem_of_cons in Hl' as [_ Hl'].
    by destruct (IH l' Hl Hl' H) as [-> ->].
Qed.

Lemma split_last {A} (x : A) (l l' r r' : list A) :
  x ∉ r → x ∉ r' → l ++ x :: r = l' ++ x :: r' → l = l' ∧ r = r'.
Proof.
  intros Hr Hr' H. apply (f_equal reverse) in H.
  rewrite !reverse_app, !reverse_cons, <- !app_assoc in H. simpl in H.
  apply split_first in H as [H1 H2]; [|by rewrite elem_of_reverse..].
  split; by apply (inj reverse).
Qed.

(** [Atoi] reads back what decimal formatting of a small number wrote. *)
Lemma Atoi_range s n : Atoi s = Some n → min_int64 ≤ n ≤ max_int64.
Proof.
  unfold Atoi. destruct (match s with String _ _ => _ | _ => _ end) as [k|]; simpl; [|done].
  case_if; [|done]. intros [= <-]. by apply in64_spec.
Qed.

(** ** Trimming *)

Lemma strip_list_Some p l r : strip_list p l = Some r ↔ l = p ++ r.
Proof.
  revert l. induction p as [|a p IH]; intros l; simpl; [naive_solver|].
  destruct l as [|b l]; [naive_solver|]. destruct (Ascii.eqb_spec a b) as [->|Hne].
  - rewrite IH. naive_solver.
  - naive_solver.
Qed.

Lemma strip_any_Some seps l r : strip_any seps l = Some r → ∃ p, p ∈ seps ∧ l = p ++ r.
Proof.
  induction seps as [|p seps IH]; simpl; [done|]. destruct (strip_list p l) as [l'|] eqn:E.
  - intros [= <-]. apply strip_list_Some in E. exists p. split; [left|done].
  - intros (q & ? & ?)%IH. exists q. split; [by right|done].
Qed.

Lemma strip_any_None seps l : strip_any seps l = None ↔ ∀ p r, p ∈ seps → l ≠ p ++ r.
Proof.
  induction seps as [|p seps IH]; simpl.
  { split; [intros _ q r H; by apply not_elem_of_nil in H|done]. }
  destruct (strip_list p l) as [l'|] eqn:E.
  - apply strip_list_Some in E. split; [done|]. intros H. by destruct (H p l'); [left|].
  - rewrite IH. split.
    + intros H q r [->|Hq]%elem_of_cons; [|by apply H]. intros Hl%strip_list_Some. congruence.
    + intros H q r Hq. apply H. by right.
Qed.

(** Trimming removes a prefix and leaves no separator in front. *)
Lemma trim_spec seps fuel :
  ∀ l, Forall (λ p, p ≠ []) seps → (length l ≤ fuel)%nat →
  strip_any seps (trim seps fuel l) = None ∧ ∃ k, l = k ++ trim seps fuel l.
Proof.
  induction fuel as [|fuel IH]; intros l Hne Hl; simpl.
  { destruct l; [|simpl in Hl; lia]. split; [|by exists []].
    apply strip_any_None. intros p r Hp Heq. symmetry in Heq. apply app_eq_nil in Heq as [-> _].
    by eapply Forall_forall in Hp; [|exact Hne]. }
  destruct (strip_any seps l) as [l'|] eqn:E; [|split; [done|by exists []]].
  apply strip_any_Some in E as (p & Hp & ->). eapply Forall_forall in Hp; [|exact Hne].
  rewrite length_app in Hl. destruct p as [|a p]; [done|]. simpl in Hl.
  destruct (IH l' Hne ltac:(lia)) as [H (k & Hk)]. split; [done|].
  exists ((a :: p) ++ k). by rewrite <- app_assoc, <- Hk.
Qed.

Lemma trim_id seps fuel l : strip_any seps l = None → trim seps fuel l = l.
Proof. intros H. destruct fuel; simpl; [done|]. by rewrite H. Qed.

Lemma spaces_nonempty : Forall (λ p, p ≠ []) spaces ∧ Forall (λ p, p ≠ []) (reverse <$> spaces).
Proof. split; (eapply bool_decide_unpack; vm_compute; exact I). Qed.

(** A part that follows nothing trimmed has no leading separator either. *)
Lemma strip_any_prefix seps l k : strip_any seps (l ++ k) = None → strip_any seps l = None.
Proof.
  rewrite !strip_any_None. intros H p r Hp ->. apply (H p (r ++ k) Hp). by rewrite <- app_assoc.
Qed.

Lemma TrimLeft_spec l : strip_any spaces (TrimLeft l) = None ∧ ∃ k, l = k ++ TrimLeft l.
Proof. apply trim_spec; [apply spaces_nonempty|done]. Qed.

Lemma TrimRight_spec l :
  strip_any (reverse <$> spaces) (reverse (TrimRight l)) = None ∧ ∃ k, l = TrimRight l ++ k.
Proof.
  unfold TrimRight. rewrite reverse_involutive.
  destruct (trim_spec (reverse <$> spaces) (length l) (reverse l)) as [H (k & Hk)].
  - apply spaces_nonempty.
  - by rewrite length_reverse.
  - split; [done|]. exists (reverse k). rewrite <- reverse_app, <- Hk. by rewrite reverse_involutive.
Qed.

(** The trimmed string neither starts nor ends with a space, and is a part of the original. *)
Lemma TrimSpace_trimmed s :
  let l := bytes (TrimSpace s) in
  strip_any spaces l = None ∧ strip_any (reverse <$> spaces) (reverse l) = None
  ∧ ∃ before after, bytes s = before ++ l ++ after.
Proof.
  unfold TrimSpace, bytes. rewrite String.list_ascii_of_string_of_list_ascii. fold (bytes s).
  destruct (TrimLeft_spec (bytes s)) as [H1 (k1 & E1)].
  destruct (TrimRight_spec (TrimLeft (bytes s))) as [H2 (k2 & E2)].
  split; [|split; [exact H2|]].
  - rewrite E2 in H1. exact (strip_any_prefix _ _ _ H1).
  - exists k1, k2. rewrite <- E2. exact E1.
Qed.

Lemma TrimSpace_idemp s : TrimSpace (TrimSpace s) = TrimSpace s.
Proof.
  destruct (TrimSpace_trimmed s) as (H1 & H2 & _). unfold TrimSpace at 1.
  unfold TrimLeft. rewrite (trim_id _ _ _ H1). unfold TrimRight. rewrite (trim_id _ _ _ H2).
  rewrite reverse_involutive. unfold bytes. apply String.string_of_list_ascii_of_string.
Qed.
