(* ===== verification/GoText.v ===== *)
(** * More of Go's strings and strconv: searching, cutting, folding, booleans

    The parts the configuration and the control plane use.  Strings that are constants of the
    program (prefixes, separators, the right-hand sides of [EqualFold]) are ASCII. *)

From Stdlib Require Import Ascii.
From S2P Require Import Prelude.
From S2P Require Import GoStrings.

Open Scope Z_scope.

Definition text (l : list ascii) : string := String.string_of_list_ascii l.

(** ** Prefixes, suffixes, substrings *)

Definition is_some {A} (o : option A) : bool := match o with Some _ => true | None => false end.

Definition HasPrefix (s p : string) : bool := is_some (strip_list (bytes p) (bytes s)).

Definition TrimSuffix (s p : string) : string :=
  match strip_list (reverse (bytes p)) (reverse (bytes s)) with
  | Some r => text (reverse r)
  | None => s
  end.

Fixpoint contains (p l : list ascii) : bool :=
  is_some (strip_list p l) || match l with [] => false | _ :: l => contains p l end.

Definition Contains (s p : string) : bool := contains (bytes p) (bytes s).

(** [strings.Trim(s, cutset)] for a cutset of ASCII characters. *)
Definition trim_set (set l : list ascii) : list ascii :=
  let seps := (λ c, [c]) <$> set in
  let l := trim seps (length l) l in
  reverse (trim seps (length l) (reverse l)).

Definition Trim (s cutset : string) : string := text (trim_set (bytes cutset) (bytes s)).

(** [strings.Cut] at a single character: what precedes its first occurrence, and the rest. *)
Fixpoint cut (x : ascii) (l : list ascii) : option (list ascii * list ascii) :=
  match l with
  | [] => None
  | a :: l => if Ascii.eqb a x then Some ([], l) else '(b, r) ← cut x l; Some (a :: b, r)
  end.

(** The last occurrence: what precedes it, and the rest. *)
Definition cut_last (x : ascii) (l : list ascii) : option (list ascii * list ascii) :=
  '(b, r) ← cut x (reverse l); Some (reverse r, reverse b).

(** ** [strings.EqualFold] against an ASCII string *)

Definition lower (c : ascii) : ascii :=
  if (65 <=? code c) && (code c <=? 90) then ascii_of_nat (Z.to_nat (code c + 32)) else c.

Definition hex_digit (c : ascii) : option Z :=
  let n := code (lower c) in
  if is_digit c then Some (n - 48)
  else if (97 <=? n) && (n <=? 102) then Some (n - 87) else None.

(** What follows one rune that is equal to [c] under case folding: a letter in either case, or,
    for s and k, the long s (U+017F) and the Kelvin sign (U+212A). *)
Definition fold_rune (c : ascii) (l : list ascii) : option (list ascii) :=
  match l with
  | [] => None
  | a :: r =>
      if Ascii.eqb (lower a) (lower c) then Some r
      else if Ascii.eqb (lower c) "s" then strip_list (map ascii_of_nat [197; 191]%nat) l
      else if Ascii.eqb (lower c) "k" then strip_list (map ascii_of_nat [226; 132; 170]%nat) l
      else None
  end.

Fixpoint equal_fold (l t : list ascii) : bool :=
  match t with
  | [] => match l with [] => true | _ => false end
  | c :: t => match fold_rune c l with Some l => equal_fold l t | None => false end
  end.

Definition EqualFold (s t : string) : bool := equal_fold (bytes s) (bytes t).

(** Equality up to the case of ASCII letters only; [t] is in lower case. *)
Definition equal_ascii (l : list ascii) (t : string) : bool := String.eqb (text (lower <$> l)) t.

(** ** [strconv.ParseBool] *)

Definition one_of (s : string) (l : list string) : bool := existsb (String.eqb s) l.

Definition ParseBool (s : string) : option bool :=
  if one_of s ["1"; "t"; "T"; "true"; "TRUE"; "True"] then Some true
  else if one_of s ["0"; "f"; "F"; "false"; "FALSE"; "False"] then Some false
  else None.

(** ** Lemmas *)

Lemma text_bytes s : text (bytes s) = s.
Proof. apply String.string_of_list_ascii_of_string. Qed.

Lemma bytes_text l : bytes (text l) = l.
Proof. apply String.list_ascii_of_string_of_list_ascii. Qed.

Lemma HasPrefix_spec s p : HasPrefix s p = true ↔ ∃ r, s = p +:+ r.
Proof.
  unfold HasPrefix. destruct (strip_list (bytes p) (bytes s)) as [r|] eqn:E; simpl; split; try done.
  - intros _. apply strip_list_Some in E. exists (text r). apply bytes_inj.
    by rewrite bytes_app, bytes_text.
  - intros (r & ->). rewrite bytes_app in E.
    assert (strip_list (bytes p) (bytes p ++ bytes r) = Some (bytes r)) by by apply strip_list_Some.
    congruence.
Qed.

Lemma contains_spec p l : contains p l = true ↔ ∃ a b, l = a ++ p ++ b.
Proof.
  assert (Hp : ∀ l, is_some (strip_list p l) = true ↔ ∃ b, l = p ++ b).
  { intros k. destruct (strip_list p k) as [r|] eqn:E; simpl; split; try done.
    - intros _. exists r. by apply strip_list_Some.
    - intros (b & ->). assert (strip_list p (p ++ b) = Some b) by by apply strip_list_Some.
      congruence. }
  induction l as [|x l IH]; cbn [contains]; rewrite orb_true_iff, Hp.
  - split.
    + intros [(b & ->)|?]; [by exists [], b|done].
    + intros (a & b & H). left. exists b. destruct a; [done|done].
  - rewrite IH. split.
    + intros [(b & ->)|(a & b & ->)]; [by exists [], b|by exists (x :: a), b].
    + intros ([|y a] & b & H); [left; by exists b|]. injection H as -> ->. right. by exists a, b.
Qed.

Lemma Contains_spec s p : Contains s p = true ↔ ∃ a b, s = a +:+ p +:+ b.
Proof.
  unfold Contains. rewrite contains_spec. split; intros (a & b & H).
  - exists (text a), (text b). apply bytes_inj. by rewrite !bytes_app, !bytes_text.
  - exists (bytes a), (bytes b). by rewrite H, !bytes_app.
Qed.

(** A trimmed list neither starts nor ends with a member of the set, and is a part of the
    original. *)
Lemma strip_any_singletons set a l :
  strip_any ((λ c, [c]) <$> set) (a :: l) = None → a ∉ set.
Proof.
  rewrite strip_any_None. intros H Ha. apply (H [a] l); [|done]. apply list_elem_of_fmap. by exists a.
Qed.

Lemma trim_set_spec set l :
  (∀ a r, trim_set set l = a :: r → a ∉ set) ∧ (∀ a r, trim_set set l = r ++ [a] → a ∉ set)
  ∧ ∃ before after, l = before ++ trim_set set l ++ after.
Proof.
  unfold trim_set. set (seps := (λ c, [c]) <$> set).
  assert (Hne : Forall (λ p, p ≠ []) seps) by by apply Forall_fmap, Forall_true.
  destruct (trim_spec seps (length l) l Hne (le_n _)) as [H1 (k1 & E1)].
  set (l1 := trim seps (length l) l) in *.
  destruct (trim_spec seps (length l1) (reverse l1) Hne) as [H2 (k2 & E2)].
  { by rewrite length_reverse. }
  set (l2 := trim seps (length l1) (reverse l1)) in *.
  assert (E3 : l1 = reverse l2 ++ reverse k2).
  { rewrite <- reverse_app, <- E2. by rewrite reverse_involutive. }
  split; [|split].
  - intros a r E. rewrite E3, E in H1. by apply strip_any_singletons in H1.
  - intros a r E. apply (f_equal reverse) in E. rewrite reverse_involutive, reverse_app in E.
    rewrite E in H2. by apply strip_any_singletons in H2.
  - exists k1, (reverse k2). by rewrite <- E3.
Qed.

Lemma cut_Some x l b r : cut x l = Some (b, r) ↔ l = b ++ x :: r ∧ x ∉ b.
Proof.
  revert b r. induction l as [|a l IH]; intros b r; simpl.
  { split; [done|]. intros [H _]. by destruct b. }
  destruct (Ascii.eqb_spec a x) as [->|Hne].
  - split.
    + intros [= <- <-]. split; [done|apply not_elem_of_nil].
    + intros [H Hb]. destruct b as [|y b]; [by injection H as ->|].
      injection H as <- _. by destruct Hb; left.
  - destruct (cut x l) as [[b' r']|] eqn:E; simpl.
    + destruct (proj1 (IH b' r') eq_refl) as [-> Hb']. split.
      * intros [= <- <-]. split; [done|]. apply not_elem_of_cons. by split; [apply not_eq_sym|].
      * intros [H Hb]. destruct b as [|y b]; [by injection H as ? _|]. injection H as -> H.
        apply not_elem_of_cons in Hb as [_ Hb]. apply split_first in H as [-> ->]; done.
    + split; [done|]. intros [H Hb]. destruct b as [|y b]; [by injection H as ? _|].
      injection H as -> ->. apply not_elem_of_cons in Hb as [_ Hb].
      assert (None = Some (b, r)) by by apply IH. done.
Qed.

Lemma cut_last_Some x l b r : cut_last x l = Some (b, r) ↔ l = b ++ x :: r ∧ x ∉ r.
Proof.
  unfold cut_last. split.
  - destruct (cut x (reverse l)) as [[b' r']|] eqn:E; simpl; [|done]. intros [= <- <-].
    apply cut_Some in E as [H Hb]. apply (f_equal reverse) in H.
    rewrite reverse_involutive, reverse_app, reverse_cons, <- app_assoc in H. split; [done|].
    by rewrite elem_of_reverse.
  - intros [-> Hr]. rewrite reverse_app, reverse_cons, <- app_assoc. simpl.
    assert (E : cut x (reverse r ++ x :: reverse b) = Some (reverse r, reverse b)).
    { apply cut_Some. split; [done|]. by rewrite elem_of_reverse. }
    rewrite E. simpl. by rewrite !reverse_involutive.
Qed.

Lemma cut_None x l : cut x l = None ↔ x ∉ l.
Proof.
  split.
  - intros E (b & r & -> & Hb)%list_elem_of_split_l.
    assert (cut x (b ++ x :: r) = Some (b, r)) by by apply cut_Some. congruence.
  - intros H. destruct (cut x l) as [[b r]|] eqn:E; [|done]. apply cut_Some in E as [-> _].
    destruct H. apply elem_of_app. right. left.
Qed.

Lemma cut_last_None x l : cut_last x l = None ↔ x ∉ l.
Proof.
  unfold cut_last. rewrite <- (elem_of_reverse x l), <- cut_None.
  by destruct (cut x (reverse l)) as [[]|].
Qed.

(** A string without s and k folds to exactly the strings of its length that agree in lower
    case. *)
Lemma equal_fold_lower l t :
  Forall (λ c, lower c ≠ "s"%char ∧ lower c ≠ "k"%char) t →
  equal_fold l t = true ↔ lower <$> l = lower <$> t.
Proof.
  intros Ht. revert l. induction Ht as [|c t [Hs Hk] _ IH]; intros [|a l]; try done.
  rewrite !fmap_cons. cbn [equal_fold fold_rune].
  destruct (Ascii.eqb_spec (lower a) (lower c)) as [E|E].
  - rewrite IH, E. split; [by intros ->|by intros [=]].
  - destruct (Ascii.eqb_spec (lower c) "s"); [done|]. destruct (Ascii.eqb_spec (lower c) "k"); [done|].
    split; [done|]. by intros [= ? _].
Qed.

Lemma equal_fold_refl t : equal_fold t t = true.
Proof. induction t as [|c t IH]; simpl; [done|]. by rewrite Ascii.eqb_refl. Qed.
