(* ===== verification/Policy.v ===== *)
(** * internal/limiter/limiter.go: policies, decisions and the Limiter contract *)

From S2P Require Import Prelude.
From S2P Require Import GoTime.

Open Scope Z_scope.

Definition BackendRedis : string := "redis".
Definition BackendMemory : string := "memory".

Record Policy := MkPolicy { Limit : Z; Window : Duration }.

#[export] Instance Policy_eq_dec : EqDecision Policy.
Proof. solve_decision. Defined.

(** [Policy.Normalize]: the four clamps, in the code's order. *)
Definition Normalize (p : Policy) : Policy :=
  let p := if Limit p <? 1 then MkPolicy 1 (Window p) else p in
  let p := if 1000000 <? Limit p then MkPolicy 1000000 (Window p) else p in
  let p := if Window p <? Millisecond then MkPolicy (Limit p) Second else p in
  if 24 * Hour <? Window p then MkPolicy (Limit p) (24 * Hour) else p.

Definition Equal (p o : Policy) : bool := (Limit p =? Limit o) && (Window p =? Window o).

Record Decision := MkDecision {
  Allowed : bool;
  DLimit : Z;
  DWindow : Duration;
  Used : Z;
  Remaining : Z;
  ResetAt : Time;
  RetryAfter : Duration;
  Backend : string }.

(** [deny] *)
Definition deny (backend : string) (p : Policy) (used : Z) (resetAt now : Time) : Decision :=
  let retry := Sub resetAt now in
  let retry := if retry <? 0 then 0 else retry in
  MkDecision false (Limit p) (Window p) used 0 resetAt retry backend.

(** The policies the limiters can enforce. *)
Definition enforceable (p : Policy) : Prop :=
  1 ≤ Limit p ≤ 1000000 ∧ Millisecond ≤ Window p ≤ 24 * Hour.

Ltac unfold_durations := unfold Hour, Minute, Second, Millisecond, Nanosecond in *.

(** The four clamps in closed form. *)
Lemma Normalize_eq (p : Policy) :
  Normalize p =
  MkPolicy (Z.max 1 (Z.min (Limit p) 1000000))
           (if Window p <? Millisecond then Second else Z.min (Window p) (24 * Hour)).
Proof.
  destruct p as [l w]. unfold Normalize. unfold_durations. simpl.
  destruct (Z.ltb_spec l 1); simpl; [|destruct (Z.ltb_spec 1000000 l); simpl];
    (destruct (Z.ltb_spec w 1000000); simpl; [|case_if]);
    f_equal; lia.
Qed.

Lemma Normalize_enforceable (p : Policy) : enforceable (Normalize p).
Proof.
  rewrite Normalize_eq. unfold enforceable; simpl. unfold_durations.
  destruct (Z.ltb_spec (Window p) 1000000); lia.
Qed.

Lemma Normalize_id (p : Policy) : enforceable p → Normalize p = p.
Proof.
  intros [Hl Hw]. rewrite Normalize_eq. destruct p as [l w]; simpl in *. unfold_durations.
  destruct (Z.ltb_spec w 1000000); f_equal; lia.
Qed.

#[export] Hint Resolve Normalize_enforceable : go.

(** [Policy.Normalize] always yields an enforceable policy (limit in 1..1000000, window in
    1ms..24h), leaves an enforceable policy alone, and is therefore idempotent; an
    out-of-range limit goes to the nearest bound, a window under a millisecond to one second
    and one above a day to a day. *)
Theorem Normalize_spec (p : Policy) :
  enforceable (Normalize p)
  ∧ Normalize (Normalize p) = Normalize p
  ∧ (Normalize p = p ↔ enforceable p)
  ∧ Limit (Normalize p) = Z.max 1 (Z.min (Limit p) 1000000)
  ∧ Window (Normalize p) =
      (if Window p <? Millisecond then Second else Z.min (Window p) (24 * Hour)).
Proof.
  split; [apply Normalize_enforceable|].
  split; [apply Normalize_id, Normalize_enforceable|].
  split; [split; [intros <-; apply Normalize_enforceable | apply Normalize_id]|].
  by rewrite Normalize_eq.
Qed.
