(* ===== verification/SlidingWindow.v ===== *)
(** * Specification: an exact sliding-window limiter

    What both limiters promise for one client key.  The state is the log of the instants of
    all admitted requests, never forgotten; a request is admitted when fewer than [L] logged
    instants lie in the half-open window [(now - W, now]].  The in-memory limiter counts in
    nanoseconds and the Redis script in milliseconds; the specification is the same. *)

From S2P Require Import Prelude.

Open Scope Z_scope.

(** The logged instants still inside the window that ends at [now]. *)
Definition live (W now : Z) (log : list Z) : list Z := filter (λ t, now - W < t) log.

Definition admits (L W now : Z) (log : list Z) : bool := len (live W now log) <? L.

Definition spec_step (L W now : Z) (log : list Z) : list Z :=
  if admits L W now log then log ++ [now] else log.

(** Instants of [log] in the window [(t - W, t]]. *)
Definition within (W t : Z) (log : list Z) : list Z := filter (λ x, t - W < x ∧ x ≤ t) log.

(** The guarantee the limiters give: no window of width [W] ever holds more than [L]. *)
Definition rate_bounded (L W : Z) (log : list Z) : Prop := ∀ t, len (within W t log) ≤ L.

(** Nothing in the log is later than [now]. *)
Definition past (now : Z) (log : list Z) : Prop := Forall (λ t, t ≤ now) log.

(** ** Lemmas on [live] *)

Lemma live_app W now l k : live W now (l ++ k) = live W now l ++ live W now k.
Proof. apply filter_app. Qed.

(** Looking later only forgets: the later window can be computed from the earlier one. *)
Lemma live_live W now now' l : now ≤ now' → live W now' (live W now l) = live W now' l.
Proof.
  intros Hle. induction l as [|t l IH]; [done|]. unfold live in *; simpl.
  rewrite !filter_cons. case_decide as H1; case_decide as H2; try lia.
  - rewrite filter_cons, IH. by rewrite decide_True.
  - rewrite filter_cons, IH. by rewrite decide_False.
  - done.
Qed.

Lemma live_self W now l : live W now (live W now l) = live W now l.
Proof. by apply live_live. Qed.

(** Two logs that agree on the present window agree on every later one. *)
Lemma live_agree W now now' l k :
  now ≤ now' → live W now l = live W now k → live W now' l = live W now' k.
Proof.
  intros Hle Heq. by rewrite <- (live_live W now now' l), <- (live_live W now now' k), Heq.
Qed.

Lemma live_nil_all W now l : Forall (λ t, t ≤ now - W) l → live W now l = [].
Proof.
  intros Hl. apply filter_none. eapply Forall_impl; [exact Hl|]. simpl; lia.
Qed.

Lemma live_all W now l : Forall (λ t, now - W < t) l → live W now l = l.
Proof. apply filter_all. Qed.

Lemma live_snoc W now l : 0 < W → live W now (l ++ [now]) = live W now l ++ [now].
Proof.
  intros HW. rewrite live_app. f_equal. unfold live. rewrite filter_cons.
  by rewrite decide_True by lia.
Qed.

Lemma live_Forall (P : Z → Prop) W now l : Forall P l → Forall P (live W now l).
Proof.
  rewrite !Forall_forall. intros H x [_ Hx]%list_elem_of_filter. by apply H.
Qed.

Lemma past_mono now now' log : now ≤ now' → past now log → past now' log.
Proof. intros Hle Hp. eapply Forall_impl; [exact Hp|]. simpl; lia. Qed.

Lemma past_snoc now log : past now log → past now (log ++ [now]).
Proof. intros H. apply Forall_app. split; [done|]. by constructor. Qed.

(** ** The rate guarantee is kept by every step *)

Lemma within_le_live W now t log :
  past now log → now ≤ t → (length (within W t log) ≤ length (live W now log))%nat.
Proof.
  intros Hp Hle. induction Hp as [|x log Hx Hp IH]; [done|].
  unfold within, live in *. rewrite !filter_cons. simpl in Hx.
  repeat case_decide; simpl; lia.
Qed.

Lemma spec_step_past L W now log : past now log → past now (spec_step L W now log).
Proof. intros H. unfold spec_step. case_if; [by apply past_snoc | done]. Qed.

Lemma spec_step_rate L W now log :
  past now log → rate_bounded L W log → rate_bounded L W (spec_step L W now log).
Proof.
  intros Hp Hr t. unfold spec_step, admits. case_if; [|apply Hr].
  unfold within. rewrite filter_app, len_app. fold (within W t log).
  rewrite filter_cons, filter_nil. case_decide as Hin; unfold len at 2; simpl.
  - pose proof (within_le_live W now t log Hp). unfold len in *. lia.
  - specialize (Hr t). lia.
Qed.

#[export] Hint Resolve past_snoc spec_step_past spec_step_rate : go.
