(* ===== verification/Memory.v ===== *)
(** * internal/limiter/memory.go: the in-memory sliding-window limiter

    The [sync.Map] of the code maps a client key to a pointer; entries are shared, so they
    live in a heap and may outlive their place in the map.  [Allow] is a little machine whose
    states are the program points between two atomic actions (a [sync.Map] call, an atomic
    store, a critical section of the entry's mutex): run to the end on its own it is the
    sequential operation, and MemoryConc.v interleaves the same machine with others.

    [growcap] is the capacity the Go runtime picks when [append] must reallocate; the language
    only promises that it suffices. *)

From S2P Require Import Prelude.
From S2P Require Import GoTime.
From S2P Require Import Policy.
From S2P Require Import SlidingWindow.

Open Scope Z_scope.

(** ** Data *)

Record memEntry := MkEntry {
  hits : slice;
  window : Z;
  dead : bool;
  lastSeen : Z }.

(** [&memEntry{}] *)
Definition new_memEntry : memEntry := MkEntry nil_slice 0 false 0.

Definition set_hits (s : slice) (e : memEntry) : memEntry :=
  MkEntry s (window e) (dead e) (lastSeen e).
Definition set_window (w : Z) (e : memEntry) : memEntry :=
  MkEntry (hits e) w (dead e) (lastSeen e).
Definition set_lastSeen (t : Z) (e : memEntry) : memEntry :=
  MkEntry (hits e) (window e) (dead e) t.
Definition set_dead (e : memEntry) : memEntry :=
  MkEntry (hits e) (window e) true (lastSeen e).

(** [heap] holds the entries by address, [next] is the first unused address. *)
Record MemoryLimiter := MkMem {
  heap : gmap nat memEntry;
  entries : gmap string nat;
  next : nat;
  minTTL : Duration;
  evictions : Z }.

(** [NewMemoryLimiter]: no entries, [minTTL] one minute. *)
Definition NewMemoryLimiter : MemoryLimiter := MkMem ∅ ∅ 0 Minute 0.

Definition set_entry (ptr : nat) (e : memEntry) (m : MemoryLimiter) : MemoryLimiter :=
  MkMem (<[ptr := e]> (heap m)) (entries m) (next m) (minTTL m) (evictions m).

(** [sync.Map.LoadOrStore(key, &memEntry{})] *)
Definition LoadOrStore (key : string) (m : MemoryLimiter) : nat * MemoryLimiter :=
  match entries m !! key with
  | Some ptr => (ptr, m)
  | None =>
      (next m,
       MkMem (<[next m := new_memEntry]> (heap m)) (<[key := next m]> (entries m))
             (S (next m)) (minTTL m) (evictions m))
  end.

(** [sync.Map.CompareAndDelete(key, e)] *)
Definition CompareAndDelete (key : string) (ptr : nat) (m : MemoryLimiter) : bool * MemoryLimiter :=
  if bool_decide (entries m !! key = Some ptr)
  then (true, MkMem (heap m) (delete key (entries m)) (next m) (minTTL m) (evictions m))
  else (false, m).

(** ** [memEntry.prune] *)

(** The loop [for i < len(e.hits) && e.hits[i] <= cutoff { i++ }]. *)
Fixpoint prune_index (cutoff : Z) (l : list Z) : nat :=
  match l with
  | h :: l' => if h <=? cutoff then S (prune_index cutoff l') else 0%nat
  | [] => 0%nat
  end.

(** [append(e.hits[:0], e.hits[i:]...)] reuses the backing array; the array is reallocated
    when it has become mostly empty. *)
Definition prune (cutoff : Z) (e : memEntry) : memEntry :=
  let i := prune_index cutoff (elems (hits e)) in
  if (i =? 0)%nat then e else
  let kept := MkSlice (drop i (elems (hits e))) (cap (hits e)) in
  if (64 <? cap kept) && (4 * len (elems kept) <? cap kept)
  then set_hits (MkSlice (elems kept) (Z.max (len (elems kept) * 2) 8)) e
  else set_hits kept e.

Section Limiter.
Context (growcap : Z → Z → Z).

(** [append(s, v)] *)
Definition append_hit (s : slice) (v : Z) : slice :=
  let n := len (elems s) + 1 in
  MkSlice (elems s ++ [v]) (if n <=? cap s then cap s else growcap (cap s) n).

(** ** [MemoryLimiter.Allow] *)

(** The critical section, after the [dead] test, and the decision built from it.  [None] is the run-time
    panic of an index expression out of range. *)
Definition allow_locked (p : Policy) (now : Time) (e : memEntry) : option (Decision * memEntry) :=
  let nowNS := UnixNano now in
  let cutoff := wrap64 (nowNS - Window p) in
  let e := prune cutoff (set_window (Window p) e) in
  let used := len (elems (hits e)) in
  if Limit p <=? used then
    first ← head (elems (hits e));
    let resetAt := Unix0 (wrap64 (first + Window p)) in
    Some (deny BackendMemory p used resetAt now, e)
  else
    let e := set_hits (append_hit (hits e) nowNS) e in
    let used := used + 1 in
    oldest ← head (elems (hits e));
    let resetAt := Unix0 (wrap64 (oldest + Window p)) in
    let retry := Sub resetAt now in
    let retry := if retry <? 0 then 0 else retry in
    Some (MkDecision true (Limit p) (Window p) used (Limit p - used) resetAt retry BackendMemory, e).

(** Program points of one call: before [LoadOrStore], before [lastSeen.Store], before
    [e.mu.Lock], before [CompareAndDelete], returned, panicked. *)
Inductive allow_pc :=
| PLookup (attempt : nat)
| PSeen (attempt : nat) (ptr : nat)
| PLock (attempt : nat) (ptr : nat)
| PDelete (attempt : nat) (ptr : nat)
| PDone (d : Decision)
| PPanic.

(** One atomic action of a call for [key] under the normalized policy [p] whose clock read
    [now].  After eight retries the call decides on a detached entry. *)
Definition allow_step (key : string) (p : Policy) (now : Time) (pc : allow_pc)
    (m : MemoryLimiter) : allow_pc * MemoryLimiter :=
  match pc with
  | PLookup attempt =>
      let '(ptr, m) := LoadOrStore key m in (PSeen attempt ptr, m)
  | PSeen attempt ptr =>
      match heap m !! ptr with
      | Some e => (PLock attempt ptr, set_entry ptr (set_lastSeen (UnixNano now) e) m)
      | None => (PPanic, m)
      end
  | PLock attempt ptr =>
      match heap m !! ptr with
      | Some e =>
          if dead e then (PDelete attempt ptr, m) else
          match allow_locked p now e with
          | Some (d, e) => (PDone d, set_entry ptr e m)
          | None => (PPanic, m)
          end
      | None => (PPanic, m)
      end
  | PDelete attempt ptr =>
      let '(_, m) := CompareAndDelete key ptr m in
      if (attempt <? 8)%nat then (PLookup (S attempt), m) else
      match allow_locked p now new_memEntry with
      | Some (d, _) => (PDone d, m)
      | None => (PPanic, m)
      end
  | PDone d => (PDone d, m)
  | PPanic => (PPanic, m)
  end.

Fixpoint allow_run (fuel : nat) (key : string) (p : Policy) (now : Time) (pc : allow_pc)
    (m : MemoryLimiter) : allow_pc * MemoryLimiter :=
  match fuel with
  | O => (pc, m)
  | S fuel =>
      match pc with
      | PDone _ | PPanic => (pc, m)
      | _ => let '(pc, m) := allow_step key p now pc m in allow_run fuel key p now pc m
      end
  end.

(** How many more actions a call can take, whatever others do in between. *)
Definition allow_measure (pc : allow_pc) : nat :=
  match pc with
  | PLookup a => 4 * (9 - a) + 4
  | PSeen a _ => 4 * (9 - a) + 3
  | PLock a _ => 4 * (9 - a) + 2
  | PDelete a _ => 4 * (9 - a) + 1
  | PDone _ | PPanic => 0
  end.

Definition running (pc : allow_pc) : bool :=
  match pc with PDone _ | PPanic => false | _ => true end.

Definition allow_fuel : nat := 40.

(** [Allow(ctx, key, p)] run without interference; the error it returns is always nil.  [None]
    is a panic. *)
Definition Allow (key : string) (p : Policy) (now : Time) (m : MemoryLimiter)
    : option Decision * MemoryLimiter :=
  match allow_run allow_fuel key (Normalize p) now (PLookup 0) m with
  | (PDone d, m) => (Some d, m)
  | (_, m) => (None, m)
  end.

End Limiter.

(** ** [Peek], [Keys], [Reset] and the janitor *)

Definition Peek (key : string) (p : Policy) (now : Time) (m : MemoryLimiter)
    : (Z * bool) * MemoryLimiter :=
  let p := Normalize p in
  match entries m !! key with
  | None => ((0, false), m)
  | Some ptr =>
      match heap m !! ptr with
      | None => ((0, false), m)
      | Some e =>
          let cutoff := wrap64 (UnixNano now - Window p) in
          let e := prune cutoff e in
          ((len (elems (hits e)), true), set_entry ptr e m)
      end
  end.

Definition Keys (m : MemoryLimiter) : Z := Z.of_nat (size (entries m)).

(** The body of [Reset]'s Range callback, for one key. *)
Definition reset_key (m : MemoryLimiter) (key : string) : MemoryLimiter :=
  match entries m !! key with
  | None => m
  | Some ptr =>
      match heap m !! ptr with
      | None => m
      | Some e => snd (CompareAndDelete key ptr (set_entry ptr (set_dead e) m))
      end
  end.

(** [sync.Map.Range] visits the keys in an order it does not promise. *)
Definition Reset (order : list string) (m : MemoryLimiter) : MemoryLimiter :=
  foldl reset_key m order.

(** The critical section of [cleanup]: is the entry idle, and what becomes of it. *)
Definition cleanup_locked (nowNS : Z) (minTTL : Z) (e : memEntry) : bool * memEntry :=
  let ttl := wrap64 (2 * window e) in
  let ttl := if ttl <? minTTL then minTTL else ttl in
  if ttl <? wrap64 (nowNS - lastSeen e)
  then (true, set_hits nil_slice (set_dead e))
  else (false, prune (wrap64 (nowNS - window e)) e).

Definition evict (key : string) (ptr : nat) (m : MemoryLimiter) : MemoryLimiter :=
  let '(ok, m) := CompareAndDelete key ptr m in
  if ok then MkMem (heap m) (entries m) (next m) (minTTL m) (wrap64 (evictions m + 1)) else m.

Definition cleanup_key (now : Time) (m : MemoryLimiter) (key : string) : MemoryLimiter :=
  match entries m !! key with
  | None => m
  | Some ptr =>
      match heap m !! ptr with
      | None => m
      | Some e =>
          let '(idle, e) := cleanup_locked (UnixNano now) (minTTL m) e in
          let m := set_entry ptr e m in
          if idle then evict key ptr m else m
      end
  end.

Definition cleanup (order : list string) (now : Time) (m : MemoryLimiter) : MemoryLimiter :=
  foldl (cleanup_key now) m order.

(** ** Sequential executions

    [run] drives one limiter under one policy through a history of calls and janitor sweeps;
    [spec_run] answers the same history from the exact sliding-window logs. *)

Inductive op :=
| OpAllow (key : string) (now : Time)
| OpPeek (key : string) (now : Time)
| OpCleanup (order : list string) (now : Time)
| OpReset (order : list string) (now : Time).

Inductive out :=
| ODecision (d : option Decision)
| OUsed (used : Z)
| ONone.

Definition op_time (o : op) : Time :=
  match o with OpAllow _ t | OpPeek _ t | OpCleanup _ t | OpReset _ t => t end.

Definition run_op (growcap : Z → Z → Z) (p : Policy) (o : op) (m : MemoryLimiter)
    : out * MemoryLimiter :=
  match o with
  | OpAllow key now => let '(d, m) := Allow growcap key p now m in (ODecision d, m)
  | OpPeek key now => let '((used, _), m) := Peek key p now m in (OUsed used, m)
  | OpCleanup order now => (ONone, cleanup order now m)
  | OpReset order _ => (ONone, Reset order m)
  end.

Fixpoint run (growcap : Z → Z → Z) (p : Policy) (ops : list op) (m : MemoryLimiter)
    : list out * MemoryLimiter :=
  match ops with
  | [] => ([], m)
  | o :: ops =>
      let '(x, m) := run_op growcap p o m in
      let '(xs, m) := run growcap p ops m in (x :: xs, m)
  end.

(** The decision the specification gives, in full: counts, quota and reset instant. *)
Definition spec_decision (backend : string) (p : Policy) (now : Time) (log : list Z) : Decision :=
  let l := live (Window p) (wall now) log in
  let ok := admits (Limit p) (Window p) (wall now) log in
  let used := if ok then len l + 1 else len l in
  let oldest := default (wall now) (head l) in
  MkDecision ok (Limit p) (Window p) used (if ok then Limit p - used else 0)
    (Unix0 (oldest + Window p)) (oldest + Window p - wall now) backend.

Definition log_of (logs : gmap string (list Z)) (key : string) : list Z :=
  default [] (logs !! key).

Definition spec_op (p : Policy) (o : op) (logs : gmap string (list Z))
    : out * gmap string (list Z) :=
  let p := Normalize p in
  match o with
  | OpAllow key now =>
      (ODecision (Some (spec_decision BackendMemory p now (log_of logs key))),
       <[key := spec_step (Limit p) (Window p) (wall now) (log_of logs key)]> logs)
  | OpPeek key now => (OUsed (len (live (Window p) (wall now) (log_of logs key))), logs)
  | OpCleanup _ _ => (ONone, logs)
  | OpReset order _ => (ONone, foldl (λ logs key, delete key logs) logs order)
  end.

Fixpoint spec_run (p : Policy) (ops : list op) (logs : gmap string (list Z))
    : list out * gmap string (list Z) :=
  match ops with
  | [] => ([], logs)
  | o :: ops =>
      let '(x, logs) := spec_op p o logs in
      let '(xs, logs) := spec_run p ops logs in (x :: xs, logs)
  end.

(** The clock of a history never goes back and stays between 1970 and 2255. *)
Definition last_instant : Z := 9000000000000000000.

Fixpoint chronological (T : Z) (ops : list op) : Prop :=
  match ops with
  | [] => True
  | o :: ops =>
      T ≤ wall (op_time o) ≤ last_instant ∧ chronological (wall (op_time o)) ops
  end.

(** The instants at which [key] was admitted in a history. *)
Fixpoint admitted (key : string) (ops : list op) (outs : list out) : list Z :=
  match ops, outs with
  | OpAllow k now :: ops, ODecision (Some d) :: outs =>
      if bool_decide (k = key) && Allowed d
      then wall now :: admitted key ops outs else admitted key ops outs
  | _ :: ops, _ :: outs => admitted key ops outs
  | _, _ => []
  end.

Definition is_reset (o : op) : bool := match o with OpReset _ _ => true | _ => false end.

(** ** Well-formed stores: map pointers are allocated, live and shared by no two keys *)

Record wf (m : MemoryLimiter) : Prop := {
  wf_alloc : ∀ k ptr, entries m !! k = Some ptr → ∃ e, heap m !! ptr = Some e ∧ dead e = false;
  wf_inj : ∀ k k' ptr, entries m !! k = Some ptr → entries m !! k' = Some ptr → k = k';
  wf_fresh : ∀ ptr, (next m ≤ ptr)%nat → heap m !! ptr = None;
  wf_ttl : 0 ≤ minTTL m ≤ max_int64 }.

Definition lookup_entry (m : MemoryLimiter) (key : string) : option memEntry :=
  ptr ← entries m !! key; heap m !! ptr.

(** [m'] differs from [m] at most in what it holds for [key], which is now [oe]. *)
Definition updates (m : MemoryLimiter) (key : string) (oe : option memEntry)
    (m' : MemoryLimiter) : Prop :=
  wf m' ∧ minTTL m' = minTTL m
  ∧ ∀ k, lookup_entry m' k = if decide (k = key) then oe else lookup_entry m k.

(** How an entry represents the log of its key at time [T] under a window [W]. *)
Definition entry_rel (W T : Z) (oe : option memEntry) (log : list Z) : Prop :=
  Forall (λ t, 0 ≤ t ≤ T) log
  ∧ match oe with
    | None => live W T log = []
    | Some e =>
        window e = W
        ∧ live W T (elems (hits e)) = live W T log
        ∧ StronglySorted Z.le (elems (hits e))
        ∧ Forall (λ t, 0 ≤ t ≤ lastSeen e) (elems (hits e))
        ∧ lastSeen e ≤ T
    end.

Definition rel (W T : Z) (m : MemoryLimiter) (logs : gmap string (list Z)) : Prop :=
  wf m ∧ ∀ key, entry_rel W T (lookup_entry m key) (log_of logs key).

(** ** [prune] *)

Lemma prune_elems c e :
  elems (hits (prune c e)) = drop (prune_index c (elems (hits e))) (elems (hits e)).
Proof.
  unfold prune. destruct (Nat.eqb_spec (prune_index c (elems (hits e))) 0) as [->|]; [done|].
  by case_if.
Qed.

Lemma prune_fields c e :
  window (prune c e) = window e ∧ dead (prune c e) = dead e ∧ lastSeen (prune c e) = lastSeen e.
Proof. unfold prune. by repeat case_if. Qed.

(** Only hits at or before the cutoff go, whatever the order of the hits. *)
Lemma filter_drop_prune c l :
  filter (λ t, c < t) (drop (prune_index c l) l) = filter (λ t, c < t) l.
Proof.
  induction l as [|h l IH]; [done|]; simpl. case_if; [|done].
  simpl. rewrite IH, filter_cons. by rewrite decide_False by lia.
Qed.

(** On ascending hits the scan from the front removes exactly the expired ones. *)
Lemma drop_prune_sorted c l :
  StronglySorted Z.le l → drop (prune_index c l) l = filter (λ t, c < t) l.
Proof.
  induction 1 as [|h l Hs IH Hh]; [done|]; simpl. case_if.
  - simpl. rewrite IH, filter_cons. by rewrite decide_False by lia.
  - simpl. symmetry. apply filter_all. constructor; [done|].
    eapply Forall_impl; [exact Hh|]. simpl; lia.
Qed.

Lemma StronglySorted_drop (l : list Z) n :
  StronglySorted Z.le l → StronglySorted Z.le (drop n l).
Proof. intros Hs; revert n; induction Hs; intros [|k]; simpl; auto using SSorted_nil, SSorted_cons. Qed.

Lemma StronglySorted_snoc (l : list Z) x :
  StronglySorted Z.le l → Forall (λ t, t ≤ x) l → StronglySorted Z.le (l ++ [x]).
Proof.
  induction 1 as [|h l Hs IH Hh]; intros Hx; simpl; [repeat constructor|].
  inversion_clear Hx. constructor; [by apply IH|]. apply Forall_app; split; [done|].
  by constructor.
Qed.

Lemma prune_live W now e :
  StronglySorted Z.le (elems (hits e)) →
  elems (hits (prune (now - W) e)) = live W now (elems (hits e)).
Proof. intros Hs. rewrite prune_elems. by apply drop_prune_sorted. Qed.

Lemma live_sorted W now l : StronglySorted Z.le l → StronglySorted Z.le (live W now l).
Proof. intros Hs. unfold live. rewrite <- drop_prune_sorted by done. by apply StronglySorted_drop. Qed.

(** ** The critical section of [Allow] *)

Section Locked.
Context (growcap : Z → Z → Z).
Context (p : Policy) (now : Time).
Hypothesis Hp : enforceable p.
Hypothesis Hnow : 0 ≤ wall now ≤ last_instant.

Lemma cutoff_id : wrap64 (UnixNano now - Window p) = wall now - Window p.
Proof.
  destruct Hp as [_ Hw]. unfold last_instant in Hnow. unfold_durations.
  rewrite UnixNano_id by lia. apply wrap64_id. lia.
Qed.

(** The reset instant of an entry whose oldest live hit is [t] lies in the future. *)
Lemma reset_instant t :
  wall now - Window p < t ≤ wall now →
  wrap64 (t + Window p) = t + Window p
  ∧ Sub (Unix0 (t + Window p)) now = t + Window p - wall now
  ∧ (Sub (Unix0 (t + Window p)) now <? 0) = false.
Proof.
  intros Ht. destruct Hp as [_ Hw]. unfold last_instant in Hnow. unfold_durations.
  rewrite Sub_Unix0, wrap64_id, sat64_id by lia. repeat split; lia.
Qed.

Lemma live_head e :
  Forall (λ t, 0 ≤ t ≤ wall now) (elems (hits e)) →
  Forall (λ t, wall now - Window p < t ≤ wall now)
    (live (Window p) (wall now) (elems (hits e))).
Proof.
  rewrite !Forall_forall. intros H x [Hx1 Hx2]%list_elem_of_filter.
  specialize (H x Hx2). simpl in H. lia.
Qed.

Lemma head_snoc (l : list Z) x : head (l ++ [x]) = Some (default x (head l)).
Proof. by destruct l. Qed.

Lemma allow_locked_spec e :
  StronglySorted Z.le (elems (hits e)) →
  Forall (λ t, 0 ≤ t ≤ wall now) (elems (hits e)) →
  ∃ e', allow_locked growcap p now e = Some (spec_decision BackendMemory p now (elems (hits e)), e')
    ∧ elems (hits e') =
        (if admits (Limit p) (Window p) (wall now) (elems (hits e))
         then live (Window p) (wall now) (elems (hits e)) ++ [wall now]
         else live (Window p) (wall now) (elems (hits e)))
    ∧ window e' = Window p ∧ dead e' = dead e ∧ lastSeen e' = lastSeen e.
Proof.
  intros Hs Hr. unfold allow_locked. rewrite cutoff_id.
  destruct (prune_fields (wall now - Window p) (set_window (Window p) e)) as (Fw & Fd & Fl).
  pose proof (prune_live (Window p) (wall now) (set_window (Window p) e) Hs) as He.
  set (e1 := prune _ _) in *. pose proof (live_head e Hr) as Hl.
  simpl in Fw, Fd, Fl, He. rewrite He. unfold spec_decision, admits.
  rewrite UnixNano_id by (unfold last_instant in Hnow; lia).
  rewrite Z.leb_antisym.
  destruct (len (live _ _ (elems (hits e))) <? Limit p) eqn:E; zify_bool; simpl.
  - rewrite He, head_snoc. simpl.
    destruct (reset_instant (default (wall now) (head (live (Window p) (wall now) (elems (hits e))))))
      as (-> & -> & ->); [|eexists; split; [done|]; simpl; by rewrite He].
    destruct Hl; simpl; [|lia]. destruct Hp as [_ Hw]. unfold_durations. lia.
  - destruct (live (Window p) (wall now) (elems (hits e))) as [|t l].
    { exfalso. destruct Hp. unfold len in E; simpl in E. lia. }
    apply Forall_inv in Hl. simpl. unfold deny.
    destruct (reset_instant t) as (-> & -> & ->); [done|]. eexists; split; [done|]. by rewrite He.
Qed.

End Locked.

(** ** The store *)

Lemma wf_New : wf NewMemoryLimiter.
Proof.
  constructor; simpl; intros; try done; unfold_durations; try lia.
Qed.

Lemma updates_refl m key : wf m → updates m key (lookup_entry m key) m.
Proof. intros Hwf. split; [done|]. split; [done|]. intros k. by case_decide; subst. Qed.

Lemma updates_trans m1 m2 m3 key o1 o2 :
  updates m1 key o1 m2 → updates m2 key o2 m3 → updates m1 key o2 m3.
Proof.
  intros (_ & Ht1 & H1) (Hwf & Ht2 & H2). split; [done|]. split; [congruence|].
  intros k. rewrite H2, H1. by case_decide.
Qed.

(** Writing a live entry through the pointer of its key. *)
Lemma updates_set_entry m key ptr e :
  wf m → entries m !! key = Some ptr → dead e = false →
  updates m key (Some e) (set_entry ptr e m).
Proof.
  intros [Ha Hi Hf Ht] Hk Hd. destruct (Ha _ _ Hk) as (e0 & He0 & _).
  split; [constructor; simpl; [|done| |done]|split; [done|]].
  - intros k q Hq. destruct (decide (q = ptr)) as [->|]; simplify_map_eq; eauto.
  - intros q Hq. rewrite lookup_insert_ne; [by apply Hf|]. intros <-.
    rewrite Hf in He0; done.
  - intros k. unfold lookup_entry; simpl. case_decide as Hkk; [by simplify_map_eq|].
    destruct (entries m !! k) as [q|] eqn:Hq; simpl; [|done].
    rewrite lookup_insert_ne; [done|]. intros <-. by apply Hkk, (Hi _ _ _ Hq Hk).
Qed.

Lemma lookup_entry_Some m key e :
  lookup_entry m key = Some e ↔ ∃ ptr, entries m !! key = Some ptr ∧ heap m !! ptr = Some e.
Proof. unfold lookup_entry. destruct (entries m !! key); simpl; [|split; [done|by intros (? & ? & ?)]].
  split; [by eexists|]. by intros (? & [= ->] & ?).
Qed.

Lemma lookup_entry_None m key : wf m → lookup_entry m key = None → entries m !! key = None.
Proof.
  intros [Ha _ _ _]. unfold lookup_entry. destruct (entries m !! key) as [ptr|] eqn:E; [|done].
  destruct (Ha _ _ E) as (e & He & _); simpl. by rewrite He.
Qed.

Lemma LoadOrStore_spec m key :
  wf m →
  ∃ ptr m', LoadOrStore key m = (ptr, m')
    ∧ entries m' !! key = Some ptr
    ∧ heap m' !! ptr = Some (default new_memEntry (lookup_entry m key))
    ∧ updates m key (Some (default new_memEntry (lookup_entry m key))) m'.
Proof.
  intros Hwf. pose proof Hwf as [Ha Hi Hf Ht]. unfold LoadOrStore, lookup_entry.
  destruct (entries m !! key) as [ptr|] eqn:Hk; simpl.
  - destruct (Ha _ _ Hk) as (e & He & Hd). eexists _, _. split; [done|].
    rewrite He; simpl. split; [done|]. split; [done|].
    pose proof (updates_refl m key Hwf) as U. unfold lookup_entry in U.
    rewrite Hk in U; simpl in U. by rewrite He in U.
  - eexists _, _. split; [done|]. simpl. simplify_map_eq. split; [done|]. split; [done|].
    split; [constructor; simpl; [| | |done]|split; [done|]].
    + intros k q Hq. destruct (decide (k = key)) as [->|]; simplify_map_eq; [by eexists|].
      destruct (Ha _ _ Hq) as (e & He & Hd). exists e. split; [|done].
      rewrite lookup_insert_ne; [done|]. intros <-. by rewrite Hf in He.
    + intros k k' q Hq Hq'. destruct (decide (k = key)) as [->|], (decide (k' = key)) as [->|];
        simplify_map_eq; eauto.
      * destruct (Ha _ _ Hq') as (e & He & _). by rewrite Hf in He.
      * destruct (Ha _ _ Hq) as (e & He & _). by rewrite Hf in He.
    + intros q Hq. rewrite lookup_insert_ne by lia. apply Hf. lia.
    + intros k. unfold lookup_entry; simpl. case_decide; simplify_map_eq; [done|].
      destruct (entries m !! k) as [q|] eqn:Hq; simpl; [|done].
      rewrite lookup_insert_ne; [done|]. intros <-.
      destruct (Ha _ _ Hq) as (e & He & _). by rewrite Hf in He.
Qed.

(** Removing the entry of a key, whatever state it is left in. *)
Lemma updates_delete m key ptr e :
  wf m → entries m !! key = Some ptr →
  updates m key None (snd (CompareAndDelete key ptr (set_entry ptr e m)))
  ∧ updates m key None (evict key ptr (set_entry ptr e m)).
Proof.
  intros Hm Hk. pose proof Hm as [Ha Hi Hf Ht]. unfold evict, CompareAndDelete; simpl.
  rewrite bool_decide_true by done; simpl.
  destruct (Ha _ _ Hk) as (e0 & He0 & _).
  assert (Hne : ∀ k q, k ≠ key → entries m !! k = Some q → q ≠ ptr)
    by (intros k q Hkk Hq ->; by apply Hkk, (Hi _ _ _ Hq Hk)).
  assert (Hwf : ∀ ev, wf (MkMem (<[ptr:=e]> (heap m)) (delete key (entries m)) (next m)
                            (minTTL m) ev)).
  { intros ev. constructor; simpl; [| | |done].
    - intros k q [Hkk Hq]%lookup_delete_Some. destruct (Ha _ _ Hq) as (e1 & He1 & Hd).
      exists e1. rewrite lookup_insert_ne; [done|]. intros <-. by eapply Hne.
    - intros k k' q [_ Hq]%lookup_delete_Some [_ Hq']%lookup_delete_Some. by eapply Hi.
    - intros q Hq. rewrite lookup_insert_ne; [by apply Hf|]. intros <-. by rewrite Hf in He0. }
  assert (Hl : ∀ ev k, lookup_entry (MkMem (<[ptr:=e]> (heap m)) (delete key (entries m)) (next m)
                            (minTTL m) ev) k = if decide (k = key) then None else lookup_entry m k).
  { intros ev k. unfold lookup_entry; simpl. case_decide; simplify_map_eq; [done|].
    destruct (entries m !! k) as [q|] eqn:Hq; simpl; [|done].
    rewrite lookup_insert_ne; [done|]. intros <-. by eapply Hne. }
  split; (split; [apply Hwf|split; [done|apply Hl]]).
Qed.

(** ** The operations on a well-formed store *)

Lemma default_live m key :
  wf m → dead (default new_memEntry (lookup_entry m key)) = false.
Proof.
  intros [Ha _ _ _]. destruct (lookup_entry m key) as [e|] eqn:E; [|done].
  apply lookup_entry_Some in E as (ptr & Hk & He). simpl.
  destruct (Ha _ _ Hk) as (e' & He' & Hd). congruence.
Qed.

Lemma allow_run_S growcap fuel key p now pc m :
  running pc = true →
  allow_run growcap (S fuel) key p now pc m =
  (let '(pc, m) := allow_step growcap key p now pc m in allow_run growcap fuel key p now pc m).
Proof. by destruct pc. Qed.

Lemma allow_run_done growcap fuel key p now d m :
  allow_run growcap fuel key p now (PDone d) m = (PDone d, m).
Proof. by destruct fuel. Qed.

(** Undisturbed, [Allow] takes its critical section at the first attempt. *)
Lemma Allow_run growcap key p now m d e' :
  wf m →
  allow_locked growcap (Normalize p) now
    (set_lastSeen (UnixNano now) (default new_memEntry (lookup_entry m key))) = Some (d, e') →
  dead e' = false →
  ∃ m', Allow growcap key p now m = (Some d, m') ∧ updates m key (Some e') m'.
Proof.
  intros Hwf Hd Hlive.
  destruct (LoadOrStore_spec m key Hwf) as (ptr & m1 & H1 & Hk1 & He1 & U1).
  set (e := default _ _) in *.
  assert (U2 := updates_set_entry m1 key ptr (set_lastSeen (UnixNano now) e)
                  (proj1 U1) Hk1 (default_live m key Hwf)).
  assert (U3 := updates_set_entry _ key ptr e' (proj1 U2) Hk1 Hlive).
  unfold Allow. change allow_fuel with (S (S (S 37))).
  rewrite allow_run_S by done. unfold allow_step at 1. rewrite H1.
  rewrite allow_run_S by done. unfold allow_step at 1. rewrite He1.
  rewrite allow_run_S by done. unfold allow_step at 1. simpl heap. rewrite lookup_insert_eq.
  replace (dead (set_lastSeen (UnixNano now) e)) with false
    by (symmetry; apply (default_live m key Hwf)).
  rewrite Hd, allow_run_done. eexists; split; [done|].
  eapply updates_trans; [exact U1|]. eapply updates_trans; [exact U2|exact U3].
Qed.

Lemma Peek_run key p now m :
  wf m →
  match lookup_entry m key with
  | None => Peek key p now m = ((0, false), m)
  | Some e =>
      let e' := prune (wrap64 (UnixNano now - Window (Normalize p))) e in
      ∃ m', Peek key p now m = ((len (elems (hits e')), true), m') ∧ updates m key (Some e') m'
  end.
Proof.
  intros Hwf. unfold Peek. destruct (lookup_entry m key) as [e|] eqn:E.
  - pose proof (default_live m key Hwf) as Hd. rewrite E in Hd. simpl in Hd.
    apply lookup_entry_Some in E as (ptr & Hk & He). rewrite Hk, He. simpl.
    eexists; split; [done|]. apply updates_set_entry; [done..|].
    by rewrite (proj1 (proj2 (prune_fields _ _))).
  - by rewrite (lookup_entry_None m key Hwf E).
Qed.

Lemma cleanup_key_run now m key :
  wf m →
  match lookup_entry m key with
  | None => cleanup_key now m key = m
  | Some e =>
      let '(idle, e') := cleanup_locked (UnixNano now) (minTTL m) e in
      updates m key (if idle then None else Some e') (cleanup_key now m key)
      ∧ evictions (cleanup_key now m key) =
        if idle then wrap64 (evictions m + 1) else evictions m
  end.
Proof.
  intros Hwf. unfold cleanup_key. destruct (lookup_entry m key) as [e|] eqn:E.
  - pose proof (default_live m key Hwf) as Hd. rewrite E in Hd. simpl in Hd.
    apply lookup_entry_Some in E as (ptr & Hk & He). rewrite Hk, He. unfold cleanup_locked.
    case_if.
    + split; [by apply updates_delete|]. unfold evict, CompareAndDelete; simpl.
      by rewrite bool_decide_true.
    + split; [|done]. apply updates_set_entry; [done..|].
      by rewrite (proj1 (proj2 (prune_fields _ _))).
  - by rewrite (lookup_entry_None m key Hwf E).
Qed.

Lemma reset_key_run m key : wf m → updates m key None (reset_key m key).
Proof.
  intros Hwf. unfold reset_key. destruct (entries m !! key) as [ptr|] eqn:Hk.
  - destruct (wf_alloc m Hwf _ _ Hk) as (e & He & _). rewrite He. by apply updates_delete.
  - pose proof (updates_refl m key Hwf) as U. unfold lookup_entry in U at 1. by rewrite Hk in U.
Qed.

(** ** Each operation simulates its specification *)

Section Simulation.
Context (growcap : Z → Z → Z).
Context (p : Policy).
Let P := Normalize p.

Lemma policy_ok : enforceable P.
Proof. apply Normalize_enforceable. Qed.

Lemma entry_rel_later T T' oe log :
  T ≤ T' → entry_rel (Window P) T oe log → entry_rel (Window P) T' oe log.
Proof.
  intros Hle [Hlog He]. split.
  { eapply Forall_impl; [exact Hlog|]. simpl; lia. }
  destruct oe as [e|].
  - destruct He as (? & Hl & ? & ? & ?). split_and!; try done; [|lia]. by eapply live_agree.
  - change [] with (live (Window P) T []) in He. by apply (live_agree _ _ T') in He.
Qed.

Lemma rel_later T T' m logs : T ≤ T' → rel (Window P) T m logs → rel (Window P) T' m logs.
Proof. intros Hle [Hwf Hr]. split; [done|]. intros key. by eapply entry_rel_later. Qed.

(** Changing one key of the store and, consistently, of the logs keeps the relation. *)
Lemma rel_updates T m m' key oe log logs :
  rel (Window P) T m logs → updates m key oe m' → entry_rel (Window P) T oe log →
  rel (Window P) T m' (<[key := log]> logs).
Proof.
  intros [_ Hr] (Hwf & _ & Hm') He. split; [done|]. intros k. rewrite Hm'. unfold log_of.
  case_decide; subst; simplify_map_eq; [done|]. apply Hr.
Qed.

Lemma rel_updates_same T m m' key oe logs :
  rel (Window P) T m logs → updates m key oe m' →
  entry_rel (Window P) T oe (log_of logs key) → rel (Window P) T m' logs.
Proof.
  intros [_ Hr] (Hwf & _ & Hm') He. split; [done|]. intros k. rewrite Hm'.
  case_decide; subst; [done|]. apply Hr.
Qed.

(** A pruned entry still represents its log. *)
Lemma entry_rel_prune T e log :
  entry_rel (Window P) T (Some e) log →
  entry_rel (Window P) T (Some (prune (T - Window P) e)) log
  ∧ elems (hits (prune (T - Window P) e)) = live (Window P) T log.
Proof.
  intros [Hlog (Hw & Hl & Hs & Hf & Hls)].
  destruct (prune_fields (T - Window P) e) as (Fw & _ & Fl).
  pose proof (prune_live (Window P) T e Hs) as He.
  split; [split; [done|]|by rewrite He].
  split_and!; [congruence| | | |by rewrite Fl].
  - by rewrite He, live_self.
  - rewrite prune_elems. by apply StronglySorted_drop.
  - rewrite He, Fl. by apply live_Forall.
Qed.

Section At.
Context (now : Time).
Let T := wall now.
Hypothesis Hnow : 0 ≤ wall now ≤ last_instant.

(** The hits [Allow] works on represent the key's log, tracked or not. *)
Lemma entry_rel_touch oe log :
  entry_rel (Window P) T oe log →
  let l := elems (hits (default new_memEntry oe)) in
  live (Window P) T l = live (Window P) T log
  ∧ StronglySorted Z.le l ∧ Forall (λ t, 0 ≤ t ≤ T) l.
Proof.
  intros [Hlog Hr]. destruct oe as [e|]; simpl.
  - destruct Hr as (_ & ? & ? & Hf & ?). split_and!; try done.
    eapply Forall_impl; [exact Hf|]. simpl; lia.
  - split_and!; [by rewrite Hr|constructor|constructor].
Qed.

(** What the critical section leaves behind represents the log after the step. *)
Lemma entry_rel_step e' log :
  Forall (λ t, 0 ≤ t ≤ T) log →
  StronglySorted Z.le (live (Window P) T log) →
  elems (hits e') =
    (if admits (Limit P) (Window P) T log
     then live (Window P) T log ++ [T] else live (Window P) T log) →
  window e' = Window P → lastSeen e' = T →
  entry_rel (Window P) T (Some e') (spec_step (Limit P) (Window P) T log).
Proof.
  intros Hlog Hs Hh Hw HT. unfold spec_step. pose proof policy_ok as [_ HP].
  assert (0 < Window P) by (unfold_durations; lia).
  assert (Hl : Forall (λ t, 0 ≤ t ≤ T) (live (Window P) T log)) by (by apply live_Forall).
  split; [case_if; [apply Forall_snoc_intro; [done|lia] | done]|].
  split_and!; [done| | | |lia]; rewrite Hh, ?HT; case_if; rewrite ?live_snoc by done;
    rewrite ?live_self; try done.
  - apply StronglySorted_snoc; [done|]. eapply Forall_impl; [exact Hl|]. simpl; lia.
  - apply Forall_snoc_intro; [done|lia].
Qed.

Lemma Allow_sim key m logs :
  rel (Window P) T m logs →
  ∃ m', Allow growcap key p now m = (Some (spec_decision BackendMemory P now (log_of logs key)), m')
    ∧ rel (Window P) T m'
        (<[key := spec_step (Limit P) (Window P) T (log_of logs key)]> logs).
Proof.
  intros Hrel. pose proof Hrel as [Hwf Hr]. specialize (Hr key).
  assert (Hn : UnixNano now = T) by (apply UnixNano_id; unfold last_instant in Hnow; lia).
  destruct (entry_rel_touch _ _ Hr) as (Hl & Hs & Hf).
  set (e := set_lastSeen (UnixNano now) (default new_memEntry (lookup_entry m key))).
  destruct (allow_locked_spec growcap P now policy_ok Hnow e Hs Hf)
    as (e' & Hd & Hh & Hw & Hdead & Hseen).
  assert (Hdl : dead e' = false) by (rewrite Hdead; apply (default_live m key Hwf)).
  destruct (Allow_run growcap key p now m _ e' Hwf Hd Hdl) as (m' & HA & HU).
  exists m'. unfold spec_decision, admits in *. fold T in Hd, Hh, HA |- *.
  simpl in HA, Hh. rewrite Hl in HA, Hh. split; [done|].
  eapply rel_updates; [exact Hrel|exact HU|]. apply entry_rel_step; try done.
  - apply Hr.
  - rewrite <- Hl. by apply live_sorted.
  - by rewrite Hseen.
Qed.

Lemma Peek_sim key m logs :
  rel (Window P) T m logs →
  ∃ ok m', Peek key p now m = ((len (live (Window P) T (log_of logs key)), ok), m')
    ∧ rel (Window P) T m' logs.
Proof.
  intros Hrel. pose proof Hrel as [Hwf Hr]. specialize (Hr key).
  pose proof (Peek_run key p now m Hwf) as HK.
  destruct (lookup_entry m key) as [e|] eqn:E.
  - fold P in HK. rewrite (cutoff_id P now policy_ok Hnow) in HK. fold T in HK.
    destruct HK as (m' & HK & HU). destruct (entry_rel_prune T e _ Hr) as [Hr' Hl].
    rewrite Hl in HK. do 2 eexists; split; [exact HK|]. by eapply rel_updates_same.
  - destruct Hr as [_ ->]. by do 2 eexists.
Qed.

Lemma cleanup_key_sim key m logs :
  rel (Window P) T m logs → rel (Window P) T (cleanup_key now m key) logs.
Proof.
  intros Hrel. pose proof Hrel as [Hwf Hr]. specialize (Hr key).
  pose proof (cleanup_key_run now m key Hwf) as HC.
  destruct (lookup_entry m key) as [e|] eqn:E; [|by rewrite HC].
  pose proof Hr as [Hlog (Hw & Hl & Hs & Hf & Hls)].
  pose proof policy_ok as [_ HW]. pose proof (wf_ttl m Hwf) as Hmin.
  unfold cleanup_locked in HC. rewrite Hw, (cutoff_id P now policy_ok Hnow) in HC.
  rewrite UnixNano_id in HC by (unfold last_instant in Hnow; lia). fold T in HC.
  rewrite (wrap64_id (2 * _)) in HC by (unfold_durations; lia).
  destruct (_ <? wrap64 (T - lastSeen e)) eqn:Eidle in HC.
  - destruct HC as [HU _]. eapply rel_updates_same; [exact Hrel|exact HU|].
    split; [done|]. rewrite <- Hl. apply live_nil_all. eapply Forall_impl; [exact Hf|].
    intros t Ht; simpl in Ht. unfold last_instant in Hnow.
    rewrite wrap64_id in Eidle by lia. unfold_durations.
    destruct (2 * Window P <? minTTL m) eqn:E2 in Eidle; zify_bool; lia.
  - destruct HC as [HU _]. eapply rel_updates_same; [exact Hrel|exact HU|].
    by apply entry_rel_prune.
Qed.

Lemma cleanup_sim order m logs :
  rel (Window P) T m logs → rel (Window P) T (cleanup order now m) logs.
Proof. unfold cleanup. revert m. induction order; simpl; eauto using cleanup_key_sim. Qed.

Lemma Reset_sim order m logs :
  rel (Window P) T m logs →
  rel (Window P) T (Reset order m) (foldl (λ logs key, delete key logs) logs order).
Proof.
  unfold Reset. revert m logs. induction order as [|key order IH]; intros m logs Hrel; [done|].
  simpl. apply IH. destruct (reset_key_run m key (proj1 Hrel)) as (Hwf & _ & Hm').
  split; [done|]. intros k. rewrite Hm'. unfold log_of.
  case_decide; subst; simplify_map_eq; [by split|]. apply Hrel.
Qed.

End At.

End Simulation.
