(* ===== verification/MemoryProps.v ===== *)
(** * What the in-memory limiter guarantees in sequential use

    Refinement of the exact sliding window, the rate bound that follows from it, the memory
    bounds, the janitor and the maintenance operations. *)

From S2P Require Import Prelude.
From S2P Require Import GoTime.
From S2P Require Import Policy.
From S2P Require Import SlidingWindow.
From S2P Require Import Memory.

Open Scope Z_scope.

(** Whether [cleanup] at [now] finds the entry of [key] idle. *)
Definition idle_key (now : Time) (m : MemoryLimiter) (key : string) : bool :=
  match lookup_entry m key with
  | Some e => fst (cleanup_locked (UnixNano now) (minTTL m) e)
  | None => false
  end.

Definition tracked (m : MemoryLimiter) (key : string) : Prop := is_Some (lookup_entry m key).

(** ** Histories *)

Lemma log_of_empty key : log_of ∅ key = [].
Proof. unfold log_of. by rewrite lookup_empty. Qed.

Lemma run_op_sim growcap p o m logs :
  0 ≤ wall (op_time o) ≤ last_instant →
  rel (Window (Normalize p)) (wall (op_time o)) m logs →
  ∃ x m', run_op growcap p o m = (x, m')
    ∧ fst (spec_op p o logs) = x
    ∧ rel (Window (Normalize p)) (wall (op_time o)) m' (snd (spec_op p o logs)).
Proof.
  intros Hnow Hrel. destruct o as [key now|key now|order now|order now]; simpl in *.
  - destruct (Allow_sim growcap p now Hnow key m logs Hrel) as (m' & -> & Hr). by do 2 eexists.
  - destruct (Peek_sim p now Hnow key m logs Hrel) as (ok & m' & -> & Hr). by do 2 eexists.
  - do 2 eexists; split; [done|]. split; [done|]. by apply cleanup_sim.
  - do 2 eexists; split; [done|]. split; [done|]. by apply Reset_sim.
Qed.

Lemma run_sim growcap p ops :
  ∀ T m logs, 0 ≤ T → chronological T ops → rel (Window (Normalize p)) T m logs →
  fst (run growcap p ops m) = fst (spec_run p ops logs).
Proof.
  induction ops as [|o ops IH]; intros T m logs HT Hc Hrel; [done|]. destruct Hc as [Ho Hc].
  apply (rel_later p T (wall (op_time o))) in Hrel; [|lia].
  destruct (run_op_sim growcap p o m logs ltac:(lia) Hrel) as (x & m' & Hx & Hs & Hrel').
  simpl. rewrite Hx. destruct (spec_op p o logs) as [y logs']; simpl in *; subst y.
  specialize (IH (wall (op_time o)) m' logs' ltac:(lia) Hc Hrel').
  destruct (run growcap p ops m'), (spec_run p ops logs'); simpl in *. congruence.
Qed.

Lemma rel_New p : rel (Window (Normalize p)) 0 NewMemoryLimiter ∅.
Proof. split; [apply wf_New|]. intros key. rewrite log_of_empty. by split. Qed.

(** The specification's outputs determine the log of every key. *)
Lemma spec_run_rate p key ops :
  ∀ T logs, chronological T ops → Forall (λ o, is_reset o = false) ops →
  past T (log_of logs key) →
  rate_bounded (Limit (Normalize p)) (Window (Normalize p)) (log_of logs key) →
  rate_bounded (Limit (Normalize p)) (Window (Normalize p))
    (log_of logs key ++ admitted key ops (fst (spec_run p ops logs))).
Proof.
  induction ops as [|o ops IH]; intros T logs Hc Hr Hp Hb; [by rewrite app_nil_r|].
  destruct Hc as [Ho Hc]. inversion_clear Hr as [|? ? Ho' Hr'].
  apply (past_mono T (wall (op_time o))) in Hp; [|lia].
  destruct o as [k now|k now|order now|order now]; simpl in *; [| | |done].
  - set (log := log_of logs k). set (logs' := <[k := _]> logs).
    specialize (IH (wall now) logs' Hc Hr').
    destruct (spec_run p ops logs') as [outs ?] eqn:E; simpl in *.
    assert (Hk : log_of logs' key =
      log_of logs key ++ if bool_decide (k = key)
        && admits (Limit (Normalize p)) (Window (Normalize p)) (wall now) log
        then [wall now] else []).
    { unfold logs', log_of. case_bool_decide; subst; simplify_map_eq; simpl; [|by rewrite app_nil_r].
      unfold spec_step. fold (log_of logs key). fold log. case_if; [done|by rewrite app_nil_r]. }
    assert (Hstep : past (wall now) (log_of logs' key)
      ∧ rate_bounded (Limit (Normalize p)) (Window (Normalize p)) (log_of logs' key)).
    { unfold logs', log_of. destruct (decide (k = key)) as [->|]; simplify_map_eq; [|done].
      simpl. fold (log_of logs key). split; [by apply spec_step_past|by apply spec_step_rate]. }
    destruct Hstep as [Hp' Hb']. specialize (IH Hp' Hb'). rewrite Hk, <- app_assoc in IH.
    revert IH. unfold log. by case_if.
  - specialize (IH _ logs Hc Hr' Hp Hb). by destruct (spec_run p ops logs).
  - specialize (IH _ logs Hc Hr' Hp Hb). by destruct (spec_run p ops logs).
Qed.

(** C3.  Under one policy and a clock that does not go back, every answer of the in-memory
    limiter, in any history of [Allow] and [Peek] calls on any keys interleaved with janitor
    sweeps and resets in any visiting order, is the answer of the exact sliding window that
    never forgets a request: the whole [Decision] of each call (admitted, used, remaining,
    reset instant, retry delay), and no call panics. *)
Theorem memory_refines_window growcap (p : Policy) (ops : list op) :
  chronological 0 ops →
  fst (run growcap p ops NewMemoryLimiter) = fst (spec_run p ops ∅).
Proof. intros Hc. by eapply run_sim, rel_New. Qed.

Lemma memory_refines_window_witness :
  let p := MkPolicy 1 Second in
  let ops := [OpAllow "a" (Unix0 5); OpAllow "a" (Unix0 6); OpCleanup ["a"] (Unix0 Minute)] in
  chronological 0 ops
  ∧ fst (run (λ _ n, n) p ops NewMemoryLimiter) = fst (spec_run p ops ∅).
Proof.
  split; [|apply (memory_refines_window (λ _ n, n))];
    simpl; unfold last_instant, Minute, Second; lia.
Defined.

(** C14.  The rate limit is enforced: under one policy with limit [L] and window [W], whatever the
    calls, keys and janitor sweeps (no reset), no window [(t - W, t]] holds more than [L]
    admitted requests of a key. *)
Theorem memory_rate_bounded growcap (p : Policy) (ops : list op) (key : string) :
  chronological 0 ops →
  Forall (λ o, is_reset o = false) ops →
  rate_bounded (Limit (Normalize p)) (Window (Normalize p))
    (admitted key ops (fst (run growcap p ops NewMemoryLimiter))).
Proof.
  intros Hc Hr. rewrite (run_sim growcap p ops 0 _ ∅); [|done..|apply rel_New].
  pose proof (spec_run_rate p key ops 0 ∅ Hc Hr) as H. rewrite log_of_empty in H.
  apply H; [by apply Forall_nil|]. intros t.
  pose proof (Normalize_enforceable p) as [? _]. unfold within, len; simpl. lia.
Qed.

Lemma memory_rate_bounded_witness :
  let p := MkPolicy 1 Second in
  let ops := [OpAllow "a" (Unix0 5); OpAllow "a" (Unix0 6); OpCleanup ["a"] (Unix0 Minute)] in
  chronological 0 ops ∧ Forall (λ o, is_reset o = false) ops
  ∧ rate_bounded 1 Second (admitted "a" ops (fst (run (λ _ n, n) p ops NewMemoryLimiter))).
Proof.
  assert (chronological 0 [OpAllow "a" (Unix0 5); OpAllow "a" (Unix0 6);
            OpCleanup ["a"] (Unix0 Minute)])
    by (simpl; unfold last_instant, Minute, Second; lia).
  split; [done|]. split; [by repeat constructor|].
  apply (memory_rate_bounded (λ _ n, n) (MkPolicy 1 Second)); [done|by repeat constructor].
Defined.

(** ** Memory *)

(** C34.  [prune] on ascending hits keeps exactly the hits after the cutoff, in order, and never
    pins a mostly empty backing array: when it removes anything, the capacity left is at most
    64 or four times the number of hits, and always holds them. *)
Theorem prune_spec (cutoff : Z) (e : memEntry) :
  StronglySorted Z.le (elems (hits e)) →
  len (elems (hits e)) ≤ cap (hits e) →
  let e' := prune cutoff e in
  elems (hits e') = filter (λ t, cutoff < t) (elems (hits e))
  ∧ len (elems (hits e')) ≤ cap (hits e')
  ∧ (elems (hits e') = elems (hits e) ∨ cap (hits e') ≤ Z.max 64 (4 * len (elems (hits e')))).
Proof.
  intros Hs Hcap e'. subst e'. rewrite <- drop_prune_sorted, <- prune_elems by done.
  split; [done|]. unfold prune.
  destruct (Nat.eqb_spec (prune_index cutoff (elems (hits e))) 0); [by auto|].
  pose proof (len_nonneg (drop (prune_index cutoff (elems (hits e))) (elems (hits e)))).
  assert (len (drop (prune_index cutoff (elems (hits e))) (elems (hits e))) ≤ len (elems (hits e)))
    by (unfold len; rewrite length_drop; lia).
  simpl. case_if; simpl; [split; [lia|right; lia]|].
  split; [lia|]. right. apply andb_false_iff in E as [E|E]; zify_bool; lia.
Qed.

Lemma prune_spec_witness :
  let e := MkEntry (MkSlice [1; 2; 3] 100) 0 false 0 in
  StronglySorted Z.le (elems (hits e)) ∧ len (elems (hits e)) ≤ cap (hits e)
  ∧ elems (hits (prune 2 e)) = [3] ∧ cap (hits (prune 2 e)) = 8.
Proof.
  set (e := MkEntry (MkSlice [1; 2; 3] 100) 0 false 0).
  assert (Hs : StronglySorted Z.le (elems (hits e))) by (repeat constructor; lia).
  assert (Hc : len (elems (hits e)) ≤ cap (hits e)) by (unfold e, len; simpl; lia).
  split_and!; [done|done| |reflexivity].
  apply (prune_spec 2 e Hs Hc).
Defined.

(** ** The janitor *)

Lemma cleanup_key_updates now m key :
  wf m →
  updates m key
    (if idle_key now m key then None
     else (λ e, snd (cleanup_locked (UnixNano now) (minTTL m) e)) <$> lookup_entry m key)
    (cleanup_key now m key)
  ∧ evictions (cleanup_key now m key) =
    (if idle_key now m key then wrap64 (evictions m + 1) else evictions m).
Proof.
  intros Hwf. unfold idle_key. pose proof (cleanup_key_run now m key Hwf) as HC.
  pose proof (updates_refl m key Hwf) as HU.
  destruct (lookup_entry m key) as [e|] eqn:E; simpl; [|by rewrite HC].
  destruct (cleanup_locked _ _ e) as [[] e'] eqn:EC; simpl in *; apply HC.
Qed.

Lemma idle_key_other now m m' key oe k :
  updates m key oe m' → k ≠ key → idle_key now m' k = idle_key now m k.
Proof.
  intros (_ & Ht & Hm') Hne. unfold idle_key. rewrite Hm', Ht. by rewrite decide_False.
Qed.

Lemma cleanup_sweep now order :
  ∀ m, wf m → NoDup order →
  0 ≤ evictions m → evictions m + len order ≤ max_int64 →
  (∀ key, tracked (cleanup order now m) key ↔
     tracked m key ∧ ¬ (key ∈ order ∧ idle_key now m key = true))
  ∧ evictions (cleanup order now m) =
    evictions m + Z.of_nat (countb (idle_key now m) order).
Proof.
  unfold cleanup. induction order as [|k order IH]; intros m Hwf Hnd He0 He1.
  { simpl. split; [intros; set_solver|lia]. }
  apply NoDup_cons in Hnd as [Hk Hnd]. unfold len in He1; simpl in He1.
  destruct (cleanup_key_updates now m k Hwf) as [HU HE].
  destruct (IH (cleanup_key now m k)) as [IH1 IH2]; [apply HU|done|..].
  { rewrite HE. case_if; [rewrite wrap64_id|]; lia. }
  { rewrite HE. unfold len. case_if; [rewrite wrap64_id|]; lia. }
  assert (Hidle : ∀ k', k' ≠ k → idle_key now (cleanup_key now m k) k' = idle_key now m k')
    by (intros; by eapply idle_key_other).
  simpl. split.
  - intros key. rewrite IH1. unfold tracked. destruct HU as (_ & _ & ->).
    destruct (decide (key = k)) as [->|Hne]; [|rewrite Hidle by done; set_solver].
    rewrite elem_of_cons. destruct (idle_key now m k).
    + split; [intros [[? [=]] _]|intros [_ []]; by auto].
    + rewrite fmap_is_Some. naive_solver.
  - rewrite IH2, HE.
    assert (countb (idle_key now (cleanup_key now m k)) order = countb (idle_key now m) order)
      as -> by (apply countb_ext; intros x Hx; apply Hidle; set_solver).
    case_if; [rewrite wrap64_id|]; lia.
Qed.

(** Every eviction takes one key out of the table. *)
Lemma cleanup_key_Keys now m key :
  min_int64 ≤ evictions m + 1 ≤ max_int64 →
  Keys (cleanup_key now m key) + evictions (cleanup_key now m key) = Keys m + evictions m.
Proof.
  intros He. unfold cleanup_key. destruct (entries m !! key) as [ptr|] eqn:Hk; [|done].
  destruct (heap m !! ptr) as [e|]; [|done]. unfold cleanup_locked. case_if; [|done].
  unfold evict, CompareAndDelete; simpl. rewrite bool_decide_true by done. simpl.
  unfold Keys; simpl. rewrite map_size_delete_Some, wrap64_id by (done || by rewrite Hk).
  assert (size (entries m) ≠ 0%nat); [|lia]. intros Hs%map_size_empty_inv. by rewrite Hs in Hk.
Qed.

Lemma cleanup_Keys now order :
  ∀ m, wf m → 0 ≤ evictions m → evictions m + len order ≤ max_int64 →
  Keys (cleanup order now m) + evictions (cleanup order now m) = Keys m + evictions m.
Proof.
  unfold cleanup. induction order as [|k order IH]; intros m Hwf He0 He1; [done|].
  unfold len in He1; simpl in He1 |- *. destruct (cleanup_key_updates now m k Hwf) as [HU HE].
  rewrite IH, cleanup_key_Keys; try done; [lia|apply HU| |];
    rewrite HE; unfold len; case_if; rewrite ?wrap64_id; lia.
Qed.

(** C35.  A janitor sweep that visits every tracked key once evicts exactly the keys idle for more
    than the larger of twice their window and [minTTL]; all others stay tracked, and each key
    that leaves the table adds one to the eviction counter. *)
Theorem cleanup_evicts_idle (order : list string) (now : Time) (m : MemoryLimiter) :
  wf m → NoDup order → (∀ key, tracked m key → key ∈ order) →
  0 ≤ evictions m → evictions m + len order ≤ max_int64 →
  0 ≤ wall now ≤ last_instant →
  (∀ key e, lookup_entry m key = Some e → 0 ≤ window e ≤ 24 * Hour ∧ 0 ≤ lastSeen e ≤ last_instant) →
  (∀ key, tracked (cleanup order now m) key ↔
     ∃ e, lookup_entry m key = Some e
       ∧ wall now - lastSeen e ≤ Z.max (2 * window e) (minTTL m))
  ∧ Keys (cleanup order now m) + (evictions (cleanup order now m) - evictions m) = Keys m.
Proof.
  intros Hwf Hnd Hall He0 He1 Hnow Hsane.
  destruct (cleanup_sweep now order m Hwf Hnd He0 He1) as [Ht _].
  split; [|pose proof (cleanup_Keys now order m Hwf He0 He1); lia].
  intros key. rewrite Ht. unfold tracked, idle_key.
  destruct (lookup_entry m key) as [e|] eqn:E; [|naive_solver].
  assert (Hin : key ∈ order) by (apply Hall; unfold tracked; by rewrite E).
  destruct (Hsane _ _ E) as [Hw Hl]. unfold last_instant in *. unfold_durations.
  pose proof (wf_ttl m Hwf).
  unfold cleanup_locked. rewrite UnixNano_id, !wrap64_id by lia.
  replace (if 2 * window e <? minTTL m then minTTL m else 2 * window e)
    with (Z.max (2 * window e) (minTTL m)) by (destruct (Z.ltb_spec (2 * window e) (minTTL m)); lia).
  destruct (Z.ltb_spec (Z.max (2 * window e) (minTTL m)) (wall now - lastSeen e)); simpl.
  - split; [intros [_ []]; by split|]. intros (? & [= <-] & Hle). lia.
  - split; [eauto|]. intros _. split; [done|]. by intros [_ ?].
Qed.

Lemma cleanup_evicts_idle_witness :
  let m := snd (Allow (λ _ n, n) "a" (MkPolicy 1 Second) (Unix0 5) NewMemoryLimiter) in
  wf m ∧ tracked (cleanup ["a"] (Unix0 Minute) m) "a"
  ∧ ¬ tracked (cleanup ["a"] (Unix0 (2 * Minute)) m) "a".
Proof.
  set (m := snd _).
  assert (Hwf : wf m).
  { destruct (Allow_sim (λ _ n, n) (MkPolicy 1 Second) (Unix0 5) ltac:(unfold last_instant; simpl; lia)
      "a" NewMemoryLimiter ∅) as (m' & Hm & [Hwf _]).
    { apply (rel_later _ 0); [simpl; lia|apply rel_New]. }
    unfold m. by rewrite Hm. }
  assert (Hl : lookup_entry m "a" = Some (MkEntry (MkSlice [5] 1) Second false 5))
    by (vm_compute; reflexivity).
  assert (Hk : ∀ key e, lookup_entry m key = Some e →
            key = "a"%string ∧ e = MkEntry (MkSlice [5] 1) Second false 5).
  { intros key e He. destruct (decide (key = "a"%string)) as [->|Hne].
    { rewrite Hl in He. by injection He as <-. }
    exfalso. apply lookup_entry_Some in He as (ptr & He & _).
    change (entries m) with ({["a"%string := 0%nat]} : gmap string nat) in He.
    by rewrite lookup_singleton_ne in He. }
  assert (Hc : ∀ now, 0 ≤ wall now ≤ last_instant → ∀ key, tracked (cleanup ["a"] now m) key ↔
     ∃ e, lookup_entry m key = Some e ∧ wall now - lastSeen e ≤ Z.max (2 * window e) (minTTL m)).
  { intros now Hnow. apply (cleanup_evicts_idle ["a"] now m); try done.
    - apply NoDup_singleton.
    - intros key [e He]. apply Hk in He as [-> _]. by left.
    - intros key e He. apply Hk in He as [_ ->]. simpl. unfold last_instant. unfold_durations. lia. }
  change (minTTL m) with Minute in Hc.
  split; [done|]. split.
  - apply Hc; [simpl; unfold last_instant; unfold_durations; lia|].
    eexists; split; [exact Hl|]. simpl. unfold_durations. lia.
  - rewrite Hc by (simpl; unfold last_instant; unfold_durations; lia).
    intros (e & [_ ->]%Hk & Hle). simpl in Hle. unfold_durations. lia.
Defined.

(** ** Maintenance operations *)

Lemma reset_key_dead m k ptr e :
  heap m !! ptr = Some e →
  ∃ e', heap (reset_key m k) !! ptr = Some e'
    ∧ (dead e = true ∨ entries m !! k = Some ptr → dead e' = true).
Proof.
  intros He. unfold reset_key. destruct (entries m !! k) as [q|] eqn:Hk; [|naive_solver].
  destruct (heap m !! q) as [eq|] eqn:Hq; [|naive_solver].
  unfold CompareAndDelete. simpl. rewrite bool_decide_true by done. simpl.
  destruct (decide (q = ptr)) as [->|Hne]; simplify_map_eq; [by eexists|].
  eexists; split; [done|]. naive_solver.
Qed.

Lemma Reset_dead order :
  ∀ m ptr e, heap m !! ptr = Some e → dead e = true →
  ∃ e', heap (Reset order m) !! ptr = Some e' ∧ dead e' = true.
Proof.
  unfold Reset. induction order as [|k order IH]; intros m ptr e He Hd; simpl; [eauto|].
  destruct (reset_key_dead m k ptr e He) as (e' & He' & Hd'). eauto.
Qed.

Lemma Reset_untracks order :
  ∀ m, wf m →
  wf (Reset order m)
  ∧ (∀ key, lookup_entry (Reset order m) key =
       if bool_decide (key ∈ order) then None else lookup_entry m key)
  ∧ ∀ key ptr, key ∈ order → entries m !! key = Some ptr →
      ∃ e, heap (Reset order m) !! ptr = Some e ∧ dead e = true.
Proof.
  unfold Reset. induction order as [|k order IH]; intros m Hwf; simpl.
  { split; [done|]. split; [done|]. intros ? ? H. by apply not_elem_of_nil in H. }
  destruct (reset_key_run m k Hwf) as (Hwf' & _ & Hm').
  destruct (IH _ Hwf') as (Hw & Hl & Hd). split; [done|]. split.
  - intros key. rewrite Hl, Hm'.
    destruct (decide (key = k)) as [->|Hne].
    + rewrite (bool_decide_true (k ∈ k :: order)) by left. by case_bool_decide.
    + rewrite (bool_decide_ext (key ∈ k :: order) (key ∈ order)) by set_solver.
      by case_bool_decide.
  - intros key ptr Hin Hk. destruct (wf_alloc m Hwf _ _ Hk) as (e & He & _).
    destruct (reset_key_dead m k ptr e He) as (e' & He' & Hdead).
    destruct (decide (key = k)) as [->|Hne]; [eapply Reset_dead; eauto|].
    apply Hd with key; [set_solver|]. unfold reset_key.
    destruct (entries m !! k) as [q|]; [|done]. destruct (heap m !! q); [|done].
    unfold CompareAndDelete; simpl. case_bool_decide; simpl; by simplify_map_eq.
Qed.

Lemma Reset_Keys (order : list string) (m : MemoryLimiter) :
  wf m → (∀ key, tracked m key → key ∈ order) → Keys (Reset order m) = 0.
Proof.
  intros Hwf Hall. destruct (Reset_untracks order m Hwf) as (Hw & Hl & _).
  assert (entries (Reset order m) = ∅) as He; [|unfold Keys; by rewrite He, map_size_empty].
  apply map_eq. intros key. rewrite lookup_empty. apply lookup_entry_None; [done|].
  rewrite Hl. case_bool_decide as Hin; [done|].
  destruct (lookup_entry m key) as [e|] eqn:E; [|done]. destruct Hin. apply Hall. by exists e.
Qed.

(** [Reset], visiting every tracked key in any order, leaves no key tracked, and marks every
    entry it drops dead, so a request that already holds one retries on a fresh entry instead
    of being counted on a forgotten one. *)
Theorem Reset_forgets_everyone (order : list string) (m : MemoryLimiter) :
  wf m → (∀ key, tracked m key → key ∈ order) →
  wf (Reset order m)
  ∧ Keys (Reset order m) = 0
  ∧ ∀ key ptr, entries m !! key = Some ptr →
      ∃ e, heap (Reset order m) !! ptr = Some e ∧ dead e = true.
Proof.
  intros Hwf Hall. destruct (Reset_untracks order m Hwf) as (Hw & _ & Hd).
  split; [done|]. split; [by apply Reset_Keys|]. intros key ptr Hk. eapply Hd; [|exact Hk].
  apply Hall. destruct (wf_alloc m Hwf _ _ Hk) as (e & He & _).
  exists e. apply lookup_entry_Some; eauto.
Qed.

Lemma Reset_forgets_everyone_witness :
  wf NewMemoryLimiter ∧ Keys (Reset ["a"] NewMemoryLimiter) = 0.
Proof.
  split; [apply wf_New|].
  apply (Reset_forgets_everyone ["a"] NewMemoryLimiter wf_New). by intros key [e He].
Defined.

(** [Peek] is not free of effect: it prunes with the window it is given, so looking at a key
    through a narrower window than the one in force erases hits that still count.  Under a
    limit of one request per ten seconds, a request at 1s is admitted and one at 4s would be
    denied; after a [Peek] at 3s with a one-second window, the request at 4s is admitted. *)
Theorem Peek_narrow_window_forgets growcap :
  let wide := MkPolicy 1 (10 * Second) in
  let narrow := MkPolicy 1 Second in
  let m1 := snd (Allow growcap "a" wide (Unix0 (1 * Second)) NewMemoryLimiter) in
  let m2 := snd (Peek "a" narrow (Unix0 (3 * Second)) m1) in
  Allowed <$> fst (Allow growcap "a" wide (Unix0 (1 * Second)) NewMemoryLimiter) = Some true
  ∧ Allowed <$> fst (Allow growcap "a" wide (Unix0 (4 * Second)) m1) = Some false
  ∧ Allowed <$> fst (Allow growcap "a" wide (Unix0 (4 * Second)) m2) = Some true.
Proof.
  cbv zeta. split; [vm_compute; reflexivity|]. split; [vm_compute; reflexivity|].
  set (m1 := snd (Allow growcap "a" (MkPolicy 1 (10 * Second)) _ _)).
  assert (Hm1 : m1 = MkMem {[0%nat := MkEntry (MkSlice [1 * Second] (growcap 0 1)) (10 * Second)
            false (1 * Second)]} {["a"%string := 0%nat]} 1 Minute 0) by reflexivity.
  rewrite Hm1. unfold Peek. change (entries _ !! "a"%string) with (Some 0%nat).
  cbv beta iota. change (heap _ !! 0%nat) with (Some (MkEntry (MkSlice [1 * Second]
    (growcap 0 1)) (10 * Second) false (1 * Second))). cbv beta iota zeta.
  unfold prune. change (prune_index _ _) with 1%nat. simpl Nat.eqb. cbv beta iota.
  case_if; vm_compute; reflexivity.
Qed.
