(* ===== verification/MemoryConc.v ===== *)
(** * The in-memory limiter under concurrency

    Goroutines running [Allow] and [Peek], the janitor's [cleanup] and [Reset], interleaved at
    the granularity of their atomic actions: a [sync.Map] call, the atomic store of
    [lastSeen], a critical section of an entry's mutex.  Each goroutine has already read the
    clock ([now := m.now()], before the lookup) when it starts, so goroutines may run in another order than
    their readings.  [lastSeen.Load] in [cleanup] is part of its critical section: a store that
    lands between the load and the unlock touches an entry that is then dead, and has the same
    effect as one landing after the unlock. *)

From S2P Require Import Prelude.
From S2P Require Import GoTime.
From S2P Require Import Policy.
From S2P Require Import Memory.

Open Scope Z_scope.

(** ** Goroutines *)

(** The two operations that walk the table with [sync.Map.Range]. *)
Inductive range_op := RCleanup (now : Time) | RReset.

(** Program points of a walk: between two callbacks, before the lock, before [CompareAndDelete],
    finished.  Range visits no key twice. *)
Inductive range_pc :=
| RNext (visited : list string)
| RLock (visited : list string) (key : string) (ptr : nat)
| RDelete (visited : list string) (key : string) (ptr : nat)
| RStop.

Inductive peek_pc := KLoad | KLock (ptr : nat) | KDone (used : Z) (ok : bool).

(** Policies are normalized: every operation starts by normalizing its own. *)
Inductive thread :=
| TAllow (key : string) (p : Policy) (now : Time) (pc : allow_pc)
| TPeek (key : string) (p : Policy) (now : Time) (pc : peek_pc)
| TRange (op : range_op) (pc : range_pc).

(** The critical section of a callback: whether the entry goes, and what becomes of it. *)
Definition range_locked (op : range_op) (minTTL : Z) (e : memEntry) : bool * memEntry :=
  match op with
  | RCleanup now => cleanup_locked (UnixNano now) minTTL e
  | RReset => (true, set_dead e)
  end.

Definition range_delete (op : range_op) (key : string) (ptr : nat) (m : MemoryLimiter)
    : MemoryLimiter :=
  match op with
  | RCleanup _ => evict key ptr m
  | RReset => snd (CompareAndDelete key ptr m)
  end.

Section Steps.
Context (growcap : Z → Z → Z).

(** One atomic action of one goroutine. *)
Inductive tstep : thread → MemoryLimiter → thread → MemoryLimiter → Prop :=
| step_allow key p now pc m pc' m' :
    running pc = true →
    allow_step growcap key p now pc m = (pc', m') →
    tstep (TAllow key p now pc) m (TAllow key p now pc') m'
| step_peek_miss key p now m :
    entries m !! key = None →
    tstep (TPeek key p now KLoad) m (TPeek key p now (KDone 0 false)) m
| step_peek_load key p now ptr m :
    entries m !! key = Some ptr →
    tstep (TPeek key p now KLoad) m (TPeek key p now (KLock ptr)) m
| step_peek_lock key p now ptr e m :
    heap m !! ptr = Some e →
    let e' := prune (wrap64 (UnixNano now - Window p)) e in
    tstep (TPeek key p now (KLock ptr)) m
      (TPeek key p now (KDone (len (elems (hits e'))) true)) (set_entry ptr e' m)
| step_range_next op visited key ptr m :
    key ∉ visited → entries m !! key = Some ptr →
    tstep (TRange op (RNext visited)) m (TRange op (RLock (key :: visited) key ptr)) m
| step_range_stop op visited m :
    tstep (TRange op (RNext visited)) m (TRange op RStop) m
| step_range_lock op visited key ptr e gone e' m :
    heap m !! ptr = Some e →
    range_locked op (minTTL m) e = (gone, e') →
    tstep (TRange op (RLock visited key ptr)) m
      (TRange op (if gone then RDelete visited key ptr else RNext visited)) (set_entry ptr e' m)
| step_range_delete op visited key ptr m :
    tstep (TRange op (RDelete visited key ptr)) m
      (TRange op (RNext visited)) (range_delete op key ptr m).

Record conc := MkConc { shared : MemoryLimiter; threads : list thread }.

Definition starting (t : thread) : Prop :=
  match t with
  | TAllow _ p _ pc => enforceable p ∧ pc = PLookup 0
  | TPeek _ p _ pc => enforceable p ∧ pc = KLoad
  | TRange _ pc => pc = RNext []
  end.

Inductive cstep_by (i : nat) : conc → conc → Prop :=
| cstep_thread m ths t t' m' :
    ths !! i = Some t → tstep t m t' m' →
    cstep_by i (MkConc m ths) (MkConc m' (<[i := t']> ths)).

(** Any number of goroutines of any kind on a fresh limiter. *)
Definition limiter_system : system := {|
  st := conc;
  init := λ c, shared c = NewMemoryLimiter ∧ Forall starting (threads c);
  step := λ c c', ∃ i, cstep_by i c c' |}.

(** An execution and its schedule: which goroutine takes each step. *)
Inductive exec : list nat → conc → conc → Prop :=
| exec_nil c : exec [] c c
| exec_cons i sched c c' c'' : cstep_by i c c' → exec sched c' c'' → exec (i :: sched) c c''.

(** The scheduler as a function, for goroutines that run [Allow]. *)
Definition cstep_allow (i : nat) (c : conc) : option conc :=
  match threads c !! i with
  | Some (TAllow key p now pc) =>
      if running pc then
        let '(pc', m') := allow_step growcap key p now pc (shared c) in
        Some (MkConc m' (<[i := TAllow key p now pc']> (threads c)))
      else None
  | _ => None
  end.

Fixpoint run_sched (sched : list nat) (c : conc) : option conc :=
  match sched with
  | [] => Some c
  | i :: sched => c' ← cstep_allow i c; run_sched sched c'
  end.

End Steps.

(** ** Observations *)

Definition limit_of (t : thread) : Z := match t with TAllow _ p _ _ => Limit p | _ => 0 end.

(** The goroutine handles [key] and was admitted. *)
Definition admitted_by (key : string) (t : thread) : bool :=
  match t with TAllow k _ _ (PDone d) => bool_decide (k = key) && Allowed d | _ => false end.

Definition calls (key : string) (t : thread) : bool :=
  match t with TAllow k _ _ _ => bool_decide (k = key) | _ => false end.

Definition finished (t : thread) : bool :=
  match t with TAllow _ _ _ pc => negb (running pc) | TPeek _ _ _ (KDone _ _) => true
             | TRange _ RStop => true | _ => false end.

Definition panicked (t : thread) : bool :=
  match t with TAllow _ _ _ PPanic => true | _ => false end.

(** What the scan of [prune] leaves of a list of hits. *)
Definition pruned (p : Policy) (now : Time) (l : list Z) : list Z :=
  drop (prune_index (wrap64 (UnixNano now - Window p)) l) l.

(** ** Invariants *)

(** No entry is longer than [B]; map pointers are allocated and no two keys share one. *)
Record store_ok (B : Z) (m : MemoryLimiter) : Prop := {
  so_alloc : ∀ k ptr, entries m !! k = Some ptr → is_Some (heap m !! ptr);
  so_inj : ∀ k k' ptr, entries m !! k = Some ptr → entries m !! k' = Some ptr → k = k';
  so_fresh : ∀ ptr, (next m ≤ ptr)%nat → heap m !! ptr = None;
  so_bound : ∀ ptr e, heap m !! ptr = Some e → len (elems (hits e)) ≤ B }.

(** A pointer a goroutine took for [key]: allocated, and no other key's. *)
Definition holds (m : MemoryLimiter) (key : string) (ptr : nat) : Prop :=
  is_Some (heap m !! ptr) ∧ ∀ k, entries m !! k = Some ptr → k = key.

Definition thread_ok (B : Z) (m : MemoryLimiter) (t : thread) : Prop :=
  match t with
  | TAllow key p _ pc =>
      enforceable p ∧ Limit p ≤ B
      ∧ match pc with
        | PSeen _ ptr | PLock _ ptr | PDelete _ ptr => holds m key ptr
        | PPanic => False
        | _ => True
        end
  | TPeek key p _ (KLock ptr) => holds m key ptr
  | TRange _ (RLock _ key ptr) | TRange _ (RDelete _ key ptr) => holds m key ptr
  | _ => True
  end.

Definition conc_ok (B : Z) (c : conc) : Prop :=
  store_ok B (shared c) ∧ Forall (thread_ok B (shared c)) (threads c).

(** Every entry that can still count a request is in the table. *)
Definition live_tracked (m : MemoryLimiter) : Prop :=
  ∀ ptr e, heap m !! ptr = Some e → dead e = false → ∃ key, entries m !! key = Some ptr.

(** A goroutine about to take an entry out of the table has found or made it dead. *)
Definition doomed (m : MemoryLimiter) (t : thread) : Prop :=
  match t with
  | TAllow _ _ _ (PDelete _ ptr) | TRange _ (RDelete _ _ ptr) =>
      ∃ e, heap m !! ptr = Some e ∧ dead e = true
  | _ => True
  end.

(** What a goroutine may rely on while others run: allocated addresses stay allocated, no
    address changes key, and the dead do not rise. *)
Record store_le (m m' : MemoryLimiter) : Prop := {
  sl_alloc : ∀ ptr, is_Some (heap m !! ptr) → is_Some (heap m' !! ptr);
  sl_old : ∀ k ptr, is_Some (heap m !! ptr) → entries m' !! k = Some ptr →
             entries m !! k = Some ptr;
  sl_dead : ∀ ptr e, heap m !! ptr = Some e → dead e = true →
              ∃ e', heap m' !! ptr = Some e' ∧ dead e' = true }.

(** ** The store under interference *)

Lemma store_le_refl m : store_le m m.
Proof. constructor; eauto. Qed.

Lemma holds_mono m m' key ptr : store_le m m' → holds m key ptr → holds m' key ptr.
Proof. intros [Ha Ho _] [Hs Hk]. split; eauto. Qed.

Lemma thread_ok_mono B m m' t : store_le m m' → thread_ok B m t → thread_ok B m' t.
Proof.
  intros Hle. pose proof (holds_mono m m') as Hh.
  destruct t as [key p now []|key p now []|op []]; simpl; naive_solver.
Qed.

Lemma store_ok_set B m ptr e :
  store_ok B m → is_Some (heap m !! ptr) → len (elems (hits e)) ≤ B →
  store_ok B (set_entry ptr e m).
Proof.
  intros [Ha Hi Hf Hb] Hs Hl. constructor; simpl; [|done| |].
  - intros k q Hq. apply lookup_insert_is_Some'. eauto.
  - intros q Hq. rewrite lookup_insert_ne; [by apply Hf|]. intros <-.
    rewrite (Hf ptr Hq) in Hs. by destruct Hs.
  - intros q e'. rewrite lookup_insert. case_decide; [by intros [= <-]|apply Hb].
Qed.

Lemma store_le_set m ptr e0 e :
  heap m !! ptr = Some e0 → (dead e0 = true → dead e = true) → store_le m (set_entry ptr e m).
Proof.
  intros H0 Hd. constructor; simpl; [|done|].
  - intros q Hq. apply lookup_insert_is_Some'. eauto.
  - intros q e1 Hq Hd1. rewrite lookup_insert. case_decide as Heq; [|eauto].
    subst. exists e. split; [done|]. apply Hd. congruence.
Qed.

Lemma LoadOrStore_conc B m key :
  0 ≤ B → store_ok B m →
  store_ok B (snd (LoadOrStore key m)) ∧ store_le m (snd (LoadOrStore key m))
  ∧ holds (snd (LoadOrStore key m)) key (fst (LoadOrStore key m)).
Proof.
  intros HB Hok. pose proof Hok as [Ha Hi Hf Hb]. unfold LoadOrStore.
  destruct (entries m !! key) as [ptr|] eqn:Hk; simpl.
  { split; [done|]. split; [apply store_le_refl|]. split; eauto. }
  assert (Hne : ∀ k q, entries m !! k = Some q → q ≠ next m).
  { intros k q Hq ->. destruct (Ha _ _ Hq) as [e He]. by rewrite Hf in He. }
  split_and!; [constructor|constructor|split]; simpl.
  - intros k q. rewrite lookup_insert. case_decide; intros Hq; apply lookup_insert_is_Some'; [|eauto].
    left; congruence.
  - intros k k' q. rewrite !lookup_insert. repeat case_decide; naive_solver.
  - intros q Hq. rewrite lookup_insert_ne by lia. apply Hf. lia.
  - intros q e. rewrite lookup_insert. case_decide; [intros [= <-]; simpl|apply Hb]. done.
  - intros q Hq. apply lookup_insert_is_Some'. eauto.
  - intros k q [e He]. rewrite lookup_insert. case_decide; [|done]. intros [= <-].
    by rewrite Hf in He.
  - intros q e He Hd. exists e. rewrite lookup_insert_ne; [done|]. intros <-.
    by rewrite Hf in He.
  - by rewrite lookup_insert_eq.
  - intros k. rewrite lookup_insert. case_decide; [done|]. intros Hq. by apply Hne in Hq.
Qed.

(** Taking a key out of the table, whatever becomes of the eviction counter. *)
Lemma untrack_conc B m key ev :
  store_ok B m →
  let m' := MkMem (heap m) (delete key (entries m)) (next m) (minTTL m) ev in
  store_ok B m' ∧ store_le m m'.
Proof.
  intros [Ha Hi Hf Hb]. split; constructor; simpl; try done.
  - intros k q [_ Hq]%lookup_delete_Some. eauto.
  - intros k k' q [_ Hq]%lookup_delete_Some [_ Hq']%lookup_delete_Some. eauto.
  - intros k q _ [_ Hq]%lookup_delete_Some. done.
  - eauto.
Qed.

Lemma CompareAndDelete_conc B m key ptr :
  store_ok B m →
  store_ok B (snd (CompareAndDelete key ptr m)) ∧ store_le m (snd (CompareAndDelete key ptr m)).
Proof.
  intros Hok. unfold CompareAndDelete. case_if; [by apply untrack_conc|].
  split; [done|apply store_le_refl].
Qed.

Lemma evict_conc B m key ptr :
  store_ok B m → store_ok B (evict key ptr m) ∧ store_le m (evict key ptr m).
Proof.
  intros Hok. unfold evict, CompareAndDelete. case_if; simpl; [by apply untrack_conc|].
  split; [done|apply store_le_refl].
Qed.

(** ** The critical sections on arbitrary hits *)

Lemma pruned_length p now l : len (pruned p now l) ≤ len l.
Proof. unfold pruned, len. rewrite length_drop. lia. Qed.

(** [Allow]'s critical section never panics, whatever the hits it finds: it admits exactly when
    fewer than the limit survive the scan. *)
Lemma allow_locked_any growcap p now e :
  1 ≤ Limit p →
  let h := pruned p now (elems (hits e)) in
  ∃ d e', allow_locked growcap p now e = Some (d, e')
    ∧ Allowed d = (len h <? Limit p)
    ∧ elems (hits e') = (if len h <? Limit p then h ++ [UnixNano now] else h)
    ∧ dead e' = dead e.
Proof.
  intros Hp h. unfold allow_locked.
  destruct (prune_fields (wrap64 (UnixNano now - Window p)) (set_window (Window p) e))
    as (_ & Fd & _).
  pose proof (prune_elems (wrap64 (UnixNano now - Window p)) (set_window (Window p) e)) as He.
  simpl in Fd, He. fold (pruned p now (elems (hits e))) in He. fold h in He.
  set (e1 := prune _ _) in *. rewrite He, Z.leb_antisym.
  destruct (len h <? Limit p) eqn:E; zify_bool; simpl.
  - rewrite He, head_snoc. simpl. do 2 eexists; split; [done|]. simpl. by rewrite He.
  - destruct h as [|t h']; [unfold len in E; simpl in E; lia|]. simpl.
    do 2 eexists; split; [done|]. by rewrite He.
Qed.

Lemma allow_locked_bound B growcap p now e d e' :
  enforceable p → Limit p ≤ B → len (elems (hits e)) ≤ B →
  allow_locked growcap p now e = Some (d, e') → len (elems (hits e')) ≤ B.
Proof.
  intros [[Hp _] _] HB Hl Hd. destruct (allow_locked_any growcap p now e Hp) as (? & ? & H & _ & He & _).
  rewrite Hd in H. injection H as <- <-. pose proof (pruned_length p now (elems (hits e))).
  rewrite He. case_if; [rewrite len_app; unfold len at 2; simpl|]; lia.
Qed.

Lemma cleanup_locked_bound B now ttl e :
  0 ≤ B → len (elems (hits e)) ≤ B →
  len (elems (hits (snd (cleanup_locked now ttl e)))) ≤ B
  ∧ (dead e = true → dead (snd (cleanup_locked now ttl e)) = true).
Proof.
  intros HB Hl. unfold cleanup_locked. case_if; simpl; [done|].
  rewrite prune_elems, (proj1 (proj2 (prune_fields _ _))). split; [|done].
  unfold len in *. rewrite length_drop. lia.
Qed.

(** ** Every action of every goroutine keeps the invariant *)

Lemma allow_step_ok B growcap key p now pc m :
  0 ≤ B → store_ok B m → thread_ok B m (TAllow key p now pc) →
  let '(pc', m') := allow_step growcap key p now pc m in
  store_ok B m' ∧ store_le m m' ∧ thread_ok B m' (TAllow key p now pc').
Proof.
  intros HB Hok (Hp & Hl & Hpc). pose proof Hp as [[Hp1 _] _].
  destruct pc as [a|a ptr|a ptr|a ptr|d|]; simpl.
  - pose proof (LoadOrStore_conc B m key HB Hok) as H.
    destruct (LoadOrStore key m) as [ptr m']; simpl in *. tauto.
  - destruct Hpc as [[e He] Hk]. rewrite He.
    assert (Hle : store_le m (set_entry ptr (set_lastSeen (UnixNano now) e) m))
      by (by eapply store_le_set).
    split_and!; try done; [|by eapply holds_mono; [|split; eauto]].
    apply store_ok_set; [done|eauto|]. by apply (so_bound B m Hok ptr e).
  - destruct Hpc as [[e He] Hk]. rewrite He.
    destruct (dead e) eqn:Hd.
    { split_and!; try done; first [apply store_le_refl|split; eauto]. }
    destruct (allow_locked_any growcap p now e Hp1) as (d & e' & Hal & _ & _ & Hd').
    rewrite Hal. split_and!; try done; [|eapply store_le_set; [done|congruence]].
    apply store_ok_set; [done|eauto|]. eapply allow_locked_bound; eauto. by eapply so_bound.
  - pose proof (CompareAndDelete_conc B m key ptr Hok) as [H1 H2].
    destruct (CompareAndDelete key ptr m) as [ok m']; simpl in *.
    case_if; [done|].
    destruct (allow_locked_any growcap p now new_memEntry Hp1) as (d & e' & Hal & _).
    by rewrite Hal.
  - split_and!; try done. apply store_le_refl.
  - done.
Qed.

Lemma tstep_ok B growcap t m t' m' :
  0 ≤ B → tstep growcap t m t' m' → store_ok B m → thread_ok B m t →
  store_ok B m' ∧ store_le m m' ∧ thread_ok B m' t'.
Proof.
  intros HB Hstep Hok Ht. pose proof (store_le_refl m) as Hrefl.
  destruct Hstep as [key p now pc m pc' m' Hrun Heq|?????|????? Hk|key p now ptr e m He e'
    |? ? ? ? ? _ Hk|???|op visited key ptr e gone e' m He Hl|op visited key ptr m].
  - pose proof (allow_step_ok B growcap key p now pc m HB Hok Ht) as H. by rewrite Heq in H.
  - done.
  - split_and!; try done. simpl. split; [by eapply so_alloc|]. intros k Hk'. by eapply so_inj.
  - split_and!; try done.
    + apply store_ok_set; [done|eauto|]. unfold e'. rewrite prune_elems.
      pose proof (so_bound B m Hok ptr e He). unfold len in *. rewrite length_drop. lia.
    + eapply store_le_set; [done|]. unfold e'. by rewrite (proj1 (proj2 (prune_fields _ _))).
  - split_and!; try done. simpl. split; [by eapply so_alloc|]. intros k Hk'. by eapply so_inj.
  - done.
  - assert (len (elems (hits e')) ≤ B ∧ (dead e = true → dead e' = true)) as [Hlen Hd].
    { pose proof (so_bound B m Hok ptr e He) as Hb. destruct op as [now|]; simpl in Hl.
      - pose proof (cleanup_locked_bound B (UnixNano now) (minTTL m) e HB Hb) as H.
        by rewrite Hl in H.
      - injection Hl as <- <-. done. }
    assert (Hle : store_le m (set_entry ptr e' m)) by (by eapply store_le_set).
    split_and!; [by apply store_ok_set; eauto|done|].
    destruct gone; [|done]. by eapply holds_mono.
  - destruct op as [now|]; simpl; [destruct (evict_conc B m key ptr Hok)
                                  |destruct (CompareAndDelete_conc B m key ptr Hok)]; done.
Qed.

(** ** Only dead entries leave the table *)

Lemma live_tracked_set m ptr e0 e :
  live_tracked m → heap m !! ptr = Some e0 → (dead e = false → dead e0 = false) →
  live_tracked (set_entry ptr e m).
Proof.
  intros Hlt H0 Hd q e' Hq Hl. simpl in *. destruct (decide (ptr = q)) as [->|Hne].
  - rewrite lookup_insert_eq in Hq. injection Hq as <-. eauto.
  - rewrite lookup_insert_ne in Hq by done. eauto.
Qed.

Lemma live_tracked_untrack m key ptr ev :
  live_tracked m → entries m !! key = Some ptr →
  (∃ e, heap m !! ptr = Some e ∧ dead e = true) →
  live_tracked (MkMem (heap m) (delete key (entries m)) (next m) (minTTL m) ev).
Proof.
  intros Hlt Hk (e0 & He0 & Hd0) q e Hq Hl. simpl in *. destruct (Hlt q e Hq Hl) as [k Hk'].
  exists k. rewrite lookup_delete_ne; [done|]. intros ->. congruence.
Qed.

Lemma CompareAndDelete_live m key ptr :
  live_tracked m → (∃ e, heap m !! ptr = Some e ∧ dead e = true) →
  live_tracked (snd (CompareAndDelete key ptr m)) ∧ live_tracked (evict key ptr m).
Proof.
  intros Hlt Hd. unfold evict, CompareAndDelete. case_bool_decide as Hk; simpl; [|done].
  split; by eapply live_tracked_untrack.
Qed.

Lemma LoadOrStore_live B m key :
  store_ok B m → live_tracked m → live_tracked (snd (LoadOrStore key m)).
Proof.
  intros Hok Hlt. unfold LoadOrStore. destruct (entries m !! key) eqn:Hk; simpl; [done|].
  intros q e Hq Hl. simpl in *. destruct (decide (next m = q)) as [<-|Hne].
  - exists key. by rewrite lookup_insert_eq.
  - rewrite lookup_insert_ne in Hq by done. destruct (Hlt q e Hq Hl) as [k Hk'].
    exists k. rewrite lookup_insert_ne; [done|]. intros ->. congruence.
Qed.

Lemma allow_step_live B growcap key p now pc m :
  store_ok B m → thread_ok B m (TAllow key p now pc) → live_tracked m →
  doomed m (TAllow key p now pc) →
  let '(pc', m') := allow_step growcap key p now pc m in
  live_tracked m' ∧ doomed m' (TAllow key p now pc').
Proof.
  intros Hok (Hp & _ & Hpc) Hlt Hd. pose proof Hp as [[Hp1 _] _].
  destruct pc as [a|a ptr|a ptr|a ptr|d|]; simpl in *; try done.
  - pose proof (LoadOrStore_live B m key Hok Hlt). by destruct (LoadOrStore key m).
  - destruct Hpc as [[e He] _]. rewrite He. split; [|done]. by eapply live_tracked_set.
  - destruct Hpc as [[e He] _]. rewrite He. destruct (dead e) eqn:Hde; [by eauto|].
    destruct (allow_locked_any growcap p now e Hp1) as (d & e' & Hal & _). rewrite Hal.
    split; [|done]. by eapply live_tracked_set.
  - destruct (CompareAndDelete_live m key ptr Hlt Hd) as [H _].
    destruct (CompareAndDelete key ptr m) as [ok m']; simpl in *. case_if; [done|].
    destruct (allow_locked_any growcap p now new_memEntry Hp1) as (d & e' & Hal & _).
    by rewrite Hal.
Qed.

Lemma range_locked_dead op ttl e gone e' :
  range_locked op ttl e = (gone, e') → if gone then dead e' = true else dead e' = dead e.
Proof.
  destruct op as [now|]; simpl; [|by intros [= <- <-]]. unfold cleanup_locked.
  destruct (_ <? _) in |- *; intros [= <- <-]; [done|]. apply prune_fields.
Qed.

Lemma tstep_live B growcap t m t' m' :
  tstep growcap t m t' m' → store_ok B m → thread_ok B m t → live_tracked m → doomed m t →
  live_tracked m' ∧ doomed m' t'.
Proof.
  intros Hstep Hok Ht Hlt Hd.
  destruct Hstep as [key p now pc m pc' m' Hrun Heq|?????|????? Hk|key p now ptr e m He e'
    |? ? ? ? ? _ Hk|???|op visited key ptr e gone e' m He Hl|op visited key ptr m]; try done.
  - pose proof (allow_step_live B growcap key p now pc m Hok Ht Hlt Hd) as H. by rewrite Heq in H.
  - split; [|done]. eapply live_tracked_set; [done..|]. unfold e'.
    by rewrite (proj1 (proj2 (prune_fields _ _))).
  - apply range_locked_dead in Hl. split.
    + eapply live_tracked_set; [done..|]. destruct gone; congruence.
    + destruct gone; [|done]. exists e'. simpl. by rewrite lookup_insert_eq.
  - destruct (CompareAndDelete_live m key ptr Hlt Hd) as [H1 H2]. destruct op; simpl; done.
Qed.

Lemma doomed_mono m m' t : store_le m m' → doomed m t → doomed m' t.
Proof.
  intros Hle. destruct t as [key p now []|key p now pc|op []]; simpl; try done;
    intros (e & He & Hd); by apply (sl_dead _ _ Hle _ _ He).
Qed.

(** The table part of the invariant, along an action. *)
Definition table_live (c : conc) : Prop :=
  live_tracked (shared c) ∧ Forall (doomed (shared c)) (threads c).

Lemma table_live_step B growcap i c c' :
  0 ≤ B → conc_ok B c → table_live c → cstep_by growcap i c c' → table_live c'.
Proof.
  intros HB [Hok Hts] [Hlt Hd] Hstep. destruct Hstep as [m ths t t' m' Hi Hstep]; simpl in *.
  pose proof (Forall_lookup_1 _ _ _ _ Hts Hi) as Ht. pose proof (Forall_lookup_1 _ _ _ _ Hd Hi) as Hdt.
  destruct (tstep_ok B growcap t m t' m' HB Hstep Hok Ht) as (_ & Hle & _).
  destruct (tstep_live B growcap t m t' m' Hstep Hok Ht Hlt Hdt) as [Hlt' Hdt'].
  split; [done|]; simpl. apply Forall_insert; [|done].
  eapply Forall_impl; [exact Hd|]. intros; by eapply doomed_mono.
Qed.

Lemma conc_ok_step B growcap i c c' :
  0 ≤ B → conc_ok B c → cstep_by growcap i c c' → conc_ok B c'.
Proof.
  intros HB [Hok Hts] Hstep. destruct Hstep as [m ths t t' m' Hi Hstep]; simpl in *.
  assert (Ht : thread_ok B m t) by (by eapply Forall_lookup_1).
  destruct (tstep_ok B growcap t m t' m' HB Hstep Hok Ht) as (Hok' & Hle & Ht').
  split; [done|]; simpl. apply Forall_insert; [|done].
  eapply Forall_impl; [exact Hts|]. intros; by eapply thread_ok_mono.
Qed.

Lemma store_ok_New B : 0 ≤ B → store_ok B NewMemoryLimiter.
Proof. intros HB. by constructor. Qed.

Lemma conc_ok_init B c :
  0 ≤ B → shared c = NewMemoryLimiter → Forall starting (threads c) →
  Forall (λ t, limit_of t ≤ B) (threads c) → conc_ok B c.
Proof.
  intros HB Hm Hs Hl. split; rewrite Hm; [by apply store_ok_New|].
  rewrite !Forall_forall in *. intros t Hin. specialize (Hs t Hin). specialize (Hl t Hin).
  destruct t as [key p now pc|key p now pc|op pc]; simpl in *; [|by destruct Hs as [_ ->]|by subst].
  by destruct Hs as [? ->].
Qed.

(** The threads of an execution keep their operation, key, policy and clock reading. *)
Lemma tstep_limit growcap t m t' m' : tstep growcap t m t' m' → limit_of t' = limit_of t.
Proof. by destruct 1. Qed.

(** C12.  Whatever goroutines run [Allow] (under policies of limit at most [B]), [Peek], the
    janitor and [Reset] on one limiter, and however their actions interleave: no call panics,
    no two keys ever share an entry, no entry ever holds more than [B] hits, and an entry that
    can still count requests never leaves the table: the janitor and [Reset] mark an entry dead
    before they drop it, so that no request is ever counted where later ones do not look. *)
Theorem concurrent_safety growcap (B : Z) (ths : list thread) (c : conc) :
  0 ≤ B →
  Forall starting ths → Forall (λ t, limit_of t ≤ B) ths →
  rtc (step (limiter_system growcap)) (MkConc NewMemoryLimiter ths) c →
  Forall (λ t, panicked t = false) (threads c)
  ∧ (∀ k k' ptr, entries (shared c) !! k = Some ptr → entries (shared c) !! k' = Some ptr → k = k')
  ∧ (∀ ptr e, heap (shared c) !! ptr = Some e → len (elems (hits e)) ≤ B)
  ∧ (∀ ptr e, heap (shared c) !! ptr = Some e → dead e = false →
       ∃ key, entries (shared c) !! key = Some ptr).
Proof.
  intros HB Hs Hl Hrtc.
  assert (conc_ok B c ∧ table_live c) as [[Hok Hts] [Hlt _]].
  { assert (H0 : conc_ok B (MkConc NewMemoryLimiter ths) ∧ table_live (MkConc NewMemoryLimiter ths)).
    { split; [by apply conc_ok_init|]. split; [done|]. simpl.
      eapply Forall_impl; [exact Hs|]. intros [? ? ? ?|? ? ? ?|? ?]; simpl; [|done|];
        [by intros [_ ->]|by intros ->]. }
    revert H0. induction Hrtc as [|c1 c2 c3 [i Hi] _ IH]; [done|].
    intros [H1 H2]. apply IH. split; [by eapply conc_ok_step|by eapply table_live_step]. }
  split_and!; [|apply Hok|apply Hok|exact Hlt].
  eapply Forall_impl; [exact Hts|]. intros t Ht.
  destruct t as [key p now []| |]; simpl in *; tauto.
Qed.

(** A call that is about to count its request when a reset marks the entry: it finds it dead, drops
    it before the reset does, and counts in a new one. *)
Definition racing : list thread :=
  [TAllow "a" (MkPolicy 1 Second) (Unix0 5) (PLookup 0); TRange RReset (RNext [])].

Ltac turn i :=
  eapply rtc_l;
  [exists i; eapply cstep_thread;
    [reflexivity
    |first [eapply step_allow; reflexivity
           |eapply (step_range_next _ _ _ "a"); [by apply not_elem_of_nil|reflexivity]
           |eapply step_range_lock; reflexivity
           |eapply step_range_delete]]
  |].

Lemma racing_run :
  ∃ c, rtc (step (limiter_system (λ _ n, n))) (MkConc NewMemoryLimiter racing) c
    ∧ countb (admitted_by "a") (threads c) = 1%nat
    ∧ (dead <$> heap (shared c) !! 0%nat) = Some true
    ∧ (dead <$> heap (shared c) !! 1%nat) = Some false.
Proof.
  eexists. split.
  - unfold racing. turn 0%nat. turn 0%nat. turn 1%nat. turn 1%nat. turn 0%nat. turn 0%nat. turn 1%nat.
    turn 0%nat. turn 0%nat. turn 0%nat. apply rtc_refl.
  - vm_compute. done.
Qed.

Lemma concurrent_safety_witness :
  ∃ c e, rtc (step (limiter_system (λ _ n, n))) (MkConc NewMemoryLimiter racing) c
    ∧ countb (admitted_by "a") (threads c) = 1%nat ∧ Forall (λ t, panicked t = false) (threads c)
    ∧ heap (shared c) !! 1%nat = Some e ∧ ∃ key, entries (shared c) !! key = Some 1%nat.
Proof.
  destruct racing_run as (c & Hrun & Hadm & _ & Hlive).
  destruct (heap (shared c) !! 1%nat) as [e|] eqn:He; [|discriminate Hlive]. injection Hlive as Hlive.
  destruct (concurrent_safety (λ _ n, n) 1 racing c) as (Hpanic & _ & _ & Htable).
  - lia.
  - repeat constructor; unfold_durations; simpl; lia.
  - repeat constructor; simpl; lia.
  - exact Hrun.
  - exists c, e. split; [exact Hrun|]. split; [exact Hadm|]. split; [exact Hpanic|].
    split; [exact He|]. exact (Htable 1%nat e He Hlive).
Defined.

(** ** Every call returns *)

(** An action of [Allow] uses up fuel, whatever state the others left the store in. *)
Lemma allow_step_measure growcap key p now pc m :
  running pc = true →
  (allow_measure (fst (allow_step growcap key p now pc m)) < allow_measure pc)%nat.
Proof.
  destruct pc as [a|a ptr|a ptr|a ptr|d|]; simpl; intros Hr; try done.
  - destruct (LoadOrStore key m); simpl; lia.
  - destruct (heap m !! ptr); simpl; lia.
  - destruct (heap m !! ptr) as [e|]; [|simpl; lia]. destruct (dead e); [simpl; lia|].
    destruct (allow_locked growcap p now e) as [[]|]; simpl; lia.
  - destruct (CompareAndDelete key ptr m). destruct (a <? 8)%nat eqn:E.
    + apply Nat.ltb_lt in E. simpl. lia.
    + destruct (allow_locked growcap p now new_memEntry) as [[]|]; simpl; lia.
Qed.

Lemma exec_ok B growcap sched c c' :
  0 ≤ B → exec growcap sched c c' → conc_ok B c → conc_ok B c'.
Proof. intros HB. induction 1; eauto using conc_ok_step. Qed.

(** The share of a schedule one call takes. *)
Lemma exec_measure growcap sched i key p now c c' :
  exec growcap sched c c' →
  ∀ pc, threads c !! i = Some (TAllow key p now pc) →
  ∃ pc', threads c' !! i = Some (TAllow key p now pc')
    ∧ (count_occ Nat.eq_dec sched i + allow_measure pc' ≤ allow_measure pc)%nat.
Proof.
  induction 1 as [c|j sched c c' c'' Hstep _ IH]; intros pc Hpc; [eauto|].
  destruct Hstep as [m ths t t' m' Hj Hstep]; simpl in *.
  destruct (Nat.eq_dec j i) as [->|Hne].
  - rewrite Hpc in Hj. injection Hj as <-. inversion Hstep as [? ? ? ? ? pc1 ? Hrun Heq| | | | | | |].
    subst. pose proof (allow_step_measure growcap key p now pc m Hrun) as Hm.
    rewrite Heq in Hm. simpl in Hm.
    destruct (IH pc1) as (pc' & Hpc' & Hle).
    { apply list_lookup_insert_eq. by eapply lookup_lt_Some. }
    exists pc'. split; [done|]. lia.
  - apply IH. by rewrite list_lookup_insert_ne.
Qed.

(** Finitely many goroutines have a common bound on their limits. *)
Lemma limits_bounded ths : ∃ B, 0 ≤ B ∧ Forall (λ t, limit_of t ≤ B) ths.
Proof.
  induction ths as [|t ths (B & HB & IH)]; [by exists 0|].
  exists (Z.max (limit_of t) B). split; [lia|]. constructor; [lia|].
  eapply Forall_impl; [exact IH|]. simpl; lia.
Qed.

Lemma run_sched_rtc growcap sched c c' :
  run_sched growcap sched c = Some c' → rtc (step (limiter_system growcap)) c c'.
Proof.
  revert c. induction sched as [|i sched IH]; intros c; simpl; [intros [= ->]; apply rtc_refl|].
  unfold cstep_allow. destruct c as [m ths]; simpl.
  destruct (ths !! i) as [[key p now pc| |]|] eqn:Hi; try done.
  destruct (running pc) eqn:Hrun; [|done].
  destruct (allow_step growcap key p now pc m) as [pc' m'] eqn:E. simpl. intros Hc.
  eapply rtc_l; [|by apply IH]. exists i. econstructor; [exact Hi|]. by apply step_allow.
Qed.

(** C27.  [Allow] is wait-free: in any execution, however the janitor, resets and other calls
    interfere, a call that starts takes at most 40 actions of its own (the retry loop is
    bounded, with a detached entry as the last resort), is never stuck before it has returned,
    and never panics; so any schedule that gives it 40 turns has seen it return. *)
Theorem Allow_wait_free growcap (ths : list thread) (sched : list nat) (c : conc)
    (i : nat) key p now :
  Forall starting ths →
  ths !! i = Some (TAllow key p now (PLookup 0)) →
  exec growcap sched (MkConc NewMemoryLimiter ths) c →
  ∃ pc, threads c !! i = Some (TAllow key p now pc)
    ∧ (count_occ Nat.eq_dec sched i + allow_measure pc ≤ 40)%nat
    ∧ (running pc = true → ∃ c', cstep_by growcap i c c')
    ∧ (running pc = false → ∃ d, pc = PDone d).
Proof.
  intros Hs Hi Hex. destruct (exec_measure growcap sched i key p now _ _ Hex _ Hi)
    as (pc & Hpc & Hle).
  exists pc. split; [done|]. split; [exact Hle|]. split.
  - intros Hrun. destruct c as [m ths']. simpl in *.
    destruct (allow_step growcap key p now pc m) as [pc' m'] eqn:E.
    eexists. econstructor; [exact Hpc|]. by apply step_allow with (pc' := pc') (m' := m').
  - intros Hrun. destruct (limits_bounded ths) as (b & Hb0 & Hb).
    pose proof (exec_ok b growcap _ _ _ Hb0 Hex (conc_ok_init b (MkConc _ ths) Hb0 eq_refl Hs Hb))
      as [_ Hts].
    apply (Forall_lookup_1 _ _ _ _ Hts) in Hpc as (_ & _ & Hpc).
    destruct pc; try done. eauto.
Qed.

Lemma Allow_wait_free_witness :
  let p := MkPolicy 1 Second in
  let ths := [TAllow "a" p (Unix0 5) (PLookup 0)] in
  Forall starting ths
  ∧ ∃ c pc, exec (λ _ n, n) [0%nat; 0%nat] (MkConc NewMemoryLimiter ths) c
      ∧ threads c !! 0%nat = Some (TAllow "a" p (Unix0 5) pc)
      ∧ (2 + allow_measure pc ≤ 40)%nat.
Proof.
  set (p := MkPolicy 1 Second). set (ths := [TAllow "a" p (Unix0 5) (PLookup 0)]).
  assert (Hs : Forall starting ths).
  { repeat constructor; unfold_durations; simpl; lia. }
  split; [done|].
  assert (∃ c, exec (λ _ n, n) [0%nat; 0%nat] (MkConc NewMemoryLimiter ths) c) as [c Hex].
  { eexists. eapply exec_cons; [eapply (cstep_thread _ 0); [reflexivity|by apply step_allow]|].
    eapply exec_cons; [eapply (cstep_thread _ 0); [reflexivity|by apply step_allow]|].
    apply exec_nil. }
  destruct (Allow_wait_free (λ _ n, n) ths _ _ 0%nat "a" p (Unix0 5) Hs eq_refl Hex)
    as (pc & Hpc & Hle & _).
  exists c, pc. split; [exact Hex|]. by split.
Defined.
