(* ===== verification/MemoryBurst.v ===== *)
(** * A burst of concurrent requests, and hits out of order

    Requests for one key whose clock readings lie within one window race with each other and
    with requests for other keys: exactly the limit get through.  The same interleavings show
    that the hits of an entry need not be in ascending order. *)

From S2P Require Import Prelude.
From S2P Require Import GoTime.
From S2P Require Import Policy.
From S2P Require Import SlidingWindow.
From S2P Require Import Memory.
From S2P Require Import MemoryConc.

Open Scope Z_scope.

Section Burst.
Context (growcap : Z → Z → Z) (key : string) (p : Policy) (lo hi : Z).

(** Requests for [key] use the policy [p] and read the clock between [lo] and [hi]; other
    keys are unconstrained, and no janitor or reset runs. *)
Definition burst_thread (t : thread) : Prop :=
  match t with
  | TAllow k q now _ | TPeek k q now _ => k = key → q = p ∧ lo ≤ wall now ≤ hi
  | TRange _ _ => False
  end.

(** Nobody has touched [key] yet. *)
Definition waiting (t : thread) : Prop :=
  match t with
  | TAllow k _ _ pc => k = key → pc = PLookup 0
  | TPeek k _ _ pc => k = key → ∀ ptr, pc ≠ KLock ptr
  | TRange _ _ => True
  end.

(** The entry of [key] is [ptr], with [n] hits: a denied request saw at least the limit. *)
Definition attached (ptr : nat) (n : Z) (t : thread) : Prop :=
  match t with
  | TAllow k _ _ pc => k = key →
      match pc with
      | PLookup a => a = 0%nat
      | PSeen a q | PLock a q => q = ptr
      | PDone d => Allowed d = false → Limit p ≤ n
      | PDelete _ _ | PPanic => False
      end
  | TPeek k _ _ pc => k = key → ∀ q, pc = KLock q → q = ptr
  | TRange _ _ => True
  end.

Definition burst_inv (c : conc) : Prop :=
  Forall burst_thread (threads c)
  ∧ match entries (shared c) !! key with
    | None => Forall waiting (threads c)
    | Some ptr => ∃ e, heap (shared c) !! ptr = Some e
        ∧ dead e = false
        ∧ len (elems (hits e)) = Z.of_nat (countb (admitted_by key) (threads c))
        ∧ len (elems (hits e)) ≤ Limit p
        ∧ Forall (λ t, lo ≤ t ≤ hi) (elems (hits e))
        ∧ Forall (attached ptr (len (elems (hits e)))) (threads c)
    end.

Hypothesis Hp : enforceable p.
Hypothesis Hlo : 0 ≤ lo.
Hypothesis Hhi : hi ≤ last_instant.
Hypothesis Hwin : hi - Window p < lo.

(** ** Inside one window nothing expires *)

Lemma pruned_fresh now l :
  lo ≤ wall now ≤ hi → Forall (λ t, lo ≤ t ≤ hi) l → pruned p now l = l.
Proof.
  intros Hn Hl. unfold pruned. rewrite (cutoff_id p now Hp) by lia.
  destruct Hl as [|t l Ht _]; [done|]. simpl.
  destruct (Z.leb_spec t (wall now - Window p)); [lia|done].
Qed.

Lemma UnixNano_burst now : lo ≤ wall now ≤ hi → UnixNano now = wall now.
Proof. intros Hn. apply UnixNano_id. unfold last_instant in Hhi. lia. Qed.

(** ** Requests for other keys do not touch the entry of [key] *)

Definition other (t : thread) : Prop :=
  match t with TAllow k _ _ _ | TPeek k _ _ _ => k ≠ key | TRange _ _ => False end.

Lemma holds_other m k ptr q :
  k ≠ key → holds m k q → entries m !! key = Some ptr → q ≠ ptr.
Proof. intros Hne [_ Hk] Hptr ->. by apply Hne, eq_sym, Hk. Qed.

Lemma LoadOrStore_other B m k :
  store_ok B m → k ≠ key →
  entries (snd (LoadOrStore k m)) !! key = entries m !! key
  ∧ ∀ ptr, entries m !! key = Some ptr → heap (snd (LoadOrStore k m)) !! ptr = heap m !! ptr.
Proof.
  intros Hok Hne. unfold LoadOrStore. destruct (entries m !! k); simpl; [done|].
  split; [by apply lookup_insert_ne|]. intros ptr Hptr. apply lookup_insert_ne. intros <-.
  destruct (so_alloc B m Hok _ _ Hptr) as [e He]. by rewrite (so_fresh B m Hok) in He.
Qed.

Lemma tstep_other B t m t' m' :
  tstep growcap t m t' m' → store_ok B m → thread_ok B m t → other t →
  other t' ∧ entries m' !! key = entries m !! key
  ∧ ∀ ptr, entries m !! key = Some ptr → heap m' !! ptr = heap m !! ptr.
Proof.
  intros Hstep Hok Ht Ho.
  destruct Hstep as [k q now pc m pc' m' Hrun Heq|?????|????? Hk|k q now ptr e m He e'| | | |];
    try done.
  - destruct Ht as (_ & _ & Ht). simpl in Ho. split; [done|].
    destruct pc as [a|a ptr|a ptr|a ptr|d|]; simpl in Heq; try done.
    + destruct (LoadOrStore_other B m k Hok Ho) as [H1 H2].
      destruct (LoadOrStore k m); simpl in *. by injection Heq as <- <-.
    + destruct (heap m !! ptr); injection Heq as <- <-; [|done]. split; [done|].
      intros q' Hq'. apply lookup_insert_ne. by eapply holds_other.
    + destruct (heap m !! ptr) as [e|]; [|by injection Heq as <- <-].
      destruct (dead e); [by injection Heq as <- <-|].
      destruct (allow_locked growcap q now e) as [[d e']|]; injection Heq as <- <-; [|done].
      split; [done|]. intros q' Hq'. apply lookup_insert_ne. by eapply holds_other.
    + unfold CompareAndDelete in Heq.
      assert (∀ m0 : MemoryLimiter, delete k (entries m0) !! key = entries m0 !! key) as Hdel
        by (intros; by apply lookup_delete_ne).
      case_bool_decide; destruct (a <? 8)%nat; try destruct (allow_locked _ _ _ _) as [[]|];
        injection Heq as <- <-; simpl; by rewrite ?Hdel.
  - simpl in *. split; [done|]. split; [done|]. intros q' Hq'. apply lookup_insert_ne.
    by eapply holds_other.
Qed.

(** ** The invariant of a burst *)

Lemma attached_mono ptr n n' t : n ≤ n' → attached ptr n t → attached ptr n' t.
Proof. intros Hle. destruct t as [k q now []| |]; simpl; try done. intros H Hk Hd. etrans; eauto. Qed.

Lemma waiting_attached ptr n t : waiting t → attached ptr n t.
Proof.
  destruct t as [k q now pc|k q now pc|]; simpl; [| |done].
  - intros H Hk. by rewrite (H Hk).
  - intros H Hk q' Hq. by destruct (H Hk q').
Qed.

Lemma waiting_admitted ths : Forall waiting ths → countb (admitted_by key) ths = 0%nat.
Proof.
  induction 1 as [|t ths Ht _ IH]; [done|]. simpl. rewrite IH.
  destruct t as [k q now pc| |]; simpl in *; [|done..].
  destruct pc; try done. case_bool_decide; simpl; [by specialize (Ht H)|done].
Qed.

(** What a step of a request for [key] does to the entry it works on. *)
Lemma burst_entry_step now ptr e e' t t' ths i m' :
  Forall burst_thread ths →
  ths !! i = Some t →
  entries m' !! key = Some ptr → heap m' !! ptr = Some e' →
  dead e' = false →
  len (elems (hits e)) = Z.of_nat (countb (admitted_by key) ths) →
  len (elems (hits e)) ≤ Limit p →
  Forall (λ t, lo ≤ t ≤ hi) (elems (hits e)) →
  Forall (attached ptr (len (elems (hits e)))) ths →
  lo ≤ wall now ≤ hi →
  burst_thread t' → admitted_by key t = false →
  (elems (hits e') = elems (hits e) ∧ admitted_by key t' = false
   ∨ elems (hits e') = elems (hits e) ++ [wall now] ∧ admitted_by key t' = true
     ∧ len (elems (hits e)) < Limit p) →
  attached ptr (len (elems (hits e'))) t' →
  burst_inv (MkConc m' (<[i := t']> ths)).
Proof.
  intros Hbt Hi Hk He' Hd Hcnt HL Hr Hat Hnow Ht' Hadm Hcase Hat'.
  pose proof (countb_insert (admitted_by key) ths i t t' Hi) as Hins. rewrite Hadm in Hins.
  split; simpl; [by apply Forall_insert|]. rewrite Hk. exists e'. split; [done|]. split; [done|].
  assert (Hle : len (elems (hits e)) ≤ len (elems (hits e'))).
  { destruct Hcase as [[-> _]|[-> _]]; [done|]. rewrite len_app.
    pose proof (len_nonneg [wall now]). lia. }
  assert (Forall (attached ptr (len (elems (hits e')))) (<[i := t']> ths)).
  { apply Forall_insert; [|done]. eapply Forall_impl; [exact Hat|].
    intros; by eapply attached_mono. }
  destruct Hcase as [[He Ha]|(He & Ha & Hlt)]; rewrite Ha in Hins; rewrite He in *.
  - split_and!; try done. lia.
  - rewrite len_app in *. change (len [wall now]) with 1 in *.
    split_and!; try done; [lia|lia|]. by apply Forall_snoc_intro.
Qed.

Lemma burst_inv_own B i m ths t t' m' :
  store_ok B m → thread_ok B m t → burst_inv (MkConc m ths) →
  ths !! i = Some t → ¬ other t → burst_thread t' → tstep growcap t m t' m' →
  burst_inv (MkConc m' (<[i := t']> ths)).
Proof.
  intros Hok Ht [Hbt Hinv] Hi Ho Ht' Hstep. simpl in Hbt, Hinv.
  pose proof (Forall_lookup_1 _ _ _ _ Hbt Hi) as Hb.
  destruct Hstep as [k q now pc m pc' m' Hrun Heq|k q now m Hm|k q now ptr m Hm
    |k q now ptr e m He e0| | | |]; try done;
    (destruct (decide (k = key)) as [->|Hne]; [|by exfalso; apply Ho]);
    destruct (Hb eq_refl) as [-> Hnow]; clear Ho.
  - assert (Hadm : admitted_by key (TAllow key p now pc) = false) by (by destruct pc).
    destruct (entries m !! key) as [ptr|] eqn:Hk.
    + destruct Hinv as (e & He & Hd & Hcnt & HL & Hr & Hat).
      pose proof (Forall_lookup_1 _ _ _ _ Hat Hi eq_refl) as Hpc.
      destruct pc as [a|a q|a q|a q|d|]; simpl in Heq, Hpc; subst; try done.
      * unfold LoadOrStore in Heq. rewrite Hk in Heq. injection Heq as <- <-.
        eapply (burst_entry_step now ptr e e); eauto. by intros _.
      * rewrite He in Heq. injection Heq as <- <-.
        eapply (burst_entry_step now ptr e (set_lastSeen (UnixNano now) e)); simpl; eauto.
        apply lookup_insert_eq.
      * rewrite He, Hd in Heq. destruct (allow_locked_any growcap p now e (proj1 (proj1 Hp)))
          as (d & e' & Hal & HA & Hh & Hd'). rewrite Hal in Heq. injection Heq as <- <-.
        rewrite pruned_fresh in HA, Hh by done. rewrite UnixNano_burst in Hh by done.
        eapply (burst_entry_step now ptr e e'); simpl; eauto; [apply lookup_insert_eq| |].
        -- rewrite bool_decide_true by done. simpl. rewrite HA, Hh.
           destruct (Z.ltb_spec (len (elems (hits e))) (Limit p)); eauto.
        -- intros _ Hden. rewrite HA in Hden. rewrite Hh, Hden. zify_bool. lia.
    + pose proof (Forall_lookup_1 _ _ _ _ Hinv Hi eq_refl) as ->. simpl in Heq.
      unfold LoadOrStore in Heq. rewrite Hk in Heq. injection Heq as <- <-.
      pose proof (waiting_admitted ths Hinv) as Hz.
      eapply (burst_entry_step now (next m) new_memEntry new_memEntry); simpl; eauto.
      * apply lookup_insert_eq.
      * apply lookup_insert_eq.
      * by rewrite Hz.
      * destruct Hp as [[? _] _]. unfold len; simpl. lia.
      * eapply Forall_impl; [exact Hinv|]. intros; by apply waiting_attached.
  - split; simpl; [by apply Forall_insert|]. rewrite Hm in Hinv |- *.
    by apply Forall_insert.
  - split; simpl; [by apply Forall_insert|]. rewrite Hm in Hinv |- *.
    destruct Hinv as (e & He & Hd & Hcnt & HL & Hr & Hat). exists e.
    pose proof (countb_insert (admitted_by key) ths i _ (TPeek key p now (KLock ptr)) Hi) as Hins.
    simpl in Hins. split_and!; try done; [lia|]. apply Forall_insert; [done|]. by intros _ ? [= ->].
  - assert (Hkey : ∃ q, entries m !! key = Some q).
    { destruct (entries m !! key); [eauto|].
      by destruct (Forall_lookup_1 _ _ _ _ Hinv Hi eq_refl ptr). }
    destruct Hkey as [q Hk]. rewrite Hk in Hinv.
    destruct Hinv as (e1 & He1 & Hd & Hcnt & HL & Hr & Hat).
    pose proof (Forall_lookup_1 _ _ _ _ Hat Hi eq_refl ptr eq_refl) as ->.
    assert (e1 = e) as -> by congruence.
    eapply (burst_entry_step now q e e0); simpl; eauto; [apply lookup_insert_eq| | |done].
    + unfold e0. by rewrite (proj1 (proj2 (prune_fields _ _))).
    + left. split; [|done]. unfold e0. rewrite prune_elems. by apply pruned_fresh.
Qed.

Lemma burst_inv_other B i m ths t t' m' :
  store_ok B m → thread_ok B m t → burst_inv (MkConc m ths) →
  ths !! i = Some t → other t → burst_thread t' → tstep growcap t m t' m' →
  burst_inv (MkConc m' (<[i := t']> ths)).
Proof.
  intros Hok Ht [Hbt Hinv] Hi Ho Ht' Hstep. simpl in Hbt, Hinv.
  destruct (tstep_other B t m t' m' Hstep Hok Ht Ho) as (Ho' & Hk & Hh).
  assert (Hna : ∀ u, other u → admitted_by key u = false ∧ waiting u ∧ ∀ q n, attached q n u).
  { intros [k q now pc|k q now pc|]; simpl; intros Hne; [| |done]; [|by split_and!].
    split_and!; try done. destruct pc; try done. by rewrite bool_decide_false. }
  pose proof (countb_insert (admitted_by key) ths i t t' Hi) as Hins.
  rewrite (proj1 (Hna _ Ho)), (proj1 (Hna _ Ho')) in Hins.
  split; simpl; [by apply Forall_insert|]. rewrite Hk.
  destruct (entries m !! key) as [ptr|].
  - destruct Hinv as (e & He & Hd & Hcnt & HL & Hr & Hat). exists e. rewrite (Hh ptr eq_refl).
    split_and!; try done; [lia|]. apply Forall_insert; [done|]. by apply Hna.
  - apply Forall_insert; [done|]. by apply Hna.
Qed.

Lemma burst_step B i c c' :
  0 ≤ B → conc_ok B c ∧ burst_inv c → cstep_by growcap i c c' → conc_ok B c' ∧ burst_inv c'.
Proof.
  intros HB [Hok Hinv] Hstep. split; [by eapply conc_ok_step|].
  destruct Hstep as [m ths t t' m' Hi Hstep]. destruct Hok as [Hok Hts]; simpl in *.
  pose proof (Forall_lookup_1 _ _ _ _ Hts Hi) as Ht.
  pose proof (Forall_lookup_1 _ _ _ _ (proj1 Hinv) Hi) as Hb.
  assert (Hb' : burst_thread t') by (by destruct Hstep).
  assert (Hdec : other t ∨ ¬ other t).
  { destruct t as [k|k|]; simpl; [| |by right]; destruct (decide (k = key)); naive_solver. }
  destruct Hdec; [by eapply burst_inv_other|by eapply burst_inv_own].
Qed.

Lemma burst_init ths :
  Forall starting ths → Forall burst_thread ths → burst_inv (MkConc NewMemoryLimiter ths).
Proof.
  intros Hs Hb. split; [done|]. simpl. rewrite lookup_empty. eapply Forall_impl; [exact Hs|].
  intros [k q now pc|k q now pc|]; simpl; [| |done]; by intros [_ ->].
Qed.

(** The requests of an execution keep their key. *)
Lemma cstep_calls i c c' :
  cstep_by growcap i c c' → countb (calls key) (threads c') = countb (calls key) (threads c).
Proof.
  destruct 1 as [m ths t t' m' Hi Hstep]; simpl.
  pose proof (countb_insert (calls key) ths i t t' Hi) as H.
  assert (calls key t' = calls key t) as E by (by destruct Hstep). rewrite E in H. lia.
Qed.

(** When every request for [key] has returned, either all were admitted or the limit is reached. *)
Lemma all_returned ths ptr n :
  Forall (attached ptr n) ths →
  Forall (λ t, calls key t = true → finished t = true) ths →
  countb (admitted_by key) ths = countb (calls key) ths ∨ Limit p ≤ n.
Proof.
  induction ths as [|t ths IH]; intros Ha Hf; [by left|].
  apply Forall_cons in Ha as [Ha Has]. apply Forall_cons in Hf as [Hf Hfs].
  destruct (IH Has Hfs) as [IH'|IH']; [|by right]. simpl. rewrite IH'.
  destruct t as [k q now pc|k q now pc|op pc]; simpl in *; try (by left).
  case_bool_decide as Hk; subst; [|left; by destruct pc].
  specialize (Ha eq_refl). specialize (Hf eq_refl). destruct pc; try done.
  destruct (Allowed d); [by left|right; auto].
Qed.

Lemma admitted_calls ths : (countb (admitted_by key) ths ≤ countb (calls key) ths)%nat.
Proof.
  induction ths as [|t ths IH]; [done|]. simpl. destruct t as [k q now pc| |]; simpl; try lia.
  destruct pc; simpl; case_bool_decide; simpl; try lia. case_if; lia.
Qed.

Lemma waiting_calls ths :
  Forall waiting ths → Forall (λ t, calls key t = true → finished t = true) ths →
  countb (calls key) ths = 0%nat.
Proof.
  induction 1 as [|t ths Ht _ IH]; intros Hf; [done|]. apply Forall_cons in Hf as [Hf Hfs].
  simpl. rewrite IH by done. destruct t as [k q now pc| |]; simpl in *; try done.
  case_bool_decide as Hk; [|done]. specialize (Ht Hk). subst. by specialize (Hf eq_refl).
Qed.

End Burst.

(** C28.  In a burst of concurrent requests for one key, under one policy and with clock readings
    inside one window, racing with any requests for other keys, never more than the limit are
    admitted; once all of them have returned, exactly the smaller of the limit and their number
    have been. *)
Theorem burst_admits_exactly growcap key (p : Policy) (lo hi : Z) (ths : list thread) (c : conc) :
  enforceable p → 0 ≤ lo → hi ≤ last_instant → hi - Window p < lo →
  Forall starting ths → Forall (burst_thread key p lo hi) ths →
  rtc (step (limiter_system growcap)) (MkConc NewMemoryLimiter ths) c →
  Z.of_nat (countb (admitted_by key) (threads c)) ≤ Limit p
  ∧ (Forall (λ t, calls key t = true → finished t = true) (threads c) →
     Z.of_nat (countb (admitted_by key) (threads c)) =
       Z.min (Limit p) (Z.of_nat (countb (calls key) ths))).
Proof.
  intros Hp Hlo Hhi Hwin Hs Hb Hrtc. pose proof Hp as [[HL _] _].
  destruct (limits_bounded ths) as (B & HB & HBs).
  assert (H : (conc_ok B c ∧ burst_inv key p lo hi c)
            ∧ countb (calls key) (threads c) = countb (calls key) ths).
  { assert (H0 : conc_ok B (MkConc NewMemoryLimiter ths)
              ∧ burst_inv key p lo hi (MkConc NewMemoryLimiter ths))
      by (split; [by apply conc_ok_init|by apply burst_init]).
    change ths with (threads (MkConc NewMemoryLimiter ths)). revert H0.
    induction Hrtc as [|c1 c2 c3 [i Hi] _ IH]; [done|]. intros H0.
    rewrite <- (cstep_calls growcap key i c1 c2 Hi). apply IH. by eapply burst_step. }
  destruct H as [[_ [Hbt Hinv]] Hcalls]. rewrite <- Hcalls.
  destruct (entries (shared c) !! key) as [ptr|].
  - destruct Hinv as (e & _ & _ & Hcnt & Hle & _ & Hat). split; [lia|]. intros Hf.
    pose proof (admitted_calls key (threads c)).
    destruct (all_returned key p (threads c) ptr _ Hat Hf); lia.
  - rewrite (waiting_admitted key _ Hinv). split; [lia|]. intros Hf.
    rewrite (waiting_calls key _ Hinv Hf). lia.
Qed.

Lemma burst_admits_exactly_witness :
  let p := MkPolicy 1 Second in
  let ths := [TAllow "a" p (Unix0 5) (PLookup 0); TAllow "a" p (Unix0 4) (PLookup 0)] in
  enforceable p ∧ Forall starting ths ∧ Forall (burst_thread "a" p 4 5) ths
  ∧ ∃ c, rtc (step (limiter_system (λ _ n, n))) (MkConc NewMemoryLimiter ths) c
      ∧ Z.of_nat (countb (admitted_by "a") (threads c)) = Z.min 1 2.
Proof.
  set (p := MkPolicy 1 Second).
  set (ths := [TAllow "a" p (Unix0 5) (PLookup 0); TAllow "a" p (Unix0 4) (PLookup 0)]).
  assert (Hp : enforceable p) by (split; unfold_durations; simpl; lia).
  assert (Hs : Forall starting ths) by (by repeat constructor; try apply Hp).
  assert (Hb : Forall (burst_thread "a" p 4 5) ths).
  { repeat constructor; simpl; try done; lia. }
  split_and!; try done.
  destruct (run_sched (λ _ n, n) [0; 1; 1; 0; 0; 1]%nat (MkConc NewMemoryLimiter ths))
    as [c|] eqn:E; [|by vm_compute in E].
  exists c. assert (Hrtc := run_sched_rtc _ _ _ _ E). split; [exact Hrtc|].
  apply (burst_admits_exactly (λ _ n, n) "a" p 4 5 ths c); try done.
  vm_compute in E. injection E as <-. repeat constructor.
Defined.

(** The hits of an entry need not be in ascending order: a goroutine that read the clock
    first may take the entry's lock second.  With a limit of two per ten seconds, requests
    that read 1s and 2s can leave the hits [2s; 1s]; the scan of [prune] then stops at the
    newer hit and keeps the expired one, so at 11.5s, with one live request out of two allowed,
    a request is denied. *)
Theorem concurrent_hits_unsorted growcap :
  let p := MkPolicy 2 (10 * Second) in
  let ths := [TAllow "a" p (Unix0 (1 * Second)) (PLookup 0);
              TAllow "a" p (Unix0 (2 * Second)) (PLookup 0)] in
  let later := Unix0 (11 * Second + 500 * Millisecond) in
  ∃ c, rtc (step (limiter_system growcap)) (MkConc NewMemoryLimiter ths) c
    ∧ countb (admitted_by "a") (threads c) = 2%nat
    ∧ (λ e, elems (hits e)) <$> lookup_entry (shared c) "a" = Some [2 * Second; 1 * Second]
    ∧ Allowed <$> fst (Allow growcap "a" p later (shared c)) = Some false
    ∧ admits 2 (10 * Second) (wall later) [1 * Second; 2 * Second] = true.
Proof.
  cbv zeta. eexists. split.
  - apply (run_sched_rtc growcap [0; 1; 0; 1; 1; 0]%nat). vm_compute. reflexivity.
  - split_and!; vm_compute; reflexivity.
Qed.
