(* ===== verification/RedisServer.v ===== *)
(** * The interface to the Redis server

    Redis is not part of the repository.  [RedisServer] lists the commands the limiter's Lua
    script issues, [RedisLaws] the documented behaviour it relies on, stated through what can
    be observed of a key: its sorted set in ascending order of score, and its time to live.
    The limiter is defined and proved against this interface; [RefDB], a small reference
    server, shows that the laws can be met and lets examples run. *)

From S2P Require Import Prelude.

Open Scope Z_scope.

Class RedisServer (DB : Type) := {
  (** [ZRANGE key 0 -1 WITHSCORES]: scores (milliseconds here) and members; [] if no key. *)
  zset : DB → string → list (Z * string);
  (** [PTTL key]: remaining milliseconds, [None] when the key never expires or is absent. *)
  pttl : DB → string → option Z;
  (** [ZREMRANGEBYSCORE key -inf max] *)
  zremrangebyscore : string → Z → DB → DB;
  (** [ZADD key score member] *)
  zadd : string → Z → string → DB → DB;
  (** [PEXPIRE key ms] *)
  pexpire : string → Z → DB → DB;
  (** the server's clock advances by some milliseconds *)
  elapse : Z → DB → DB }.

(** [ZCARD key] and [ZRANGE key 0 0 WITHSCORES]. *)
Definition zcard `{RedisServer DB} (key : string) (db : DB) : Z := len (zset db key).
Definition zrange_first `{RedisServer DB} (key : string) (db : DB) : option (Z * string) :=
  head (zset db key).

(** [ZCOUNT key (min +inf]: the members with a score above [min]. *)
Definition zcount_above `{RedisServer DB} (key : string) (min : Z) (db : DB) : Z :=
  len (filter (λ x, min < x.1) (zset db key)).

Class RedisLaws (DB : Type) `{RedisServer DB} : Prop := {
  zset_sorted db k : StronglySorted Z.le (fst <$> zset db k);
  zset_zrem k max db k' :
    zset (zremrangebyscore k max db) k' =
    if decide (k' = k) then filter (λ x, max < x.1) (zset db k) else zset db k';
  pttl_zrem k max db k' :
    k' ≠ k → pttl (zremrangebyscore k max db) k' = pttl db k';
  zset_zadd_new k s mem db :
    mem ∉ (snd <$> zset db k) → zset (zadd k s mem db) k ≡ₚ (s, mem) :: zset db k;
  zset_zadd_other k s mem db k' : k' ≠ k → zset (zadd k s mem db) k' = zset db k';
  pttl_zadd_other k s mem db k' : k' ≠ k → pttl (zadd k s mem db) k' = pttl db k';
  zset_pexpire k ms db k' : 0 < ms → zset (pexpire k ms db) k' = zset db k';
  pttl_pexpire k ms db k' :
    0 < ms → zset db k ≠ [] →
    pttl (pexpire k ms db) k' = if decide (k' = k) then Some ms else pttl db k';
  pttl_pexpire_absent k ms db k' :
    zset db k = [] → k' ≠ k → pttl (pexpire k ms db) k' = pttl db k';
  zset_elapse d db k :
    zset (elapse d db) k =
    match pttl db k with Some t => if t <=? d then [] else zset db k | None => zset db k end;
  pttl_elapse d db k t :
    pttl (elapse d db) k = Some t → zset (elapse d db) k ≠ [] → pttl db k = Some (t + d) }.

(** ** The reference server: a map from keys to a sorted set and an optional time to live *)

Abbreviation RefDB := (gmap string (list (Z * string) * option Z)).

Fixpoint insert_score (x : Z * string) (l : list (Z * string)) : list (Z * string) :=
  match l with
  | [] => [x]
  | y :: l' => if x.1 <=? y.1 then x :: l else y :: insert_score x l'
  end.

Definition by_score (l : list (Z * string)) : list (Z * string) := foldr insert_score [] l.

Definition ref_items (db : RefDB) (k : string) : list (Z * string) :=
  match db !! k with Some (l, _) => l | None => [] end.

Definition ref_zset (db : RefDB) (k : string) : list (Z * string) := by_score (ref_items db k).

Definition ref_set (k : string) (l : list (Z * string)) (db : RefDB) : RefDB :=
  match db !! k with
  | Some (_, t) => <[k := (l, t)]> db
  | None => <[k := (l, None)]> db
  end.

Definition ref_expire (d : Z) (x : list (Z * string) * option Z)
    : option (list (Z * string) * option Z) :=
  match x.2 with
  | Some t => if t <=? d then None else Some (x.1, Some (t - d))
  | None => Some x
  end.

#[export] Instance RefServer : RedisServer RefDB := {|
  zset := ref_zset;
  pttl := λ db k, x ← (db : RefDB) !! k; x.2;
  zremrangebyscore := λ k max db, ref_set k (filter (λ x, max < x.1) (ref_zset db k)) db;
  zadd := λ k s mem db, ref_set k ((s, mem) :: filter (λ x, x.2 ≠ mem) (ref_items db k)) db;
  pexpire := λ k ms db,
    match (db : RefDB) !! k with
    | Some (l, _) => <[k := (l, Some ms)]> db
    | None => db
    end;
  elapse := λ d db, omap (ref_expire d) (db : RefDB) |}.

(** ** The reference server obeys the laws *)

Abbreviation score_le := (λ x y : Z * string, x.1 ≤ y.1).

Lemma insert_score_perm x l : insert_score x l ≡ₚ x :: l.
Proof.
  induction l as [|y l IH]; simpl; [done|]. case_if; [done|]. rewrite IH. apply Permutation_swap.
Qed.

Lemma by_score_perm l : by_score l ≡ₚ l.
Proof. induction l as [|x l IH]; simpl; [done|]. by rewrite insert_score_perm, IH. Qed.

Lemma insert_score_sorted x l :
  StronglySorted score_le l → StronglySorted score_le (insert_score x l).
Proof.
  induction 1 as [|y l Hs IH Hy]; simpl; [by repeat constructor|].
  destruct (Z.leb_spec x.1 y.1).
  - constructor; [by constructor|]. constructor; [done|].
    eapply Forall_impl; [exact Hy|]. simpl; lia.
  - constructor; [done|]. rewrite insert_score_perm. constructor; [lia|done].
Qed.

Lemma by_score_sorted l : StronglySorted score_le (by_score l).
Proof. induction l; simpl; [constructor|]. by apply insert_score_sorted. Qed.

(** Sorting by score keeps a list that already is in order. *)
Lemma by_score_id l : StronglySorted score_le l → by_score l = l.
Proof.
  induction 1 as [|x l Hs IH Hx]; simpl; [done|]. rewrite IH. clear IH Hs.
  destruct Hx as [|y l Hxy _]; simpl; [done|]. by rewrite (proj2 (Z.leb_le _ _) Hxy).
Qed.

Lemma fst_sorted (l : list (Z * string)) :
  StronglySorted score_le l → StronglySorted Z.le (fst <$> l).
Proof. induction 1 as [|x l Hs IH Hx]; simpl; [constructor|constructor; [done|by apply Forall_fmap]]. Qed.

Lemma StronglySorted_filter {A} (R : relation A) (P : A → Prop) `{!∀ x, Decision (P x)} l :
  StronglySorted R l → StronglySorted R (filter P l).
Proof.
  induction 1 as [|x l Hs IH Hx]; [constructor|]. rewrite filter_cons. case_decide; [|done].
  constructor; [done|]. rewrite Forall_forall in *. intros y [_ Hy]%list_elem_of_filter. auto.
Qed.

Lemma ref_items_set k l db k' :
  ref_items (ref_set k l db) k' = if decide (k' = k) then l else ref_items db k'.
Proof.
  unfold ref_items, ref_set. case_decide as Hk; [subst|];
    destruct (db !! k) as [[? ?]|] eqn:E; rewrite ?lookup_insert_eq, ?lookup_insert_ne; congruence.
Qed.

Lemma ref_ttl_set k l db k' :
  k' ≠ k → (ref_set k l db !! k' ≫= snd) = (db !! k' ≫= snd).
Proof. intros Hne. unfold ref_set. destruct (db !! k) as [[? ?]|]; rewrite lookup_insert_ne; congruence. Qed.

#[export] Instance RefLaws : RedisLaws RefDB.
Proof.
  constructor; simpl; unfold ref_zset.
  - intros db k. apply fst_sorted, by_score_sorted.
  - intros k max db k'. rewrite ref_items_set. case_decide; [|done].
    apply by_score_id, StronglySorted_filter, by_score_sorted.
  - intros k max db k' Hne. by apply ref_ttl_set.
  - intros k s mem db Hnew. rewrite ref_items_set, decide_True by done.
    rewrite !by_score_perm. rewrite filter_all; [done|].
    apply Forall_forall. intros x Hx <-. apply Hnew. apply list_elem_of_fmap. exists x.
    split; [done|]. by rewrite by_score_perm.
  - intros k s mem db k' Hne. by rewrite ref_items_set, decide_False by done.
  - intros k s mem db k' Hne. by apply ref_ttl_set.
  - intros k ms db k' Hms. unfold ref_items.
    destruct (db !! k) as [[l t]|] eqn:E; [|done].
    destruct (decide (k' = k)) as [->|]; by simplify_map_eq.
  - intros k ms db k' Hms Hne. unfold ref_items in Hne.
    destruct (db !! k) as [[l t]|] eqn:E; [|done]. case_decide; by simplify_map_eq.
  - intros k ms db k' Hz Hne. destruct (db !! k) as [[l t]|] eqn:E; by simplify_map_eq.
  - intros d db k. unfold ref_items. rewrite lookup_omap.
    destruct (db !! k) as [[l [t|]]|]; simpl; try done. unfold ref_expire; simpl. by case_if.
  - intros d db k t. unfold ref_items. rewrite lookup_omap.
    destruct (db !! k) as [[l [t0|]]|]; simpl; try done. unfold ref_expire; simpl.
    case_if; simpl; [done|]. intros [= <-] _. f_equal. lia.
Qed.
