(* ===== verification/Redis.v ===== *)
(** * internal/limiter/redis.go: the distributed limiter

    The Lua script is translated command by command over the server interface; it runs
    atomically inside Redis.  Lua numbers are doubles, exact for the integers below 2^53 that
    milliseconds and counts are, so [math.floor] and [tonumber] are the identity here.  What the
    network does to a call is an input: the script may run and its reply arrive, run and its
    reply be lost (a timeout), or never run. *)

From S2P Require Import Prelude.
From S2P Require Import GoTime.
From S2P Require Import GoStrings.
From S2P Require Import Policy.
From S2P Require Import SlidingWindow.
From S2P Require Import RedisServer.

Open Scope Z_scope.

(** ** The script *)

Record script_reply := MkReply { r_allowed : Z; r_used : Z; r_reset_ms : Z }.

Section Script.
Context `{RedisServer DB}.

Definition slidingWindowScript (key : string) (now_ms window_ms limit : Z) (member : string)
    (db : DB) : script_reply * DB :=
  let db := zremrangebyscore key (now_ms - window_ms) db in
  let used := zcard key db in
  let '(allowed, used, db) :=
    if used <? limit then (1, used + 1, zadd key now_ms member db) else (0, used, db) in
  let db := pexpire key window_ms db in
  let reset_ms :=
    match zrange_first key db with
    | Some oldest =>
        let r := oldest.1 + window_ms - now_ms in
        if r <? 0 then 0 else r
    | None => window_ms
    end in
  (MkReply allowed used reset_ms, db).

End Script.

(** ** The limiter *)

(** The client handle and the compiled script carry no state of their own. *)
Record RedisLimiter := MkRedis { prefix : string; instance : string; seq : Z }.

(** [NewRedisLimiter]; the instance id comes from the system's random source. *)
Definition NewRedisLimiter (prefix instance : string) : RedisLimiter := MkRedis prefix instance 0.

(** [member]: the sequence number is incremented first. *)
Definition member (r : RedisLimiter) (now : Time) : string * RedisLimiter :=
  let r := MkRedis (prefix r) (instance r) (wrapu64 (seq r + 1)) in
  (instance r +:+ "-" +:+ FormatInt36 (UnixNano now) +:+ "-" +:+ FormatUint36 (seq r), r).

(** The dynamic types [toInt] tells apart.  A float is carried with its conversion to [int], which
    Go leaves to the platform when the value does not fit. *)
Inductive reply_value :=
| RInt64 (n : Z)
| RInt (n : Z)
| RFloat64 (n : Z)
| RString (s : string)
| ROther.

Definition toInt (v : reply_value) : option Z :=
  match v with
  | RInt64 n => Some n
  | RInt n => Some n
  | RFloat64 n => Some n
  | RString s => Atoi s
  | ROther => None
  end.

(** Every error of this limiter wraps [ErrUnavailable]. *)
Inductive redis_error :=
| EBackend (cause : string)
| EUnexpectedReply (raw : list reply_value)
| EMalformedReply (raw : list reply_value).

(** [Allow] from the reply of [script.Run(...).Slice()] on; [p] is normalized. *)
Definition decide_reply (p : Policy) (now : Time) (raw : list reply_value + string)
    : Decision + redis_error :=
  match raw with
  | inr err => inr (EBackend err)
  | inl raw =>
      match raw with
      | [raw0; raw1; raw2] =>
          match toInt raw0, toInt raw1, toInt raw2 with
          | Some allowed, Some used, Some resetMS =>
              let reset := wrap64 (resetMS * Millisecond) in
              let resetAt := Add now reset in
              if allowed =? 0 then inl (deny BackendRedis p used resetAt now)
              else
                let remaining := wrap64 (Limit p - used) in
                let remaining := if remaining <? 0 then 0 else remaining in
                inl (MkDecision true (Limit p) (Window p) used remaining resetAt reset BackendRedis)
          | _, _, _ => inr (EMalformedReply raw)
          end
      | _ => inr (EUnexpectedReply raw)
      end
  end.

Definition window_ms (p : Policy) : Z :=
  let w := Milliseconds (Window p) in if w <? 1 then 1 else w.

(** What happens to one call on its way: the reply arrives; the script runs but its reply is
    lost; the script never runs. *)
Inductive network := Delivered | ReplyLost (err : string) | Unreached (err : string).

(** The reply array of the script as go-redis presents it: three [int64]. *)
Definition reply_array (x : script_reply) : list reply_value :=
  [RInt64 (r_allowed x); RInt64 (r_used x); RInt64 (r_reset_ms x)].

Section Limiter.
Context `{RedisServer DB}.

Definition Allow (net : network) (key : string) (p : Policy) (now : Time) (r : RedisLimiter)
    (db : DB) : (Decision + redis_error) * RedisLimiter * DB :=
  let p := Normalize p in
  let '(mem, r) := member r now in
  let script := slidingWindowScript (prefix r +:+ key) (UnixMilli now) (window_ms p) (Limit p) mem in
  match net with
  | Delivered => let '(x, db) := script db in (decide_reply p now (inl (reply_array x)), r, db)
  | ReplyLost err => let '(_, db) := script db in (decide_reply p now (inr err), r, db)
  | Unreached err => (decide_reply p now (inr err), r, db)
  end.

(** [Peek]: [ZCOUNT key (cutoff +inf]. *)
Definition Peek (key : string) (p : Policy) (now : Time) (r : RedisLimiter) (db : DB) : Z :=
  let p := Normalize p in
  let cutoff := UnixMilli (Add now (- Window p)) in
  zcount_above (prefix r +:+ key) cutoff db.

End Limiter.

(** ** [ActiveKeys] and [Reset]: walking the key space with SCAN

    SCAN's replies are inputs: each page holds keys and the next cursor, and the commands sent
    for a page either fail or answer.  [None] is a walk still waiting for its next page. *)

Inductive exec_reply (A : Type) := ExecErr (err : string) | ExecOk (x : A).
Arguments ExecErr {A} err.
Arguments ExecOk {A} x.

(** A page: the SCAN reply and what the command issued for its keys answers (one ZCARD per key
    in a pipeline, or the number DEL removed). *)
Inductive scan_page (A : Type) :=
| ScanErr (err : string)
| ScanKeys (keys : list string) (cursor : Z) (reply : exec_reply A).
Arguments ScanErr {A} err.
Arguments ScanKeys {A} keys cursor reply.

(** [strings.TrimPrefix] *)
Fixpoint strip_prefix (p s : string) : option string :=
  match p, s with
  | EmptyString, _ => Some s
  | String a p, String b s => if Ascii.eqb a b then strip_prefix p s else None
  | String _ _, EmptyString => None
  end.

Definition TrimPrefix (s p : string) : string := default s (strip_prefix p s).

(** The inner loop over one page: keys with their cardinalities. *)
Fixpoint collect (prefix : string) (maxKeys : Z) (l : list (string * Z)) (out : gmap string Z)
    : gmap string Z :=
  match l with
  | [] => out
  | (k, n) :: l =>
      if n =? 0 then collect prefix maxKeys l out
      else
        let out := <[TrimPrefix k prefix := n]> out in
        if maxKeys <=? Z.of_nat (size out) then out else collect prefix maxKeys l out
  end.

Fixpoint active_loop (prefix : string) (maxKeys : Z) (pages : list (scan_page (list Z)))
    (out : gmap string Z) : option (gmap string Z + redis_error) :=
  if Z.of_nat (size out) <? maxKeys then
    match pages with
    | [] => None
    | ScanErr err :: _ => Some (inr (EBackend err))
    | ScanKeys keys cursor reply :: pages =>
        let found :=
          match keys with
          | [] => inl out
          | _ :: _ =>
              match reply with
              | ExecErr err => inr (EBackend err)
              | ExecOk counts => inl (collect prefix maxKeys (zip keys counts) out)
              end
          end in
        match found with
        | inr e => Some (inr e)
        | inl out => if cursor =? 0 then Some (inl out) else active_loop prefix maxKeys pages out
        end
    end
  else Some (inl out).

Definition ActiveKeys (r : RedisLimiter) (maxKeys : Z) (pages : list (scan_page (list Z)))
    : option (gmap string Z + redis_error) :=
  let maxKeys := if maxKeys <=? 0 then 100 else maxKeys in
  active_loop (prefix r) maxKeys pages ∅.

(** [Reset] returns the number of keys deleted so far also when it fails. *)
Fixpoint reset_loop (pages : list (scan_page Z)) (deleted : Z)
    : option (Z * option redis_error) :=
  match pages with
  | [] => None
  | ScanErr err :: _ => Some (deleted, Some (EBackend err))
  | ScanKeys keys cursor reply :: pages =>
      match keys, reply with
      | _ :: _, ExecErr err => Some (deleted, Some (EBackend err))
      | _ :: _, ExecOk n =>
          let deleted := wrap64 (deleted + n) in
          if cursor =? 0 then Some (deleted, None) else reset_loop pages deleted
      | [], _ => if cursor =? 0 then Some (deleted, None) else reset_loop pages deleted
      end
  end.

Definition Reset (pages : list (scan_page Z)) : option (Z * option redis_error) :=
  reset_loop pages 0.

(** [Ping] *)
Definition Ping (answer : option string) : option redis_error := EBackend <$> answer.

(** ** Lemmas *)

Lemma window_ms_pos p : 1 ≤ window_ms p.
Proof. unfold window_ms. case_if; lia. Qed.

Lemma window_ms_id p : enforceable p → window_ms p = Window p / 1000000.
Proof.
  intros [_ Hw]. unfold window_ms, Milliseconds. unfold_durations.
  rewrite Z.quot_div_nonneg by lia.
  pose proof (Z.div_le_lower_bound (Window p) 1000000 1). case_if; lia.
Qed.
