(* ===== verification/RedisFleet.v ===== *)
(** * The Redis limiter across a fleet of proxies

    Several proxy instances share one Redis.  The fleet's state is each instance's limiter,
    the server's database and its clock; a request names the instance that takes it and what
    the network does to its call.  The theorems say that the fleet as a whole is one exact
    sliding-window limiter in milliseconds, keyed by client. *)

From Stdlib Require Import Ascii.
From S2P Require Import Prelude.
From S2P Require Import GoTime.
From S2P Require Import GoStrings.
From S2P Require Import Policy.
From S2P Require Import SlidingWindow.
From S2P Require Import RedisServer.
From S2P Require Import Redis.

Open Scope Z_scope.

(** ** Instance identifiers *)

(** [hex.EncodeToString] *)
Fixpoint EncodeToString (b : list ascii) : string :=
  match b with
  | [] => ""
  | c :: b => String (digit36 (code c / 16)) (String (digit36 (code c mod 16)) (EncodeToString b))
  end.

(** [newInstanceID]: four bytes of the system's random source, or the clock when it fails. *)
Definition newInstanceID (random : option (list ascii)) (now : Time) : string :=
  match random with
  | Some b => EncodeToString b
  | None => FormatInt36 (UnixNano now)
  end.

(** ** The fleet *)

Record fleet (DB : Type) := MkFleet { nodes : list RedisLimiter; server : DB; clock : Z }.
Arguments MkFleet {DB}. Arguments nodes {DB}. Arguments server {DB}. Arguments clock {DB}.

Record request := MkReq { rq_node : nat; rq_key : string; rq_now : Time; rq_net : network }.

Abbreviation outcome := (option (Decision + redis_error)).

Section Fleet.
Context `{RedisServer DB}.

(** The server's clock reaches the request's instant, then the instance serves it. *)
Definition fleet_step (p : Policy) (q : request) (f : fleet DB) : outcome * fleet DB :=
  let db := elapse (UnixMilli (rq_now q) - clock f) (server f) in
  let t := UnixMilli (rq_now q) in
  match nodes f !! rq_node q with
  | None => (None, MkFleet (nodes f) db t)
  | Some r =>
      let '(d, r, db) := Redis.Allow (rq_net q) (rq_key q) p (rq_now q) r db in
      (Some d, MkFleet (<[rq_node q := r]> (nodes f)) db t)
  end.

Fixpoint fleet_run (p : Policy) (qs : list request) (f : fleet DB)
    : list outcome * fleet DB :=
  match qs with
  | [] => ([], f)
  | q :: qs =>
      let '(o, f) := fleet_step p q f in
      let '(os, f) := fleet_run p qs f in
      (o :: os, f)
  end.

End Fleet.

(** ** The specification: a log of admitted instants per client *)

Abbreviation client_logs := (gmap string (list Z)).

Definition client_log (k : string) (m : client_logs) : list Z := default [] (m !! k).

(** The decision the window [live] leads to at [now]. *)
Definition window_decision (p : Policy) (now : Time) (live : list Z) : Decision :=
  let ms := UnixMilli now in
  let reset := (default ms (head live) + window_ms p - ms) * Millisecond in
  let allowed := len live <? Limit p in
  MkDecision allowed (Limit p) (Window p)
    (if allowed then len live + 1 else len live)
    (if allowed then Limit p - (len live + 1) else 0)
    (Add now reset) reset BackendRedis.

(** One request against the specification: a call that never reaches the server changes
    nothing; one whose reply is lost is counted, and its caller sees an error. *)
Definition spec_request (p : Policy) (n : nat) (q : request) (m : client_logs)
    : outcome * client_logs :=
  let p := Normalize p in
  let t := UnixMilli (rq_now q) in
  let log := client_log (rq_key q) m in
  let m' := <[rq_key q := spec_step (Limit p) (window_ms p) t log]> m in
  if (rq_node q <? n)%nat then
    match rq_net q with
    | Delivered =>
        (Some (inl (window_decision p (rq_now q) (live (window_ms p) t log))), m')
    | ReplyLost err => (Some (inr (EBackend err)), m')
    | Unreached err => (Some (inr (EBackend err)), m)
    end
  else (None, m).

Fixpoint spec_requests (p : Policy) (n : nat) (qs : list request) (m : client_logs)
    : list outcome * client_logs :=
  match qs with
  | [] => ([], m)
  | q :: qs =>
      let '(o, m) := spec_request p n q m in
      let '(os, m) := spec_requests p n qs m in
      (o :: os, m)
  end.

(** ** What the theorems assume of a run *)

(** The requests' clocks never go back, starting at [t]. *)
Fixpoint in_order (t : Z) (qs : list request) : Prop :=
  match qs with
  | [] => True
  | q :: qs => t ≤ UnixMilli (rq_now q) ∧ in_order (UnixMilli (rq_now q)) qs
  end.

(** A fleet just deployed: one key prefix, distinct instance ids without a dash, no sequence
    number used, and no request recorded on the server. *)
Definition deployed `{RedisServer DB} (pre : string) (f : fleet DB) : Prop :=
  NoDup (instance <$> nodes f)
  ∧ Forall (λ r, prefix r = pre ∧ ("-"%char ∉ bytes (instance r)) ∧ seq r = 0) (nodes f)
  ∧ ∀ k, zset (server f) k = [].

(** The instants of the requests for [k] that were let through. *)
Definition grant (k : string) (q : request) (o : outcome) : list Z :=
  match o with
  | Some (inl d) => if String.eqb (rq_key q) k && Allowed d then [UnixMilli (rq_now q)] else []
  | _ => []
  end.

Fixpoint granted (k : string) (qs : list request) (os : list outcome) : list Z :=
  match qs, os with
  | q :: qs, o :: os => grant k q o ++ granted k qs os
  | _, _ => []
  end.

(** ** The invariant *)

(** A member some instance of the fleet has handed out. *)
Definition handed_out (ns : list RedisLimiter) (m : string) : Prop :=
  ∃ r x n, r ∈ ns ∧ 1 ≤ n ≤ seq r ∧ m = instance r +:+ "-" +:+ x +:+ "-" +:+ FormatUint36 n.

(** The sorted set [k] stands for [log] at server time [t]. *)
Record key_ok `{RedisServer DB} (W t : Z) (ns : list RedisLimiter) (db : DB) (k : string)
    (log : list Z) : Prop := {
  ok_live : live W t (zset db k).*1 = live W t log;
  ok_past : past t (zset db k).*1;
  ok_log : past t log;
  ok_ttl : ∀ ttl, pttl db k = Some ttl → Forall (λ s, s + W ≤ t + ttl) (zset db k).*1;
  ok_members : Forall (handed_out ns) (zset db k).*2 }.

Definition names_ok (pre : string) (bound : Z) (ns : list RedisLimiter) : Prop :=
  NoDup (instance <$> ns)
  ∧ Forall (λ r, prefix r = pre ∧ ("-"%char ∉ bytes (instance r)) ∧ 0 ≤ seq r ≤ bound) ns.

Record fleet_ok `{RedisServer DB} (p : Policy) (pre : string) (bound : Z) (f : fleet DB)
    (m : client_logs) : Prop := {
  fok_names : names_ok pre bound (nodes f);
  fok_keys : ∀ k, key_ok (window_ms (Normalize p)) (clock f) (nodes f) (server f) (pre +:+ k)
                         (client_log k m) }.

(** ** Lists of scores *)

Lemma fst_filter (max : Z) (l : list (Z * string)) :
  (filter (λ x, max < x.1) l).*1 = filter (λ s, max < s) l.*1.
Proof.
  induction l as [|x l IH]; [done|]. rewrite fmap_cons, !filter_cons.
  case_decide; [|done]. by rewrite fmap_cons, <- IH.
Qed.

Lemma sorted_eq (l k : list Z) :
  StronglySorted Z.le l → StronglySorted Z.le k → l ≡ₚ k → l = k.
Proof. apply StronglySorted_unique. apply _. Qed.

Lemma sorted_snoc (l : list Z) t :
  StronglySorted Z.le l → past t l → StronglySorted Z.le (l ++ [t]).
Proof.
  induction 1 as [|x l Hs IH Hx]; intros Hp; simpl; [by repeat constructor|].
  apply Forall_cons in Hp as [Hxt Hp]. constructor; [auto|].
  apply Forall_snoc_intro; [exact Hx|lia].
Qed.

Lemma spec_step_live_not_nil L W t log : 1 ≤ L → 0 < W → live W t (spec_step L W t log) ≠ [].
Proof.
  intros HL HW. unfold spec_step, admits. case_if.
  - rewrite live_snoc by done. by destruct (live W t log).
  - intros Hn. rewrite Hn in E. unfold len in E. simpl in E. lia.
Qed.

(** ** Members are never handed out twice *)

Lemma member_inj i x n i' x' n' :
  "-"%char ∉ bytes i → "-"%char ∉ bytes i' →
  0 ≤ n < 18446744073709551616 → 0 ≤ n' < 18446744073709551616 →
  i +:+ "-" +:+ x +:+ "-" +:+ FormatUint36 n = i' +:+ "-" +:+ x' +:+ "-" +:+ FormatUint36 n' →
  i = i' ∧ n = n'.
Proof.
  intros Hi Hi' Hn Hn' H. apply (f_equal bytes) in H. rewrite !bytes_app in H.
  change (bytes "-") with ["-"%char] in H. simpl in H.
  apply split_first in H as [H1 H2]; [|done..].
  apply split_last in H2 as [_ H2]; [|apply FormatUint36_no_dash..].
  apply bytes_inj in H1, H2. apply FormatUint36_inj in H2; done.
Qed.

Lemma NoDup_fmap_lookup {A B} (f : A → B) (l : list A) i j x y :
  NoDup (f <$> l) → l !! i = Some x → l !! j = Some y → f x = f y → i = j.
Proof.
  intros Hnd Hi Hj Hxy. eapply NoDup_lookup; [exact Hnd|..]; rewrite list_lookup_fmap.
  - by rewrite Hi.
  - rewrite Hj. simpl. by rewrite Hxy.
Qed.

(** The member of the next call of node [i] is new. *)
Lemma member_fresh pre b ns i r now :
  names_ok pre b ns → b < 18446744073709551615 → ns !! i = Some r →
  ¬ handed_out ns (member r now).1.
Proof.
  intros [Hnd Hall] Hb Hi (r' & x & n & Hr' & Hn & Hm). unfold member in Hm; simpl in Hm.
  assert (Hr : r ∈ ns) by eauto using list_elem_of_lookup_2.
  rewrite Forall_forall in Hall.
  destruct (Hall r Hr) as (_ & Hd & Hs), (Hall r' Hr') as (_ & Hd' & Hs').
  unfold wrapu64 in Hm. rewrite Z.mod_small in Hm by lia.
  apply member_inj in Hm as [Hi' Hn']; [|done || lia..].
  apply list_elem_of_lookup_1 in Hr' as [j Hj].
  pose proof (NoDup_fmap_lookup instance ns i j r r' Hnd Hi Hj Hi') as ->.
  rewrite Hi in Hj. injection Hj as <-. lia.
Qed.

Lemma handed_out_mono ns i r now m :
  ns !! i = Some r → 0 ≤ seq r < 18446744073709551615 →
  handed_out ns m → handed_out (<[i := (member r now).2]> ns) m.
Proof.
  intros Hi Hs (r' & x & n & Hr' & Hn & ->).
  apply list_elem_of_lookup_1 in Hr' as [j Hj]. destruct (decide (i = j)) as [<-|Hne].
  - rewrite Hi in Hj. injection Hj as ->. exists (member r' now).2, x, n.
    split; [|split; [|done]].
    + eapply (list_elem_of_lookup_2 _ i). apply list_lookup_insert_eq. by eapply lookup_lt_Some.
    + simpl. unfold wrapu64. rewrite Z.mod_small; lia.
  - exists r', x, n. split; [|done]. eapply (list_elem_of_lookup_2 _ j).
    by rewrite list_lookup_insert_ne.
Qed.

Lemma handed_out_new ns i r now :
  ns !! i = Some r → 0 ≤ seq r < 18446744073709551615 →
  handed_out (<[i := (member r now).2]> ns) (member r now).1.
Proof.
  intros Hi Hs. exists (member r now).2, (FormatInt36 (UnixNano now)), (seq r + 1).
  split; [|split].
  - eapply (list_elem_of_lookup_2 _ i). apply list_lookup_insert_eq. by eapply lookup_lt_Some.
  - simpl. unfold wrapu64. rewrite Z.mod_small; lia.
  - simpl. unfold wrapu64. by rewrite Z.mod_small by lia.
Qed.

Lemma names_ok_call pre b ns i r now :
  names_ok pre b ns → b < 18446744073709551615 → ns !! i = Some r →
  names_ok pre (b + 1) (<[i := (member r now).2]> ns).
Proof.
  intros [Hnd Hall] Hb Hi. split.
  - rewrite list_fmap_insert. simpl. rewrite list_insert_id; [done|].
    by rewrite list_lookup_fmap, Hi.
  - pose proof (Forall_lookup_1 _ _ _ _ Hall Hi) as (Hp & Hd & Hs).
    apply Forall_insert.
    + eapply Forall_impl; [exact Hall|]. simpl. intros x (? & ? & ?). repeat split; [done..|lia|lia].
    + simpl. unfold wrapu64. rewrite Z.mod_small by lia. repeat split; [done..|lia|lia].
Qed.

(** ** What one run of the script does *)

Section Simulation.
Context `{RedisLaws DB}.
Implicit Types db : DB.

(** The server's clock advances: only entries out of every later window may vanish. *)
Lemma key_ok_elapse W t t' ns db k log :
  t ≤ t' → key_ok W t ns db k log → key_ok W t' ns (elapse (t' - t) db) k log.
Proof.
  intros Hle Hok.
  assert (Hz : zset (elapse (t' - t) db) k = zset db k ∨
               zset (elapse (t' - t) db) k = [] ∧ live W t' (zset db k).*1 = []).
  { rewrite zset_elapse. destruct (pttl db k) as [ttl|] eqn:Et; [|by left].
    case_if; [right|by left]. split; [done|]. apply live_nil_all.
    eapply Forall_impl; [exact (ok_ttl _ _ _ _ _ _ Hok ttl Et)|]. simpl; lia. }
  pose proof (live_agree W t t' _ _ Hle (ok_live _ _ _ _ _ _ Hok)) as Hlive.
  destruct Hok as [_ Hp Hlog Httl Hm]. constructor.
  - destruct Hz as [->|[-> Hnil]]; [done|]. by rewrite <- Hlive, Hnil.
  - destruct Hz as [->|[-> _]]; [by eapply past_mono|constructor].
  - by eapply past_mono.
  - intros ttl Httl'. destruct Hz as [Hz|[-> _]]; [|constructor].
    destruct (zset db k) as [|y l] eqn:Hy; rewrite Hz; [constructor|].
    eapply Forall_impl; [apply (Httl (ttl + (t' - t)))|simpl; lia].
    apply pttl_elapse; [done|]. by rewrite Hz.
  - destruct Hz as [->|[-> _]]; [done|constructor].
Qed.

(** A run on another key leaves this one alone. *)
Lemma script_other k now W L mem db k' :
  0 < W → k' ≠ k →
  zset (slidingWindowScript k now W L mem db).2 k' = zset db k' ∧
  pttl (slidingWindowScript k now W L mem db).2 k' = pttl db k'.
Proof.
  intros HW Hne. unfold slidingWindowScript. set (db1 := zremrangebyscore k (now - W) db).
  assert (E1 : zset db1 k' = zset db k' ∧ pttl db1 k' = pttl db k').
  { unfold db1. rewrite zset_zrem, decide_False, pttl_zrem by done. done. }
  assert (E2 : ∀ d, zset (pexpire k W d) k' = zset d k' ∧ pttl (pexpire k W d) k' = pttl d k').
  { intros d. rewrite zset_pexpire by done. split; [done|].
    destruct (decide (zset d k = [])).
    - by apply pttl_pexpire_absent.
    - rewrite pttl_pexpire by done. by rewrite decide_False. }
  destruct (zcard k db1 <? L); simpl; destruct (E2 (zadd k now mem db1)) as [A B], (E2 db1) as [C D];
    rewrite ?A, ?B, ?C, ?D, ?zset_zadd_other, ?pttl_zadd_other by done; done.
Qed.

(** The set after the script, and its reply. *)
Lemma script_set W t ns db k log L mem :
  1 ≤ L → 0 < W → key_ok W t ns db k log → ¬ handed_out ns mem →
  let '(x, db') := slidingWindowScript k t W L mem db in
  (zset db' k).*1 = live W t (spec_step L W t log)
  ∧ pttl db' k = Some W
  ∧ (∀ m, m ∈ (zset db' k).*2 → m = mem ∨ m ∈ (zset db k).*2)
  ∧ r_allowed x = (if admits L W t log then 1 else 0)
  ∧ r_used x = len (live W t log) + (if admits L W t log then 1 else 0).
Proof.
  intros HL HW Hok Hfresh. unfold slidingWindowScript.
  set (db1 := zremrangebyscore k (t - W) db).
  assert (E1 : (zset db1 k).*1 = live W t log).
  { unfold db1. rewrite zset_zrem, decide_True by done. rewrite fst_filter.
    exact (ok_live _ _ _ _ _ _ Hok). }
  assert (M1 : ∀ m, m ∈ (zset db1 k).*2 → m ∈ (zset db k).*2).
  { intros m (x & -> & Hx)%list_elem_of_fmap. revert Hx. unfold db1.
    rewrite zset_zrem, decide_True by done. intros [_ Hx]%list_elem_of_filter.
    apply list_elem_of_fmap. eauto. }
  assert (Hused : zcard k db1 = len (live W t log)).
  { unfold zcard, len. by rewrite <- E1, length_fmap. }
  pose proof (spec_step_live_not_nil L W t log HL HW) as Hne.
  rewrite Hused. change (len (live W t log) <? L) with (admits L W t log).
  unfold spec_step in *. destruct (admits L W t log); simpl.
  - assert (Hnew : mem ∉ (zset db1 k).*2).
    { intros Hin%M1. apply Hfresh.
      by eapply Forall_forall in Hin; [|exact (ok_members _ _ _ _ _ _ Hok)]. }
    pose proof (zset_zadd_new k t mem db1 Hnew) as Hperm.
    assert (E2 : (zset (zadd k t mem db1) k).*1 = live W t (log ++ [t])).
    { rewrite live_snoc by done. apply sorted_eq.
      - apply zset_sorted.
      - rewrite <- E1. apply sorted_snoc; [apply zset_sorted|]. rewrite E1.
        apply live_Forall, (ok_log _ _ _ _ _ _ Hok).
      - rewrite Hperm, fmap_cons, E1. apply Permutation_cons_append. }
    assert (Hk : zset (zadd k t mem db1) k ≠ []).
    { intros Hnil. rewrite Hnil in E2. by rewrite <- E2 in Hne. }
    rewrite zset_pexpire, pttl_pexpire, decide_True by done.
    repeat split; [done|]. intros m. rewrite Hperm. rewrite fmap_cons, elem_of_cons.
    intros [->|Hin]; auto.
  - assert (Hk : zset db1 k ≠ []).
    { intros Hnil. rewrite Hnil in E1. by rewrite <- E1 in Hne. }
    rewrite zset_pexpire, pttl_pexpire, decide_True by done.
    repeat split; [done|auto|lia].
Qed.

(** The reset the script reports: until the oldest entry of the window leaves it. *)
Lemma script_reset W t ns db k log L mem :
  1 ≤ L → 0 < W → key_ok W t ns db k log → ¬ handed_out ns mem →
  r_reset_ms (slidingWindowScript k t W L mem db).1
    = default t (head (live W t log)) + W - t
  ∧ 0 < default t (head (live W t log)) + W - t ≤ W.
Proof.
  intros HL HW Hok Hfresh. pose proof (script_set W t ns db k log L mem HL HW Hok Hfresh) as Hset.
  assert (Hbound : 0 < default t (head (live W t log)) + W - t ≤ W).
  { destruct (live W t log) as [|s l] eqn:El; simpl; [lia|].
    assert (Hs : s ∈ live W t log) by (rewrite El; left).
    apply list_elem_of_filter in Hs as [Hs Hin].
    pose proof (proj1 (Forall_forall _ _) (ok_log _ _ _ _ _ _ Hok) _ Hin). simpl in *. lia. }
  split; [|done].
  assert (Hhead : head (live W t (spec_step L W t log)) = Some (default t (head (live W t log)))).
  { pose proof (spec_step_live_not_nil L W t log HL HW) as Hne. unfold spec_step in *.
    destruct (admits L W t log); [rewrite live_snoc in * by done|];
      by destruct (live W t log). }
  destruct (slidingWindowScript k t W L mem db) as [x db'] eqn:E.
  destruct Hset as (Hset & _). rewrite <- Hset in Hhead.
  revert E. unfold slidingWindowScript.
  destruct (zcard k (zremrangebyscore k (t - W) db) <? L); simpl; intros [= <- <-]; simpl;
    unfold zrange_first;
    (destruct (zset (pexpire k W _) k) as [|y l]; [done|]);
    simpl in *; injection Hhead as ->; case_if; lia.
Qed.

(** ** One request against the fleet *)

Lemma window_ms_bound p : enforceable p → 1 ≤ window_ms p ≤ 86400000.
Proof.
  intros Hp. split; [apply window_ms_pos|]. rewrite window_ms_id by done.
  destruct Hp as [_ Hw]. unfold_durations. apply Z.div_le_upper_bound; lia.
Qed.

(** A well-formed reply whose reset is in range decodes to the decision of the window. *)
Lemma decide_reply_window p now x lv :
  enforceable p →
  r_allowed x = (if len lv <? Limit p then 1 else 0) →
  r_used x = len lv + (if len lv <? Limit p then 1 else 0) →
  r_reset_ms x = default (UnixMilli now) (head lv) + window_ms p - UnixMilli now →
  0 < r_reset_ms x ≤ window_ms p →
  decide_reply p now (inl (reply_array x)) = inl (window_decision p now lv).
Proof.
  intros Hp Ha Hu Hr Hb. pose proof (window_ms_bound p Hp). pose proof (len_nonneg lv).
  destruct Hp as [HL _].
  unfold decide_reply, reply_array, toInt, window_decision. rewrite <- Hr, Ha, Hu.
  assert (Hms : wrap64 (r_reset_ms x * Millisecond) = r_reset_ms x * Millisecond).
  { apply wrap64_id. unfold Millisecond. lia. }
  rewrite Hms. destruct (Z.ltb_spec (len lv) (Limit p)); simpl.
  - rewrite wrap64_id by lia. case_if; [lia|done].
  - unfold deny. rewrite Sub_Add by (unfold Millisecond; lia).
    rewrite Z.add_0_r. case_if; [unfold Millisecond in *; lia|done].
Qed.

Lemma client_log_insert k l m k' :
  client_log k' (<[k := l]> m) = if decide (k' = k) then l else client_log k' m.
Proof.
  unfold client_log. case_decide as Hk; [subst; by rewrite lookup_insert_eq|].
  by rewrite lookup_insert_ne.
Qed.

Lemma key_ok_nodes W t ns ns' db k log :
  (∀ m, handed_out ns m → handed_out ns' m) → key_ok W t ns db k log → key_ok W t ns' db k log.
Proof. intros Hm []. constructor; try done. by eapply Forall_impl. Qed.

Lemma key_ok_frame W t ns db db' k log :
  zset db' k = zset db k → pttl db' k = pttl db k → key_ok W t ns db k log →
  key_ok W t ns db' k log.
Proof. intros Hz Ht []. constructor; by rewrite ?Hz, ?Ht. Qed.

(** The script as a step of the specification on its key, and of none on the others. *)
Lemma script_key_ok W t ns ns' db k log L mem :
  1 ≤ L → 0 < W → key_ok W t ns db k log → ¬ handed_out ns mem → handed_out ns' mem →
  (∀ m, handed_out ns m → handed_out ns' m) →
  key_ok W t ns' (slidingWindowScript k t W L mem db).2 k (spec_step L W t log).
Proof.
  intros HL HW Hok Hfresh Hmem Hmono.
  pose proof (script_set W t ns db k log L mem HL HW Hok Hfresh) as Hset.
  destruct (slidingWindowScript k t W L mem db) as [x db']; simpl.
  destruct Hset as (Hz & Ht & Hmems & _).
  pose proof (spec_step_past L W t log (ok_log _ _ _ _ _ _ Hok)) as Hpast.
  constructor; rewrite ?Hz.
  - apply live_self.
  - by apply live_Forall.
  - done.
  - intros ttl. rewrite Ht. intros [= <-]. apply live_Forall.
    eapply Forall_impl; [exact Hpast|]. simpl; lia.
  - apply Forall_forall. intros m [->|Hin]%Hmems; [done|]. apply Hmono.
    by eapply Forall_forall in Hin; [|exact (ok_members _ _ _ _ _ _ Hok)].
Qed.

(** Every key of the fleet after one run of the script for client [key]. *)
Lemma script_keys_ok p pre b ns m key i r now db :
  let p := Normalize p in
  let t := UnixMilli now in
  names_ok pre b ns → b < 18446744073709551615 → ns !! i = Some r →
  (∀ k, key_ok (window_ms p) t ns db (pre +:+ k) (client_log k m)) →
  ∀ k, key_ok (window_ms p) t (<[i := (member r now).2]> ns)
    (slidingWindowScript (pre +:+ key) t (window_ms p) (Limit p) (member r now).1 db).2
    (pre +:+ k)
    (client_log k (<[key := spec_step (Limit p) (window_ms p) t (client_log key m)]> m)).
Proof.
  intros p' t Hnames Hb Hi Hkeys k.
  pose proof (Normalize_enforceable p) as [HL _]. pose proof (window_ms_pos p').
  pose proof (Forall_lookup_1 _ _ _ _ (proj2 Hnames) Hi) as (_ & _ & Hseq).
  assert (Hmono : ∀ x, handed_out ns x → handed_out (<[i := (member r now).2]> ns) x).
  { intros x. apply handed_out_mono; [done|lia]. }
  rewrite client_log_insert. case_decide as Hk; [subst k|].
  - eapply script_key_ok; [unfold p'; lia|lia|apply Hkeys| | |exact Hmono].
    + by eapply member_fresh.
    + apply handed_out_new; [done|lia].
  - destruct (script_other (pre +:+ key) t (window_ms p') (Limit p') (member r now).1 db (pre +:+ k))
      as [Hz Ht]; [lia|by intros ->%(inj _)|].
    eapply key_ok_frame; [exact Hz|exact Ht|]. by eapply key_ok_nodes.
Qed.

Lemma fleet_step_sim p pre b f m q :
  fleet_ok p pre b f m → b < 18446744073709551615 → clock f ≤ UnixMilli (rq_now q) →
  let '(o, f') := fleet_step p q f in
  let '(o', m') := spec_request p (length (nodes f)) q m in
  o = o' ∧ fleet_ok p pre (b + 1) f' m' ∧ length (nodes f') = length (nodes f)
  ∧ clock f' = UnixMilli (rq_now q).
Proof.
  intros [Hnames Hkeys] Hb Hclock. destruct q as [i key now net]; simpl in *.
  unfold fleet_step, spec_request; simpl. set (p' := Normalize p). set (t := UnixMilli now) in *.
  set (db := elapse (t - clock f) (server f)).
  assert (Hdb : ∀ k, key_ok (window_ms p') t (nodes f) db (pre +:+ k) (client_log k m)).
  { intros k. by apply key_ok_elapse. }
  assert (Hweak : names_ok pre (b + 1) (nodes f)).
  { destruct Hnames as [? Hall]. split; [done|]. eapply Forall_impl; [exact Hall|].
    simpl. intros x (? & ? & ?). repeat split; [done..|lia|lia]. }
  destruct (nodes f !! i) as [r|] eqn:Hi.
  2:{ apply lookup_ge_None in Hi. destruct (Nat.ltb_spec i (length (nodes f))); [lia|]. done. }
  pose proof (lookup_lt_Some _ _ _ Hi). destruct (Nat.ltb_spec i (length (nodes f))); [|lia].
  pose proof (names_ok_call pre b _ i r now Hnames Hb Hi) as Hnames'.
  pose proof (Forall_lookup_1 _ _ _ _ (proj2 Hnames) Hi) as (Hpre & _ & Hseq).
  pose proof (script_keys_ok p pre b _ m key i r now db Hnames Hb Hi Hdb) as Hkeys'.
  pose proof (member_fresh pre b _ i r now Hnames Hb Hi) as Hfresh.
  pose proof (Normalize_enforceable p) as Hp'. pose proof (window_ms_pos p').
  pose proof (script_set (window_ms p') t _ db _ _ (Limit p') _
    ltac:(apply Hp') ltac:(lia) (Hdb key) Hfresh)
    as Hset.
  pose proof (script_reset (window_ms p') t _ db _ _ (Limit p') _
    ltac:(apply Hp') ltac:(lia) (Hdb key) Hfresh)
    as [Hr1 Hr2].
  unfold Redis.Allow. fold p' t. rewrite (surjective_pairing (member r now)).
  change (prefix (member r now).2) with (prefix r). rewrite Hpre.
  cbv zeta in Hkeys'. fold p' t in Hkeys'.
  destruct (slidingWindowScript (pre +:+ key) t (window_ms p') (Limit p') (member r now).1 db)
    as [x db'] eqn:Ex. simpl in *.
  destruct net as [|err|err]; simpl.
  - split; [|by rewrite length_insert]. f_equal.
    destruct Hset as (_ & _ & _ & Ha & Hu). apply decide_reply_window; try done.
    by rewrite Hr1.
  - by rewrite length_insert.
  - rewrite length_insert. split; [done|]. split; [|done]. constructor; [done|]. simpl.
    intros k. eapply key_ok_nodes; [|apply Hdb]. intros y. apply (handed_out_mono _ _ _ now); [done|lia].
Qed.

Lemma deployed_ok p pre f : deployed pre f → fleet_ok p pre 0 f ∅.
Proof.
  intros (Hnd & Hall & Hempty). constructor.
  - split; [done|]. eapply Forall_impl; [exact Hall|]. simpl. intros r (? & ? & ->).
    repeat split; [done..|lia|lia].
  - intros k. constructor; rewrite ?Hempty; intros; (done || constructor).
Qed.

(** The fleet and the specification run side by side. *)
Lemma fleet_run_sim p pre qs :
  ∀ b f m,
    fleet_ok p pre b f m → in_order (clock f) qs → b + len qs ≤ 18446744073709551615 →
    let '(os, f') := fleet_run p qs f in
    let '(os', m') := spec_requests p (length (nodes f)) qs m in
    os = os' ∧ fleet_ok p pre (b + len qs) f' m' ∧ length (nodes f') = length (nodes f).
Proof.
  induction qs as [|q qs IH]; intros b f m Hok Hord Hb; simpl.
  - unfold len; simpl. by rewrite Z.add_0_r.
  - destruct Hord as [Hq Hord]. assert (Hlen : len (q :: qs) = 1 + len qs) by (unfold len; simpl; lia).
    pose proof (len_nonneg qs).
    pose proof (fleet_step_sim p pre b f m q Hok ltac:(lia) Hq) as Hstep.
    destruct (fleet_step p q f) as [o f1]; destruct (spec_request p (length (nodes f)) q m) as [o' m1].
    destruct Hstep as (-> & Hok1 & Hn1 & Hc1).
    specialize (IH (b + 1) f1 m1 Hok1 ltac:(by rewrite Hc1) ltac:(lia)). rewrite Hn1 in IH.
    destruct (fleet_run p qs f1) as [os f2].
    destruct (spec_requests p (length (nodes f)) qs m1) as [os' m2].
    destruct IH as (-> & Hok2 & Hn2). split; [done|]. split; [|by rewrite Hn2].
    by replace (b + len (q :: qs)) with (b + 1 + len qs) by lia.
Qed.

Lemma deployed_run_sim p pre qs f :
  deployed pre f → in_order (clock f) qs → len qs < 18446744073709551616 →
  let '(os, f') := fleet_run p qs f in
  let '(os', m') := spec_requests p (length (nodes f)) qs ∅ in
  os = os' ∧ fleet_ok p pre (len qs) f' m' ∧ length (nodes f') = length (nodes f).
Proof.
  intros Hd Hord Hlen. apply (fleet_run_sim p pre qs 0); [by apply deployed_ok|done|lia].
Qed.

End Simulation.

(** ** The specification keeps the rate *)

Lemma within_sublist W t l k : l `sublist_of` k → len (within W t l) ≤ len (within W t k).
Proof.
  intros Hs. unfold len, within. apply inj_le. induction Hs; [done|..]; rewrite !filter_cons;
    repeat case_decide; simpl; lia.
Qed.

Definition logs_ok (p : Policy) (t : Z) (m : client_logs) : Prop :=
  ∀ k, past t (client_log k m) ∧
       rate_bounded (Limit (Normalize p)) (window_ms (Normalize p)) (client_log k m).

Lemma spec_request_logs p n q m t :
  logs_ok p t m → t ≤ UnixMilli (rq_now q) →
  logs_ok p (UnixMilli (rq_now q)) (spec_request p n q m).2.
Proof.
  intros Hok Ht k. destruct (Hok k) as [Hp Hr]. apply (past_mono _ _ _ Ht) in Hp.
  unfold spec_request. case_if; [|done].
  destruct (rq_net q); simpl; [..|done]; rewrite client_log_insert; case_decide; subst; auto with go.
Qed.

(** A grant appends its instant to the log of its client. *)
Lemma spec_request_grant p n q m k :
  let '(o, m') := spec_request p n q m in
  ∃ ext, client_log k m' = client_log k m ++ ext ∧ grant k q o `sublist_of` ext.
Proof.
  assert (Hnil : ∃ ext, client_log k m = client_log k m ++ ext ∧ [] `sublist_of` ext)
    by (exists []; by rewrite app_nil_r).
  unfold spec_request. case_if; [|done].
  set (log := client_log (rq_key q) m). set (t := UnixMilli (rq_now q)).
  set (L := Limit (Normalize p)). set (W := window_ms (Normalize p)).
  assert (Hstep : ∃ ext, spec_step L W t log = log ++ ext ∧
                         (if admits L W t log then [t] else []) `sublist_of` ext).
  { unfold spec_step. case_if; [by exists [t]|exists []; by rewrite app_nil_r]. }
  assert (Hlost : ∃ ext, client_log k (<[rq_key q := spec_step L W t log]> m) =
                         client_log k m ++ ext ∧ [] `sublist_of` ext).
  { rewrite client_log_insert. case_decide as Hk; [subst k|done].
    destruct Hstep as (ext & -> & _). exists ext. split; [done|apply sublist_nil_l]. }
  destruct (rq_net q); [|exact Hlost|exact Hnil].
  simpl. rewrite client_log_insert. case_decide as Hk; [subst k|].
  - rewrite String.eqb_refl. exact Hstep.
  - destruct (String.eqb_spec (rq_key q) k); [congruence|]. exact Hnil.
Qed.

Lemma spec_requests_granted p n k qs :
  ∀ m t, logs_ok p t m → in_order t qs →
  let '(os, m') := spec_requests p n qs m in
  (∃ t', logs_ok p t' m')
  ∧ ∃ ext, client_log k m' = client_log k m ++ ext ∧ granted k qs os `sublist_of` ext.
Proof.
  induction qs as [|q qs IH]; intros m t Hok Hord; simpl.
  - split; [by exists t|]. exists []. by rewrite app_nil_r.
  - destruct Hord as [Hq Hord]. pose proof (spec_request_logs p n q m t Hok Hq) as Hok1.
    pose proof (spec_request_grant p n q m k) as Hg.
    destruct (spec_request p n q m) as [o m1]. destruct Hg as (ext1 & E1 & S1).
    specialize (IH m1 _ Hok1 Hord). destruct (spec_requests p n qs m1) as [os m2].
    destruct IH as [Hok2 (ext2 & E2 & S2)]. split; [done|]. exists (ext1 ++ ext2).
    rewrite E2, E1, app_assoc. split; [done|]. simpl. by apply sublist_app.
Qed.

Lemma spec_requests_rate p n k t qs :
  in_order t qs →
  rate_bounded (Limit (Normalize p)) (window_ms (Normalize p))
    (granted k qs (spec_requests p n qs ∅).1).
Proof.
  intros Hord u.
  assert (H0 : logs_ok p t ∅).
  { intros k'. unfold client_log. rewrite lookup_empty. simpl.
    split; [constructor|]. intros u'. pose proof (Normalize_enforceable p) as [? _].
    unfold within, len; simpl. lia. }
  pose proof (spec_requests_granted p n k qs ∅ t H0 Hord) as H.
  destruct (spec_requests p n qs ∅) as [os m']. destruct H as [[t' Hok] (ext & E & S)].
  destruct (Hok k) as [_ Hr]. specialize (Hr u).
  replace (client_log k ∅) with (@nil Z) in E by (unfold client_log; by rewrite lookup_empty).
  rewrite E in Hr. simpl in *.
  pose proof (within_sublist (window_ms (Normalize p)) u _ _ S). lia.
Qed.
