(* ===== verification/RedisProps.v ===== *)
(** * internal/limiter/redis.go: correctness

    The fleet of Redis limiters is one exact sliding window per client, members never collide,
    and the key-space walk behind the dashboard is bounded. *)

From Stdlib Require Import Ascii.
From S2P Require Import Prelude.
From S2P Require Import GoTime.
From S2P Require Import GoStrings.
From S2P Require Import Policy.
From S2P Require Import SlidingWindow.
From S2P Require Import RedisServer.
From S2P Require Import Redis.
From S2P Require Import RedisFleet.

Open Scope Z_scope.

(** ** Examples *)

(** A 2-per-100ms policy and an instant in milliseconds. *)
Definition sample_policy : Policy := MkPolicy 2 (100 * Millisecond).
Definition at_ms (ms : Z) : Time := MkTime (ms * Millisecond) (Some (ms * Millisecond)).

Definition sample_fleet : fleet RefDB :=
  MkFleet [NewRedisLimiter "rl:" (newInstanceID (Some ["010"; "171"]%char) (at_ms 1000));
           NewRedisLimiter "rl:" (newInstanceID (Some ["010"; "172"]%char) (at_ms 1000))] ∅ 1000.

Definition sample_requests : list request :=
  [MkReq 0 "alice" (at_ms 1000) Delivered; MkReq 1 "alice" (at_ms 1000) (ReplyLost "timeout");
   MkReq 0 "alice" (at_ms 1050) Delivered; MkReq 1 "bob" (at_ms 1050) Delivered;
   MkReq 0 "bob" (at_ms 1060) (Unreached "dial"); MkReq 1 "alice" (at_ms 1101) Delivered].

(** ** Lemmas *)

Lemma sample_deployed : deployed "rl:" sample_fleet.
Proof.
  split; [|split].
  - apply NoDup_cons; split; [|apply NoDup_singleton].
    intros H%list_elem_of_singleton. discriminate H.
  - repeat constructor; simpl; try done;
      rewrite ?not_elem_of_cons; repeat split; try done; apply not_elem_of_nil.
  - done.
Qed.

Lemma sample_in_order : in_order (clock sample_fleet) sample_requests.
Proof. repeat split; discriminate. Qed.

Lemma EncodeToString_no_dash b : "-"%char ∉ bytes (EncodeToString b).
Proof.
  induction b as [|c b IH]; simpl; [apply not_elem_of_nil|].
  assert (Hc : 0 ≤ code c < 256) by (unfold code; pose proof (nat_ascii_bounded c); lia).
  change (bytes (String ?x (String ?y ?s))) with (x :: y :: bytes s).
  rewrite !not_elem_of_cons. split; [|split; [|done]]; apply not_eq_sym, digit36_not_dash.
  - split; [apply Z.div_pos; lia|]. assert (code c / 16 < 16) by (apply Z.div_lt_upper_bound; lia). lia.
  - pose proof (Z.mod_pos_bound (code c) 16). lia.
Qed.

Lemma newInstanceID_no_dash random now :
  0 ≤ UnixNano now → "-"%char ∉ bytes (newInstanceID random now).
Proof.
  intros H. destruct random; simpl; [apply EncodeToString_no_dash|].
  unfold FormatInt36. case_if; [lia|]. apply FormatUint36_no_dash.
Qed.

(** ** Properties of the limiter *)

(** C4.  Every proxy instance sharing a Redis deployment enforces one global limit per client:
    whatever the interleaving of requests over the instances and the fate of each call, the
    outcomes of the whole fleet are those of a single exact sliding window per client that
    counts in milliseconds.  A request is admitted exactly when fewer than the limit were
    admitted in the window just before it; a call whose reply is lost is counted though its
    caller sees an error; a call that never reaches the server is not.  The sorted set and its
    expiry (PEXPIRE by one window) never lose an entry that still matters, two requests in the
    same millisecond never share a member, and [RetryAfter] is the exact time until the oldest
    counted request leaves the window.  One policy, and scripts run in the order of the clock
    readings sent along ([in_order]). *)
Theorem fleet_refines_window `{RedisLaws DB} (p : Policy) (pre : string) (qs : list request)
    (f : fleet DB) :
  deployed pre f → in_order (clock f) qs → len qs < 18446744073709551616 →
  (fleet_run p qs f).1 = (spec_requests p (length (nodes f)) qs ∅).1.
Proof.
  intros Hd Hord Hlen. pose proof (deployed_run_sim p pre qs f Hd Hord Hlen) as Hsim.
  destruct (fleet_run p qs f), (spec_requests p (length (nodes f)) qs ∅). by destruct Hsim.
Qed.

Lemma fleet_refines_window_witness :
  (fleet_run sample_policy sample_requests sample_fleet).1
    = (spec_requests sample_policy 2 sample_requests ∅).1
  ∧ (λ o, match o with Some (inl d) => Some (Allowed d) | _ => None end)
      <$> (fleet_run sample_policy sample_requests sample_fleet).1
    = [Some true; None; Some false; Some true; None; Some true].
Proof.
  split.
  - apply (fleet_refines_window sample_policy "rl:" sample_requests sample_fleet).
    + exact sample_deployed.
    + exact sample_in_order.
    + reflexivity.
  - vm_compute. reflexivity.
Defined.

(** C1.  The fleet-wide guarantee: for every client and every instant, the requests let through
    by all the instances together in the window that ends there number at most the limit.  The
    instances serve one policy, and the server runs their scripts in the order of the clock
    readings the instances send along ([in_order]). *)
Theorem fleet_rate_bounded `{RedisLaws DB} (p : Policy) (pre : string) (qs : list request)
    (f : fleet DB) (client : string) :
  deployed pre f → in_order (clock f) qs → len qs < 18446744073709551616 →
  rate_bounded (Limit (Normalize p)) (window_ms (Normalize p))
    (granted client qs (fleet_run p qs f).1).
Proof.
  intros Hd Hord Hlen. pose proof (deployed_run_sim p pre qs f Hd Hord Hlen) as Hsim.
  pose proof (spec_requests_rate p (length (nodes f)) client _ qs Hord) as Hrate.
  destruct (fleet_run p qs f), (spec_requests p (length (nodes f)) qs ∅).
  destruct Hsim as [-> _]. exact Hrate.
Qed.

Lemma fleet_rate_bounded_witness :
  rate_bounded 2 100
    (granted "alice" sample_requests (fleet_run sample_policy sample_requests sample_fleet).1)
  ∧ granted "alice" sample_requests (fleet_run sample_policy sample_requests sample_fleet).1
    = [1000; 1101].
Proof.
  split.
  - apply (fleet_rate_bounded sample_policy "rl:" sample_requests sample_fleet "alice").
    + exact sample_deployed.
    + exact sample_in_order.
    + reflexivity.
  - vm_compute. reflexivity.
Defined.

(** [Peek] reports, without counting anything, exactly the number of requests the fleet
    has counted for the client in the window that ends now, whenever the window is a whole
    number of milliseconds. *)
Theorem redis_Peek_counts `{RedisLaws DB} (p : Policy) (pre : string) (qs : list request)
    (f : fleet DB) (client : string) (now : Time) (r : RedisLimiter) :
  deployed pre f → in_order (clock f) qs → len qs < 18446744073709551616 →
  prefix r = pre → Window (Normalize p) `mod` Millisecond = 0 →
  let f' := (fleet_run p qs f).2 in
  clock f' ≤ UnixMilli now →
  Redis.Peek client p now r (elapse (UnixMilli now - clock f') (server f'))
  = len (live (window_ms (Normalize p)) (UnixMilli now)
           (client_log client (spec_requests p (length (nodes f)) qs ∅).2)).
Proof.
  intros Hd Hord Hlen Hpre Hms f' Hnow.
  pose proof (deployed_run_sim p pre qs f Hd Hord Hlen) as Hsim. unfold f' in *.
  destruct (fleet_run p qs f) as [os f1], (spec_requests p (length (nodes f)) qs ∅) as [os' m].
  destruct Hsim as (_ & Hok & _). simpl in *.
  pose proof (key_ok_elapse _ _ _ _ _ _ _ Hnow (fok_keys _ _ _ _ _ Hok client)) as Hkey.
  rewrite <- (ok_live _ _ _ _ _ _ Hkey). unfold Redis.Peek, zcount_above, len. rewrite Hpre.
  f_equal. rewrite <- (length_fmap fst), fst_filter. unfold live. f_equal.
  assert (Hc : UnixMilli (Add now (- Window (Normalize p))) =
               UnixMilli now - window_ms (Normalize p)).
  { rewrite window_ms_id by apply Normalize_enforceable. unfold UnixMilli; simpl.
    unfold Millisecond in Hms. pose proof (Z.div_mod (Window (Normalize p)) 1000000 ltac:(lia)) as E.
    rewrite E at 1. rewrite Hms.
    replace (wall now + - (1000000 * (Window (Normalize p) / 1000000) + 0))
      with (wall now + (- (Window (Normalize p) / 1000000)) * 1000000) by lia.
    rewrite Z.div_add by lia. lia. }
  by rewrite Hc.
Qed.

Lemma redis_Peek_counts_witness :
  let f' := (fleet_run sample_policy sample_requests sample_fleet).2 in
  Redis.Peek "alice" sample_policy (at_ms 1102) (NewRedisLimiter "rl:" "ff")
    (elapse (1102 - clock f') (server f')) = 1.
Proof.
  apply (redis_Peek_counts sample_policy "rl:" sample_requests sample_fleet "alice" (at_ms 1102)
           (NewRedisLimiter "rl:" "ff")).
  - exact sample_deployed.
  - exact sample_in_order.
  - reflexivity.
  - reflexivity.
  - reflexivity.
  - vm_compute. discriminate.
Defined.

(** Members are unique across instances, goroutines and requests landing in the same
    millisecond: two calls whose instance ids or sequence numbers differ send different
    members, even at the same nanosecond, because the ids [newInstanceID] makes hold no dash. *)
Theorem member_unique (random random' : option (list ascii)) (born born' now now' : Time)
    (r r' : RedisLimiter) :
  0 ≤ UnixNano born → 0 ≤ UnixNano born' →
  instance r = newInstanceID random born → instance r' = newInstanceID random' born' →
  0 ≤ seq r < 18446744073709551615 → 0 ≤ seq r' < 18446744073709551615 →
  instance r ≠ instance r' ∨ seq r ≠ seq r' →
  (member r now).1 ≠ (member r' now').1.
Proof.
  intros Hb Hb' Hi Hi' Hs Hs' Hdiff H. unfold member in H; simpl in H. unfold wrapu64 in H.
  rewrite !Z.mod_small in H by lia. apply member_inj in H as [? ?].
  - destruct Hdiff; [done|lia].
  - rewrite Hi. by apply newInstanceID_no_dash.
  - rewrite Hi'. by apply newInstanceID_no_dash.
  - lia.
  - lia.
Qed.

Lemma member_unique_witness :
  let r := NewRedisLimiter "rl:" (newInstanceID (Some ["007"%char]) (at_ms 1)) in
  let '(m, r') := member r (at_ms 5) in
  m ≠ (member r' (at_ms 5)).1 ∧ m = "07-2z60w-1".
Proof.
  set (r := NewRedisLimiter "rl:" (newInstanceID (Some ["007"%char]) (at_ms 1))).
  split; [|vm_compute; reflexivity].
  apply (member_unique (Some ["007"%char]) (Some ["007"%char]) (at_ms 1) (at_ms 1) (at_ms 5)
           (at_ms 5) r (member r (at_ms 5)).2).
  - vm_compute; discriminate.
  - vm_compute; discriminate.
  - reflexivity.
  - reflexivity.
  - vm_compute; split; [discriminate|reflexivity].
  - vm_compute; split; [discriminate|reflexivity].
  - right. vm_compute. discriminate.
Defined.

(** ** Walking the key space *)

Lemma collect_spec pre maxKeys l :
  ∀ out, Z.of_nat (size out) < maxKeys →
  let out' := collect pre maxKeys l out in
  Z.of_nat (size out') ≤ maxKeys
  ∧ ∀ k n, out' !! k = Some n →
      out !! k = Some n ∨ n ≠ 0 ∧ ∃ full, (full, n) ∈ l ∧ k = TrimPrefix full pre.
Proof.
  induction l as [|[full c] l IH]; intros out Hsize; simpl; [split; [lia|auto]|].
  assert (Hlift : ∀ o, (∀ k n, o !! k = Some n → out !! k = Some n ∨
             n ≠ 0 ∧ ∃ f, (f, n) ∈ (full, c) :: l ∧ k = TrimPrefix f pre) →
           Z.of_nat (size o) < maxKeys →
           Z.of_nat (size (collect pre maxKeys l o)) ≤ maxKeys ∧
           ∀ k n, collect pre maxKeys l o !! k = Some n → out !! k = Some n ∨
             n ≠ 0 ∧ ∃ f, (f, n) ∈ (full, c) :: l ∧ k = TrimPrefix f pre).
  { intros o Ho Hso. destruct (IH o Hso) as [Hs Hl]. split; [done|]. intros k n Hk.
    destruct (Hl k n Hk) as [|(Hn & f & Hf & ->)]; [auto|]. right. split; [done|].
    exists f. split; [by right|done]. }
  case_if; [apply Hlift; auto|].
  assert (Hnew : ∀ k n, <[TrimPrefix full pre := c]> out !! k = Some n → out !! k = Some n ∨
             n ≠ 0 ∧ ∃ f, (f, n) ∈ (full, c) :: l ∧ k = TrimPrefix f pre).
  { intros k n. rewrite lookup_insert_Some. intros [[<- <-]|[_ Hk]]; [right|by left].
    split; [done|]. exists full. split; [left|done]. }
  case_if; [|apply Hlift; [exact Hnew|lia]].
  split; [|exact Hnew]. rewrite map_size_insert. destruct (out !! TrimPrefix full pre); simpl; lia.
Qed.

(** The pages a walk has read. *)
Lemma active_loop_spec pre maxKeys pages :
  ∀ out res, active_loop pre maxKeys pages out = Some (inl res) →
  Z.of_nat (size out) ≤ maxKeys →
  Z.of_nat (size res) ≤ maxKeys
  ∧ ∀ k n, res !! k = Some n →
      out !! k = Some n ∨
      n ≠ 0 ∧ ∃ keys cursor counts full,
        ScanKeys keys cursor (ExecOk counts) ∈ pages ∧ (full, n) ∈ zip keys counts
        ∧ k = TrimPrefix full pre.
Proof.
  induction pages as [|page pages IH]; intros out res; simpl.
  { case_if; [done|]. intros [= <-] ?. auto. }
  case_if; [|intros [= <-] ?; auto].
  destruct page as [err|keys cursor reply]; [done|].
  destruct (match keys with [] => _ | _ => _ end) as [o|e] eqn:Eo; [|done].
  assert (Ho : Z.of_nat (size o) ≤ maxKeys ∧ ∀ k n, o !! k = Some n → out !! k = Some n ∨
            n ≠ 0 ∧ ∃ keys' cursor' counts full, ScanKeys keys' cursor' (ExecOk counts) ∈
              ScanKeys keys cursor reply :: pages ∧ (full, n) ∈ zip keys' counts
              ∧ k = TrimPrefix full pre).
  { destruct keys as [|key keys]; [injection Eo as <-; split; [lia|auto]|].
    destruct reply as [|counts]; [done|]. injection Eo as <-.
    destruct (collect_spec pre maxKeys (zip (key :: keys) counts) out E) as [Hs Hl].
    split; [done|]. intros k n Hk. destruct (Hl k n Hk) as [|(Hn & full & Hf & ->)]; [by left|].
    right. split; [done|]. exists (key :: keys), cursor, counts, full. split; [left|done]. }
  destruct Ho as [Hs Hl]. intros Hres _. revert Hres. case_if; [intros [= <-]; auto|].
  intros Hres. destruct (IH o res Hres Hs) as [Hs' Hl']. split; [done|].
  intros k n Hk. destruct (Hl' k n Hk) as [Hk'|(Hn & ks & cu & cs & f & Hin & ? & ?)]; [auto|].
  right. split; [done|]. exists ks, cu, cs, f. split; [by right|done].
Qed.

(** [ActiveKeys] never returns more than [maxKeys] keys (100 when none is asked for), and
    reports a key only with the non-zero cardinality Redis gave for it, under its client name
    with the prefix removed. *)
Theorem ActiveKeys_bounded (r : RedisLimiter) (maxKeys : Z)
    (pages : list (scan_page (list Z))) (out : gmap string Z) :
  ActiveKeys r maxKeys pages = Some (inl out) →
  Z.of_nat (size out) ≤ (if maxKeys <=? 0 then 100 else maxKeys)
  ∧ ∀ k n, out !! k = Some n →
      n ≠ 0 ∧ ∃ keys cursor counts full,
        ScanKeys keys cursor (ExecOk counts) ∈ pages ∧ (full, n) ∈ zip keys counts
        ∧ k = TrimPrefix full (prefix r).
Proof.
  intros H. apply active_loop_spec in H as [Hs Hl].
  - split; [exact Hs|]. intros k n Hk. destruct (Hl k n Hk) as [Hk'|Hok]; [|exact Hok].
    by rewrite lookup_empty in Hk'.
  - rewrite map_size_empty. case_if; lia.
Qed.

Lemma ActiveKeys_bounded_witness :
  let r := NewRedisLimiter "rl:" "ff" in
  ∃ out, ActiveKeys r 2
    [ScanKeys ["rl:a"; "rl:b"] 7 (ExecOk [3; 0]); ScanKeys [] 9 (ExecOk []);
     ScanKeys ["rl:c"; "rl:d"] 0 (ExecOk [1; 5])] = Some (inl out)
  ∧ Z.of_nat (size out) ≤ 2.
Proof.
  eexists. split; [vm_compute; reflexivity|].
  apply (ActiveKeys_bounded (NewRedisLimiter "rl:" "ff") 2
    [ScanKeys ["rl:a"; "rl:b"] 7 (ExecOk [3; 0]); ScanKeys [] 9 (ExecOk []);
     ScanKeys ["rl:c"; "rl:d"] 0 (ExecOk [1; 5])]).
  vm_compute. reflexivity.
Defined.
