(* ===== verification/Limiter.v ===== *)
(** * The Limiter contract

    The interface [Limiter] of internal/limiter/limiter.go, as the manager uses it, and what
    its two implementations promise: each is an exact sliding window of its own time unit.
    The manager's theorems are proved from the promise alone; the in-memory and the Redis
    limiter discharge it here. *)

From S2P Require Import Prelude.
From S2P Require Import GoTime.
From S2P Require Import Policy.
From S2P Require Import SlidingWindow.
From S2P Require Import Memory.
From S2P Require Import RedisServer.
From S2P Require Import Redis.
From S2P Require Import RedisFleet.

Open Scope Z_scope.

(** [Allow(ctx, key, p)]: [Env] is what the environment decides during one call, [Now] the
    reading of the clock; [None] is a panic. *)
Class Limiter (S E Env : Type) :=
  limiter_allow : Env → string → Policy → Time → S → option (Decision + E) * S.

(** A limiter that is an exact window for policy [p]: in any state that represents some logs, a
    call whose clock has not gone back returns; a decision is the window's, and the log of the
    key advances; an error leaves it open whether the request was counted.  [rep n] holds for
    states with [n] calls to go, for limiters that count their calls in a machine integer. *)
Class WindowLimiter (S E Env : Type) `{Limiter S E Env} (p : Policy) := {
  wname : string;
  units : Time → Z;
  width : Z;
  usable : Time → Prop;
  rep : nat → Z → S → gmap string (list Z) → Prop;
  rep_later n T T' s logs : rep (Datatypes.S n) T s logs → T ≤ T' → rep n T' s logs;
  rep_allow n T s logs env key now :
    rep (Datatypes.S n) T s logs → usable now → T ≤ units now →
    ∃ r s' log',
      limiter_allow env key p now s = (Some r, s')
      ∧ rep n (units now) s' (<[key := log']> logs)
      ∧ let log := log_of logs key in
        let next := spec_step (Limit (Normalize p)) width (units now) log in
        match r with
        | inl d => Allowed d = admits (Limit (Normalize p)) width (units now) log
                   ∧ Backend d = wname ∧ log' = next
        | inr _ => log' = log ∨ log' = next
        end }.

(** ** The in-memory limiter *)

#[export] Instance MemoryLimiter_Limiter (growcap : Z → Z → Z) :
  Limiter MemoryLimiter Empty_set unit :=
  λ _ key p now m, let '(d, m) := Memory.Allow growcap key p now m in (inl <$> d, m).

#[export] Instance MemoryLimiter_Window growcap p :
  @WindowLimiter MemoryLimiter Empty_set unit (MemoryLimiter_Limiter growcap) p.
Proof.
  refine {|
    wname := BackendMemory;
    units := wall;
    width := Window (Normalize p);
    usable := λ now, 0 ≤ wall now ≤ last_instant;
    rep := λ _ T m logs, rel (Window (Normalize p)) T m logs |}.
  - intros n T T' s logs Hrel Hle. by eapply rel_later.
  - intros n T m logs [] key now Hrel Hnow Hle.
    apply (rel_later p T (wall now)) in Hrel; [|done].
    destruct (Allow_sim growcap p now Hnow key m logs Hrel) as (m' & HA & Hrel').
    eexists (inl _), m', _. unfold limiter_allow, MemoryLimiter_Limiter. rewrite HA.
    split; [done|]. split; [exact Hrel'|done].
Defined.

(** ** The Redis limiter: instance [i] of a fleet *)

#[export] Instance RedisLimiter_Limiter `{RedisServer DB} (i : nat) :
  Limiter (fleet DB) redis_error network :=
  λ net key p now f,
    let '(o, f) := fleet_step p (MkReq i key now net) f in (o, f).

Lemma fleet_ok_ext `{RedisServer DB} p pre b (f : fleet DB) m m' :
  (∀ k, client_log k m' = client_log k m) → fleet_ok p pre b f m → fleet_ok p pre b f m'.
Proof. intros Hm [Hn Hk]. constructor; [done|]. intros k. rewrite Hm. apply Hk. Qed.

Definition fleet_rep `{RedisServer DB} (p : Policy) (pre : string) (i : nat) (n : nat) (T : Z)
    (f : fleet DB) (logs : gmap string (list Z)) : Prop :=
  ∃ b, fleet_ok p pre b f logs ∧ b + Z.of_nat n ≤ 18446744073709551615
       ∧ clock f ≤ T ∧ (i < length (nodes f))%nat.

#[export] Instance RedisLimiter_Window `{RedisLaws DB} (i : nat) (pre : string) p :
  @WindowLimiter (fleet DB) redis_error network (RedisLimiter_Limiter i) p.
Proof.
  refine {|
    wname := BackendRedis;
    units := UnixMilli;
    width := window_ms (Normalize p);
    usable := λ _, True;
    rep := fleet_rep p pre i |}.
  - intros n T T' f logs (b & ? & ? & ? & ?) Hle. exists b. split; [done|lia].
  - intros n T f logs net key now (b & Hok & Hb & Hclk & Hi) _ Hle.
    pose proof (fleet_step_sim p pre b f logs (MkReq i key now net) Hok ltac:(lia)) as Hstep.
    simpl in Hstep. specialize (Hstep ltac:(lia)).
    unfold limiter_allow, RedisLimiter_Limiter.
    destruct (fleet_step p (MkReq i key now net) f) as [o f'].
    unfold spec_request in Hstep; simpl in Hstep.
    rewrite (proj2 (Nat.ltb_lt _ _) Hi) in Hstep.
    assert (Hrep : ∀ m, fleet_ok p pre (b + 1) f' m → length (nodes f') = length (nodes f) →
                   clock f' = UnixMilli now → fleet_rep p pre i n (UnixMilli now) f' m).
    { intros m ? Hn Hc. exists (b + 1). split; [done|lia]. }
    destruct net as [|err|err]; destruct Hstep as (-> & Hok' & Hn & Hc).
    + do 3 eexists. split; [done|]. split; [by apply Hrep|]. simpl. done.
    + do 3 eexists. split; [done|]. split; [by apply Hrep|]. simpl. by right.
    + exists (inr (EBackend err)), f', (log_of logs key). split; [done|].
      split; [|by left]. apply Hrep; [|done..]. eapply fleet_ok_ext; [|exact Hok'].
      intros k. rewrite client_log_insert. case_decide as Hk; [subst; unfold log_of, client_log|]; reflexivity.
Defined.
