(* ===== verification/Breaker.v ===== *)
(** * internal/limiter/manager.go: the failover state and its circuit breaker

    The fields of [Manager] other than its two limiters, the operations that change them, and
    the goroutines that run those operations: request handlers and the background prober.  Each
    critical section of [mu] and each atomic field access is one step; the clock readings and
    what Redis answered are inputs.  Logging has no effect on the state: a step only says
    whether a line is logged. *)

From S2P Require Import Prelude.
From S2P Require Import GoTime.
From S2P Require Import Policy.
From S2P Require Import SlidingWindow.

Open Scope Z_scope.

(** ** Configuration *)

Record ManagerConfig := MkConfig {
  Timeout : Duration;
  FailureThreshold : Z;
  Cooldown : Duration;
  ProbeInterval : Duration;
  CPolicy : Policy }.

Definition withDefaults (c : ManagerConfig) : ManagerConfig :=
  MkConfig
    (if Timeout c <=? 0 then 200 * Millisecond else Timeout c)
    (if FailureThreshold c <? 1 then 3 else FailureThreshold c)
    (if Cooldown c <=? 0 then 5 * Second else Cooldown c)
    (if ProbeInterval c <=? 0 then 2 * Second else ProbeInterval c)
    (Normalize (CPolicy c)).

(** ** State *)

Record Manager := MkManager {
  policy : Policy;
  failures : Z;
  openUntil : Time;
  lastErr : string;
  redisHealthy : bool;
  degraded : bool;
  redisServed : Z;
  fallbackServed : Z }.

(** [NewManager], its configuration already completed by [withDefaults]. *)
Definition NewManager (enabled : bool) (cfg : ManagerConfig) : Manager :=
  MkManager (CPolicy cfg) 0 ZeroTime "" enabled false 0 0.

(** The part [mu] guards, written as one store. *)
Definition set_breaker (f : Z) (u : Time) (e : string) (m : Manager) : Manager :=
  MkManager (policy m) f u e (redisHealthy m) (degraded m) (redisServed m) (fallbackServed m).
Definition set_redisHealthy (b : bool) (m : Manager) : Manager :=
  MkManager (policy m) (failures m) (openUntil m) (lastErr m) b (degraded m) (redisServed m)
    (fallbackServed m).
(** [degraded.Swap(b)]: the old value is returned. *)
Definition swap_degraded (b : bool) (m : Manager) : bool * Manager :=
  (degraded m,
   MkManager (policy m) (failures m) (openUntil m) (lastErr m) (redisHealthy m) b (redisServed m)
     (fallbackServed m)).
Definition add_redisServed (m : Manager) : Manager :=
  MkManager (policy m) (failures m) (openUntil m) (lastErr m) (redisHealthy m) (degraded m)
    (wrapu64 (redisServed m + 1)) (fallbackServed m).
Definition add_fallbackServed (m : Manager) : Manager :=
  MkManager (policy m) (failures m) (openUntil m) (lastErr m) (redisHealthy m) (degraded m)
    (redisServed m) (wrapu64 (fallbackServed m + 1)).

Definition SetPolicy (p : Policy) (m : Manager) : Policy * Manager :=
  let p := Normalize p in
  (p, MkManager p (failures m) (openUntil m) (lastErr m) (redisHealthy m) (degraded m)
        (redisServed m) (fallbackServed m)).

(** ** Operations *)

Section Operations.
Context (cfg : ManagerConfig).

Definition tryPrimary (now : Time) (m : Manager) : bool * Manager :=
  if IsZero (openUntil m) then (true, m)
  else if After now (openUntil m)
  then (true, set_breaker (failures m) (Add now (Cooldown cfg)) (lastErr m) m)
  else (false, m).

(** The critical section of [recordFailure]; [tripped] is returned. *)
Definition failure_locked (err : string) (now : Time) (m : Manager) : bool * Manager :=
  let f := wrap64 (failures m + 1) in
  if (FailureThreshold cfg <=? f) && IsZero (openUntil m)
  then (true, set_breaker f (Add now (Cooldown cfg)) err m)
  else (false, set_breaker f (openUntil m) err m).

Definition recordFailure (err : string) (now : Time) (m : Manager) : bool * Manager :=
  let '(tripped, m) := failure_locked err now m in
  let m := set_redisHealthy false m in
  let '(was, m) := swap_degraded true m in
  (negb was || tripped, m).

(** The critical section of [recordSuccess]; [recovered] is returned. *)
Definition success_locked (m : Manager) : bool * Manager :=
  let recovered := (0 <? failures m) || negb (IsZero (openUntil m)) in
  (recovered, set_breaker 0 ZeroTime (if recovered then "" else lastErr m) m).

Definition recordSuccess (m : Manager) : bool * Manager :=
  let '(recovered, m) := success_locked m in
  let m := set_redisHealthy true m in
  let '(was, m) := swap_degraded false m in
  (was && recovered, m).

(** The critical sections of [probeLoop], after a failed and after a successful ping. *)
Definition probe_failed_locked (err : string) (m : Manager) : Manager :=
  set_breaker (failures m) (openUntil m) err m.

Definition probe_ok_locked (m : Manager) : Manager :=
  let wasOpen := negb (IsZero (openUntil m)) in
  set_breaker 0 ZeroTime (if wasOpen then "" else lastErr m) m.

(** One tick of [probeLoop]; [answer] is the error of the ping, if any. *)
Definition probe_tick (answer : option string) (m : Manager) : bool * Manager :=
  match answer with
  | Some err => (false, probe_failed_locked err (set_redisHealthy false m))
  | None =>
      let m := set_redisHealthy true m in
      let m := probe_ok_locked m in
      swap_degraded false m
  end.

(** ** The goroutines *)

(** What [primary.Allow] came to: a decision, an error, or an error under a dead context. *)
Inductive verdict := VOk | VError (err : string) | VCancelled.

(** Program points of [AllowPolicy] (R) and of [probeLoop] (Q). *)
Inductive pc :=
| RTry | RCall
| RSuccLock | RSuccHealthy (recovered : bool) | RSuccSwap (recovered : bool) | RSuccAdd
| RFailLock (err : string) | RFailHealthy (tripped : bool) | RFailSwap (tripped : bool)
| RFallback | RFallbackAdd
| RDone (backend : string)
| QPing
| QFailHealthy (err : string) | QFailLock (err : string)
| QOkHealthy | QOkLock | QOkSwap
| QStopped.

(** The inputs of a step: the clock, the verdict of the call a thread makes, whether [stop] is
    closed. *)
Record input := MkInput { i_now : Time; i_verdict : verdict; i_stop : bool }.

Definition pc_step (enabled : bool) (i : input) (c : pc) (m : Manager) : pc * Manager :=
  match c with
  | RTry =>
      if enabled then
        let '(ok, m) := tryPrimary (i_now i) m in (if ok then RCall else RFallback, m)
      else (RFallback, m)
  | RCall =>
      (match i_verdict i with
       | VOk => RSuccLock
       | VCancelled => RFallback
       | VError err => RFailLock err
       end, m)
  | RSuccLock => let '(recovered, m) := success_locked m in (RSuccHealthy recovered, m)
  | RSuccHealthy recovered => (RSuccSwap recovered, set_redisHealthy true m)
  | RSuccSwap _ => (RSuccAdd, snd (swap_degraded false m))
  | RSuccAdd => (RDone BackendRedis, add_redisServed m)
  | RFailLock err => let '(tripped, m) := failure_locked err (i_now i) m in (RFailHealthy tripped, m)
  | RFailHealthy tripped => (RFailSwap tripped, set_redisHealthy false m)
  | RFailSwap _ => (RFallback, snd (swap_degraded true m))
  | RFallback => (RFallbackAdd, m)
  | RFallbackAdd => (RDone BackendMemory, add_fallbackServed m)
  | RDone b => (RDone b, m)
  | QPing =>
      if i_stop i then (QStopped, m) else
      (match i_verdict i with
       | VOk => QOkHealthy
       | VError err => QFailHealthy err
       | VCancelled => QFailHealthy "context deadline exceeded"
       end, m)
  | QFailHealthy err => (QFailLock err, set_redisHealthy false m)
  | QFailLock err => (QPing, probe_failed_locked err m)
  | QOkHealthy => (QOkLock, set_redisHealthy true m)
  | QOkLock => (QOkSwap, probe_ok_locked m)
  | QOkSwap => (QPing, snd (swap_degraded false m))
  | QStopped => (QStopped, m)
  end.

(** The whole process: the shared state and one program point per goroutine. *)
Record process := MkProcess { mgr : Manager; threads : list pc }.

(** A schedule: which goroutine moves, and with what inputs. *)
Fixpoint run_schedule (enabled : bool) (sched : list (nat * input)) (s : process) : process :=
  match sched with
  | [] => s
  | (n, i) :: sched =>
      match threads s !! n with
      | None => run_schedule enabled sched s
      | Some c =>
          let '(c, m) := pc_step enabled i c (mgr s) in
          run_schedule enabled sched (MkProcess m (<[n := c]> (threads s)))
      end
  end.

(** The instants (on the process clock) at which a handler is let through to Redis. *)
Fixpoint probes (enabled : bool) (sched : list (nat * input)) (s : process) : list Z :=
  match sched with
  | [] => []
  | (n, i) :: sched =>
      match threads s !! n with
      | None => probes enabled sched s
      | Some c =>
          let '(c', m) := pc_step enabled i c (mgr s) in
          let rest := probes enabled sched (MkProcess m (<[n := c']> (threads s))) in
          match c, c' with
          | RTry, RCall => default 0 (mono (i_now i)) :: rest
          | _, _ => rest
          end
      end
  end.

End Operations.

(** ** Notions for the theorems *)

Definition circuit_open (m : Manager) : bool := negb (IsZero (openUntil m)).

(** A reading of the process clock the breaker can add its cooldown to. *)
Definition clock_ok (cooldown : Duration) (now : Time) : Prop :=
  0 ≤ wall now ∧ ∃ t, mono now = Some t ∧ 0 ≤ t ∧ t + cooldown ≤ max_int64.

(** A configuration as [withDefaults] leaves it. *)
Definition cfg_ok (cfg : ManagerConfig) : Prop :=
  1 ≤ FailureThreshold cfg ∧ 0 < Cooldown cfg ≤ max_int64.

(** A goroutine before its first step: a handler, or the prober. *)
Definition starting (c : pc) : bool := match c with RTry | QPing => true | _ => false end.

(** A goroutine about to record that Redis answered. *)
Definition closing (c : pc) : bool :=
  match c with RSuccLock | QOkHealthy | QOkLock => true | _ => false end.

(** Handlers that returned with the answer of a backend. *)
Definition served_by (b : string) (c : pc) : bool :=
  match c with RDone b' => String.eqb b' b | _ => false end.

(** How many more steps a handler can take. *)
Definition pc_measure (c : pc) : nat :=
  match c with
  | RTry => 7 | RCall => 6
  | RSuccLock => 4 | RSuccHealthy _ => 3 | RSuccSwap _ => 2 | RSuccAdd => 1
  | RFailLock _ => 5 | RFailHealthy _ => 4 | RFailSwap _ => 3
  | RFallback => 2 | RFallbackAdd => 1
  | _ => 0
  end.

(** ** Lemmas on the clock *)

Lemma Add_not_zero cooldown now : clock_ok cooldown now → 0 < cooldown → IsZero (Add now cooldown) = false.
Proof. intros [Hw _] Hc. unfold IsZero; simpl. apply Z.eqb_neq. lia. Qed.

(** Being after [t + cooldown] on the process clock. *)
Lemma After_Add cooldown now t :
  clock_ok cooldown now → clock_ok cooldown t → 0 < cooldown →
  After now (Add t cooldown) = (default 0 (mono t) + cooldown <? default 0 (mono now)).
Proof.
  intros (_ & a & Ha & _) (_ & b & Hb & ? & ?) Hc. unfold After, readings, Add; simpl.
  rewrite Ha, Hb. simpl. assert (E : in64 (b + cooldown) = true) by (apply in64_spec; lia).
  by rewrite E.
Qed.
