(* ===== verification/BreakerProps.v ===== *)
(** * internal/limiter/manager.go: what the circuit breaker guarantees

    All statements hold under every interleaving of the request handlers and the prober. *)

From S2P Require Import Prelude.
From S2P Require Import GoTime.
From S2P Require Import Policy.
From S2P Require Import SlidingWindow.
From S2P Require Import Breaker.

Open Scope Z_scope.

(** The circuit is open exactly when enough failures were counted; at most [n] steps ran. *)
Definition breaker_ok (cfg : ManagerConfig) (n : Z) (m : Manager) : Prop :=
  0 ≤ failures m ≤ n ∧ (circuit_open m = true ↔ FailureThreshold cfg ≤ failures m).

(** Two readings of the same configuration for the examples: two failures trip the circuit for
    a second. *)
Definition sample_config : ManagerConfig :=
  MkConfig (200 * Millisecond) 2 Second (2 * Second) (MkPolicy 10 Second).
Definition at_s (s : Z) : Time := MkTime (s * Second) (Some (s * Second)).
Definition ok_at (s : Z) : input := MkInput (at_s s) VOk false.
Definition err_at (s : Z) : input := MkInput (at_s s) (VError "EOF") false.

(** Handler [n] runs to its end at second [s] while Redis fails, or answers. *)
Definition failing (n : nat) (s : Z) : list (nat * input) := replicate 7 (n, err_at s).
Definition answered (n : nat) (s : Z) : list (nat * input) := replicate 6 (n, ok_at s).

(** The two counters hold how many handlers each backend has served, modulo 2^64. *)
Definition counted (s : process) : Prop :=
  redisServed (mgr s) = wrapu64 (Z.of_nat (countb (served_by BackendRedis) (threads s)))
  ∧ fallbackServed (mgr s) = wrapu64 (Z.of_nat (countb (served_by BackendMemory) (threads s))).

(** ** Lemmas *)

Lemma withDefaults_ok c : min_int64 ≤ Cooldown c ≤ max_int64 → cfg_ok (withDefaults c).
Proof.
  intros Hc. unfold cfg_ok, withDefaults; simpl. unfold_durations.
  destruct (Z.ltb_spec (FailureThreshold c) 1), (Z.leb_spec (Cooldown c) 0); lia.
Qed.

Lemma breaker_ok_frame cfg n m m' :
  failures m' = failures m → openUntil m' = openUntil m → breaker_ok cfg n m →
  breaker_ok cfg (n + 1) m'.
Proof. intros Hf Ho [H1 H2]. unfold breaker_ok, circuit_open in *. rewrite Hf, Ho. split; [lia|done]. Qed.

Lemma tryPrimary_ok cfg n now m :
  cfg_ok cfg → clock_ok (Cooldown cfg) now → breaker_ok cfg n m →
  breaker_ok cfg (n + 1) (tryPrimary cfg now m).2.
Proof.
  intros [_ Hc] Hnow [H1 H2]. unfold tryPrimary, breaker_ok, circuit_open in *.
  destruct (IsZero (openUntil m)) eqn:Ez; simpl; [rewrite Ez; split; [lia|done]|].
  destruct (After now (openUntil m)); simpl; rewrite ?Ez.
  - rewrite Add_not_zero by (done || lia). split; [lia|done].
  - split; [lia|done].
Qed.

Lemma failure_locked_ok cfg n err now m :
  cfg_ok cfg → clock_ok (Cooldown cfg) now → n < max_int64 → breaker_ok cfg n m →
  breaker_ok cfg (n + 1) (failure_locked cfg err now m).2.
Proof.
  intros [Ht Hc] Hnow Hn [H1 H2]. unfold failure_locked, breaker_ok, circuit_open in *.
  rewrite wrap64_id by lia. destruct (IsZero (openUntil m)) eqn:Ez; simpl in *.
  - rewrite andb_true_r. case_if; simpl; rewrite ?Add_not_zero, ?Ez by (done || lia); simpl;
      (split; [lia|]); split; try done; lia.
  - rewrite andb_false_r. simpl. rewrite Ez. simpl. split; [lia|]. split; [|done].
    intros _. assert (FailureThreshold cfg ≤ failures m) by (by apply H2). lia.
Qed.

Lemma closed_ok cfg n m :
  cfg_ok cfg → 0 ≤ n → failures m = 0 → openUntil m = ZeroTime → breaker_ok cfg (n + 1) m.
Proof.
  intros [Ht _] Hn Hf Ho. unfold breaker_ok, circuit_open. rewrite Hf, Ho. split; [lia|].
  rewrite IsZero_ZeroTime. simpl. split; [done|lia].
Qed.

Lemma pc_step_ok cfg enabled n i c m :
  cfg_ok cfg → clock_ok (Cooldown cfg) (i_now i) → n < max_int64 → breaker_ok cfg n m →
  breaker_ok cfg (n + 1) (pc_step cfg enabled i c m).2.
Proof.
  intros Hcfg Hnow Hn Hok. assert (0 ≤ n) by (destruct Hok; lia).
  destruct c as [| | | | | |err| | | | | | |err|err| | | |]; simpl; try (by eapply breaker_ok_frame).
  - destruct enabled; [|by eapply breaker_ok_frame].
    pose proof (tryPrimary_ok cfg n _ m Hcfg Hnow Hok) as H'. by destruct (tryPrimary _ _ _).
  - by apply closed_ok.
  - pose proof (failure_locked_ok cfg n err _ m Hcfg Hnow Hn Hok) as H'.
    by destruct (failure_locked _ _ _ _).
  - destruct (i_stop i); by eapply breaker_ok_frame.
  - by apply closed_ok.
Qed.

Lemma run_schedule_ok cfg enabled sched :
  ∀ n s, cfg_ok cfg → Forall (λ x, clock_ok (Cooldown cfg) (i_now x.2)) sched →
  n + len sched ≤ max_int64 → breaker_ok cfg n (mgr s) →
  breaker_ok cfg (n + len sched) (mgr (run_schedule cfg enabled sched s)).
Proof.
  induction sched as [|[k i] sched IH]; intros n s Hcfg Hclk Hn Hok; simpl.
  { unfold len; simpl. by rewrite Z.add_0_r. }
  assert (Hlen : len ((k, i) :: sched) = 1 + len sched) by (unfold len; simpl; lia).
  pose proof (len_nonneg sched). apply Forall_cons in Hclk as [Hi Hclk]. simpl in Hi.
  replace (n + len ((k, i) :: sched)) with (n + 1 + len sched) by lia.
  destruct (threads s !! k) as [c|].
  - pose proof (pc_step_ok cfg enabled n i c (mgr s) Hcfg Hi ltac:(lia) Hok) as Hok'.
    destruct (pc_step cfg enabled i c (mgr s)) as [c' m']. apply IH; try done. lia.
  - apply IH; try done; [lia|]. by eapply breaker_ok_frame.
Qed.

(** ** Spacing of the probes *)

(** The circuit is open since some reading of the clock, and nobody is about to close it. *)
Definition outage (cfg : ManagerConfig) (t : Time) (s : process) : Prop :=
  openUntil (mgr s) = Add t (Cooldown cfg)
  ∧ Forall (λ c, closing c = false) (threads s).

Lemma pc_step_outage cfg enabled i c m t :
  cfg_ok cfg → clock_ok (Cooldown cfg) t → clock_ok (Cooldown cfg) (i_now i) →
  closing c = false → i_verdict i ≠ VOk → openUntil m = Add t (Cooldown cfg) →
  let '(c', m') := pc_step cfg enabled i c m in
  closing c' = false
  ∧ match c, c' with
    | RTry, RCall =>
        openUntil m' = Add (i_now i) (Cooldown cfg)
        ∧ default 0 (mono t) + Cooldown cfg < default 0 (mono (i_now i))
    | _, _ => openUntil m' = openUntil m
    end.
Proof.
  intros [_ Hc] Ht Hi Hcl Hv Ho. pose proof (Add_not_zero _ t Ht ltac:(lia)) as Hz.
  destruct c; try discriminate Hcl; simpl; try done.
  - destruct enabled; [|done]. unfold tryPrimary. rewrite Ho, Hz, After_Add by (done || lia).
    case_if; [|done]. split; [done|]. by split.
  - destruct (i_verdict i); done.
  - unfold failure_locked. rewrite Ho, Hz, andb_false_r. done.
  - destruct (i_stop i); [done|]. destruct (i_verdict i); done.
Qed.

Definition apart (d : Z) (l : list Z) : Prop := StronglySorted (λ a b, a + d < b) l.

Lemma probes_apart cfg enabled sched :
  ∀ t s, cfg_ok cfg → clock_ok (Cooldown cfg) t →
  Forall (λ x, clock_ok (Cooldown cfg) (i_now x.2) ∧ i_verdict x.2 ≠ VOk) sched →
  outage cfg t s →
  apart (Cooldown cfg) (default 0 (mono t) :: probes cfg enabled sched s).
Proof.
  induction sched as [|[n i] sched IH]; intros t s Hcfg Ht Hs Hout; simpl; [by repeat constructor|].
  apply Forall_cons in Hs as [[Hi Hv] Hs]; simpl in *. destruct Hout as [Ho Hcl].
  destruct (threads s !! n) as [c|] eqn:Hn; [|by apply IH].
  pose proof (Forall_lookup_1 _ _ _ _ Hcl Hn) as Hc.
  pose proof (pc_step_outage cfg enabled i c (mgr s) t Hcfg Ht Hi Hc Hv Ho) as Hstep.
  destruct (pc_step cfg enabled i c (mgr s)) as [c' m']. destruct Hstep as [Hc' Hstep].
  set (s' := MkProcess m' (<[n:=c']> (threads s))).
  assert (Hcl' : Forall (λ c, closing c = false) (threads s')) by (by apply Forall_insert).
  assert (Hsame : openUntil m' = openUntil (mgr s) →
                  apart (Cooldown cfg) (default 0 (mono t) :: probes cfg enabled sched s')).
  { intros E. apply IH; try done. split; [simpl; congruence|done]. }
  destruct c; try (by apply Hsame). destruct c'; try (by apply Hsame).
  destruct Hstep as [Ho' Hlt].
  specialize (IH (i_now i) s' Hcfg Hi Hs (conj Ho' Hcl')). constructor; [exact IH|].
  apply StronglySorted_inv in IH as [_ Hall]. destruct Hcfg as [_ Hcool]. constructor; [lia|].
  eapply Forall_impl; [exact Hall|]. simpl; lia.
Qed.

Lemma apart_rate d l : 0 < d → apart d l → rate_bounded 1 d l.
Proof.
  intros Hd Hl t. induction Hl as [|x l Hs IH Hx]; [unfold within, len; simpl; lia|].
  unfold within. rewrite filter_cons. case_decide as Hin; [|exact IH].
  rewrite filter_none; [unfold len; simpl; lia|]. eapply Forall_impl; [exact Hx|]. simpl; lia.
Qed.

(** ** Counters *)

Lemma wrapu64_succ n : wrapu64 (wrapu64 n + 1) = wrapu64 (n + 1).
Proof. unfold wrapu64. by rewrite Zplus_mod_idemp_l. Qed.

Lemma pc_step_counted cfg enabled n i c s :
  threads s !! n = Some c → counted s →
  counted (MkProcess (pc_step cfg enabled i c (mgr s)).2
                     (<[n := (pc_step cfg enabled i c (mgr s)).1]> (threads s))).
Proof.
  intros Hn [H1 H2]. unfold counted in *; simpl.
  set (c' := (pc_step cfg enabled i c (mgr s)).1).
  pose proof (countb_insert (served_by BackendRedis) _ _ _ c' Hn) as HR.
  pose proof (countb_insert (served_by BackendMemory) _ _ _ c' Hn) as HM.
  assert (Hno : served_by BackendRedis c' = served_by BackendRedis c →
                served_by BackendMemory c' = served_by BackendMemory c →
                redisServed (pc_step cfg enabled i c (mgr s)).2 = redisServed (mgr s) →
                fallbackServed (pc_step cfg enabled i c (mgr s)).2 = fallbackServed (mgr s) →
                counted (MkProcess (pc_step cfg enabled i c (mgr s)).2
                                  (<[n := c']> (threads s)))).
  { intros E1 E2 E3 E4. unfold counted; simpl. rewrite E1 in HR. rewrite E2 in HM. rewrite E3, E4.
    rewrite H1, H2. split; do 2 f_equal; lia. }
  unfold counted in Hno; simpl in Hno. unfold c' in *; clear c'.
  destruct c; simpl in *;
    try (apply Hno; clear;
         unfold tryPrimary, failure_locked, success_locked;
         repeat match goal with
                | |- context [if ?b then _ else _] => destruct b; simpl
                | |- context [match i_verdict i with _ => _ end] => destruct (i_verdict i); simpl
                end; reflexivity).
  - rewrite H1, H2, wrapu64_succ. split; f_equal; lia.
  - rewrite H1, H2, wrapu64_succ. split; f_equal; lia.
Qed.

Lemma run_schedule_counted cfg enabled sched :
  ∀ s, counted s → counted (run_schedule cfg enabled sched s).
Proof.
  induction sched as [|[n i] sched IH]; intros s Hs; simpl; [done|].
  destruct (threads s !! n) as [c|] eqn:Hn; [|by apply IH].
  pose proof (pc_step_counted cfg enabled n i c s Hn Hs) as Hs'.
  destruct (pc_step cfg enabled i c (mgr s)). by apply IH.
Qed.

(** ** Progress *)

Definition handler (c : pc) : bool :=
  match c with
  | QPing | QFailHealthy _ | QFailLock _ | QOkHealthy | QOkLock | QOkSwap | QStopped => false
  | RDone b => String.eqb b BackendRedis || String.eqb b BackendMemory
  | _ => true
  end.

Lemma pc_step_measure cfg enabled i c m :
  handler c = true →
  let c' := (pc_step cfg enabled i c m).1 in
  handler c' = true ∧ (pc_measure c' ≤ pc_measure c - 1)%nat.
Proof.
  intros Hh. destruct c; try discriminate Hh; simpl; try (split; [done|lia]).
  - destruct enabled; simpl; [|split; [done|lia]].
    destruct (tryPrimary cfg (i_now i) m) as [[] ?]; simpl; (split; [done|lia]).
  - destruct (i_verdict i); simpl; (split; [done|lia]).
  - destruct (failure_locked cfg err (i_now i) m); simpl. split; [done|lia].
Qed.

Lemma run_schedule_measure cfg enabled n sched :
  ∀ s c, threads s !! n = Some c → handler c = true →
  ∃ c', threads (run_schedule cfg enabled sched s) !! n = Some c' ∧ handler c' = true
        ∧ (pc_measure c' ≤ pc_measure c - countb (λ x, Nat.eqb x.1 n) sched)%nat.
Proof.
  induction sched as [|[k i] sched IH]; intros s c Hn Hh; simpl.
  { exists c. split; [done|]. split; [done|lia]. }
  destruct (threads s !! k) as [ck|] eqn:Hk.
  - pose proof (pc_step_measure cfg enabled i ck (mgr s)) as Hm.
    destruct (pc_step cfg enabled i ck (mgr s)) as [c1 m1]; simpl in Hm.
    destruct (Nat.eqb_spec k n) as [->|Hne].
    + assert (ck = c) as -> by congruence. destruct (Hm Hh) as [Hh1 Hle].
      destruct (IH (MkProcess m1 (<[n:=c1]> (threads s))) c1) as (c' & H1 & H2 & H3); [|done|].
      * simpl. apply list_lookup_insert_eq. by eapply lookup_lt_Some.
      * exists c'. split; [done|]. split; [done|lia].
    + apply IH; [|done]. simpl. by rewrite list_lookup_insert_ne.
  - destruct (Nat.eqb_spec k n) as [->|Hne]; [congruence|]. by apply IH.
Qed.

(** ** Properties *)

(** C6.  The circuit is open exactly when at least [FailureThreshold] consecutive failures have
    been counted, in every state any interleaving of request handlers and probes can reach:
    concurrent failures never trip it early, and no success, probe or half-open request ever
    leaves it open with a cleared count or closed with a full one. *)
Theorem circuit_open_iff (c : ManagerConfig) (enabled : bool) (ts : list pc)
    (sched : list (nat * input)) :
  let cfg := withDefaults c in
  let m := mgr (run_schedule cfg enabled sched (MkProcess (NewManager enabled cfg) ts)) in
  min_int64 ≤ Cooldown c ≤ max_int64 →
  Forall (λ x, clock_ok (Cooldown cfg) (i_now x.2)) sched →
  len sched ≤ max_int64 →
  (circuit_open m = true ↔ FailureThreshold cfg ≤ failures m) ∧ 0 ≤ failures m.
Proof.
  intros cfg m Hc Hclk Hlen. pose proof (withDefaults_ok c Hc) as Hcfg. fold cfg in Hcfg.
  assert (H0 : breaker_ok cfg 0 (NewManager enabled cfg)).
  { clear -Hcfg. clearbody cfg. split; [simpl; lia|]. destruct Hcfg as [Ht _]. unfold circuit_open; simpl. split; [done|lia]. }
  destruct (run_schedule_ok cfg enabled sched 0
      (MkProcess (NewManager enabled cfg) ts) Hcfg Hclk ltac:(lia) H0) as [H1 H2].
  split; [exact H2|]. unfold m. lia.
Qed.

Lemma circuit_open_iff_witness :
  let sched := failing 0 1 ++ failing 1 2 in
  let m := mgr (run_schedule (withDefaults sample_config) true sched
             (MkProcess (NewManager true (withDefaults sample_config)) [RTry; RTry])) in
  (circuit_open m = true ↔ 2 ≤ failures m) ∧ circuit_open m = true ∧ failures m = 2.
Proof.
  intros sched m. split; [|vm_compute; done].
  apply (circuit_open_iff sample_config true [RTry; RTry] sched).
  - vm_compute. split; discriminate.
  - repeat (constructor; [split; [vm_compute; discriminate|eexists; repeat split; vm_compute; discriminate]|]).
    constructor.
  - vm_compute. discriminate.
Defined.

(** C10.  Half-open: while the circuit is open and Redis stays down, exactly one request per
    cooldown is let through as a probe.  Whatever the interleaving, and however many handlers
    are in flight, no window of one [Cooldown] holds two of the instants at which a request was
    sent to Redis, and the first one comes later than the instant the circuit was opened for
    ([t] plus the cooldown). *)
Theorem half_open_one_probe (cfg : ManagerConfig) (enabled : bool) (sched : list (nat * input))
    (t : Time) (s : process) :
  cfg_ok cfg → clock_ok (Cooldown cfg) t → outage cfg t s →
  Forall (λ x, clock_ok (Cooldown cfg) (i_now x.2) ∧ i_verdict x.2 ≠ VOk) sched →
  rate_bounded 1 (Cooldown cfg) (probes cfg enabled sched s)
  ∧ Forall (λ x, default 0 (mono t) + Cooldown cfg < x) (probes cfg enabled sched s).
Proof.
  intros Hcfg Ht Hout Hs.
  pose proof (probes_apart cfg enabled sched t s Hcfg Ht Hs Hout) as Hap.
  apply StronglySorted_inv in Hap as [Hap Hall]. split; [|exact Hall].
  apply apart_rate; [destruct Hcfg; lia|exact Hap].
Qed.

(** Five handlers; the first two trip the circuit in second 2, the third is refused, of the two
    that come after the cooldown one probes. *)
Definition outage_schedule : list (nat * input) :=
  failing 2 3 ++ [(3%nat, err_at 4); (4%nat, err_at 4)].

Lemma half_open_one_probe_witness :
  let cfg := withDefaults sample_config in
  let s := run_schedule cfg true (failing 0 1 ++ failing 1 2)
             (MkProcess (NewManager true cfg) [RTry; RTry; RTry; RTry; RTry]) in
  rate_bounded 1 (Cooldown cfg) (probes cfg true outage_schedule s)
  ∧ probes cfg true outage_schedule s = [4 * Second].
Proof.
  intros cfg s. split; [|vm_compute; done].
  apply (half_open_one_probe cfg true outage_schedule (at_s 2) s).
  - vm_compute. repeat split; discriminate.
  - split; [vm_compute; discriminate|eexists; repeat split; vm_compute; discriminate].
  - split; [vm_compute; reflexivity|]. vm_compute. repeat constructor.
  - repeat (constructor; [split; [split; [vm_compute; discriminate|
      eexists; repeat split; vm_compute; discriminate]|discriminate]|]).
    constructor.
Defined.

(** C21.  Every request is answered, by exactly one backend, and counted once: under every
    interleaving the two counters are the numbers of handlers each backend has answered (modulo
    2^64), and a handler that has been given seven steps has returned, whatever Redis and the
    other goroutines do meanwhile. *)
Theorem every_request_served_once (cfg : ManagerConfig) (enabled : bool) (ts : list pc)
    (sched : list (nat * input)) :
  Forall (λ c, starting c = true) ts →
  let s := run_schedule cfg enabled sched (MkProcess (NewManager enabled cfg) ts) in
  redisServed (mgr s) = wrapu64 (Z.of_nat (countb (served_by BackendRedis) (threads s)))
  ∧ fallbackServed (mgr s) = wrapu64 (Z.of_nat (countb (served_by BackendMemory) (threads s)))
  ∧ ∀ n, ts !! n = Some RTry → (7 ≤ countb (λ x, Nat.eqb x.1 n) sched)%nat →
      ∃ b, threads s !! n = Some (RDone b) ∧ (b = BackendRedis ∨ b = BackendMemory).
Proof.
  intros Hts s.
  assert (H0 : ∀ b, countb (served_by b) ts = 0%nat).
  { intros b. induction Hts as [|x l Hx _ IH]; [done|]. by destruct x. }
  assert (Hc : counted s).
  { apply run_schedule_counted. unfold counted; simpl. by rewrite !H0. }
  destruct Hc as [H1 H2]. split; [done|]. split; [done|]. intros n Hn Hk.
  destruct (run_schedule_measure cfg enabled n sched (MkProcess (NewManager enabled cfg) ts) RTry)
    as (c & H3 & H4 & H5); [done|done|]. simpl in H5.
  assert (Hm : pc_measure c = 0%nat) by lia.
  destruct c; try discriminate Hm; try discriminate H4. exists backend. split; [exact H3|].
  simpl in H4. apply orb_true_iff in H4. by rewrite !String.eqb_eq in H4.
Qed.

Lemma every_request_served_once_witness :
  let sched := failing 0 1 ++ answered 1 2 ++ [(1%nat, ok_at 2)] in
  let s := run_schedule sample_config true sched
             (MkProcess (NewManager true sample_config) [RTry; RTry]) in
  redisServed (mgr s) = wrapu64 (Z.of_nat (countb (served_by BackendRedis) (threads s)))
  ∧ redisServed (mgr s) = 1 ∧ fallbackServed (mgr s) = 1.
Proof.
  intros sched s. split; [|vm_compute; done].
  apply (every_request_served_once sample_config true [RTry; RTry] sched).
  repeat constructor.
Defined.

(** A stale error survives recovery: after one failed request that does not trip the
    circuit, a successful health probe resets the failure count but keeps the error, because it
    clears it only when the circuit was open; from then on no successful request clears it
    either, since each sees no failure to recover from.  The statistics go on showing the error
    of an outage that is over while Redis answers every request. *)
Theorem stale_last_error (err : string) (now : Time) (served : nat) :
  let cfg := withDefaults sample_config in
  let m := (recordFailure cfg err now (NewManager true cfg)).2 in
  let m := (probe_tick None m).2 in
  let m := Nat.iter served (λ m, (recordSuccess m).2) m in
  lastErr m = err ∧ failures m = 0 ∧ circuit_open m = false
  ∧ redisHealthy m = true ∧ degraded m = false.
Proof.
  cbv zeta. set (m0 := (probe_tick None _).2).
  assert (H : ∀ m, lastErr m = err → failures m = 0 → openUntil m = ZeroTime →
              redisHealthy m = true → degraded m = false →
              let m' := (recordSuccess m).2 in
              lastErr m' = err ∧ failures m' = 0 ∧ openUntil m' = ZeroTime
              ∧ redisHealthy m' = true ∧ degraded m' = false).
  { intros m H1 H2 H3 H4 H5. unfold recordSuccess, success_locked. rewrite H2, H3. by simpl. }
  assert (Hall : let m := Nat.iter served (λ m, (recordSuccess m).2) m0 in
            lastErr m = err ∧ failures m = 0 ∧ openUntil m = ZeroTime
            ∧ redisHealthy m = true ∧ degraded m = false).
  { induction served as [|n IH]; [by vm_compute|]. simpl in *. destruct IH as (? & ? & ? & ? & ?).
    by apply H. }
  destruct Hall as (? & ? & Ho & ? & ?). unfold circuit_open. by rewrite Ho.
Qed.

(** The flags shown on the dashboard can contradict the breaker: [recordFailure] and
    [recordSuccess] store them after releasing the mutex, so when a failing and a succeeding
    handler overlap, both can be done with the circuit closed, no failure counted and the last
    recorded event a success, and yet the service reports itself degraded and Redis unhealthy,
    until the next success or probe. *)
Theorem flags_contradict_breaker :
  let cfg := withDefaults sample_config in
  let fails := (0%nat, err_at 1) in
  let succeeds := (1%nat, ok_at 1) in
  let s := run_schedule cfg true
             ([fails; fails; fails] ++ replicate 6 succeeds ++ replicate 4 fails)
             (MkProcess (NewManager true cfg) [RTry; RTry]) in
  threads s = [RDone BackendMemory; RDone BackendRedis]
  ∧ failures (mgr s) = 0 ∧ circuit_open (mgr s) = false ∧ lastErr (mgr s) = ""
  ∧ degraded (mgr s) = true ∧ redisHealthy (mgr s) = false.
Proof. vm_compute. done. Qed.
