(* ===== verification/Service.v ===== *)
(** * internal/limiter/manager.go: AllowPolicy over its two limiters

    The manager routes every decision to Redis first and degrades to the in-memory limiter.
    [AllowPolicy] is defined over the Limiter contract, with the failover state of Breaker.v;
    the clock readings of a call and what the environment does to it are inputs. *)

From S2P Require Import Prelude.
From S2P Require Import GoTime.
From S2P Require Import Policy.
From S2P Require Import SlidingWindow.
From S2P Require Import Memory.
From S2P Require Import Limiter.
From S2P Require Import Breaker.

Open Scope Z_scope.

(** [Decision{}] *)
Definition zero_Decision : Decision := MkDecision false 0 0 0 0 ZeroTime 0 "".

(** What a call meets: its four clock readings, the environment of the two limiter calls, and
    whether the caller's context is dead once Redis has failed. *)
Record call (Env1 Env2 : Type) := MkCall {
  c_key : string;
  c_try : Time;
  c_primary : Time;
  c_fail : Time;
  c_fallback : Time;
  c_env : Env1;
  c_fenv : Env2;
  c_cancelled : bool }.
Arguments MkCall {Env1 Env2}.
Arguments c_key {Env1 Env2}. Arguments c_try {Env1 Env2}. Arguments c_primary {Env1 Env2}.
Arguments c_fail {Env1 Env2}. Arguments c_fallback {Env1 Env2}. Arguments c_env {Env1 Env2}.
Arguments c_fenv {Env1 Env2}. Arguments c_cancelled {Env1 Env2}.

(** The failover state with the two limiters; [primary] is nil when Redis is not configured. *)
Record service (S1 S2 : Type) := MkService {
  state : Manager;
  primary : option S1;
  fallback : S2 }.
Arguments MkService {S1 S2}.
Arguments state {S1 S2}. Arguments primary {S1 S2}. Arguments fallback {S1 S2}.

Section Calls.
Context `{Limiter S1 E1 Env1} `{Limiter S2 E2 Env2}.
Context (show : E1 → string) (cfg : ManagerConfig).

(** The last part of [AllowPolicy]: the fallback answers, its error ignored. *)
Definition use_fallback (p : Policy) (c : call Env1 Env2) (s : service S1 S2)
    : option Decision * service S1 S2 :=
  let '(r, fb) := limiter_allow (c_fenv c) (c_key c) p (c_fallback c) (fallback s) in
  match r with
  | None => (None, MkService (state s) (primary s) fb)
  | Some r =>
      let d := match r with inl d => d | inr _ => zero_Decision end in
      (Some d, MkService (add_fallbackServed (state s)) (primary s) fb)
  end.

(** [m.primary != nil && m.tryPrimary()] *)
Definition primary_allowed (c : call Env1 Env2) (s : service S1 S2)
    : option S1 * service S1 S2 :=
  match primary s with
  | None => (None, s)
  | Some r =>
      let '(ok, m) := tryPrimary cfg (c_try c) (state s) in
      (if ok then Some r else None, MkService m (primary s) (fallback s))
  end.

Definition AllowPolicy (p : Policy) (c : call Env1 Env2) (s : service S1 S2)
    : option Decision * service S1 S2 :=
  let '(go, s) := primary_allowed c s in
  match go with
  | Some r =>
      let '(x, r) := limiter_allow (c_env c) (c_key c) p (c_primary c) r in
      let s := MkService (state s) (Some r) (fallback s) in
      match x with
      | None => (None, s)
      | Some (inl d) =>
          let '(_, m) := recordSuccess (state s) in
          (Some d, MkService (add_redisServed m) (primary s) (fallback s))
      | Some (inr err) =>
          if c_cancelled c then use_fallback p c s
          else
            let '(_, m) := recordFailure cfg (show err) (c_fail c) (state s) in
            use_fallback p c (MkService m (primary s) (fallback s))
      end
  | None => use_fallback p c s
  end.

(** [Allow]: the policy in force. *)
Definition Allow (c : call Env1 Env2) (s : service S1 S2) : option Decision * service S1 S2 :=
  AllowPolicy (policy (state s)) c s.

Fixpoint serve (p : Policy) (cs : list (call Env1 Env2)) (s : service S1 S2)
    : list (option Decision) * service S1 S2 :=
  match cs with
  | [] => ([], s)
  | c :: cs =>
      let '(d, s) := AllowPolicy p c s in
      let '(ds, s) := serve p cs s in (d :: ds, s)
  end.

(** How many of the calls were sent to Redis. *)
Fixpoint redis_calls (p : Policy) (cs : list (call Env1 Env2)) (s : service S1 S2) : nat :=
  match cs with
  | [] => 0
  | c :: cs =>
      let n := redis_calls p cs (AllowPolicy p c s).2 in
      match (primary_allowed c s).1 with Some _ => S n | None => n end
  end.

End Calls.

(** ** [Stats] *)

Record Stats := MkStats {
  RedisEnabled : bool;
  RedisHealthy : bool;
  Degraded : bool;
  StatsBackend : string;
  RedisServed : Z;
  FallbackServed : Z;
  ConsecutiveFailures : Z;
  CircuitOpenUntil : Time;
  TrackedKeys : Z;
  Evictions : Z;
  LastError : string }.

(** [Manager.Stats]; [mem] is the in-memory limiter. *)
Definition stats (enabled : bool) (mem : MemoryLimiter) (m : Manager) : Stats :=
  MkStats enabled (redisHealthy m) (degraded m)
    (if negb enabled || degraded m then BackendMemory else BackendRedis)
    (redisServed m) (fallbackServed m) (failures m) (openUntil m)
    (Keys mem) (evictions mem) (lastErr m).

(** ** Notions for the theorems *)

Section Notions.
Context {Env1 Env2 : Type}.

(** The calls for [key] let through by backend [b], with the clock reading it counted. *)
Fixpoint let_through (b key : string) (at_ : call Env1 Env2 → Z) (cs : list (call Env1 Env2))
    (ds : list (option Decision)) : list Z :=
  match cs, ds with
  | c :: cs, Some d :: ds =>
      let rest := let_through b key at_ cs ds in
      if String.eqb (c_key c) key && String.eqb (Backend d) b && Allowed d
      then at_ c :: rest else rest
  | _ :: cs, _ :: ds => let_through b key at_ cs ds
  | _, _ => []
  end.

End Notions.

(** ** What a call comes to

    The four outcomes of a call, each with every field it leaves, written without the operations
    of the breaker: which backend answered, the service afterwards, and the decision. *)

Section Outcomes.
Context `{Limiter S1 E1 Env1} `{Limiter S2 E2 Env2}.
Context (show : E1 → string) (cfg : ManagerConfig) (p : Policy).
Context (c : call Env1 Env2) (s : service S1 S2).

(** Redis may be asked: it is configured, and the circuit is closed or its window is over. *)
Definition redis_due : Prop :=
  is_Some (primary s)
  ∧ (IsZero (openUntil (state s)) = true ∨ After (c_try c) (openUntil (state s)) = true).

(** Asking Redis over an open circuit opens it for another cooldown. *)
Definition window_after_asking : Time :=
  if IsZero (openUntil (state s)) then openUntil (state s) else Add (c_try c) (Cooldown cfg).

(** The decision of the fallback, the zero one if it fails, and the fallback afterwards. *)
Definition fallback_says (d : Decision) (fb : S2) : Prop :=
  ∃ x, limiter_allow (c_fenv c) (c_key c) p (c_fallback c) (fallback s) = (Some x, fb)
  ∧ d = match x with inl d => d | inr _ => MkDecision false 0 0 0 0 ZeroTime 0 "" end.

Inductive decided : string → service S1 S2 → Decision → Prop :=
(* Redis answers: it alone has counted the request, and the circuit is closed *)
| decided_redis m r r' d :
    m = state s → redis_due → primary s = Some r →
    limiter_allow (c_env c) (c_key c) p (c_primary c) r = (Some (inl d), r') →
    decided "redis"
      (MkService
         (MkManager (policy m) 0 ZeroTime
            (if (0 <? failures m) || negb (IsZero (openUntil m)) then "" else lastErr m)
            true false (wrapu64 (redisServed m + 1)) (fallbackServed m))
         (Some r') (fallback s)) d
(* Redis is not asked: nothing but the fallback and its counter moves *)
| decided_unasked m d fb :
    m = state s → ¬ redis_due → fallback_says d fb →
    decided "memory"
      (MkService
         (MkManager (policy m) (failures m) (openUntil m) (lastErr m) (redisHealthy m) (degraded m)
            (redisServed m) (wrapu64 (fallbackServed m + 1)))
         (primary s) fb) d
(* the caller gave up while Redis was asked: no failure is counted *)
| decided_cancelled m r r' e d fb :
    m = state s → redis_due → primary s = Some r →
    limiter_allow (c_env c) (c_key c) p (c_primary c) r = (Some (inr e), r') →
    c_cancelled c = true → fallback_says d fb →
    decided "memory"
      (MkService
         (MkManager (policy m) (failures m) window_after_asking (lastErr m) (redisHealthy m)
            (degraded m) (redisServed m) (wrapu64 (fallbackServed m + 1)))
         (Some r') fb) d
(* Redis failed: the failure is counted, and the one that reaches the threshold opens the circuit *)
| decided_failed m r r' e d fb :
    m = state s → redis_due → primary s = Some r →
    limiter_allow (c_env c) (c_key c) p (c_primary c) r = (Some (inr e), r') →
    c_cancelled c = false → fallback_says d fb →
    decided "memory"
      (MkService
         (MkManager (policy m) (wrap64 (failures m + 1))
            (if IsZero (openUntil m) && (FailureThreshold cfg <=? wrap64 (failures m + 1))
             then Add (c_fail c) (Cooldown cfg) else window_after_asking)
            (show e) false true (redisServed m) (wrapu64 (fallbackServed m + 1)))
         (Some r') fb) d.

End Outcomes.
