(* ===== verification/ServiceProps.v ===== *)
(** * internal/limiter/manager.go: what the service promises its callers

    Proved against the Limiter contract; the witnesses instantiate it with the Redis limiter on
    the reference server and the in-memory limiter. *)

From S2P Require Import Prelude.
From S2P Require Import GoTime.
From S2P Require Import Policy.
From S2P Require Import SlidingWindow.
From S2P Require Import Memory.
From S2P Require Import RedisServer.
From S2P Require Import Redis.
From S2P Require Import RedisFleet.
From S2P Require Import RedisProps.
From S2P Require Import Limiter.
From S2P Require Import Breaker.
From S2P Require Import Service.

Open Scope Z_scope.

(** ** Definitions for the statements *)

(** What [log] may become in one or more calls whose grants are [g]. *)
Definition grows (L W T T' : Z) (log log' g : list Z) : Prop :=
  past T log → rate_bounded L W log →
  past T' log' ∧ rate_bounded L W log' ∧ ∃ ext, log' = log ++ ext ∧ g `sublist_of` ext.

(** What a handler meets in the whole-process model, for one call of the service. *)
Definition verdict_of {E} (show : E → string) (cancelled : bool) (r : option (Decision + E))
    : verdict :=
  match r with
  | Some (inr e) => if cancelled then VCancelled else VError (show e)
  | _ => VOk
  end.

Definition handler_schedule {Env1 Env2} (c : call Env1 Env2) (v : verdict) : list (nat * input) :=
  (0%nat, MkInput (c_try c) v false) :: replicate 6 (0%nat, MkInput (c_fail c) v false).

Section Clocks.
Context {S1 E1 Env1 S2 E2 Env2 : Type} `{!Limiter S1 E1 Env1} `{!Limiter S2 E2 Env2}.
Context (p : Policy) `{!WindowLimiter S1 E1 Env1 p} `{!WindowLimiter S2 E2 Env2 p}.

(** Clocks that never go back, as each limiter reads them. *)
Fixpoint clocks_ok (T1 T2 : Z) (cs : list (call Env1 Env2)) : Prop :=
  match cs with
  | [] => True
  | c :: cs =>
      (usable (S := S1) (c_primary c) ∧ T1 ≤ units (S := S1) (c_primary c))
      ∧ (usable (S := S2) (c_fallback c) ∧ T2 ≤ units (S := S2) (c_fallback c))
      ∧ clocks_ok (units (S := S1) (c_primary c)) (units (S := S2) (c_fallback c)) cs
  end.

(** A service about to handle [n] calls, its limiters representing the given logs. *)
Definition represents (n : nat) (T1 T2 : Z) (s : service S1 S2)
    (l1 l2 : gmap string (list Z)) : Prop :=
  (∀ r, primary s = Some r → rep (p := p) n T1 r l1)
  ∧ rep (p := p) n T2 (fallback s) l2.

End Clocks.

(** ** The sequential definition and the goroutines agree *)

Section Handler.
Context {S1 E1 Env1 S2 E2 Env2 : Type} `{!Limiter S1 E1 Env1} `{!Limiter S2 E2 Env2}.
Context (show : E1 → string) (cfg : ManagerConfig).

(** The fallback answers, and only it and its counter move. *)
Lemma use_fallback_says p (c : call Env1 Env2) (s s0 : service S1 S2) :
  (limiter_allow (c_fenv c) (c_key c) p (c_fallback c) (fallback s)).1 ≠ None →
  fallback s0 = fallback s →
  ∃ d fb, fallback_says p c s d fb
    ∧ use_fallback p c s0 = (Some d, MkService (add_fallbackServed (state s0)) (primary s0) fb).
Proof.
  intros Hnp E. unfold use_fallback, fallback_says. rewrite E.
  destruct (limiter_allow (c_fenv c) (c_key c) p (c_fallback c) (fallback s)) as [[x|] fb]; [|done].
  do 2 eexists. split; [by exists x|]. by destruct x.
Qed.

(** The guard of the first branch. *)
Lemma tryPrimary_due (c : call Env1 Env2) (s : service S1 S2) r :
  primary s = Some r →
  ∃ ok : bool, tryPrimary cfg (c_try c) (state s)
        = (ok, if ok then set_breaker (failures (state s)) (window_after_asking cfg c s)
                            (lastErr (state s)) (state s) else state s)
        ∧ (ok = true ↔ redis_due c s).
Proof.
  intros Hr. unfold tryPrimary, redis_due, window_after_asking. rewrite Hr.
  destruct (IsZero (openUntil (state s))) eqn:Ez.
  - exists true. split; [by destruct (state s)|]. split; [intros _|done]. split; [done|by left].
  - destruct (After (c_try c) (openUntil (state s))) eqn:Ea.
    + exists true. split; [done|]. split; [intros _|done]. split; [done|by right].
    + exists false. split; [done|]. split; [done|]. by intros [_ [?|?]].
Qed.

(** C22.  Every request is answered, and this is what it comes to, on every branch: Redis decides
    if it is configured, its circuit closed (or due for a probe) and it answers; then it alone
    has counted the request, and the circuit is closed.  Otherwise the in-memory limiter decides:
    without a trace if Redis was not asked, without a failure if the caller gave up, and else
    with the failure counted, the circuit opened by the one that reaches the threshold.  The
    handler of the process model, run without interference, comes to the same: it has returned
    with the answer of the same backend and left the same failover state. *)
Theorem AllowPolicy_outcome (p : Policy) (c : call Env1 Env2) (s : service S1 S2) :
  (∀ r, primary s = Some r → (limiter_allow (c_env c) (c_key c) p (c_primary c) r).1 ≠ None) →
  (limiter_allow (c_fenv c) (c_key c) p (c_fallback c) (fallback s)).1 ≠ None →
  IsZero (Add (c_try c) (Cooldown cfg)) = false →
  let v := verdict_of show (c_cancelled c)
    (r ← primary s; (limiter_allow (c_env c) (c_key c) p (c_primary c) r).1) in
  ∃ b s' d,
    decided show cfg p c s b s' d
    ∧ AllowPolicy show cfg p c s = (Some d, s')
    ∧ run_schedule cfg (bool_decide (is_Some (primary s))) (handler_schedule c v)
        (MkProcess (state s) [RTry]) = MkProcess (state s') [RDone b].
Proof.
  intros Hp Hf Hclock. cbv zeta. unfold AllowPolicy, primary_allowed.
  assert (Hz : IsZero (window_after_asking cfg c s) = IsZero (openUntil (state s))).
  { unfold window_after_asking. by destruct (IsZero (openUntil (state s))) eqn:Ez. }
  destruct s as [m [r|] fb0]; simpl.
  2:{ destruct (use_fallback_says p c _ (MkService m None fb0) Hf eq_refl) as (d & fb & Hd & ->).
      do 3 eexists. split; [|by split].
      apply (decided_unasked show cfg p c (MkService m None fb0) m d fb eq_refl); [|exact Hd].
      by intros [[? ?] _]. }
  set (s := MkService m (Some r) fb0) in *. specialize (Hp r eq_refl).
  destruct (tryPrimary_due c s r eq_refl) as (ok & E & Hdue). simpl in E. rewrite E.
  destruct ok; cbn iota beta.
  2:{ destruct (use_fallback_says p c s s Hf eq_refl) as (d & fb & Hd & Ef).
      do 3 eexists. split; [apply (decided_unasked show cfg p c s m d fb eq_refl); [|exact Hd];
        by rewrite <- Hdue|]. simpl. fold s. rewrite Ef. by split. }
  destruct Hdue as [Hdue _]. specialize (Hdue eq_refl). simpl in Hz.
  set (u := window_after_asking cfg c s) in *. simpl.
  destruct (limiter_allow (c_env c) (c_key c) p (c_primary c) r) as [[[d|e]|] r'] eqn:Er; [..|done].
  - do 3 eexists. split; [by apply (decided_redis show cfg p c s m r r' d)|]. cbn. rewrite Hz. by split.
  - destruct (c_cancelled c) eqn:Ec.
    + destruct (use_fallback_says p c s (MkService (set_breaker (failures m) u (lastErr m) m) (Some r') fb0)
        Hf eq_refl) as (d & fb & Hd & ->).
      do 3 eexists. split; [by apply (decided_cancelled show cfg p c s m r r' e d fb)|]. by split.
    + unfold recordFailure, failure_locked. cbn -[use_fallback]. rewrite Hz, andb_comm.
      pose (m' := MkManager (policy m) (wrap64 (failures m + 1))
        (if IsZero (openUntil m) && (FailureThreshold cfg <=? wrap64 (failures m + 1))
         then Add (c_fail c) (Cooldown cfg) else u)
        (show e) false true (redisServed m) (fallbackServed m)).
      destruct (use_fallback_says p c s (MkService m' (Some r') fb0) Hf eq_refl) as (d & fb & Hd & Ef).
      do 3 eexists. split; [by apply (decided_failed show cfg p c s m r r' e d fb)|].
      subst m'. fold u. destruct (IsZero (openUntil m) && _) eqn:Et; cbn -[use_fallback] in *;
        rewrite Ef; (split; [done|]); unfold failure_locked; cbn; by rewrite Hz, andb_comm, Et.
Qed.

End Handler.

(** ** Growth of the logs *)

Lemma grows_refl L W T T' log : T ≤ T' → grows L W T T' log log [].
Proof.
  intros Hle Hp Hr. split; [by eapply past_mono|]. split; [done|].
  exists []. by rewrite app_nil_r.
Qed.

Lemma grows_trans L W T1 T2 T3 l1 l2 l3 g h :
  grows L W T1 T2 l1 l2 g → grows L W T2 T3 l2 l3 h → grows L W T1 T3 l1 l3 (g ++ h).
Proof.
  intros H1 H2 Hp Hr. destruct (H1 Hp Hr) as (Hp2 & Hr2 & x & -> & Hx).
  destruct (H2 Hp2 Hr2) as (Hp3 & Hr3 & y & -> & Hy). split; [done|]. split; [done|].
  exists (x ++ y). rewrite app_assoc. split; [done|]. by apply sublist_app.
Qed.

Lemma grows_step L W T t log :
  T ≤ t →
  grows L W T t log (spec_step L W t log) (if admits L W t log then [t] else []).
Proof.
  intros Hle Hp Hr. apply (past_mono T t) in Hp; [|done].
  split; [by apply spec_step_past|]. split; [by apply spec_step_rate|].
  unfold spec_step. case_if; [by exists [t]|exists []; by rewrite app_nil_r].
Qed.

Lemma grows_weaken L W T T' l l' g h :
  h `sublist_of` g → grows L W T T' l l' g → grows L W T T' l l' h.
Proof.
  intros Hs H Hp Hr. destruct (H Hp Hr) as (? & ? & x & ? & ?). split; [done|]. split; [done|].
  exists x. split; [done|]. by etrans.
Qed.

(** One call of a limiter that keeps the contract. *)
Lemma limiter_grows {S E Env} `{!Limiter S E Env} p `{!WindowLimiter S E Env p}
    n T s logs env key now k :
  rep (p := p) (Datatypes.S n) T s logs → usable (S := S) now → T ≤ units (S := S) now →
  ∃ r s' logs',
    limiter_allow env key p now s = (Some r, s')
    ∧ rep (p := p) n (units (S := S) now) s' logs'
    ∧ grows (Limit (Normalize p)) (width (S := S) (p := p)) T (units (S := S) now)
        (log_of logs k) (log_of logs' k)
        (match r with
         | inl d => if String.eqb key k && Allowed d then [units (S := S) now] else []
         | inr _ => []
         end)
    ∧ match r with inl d => Backend d = wname (S := S) (p := p) | inr _ => True end.
Proof.
  intros Hrep Hu Hle.
  destruct (rep_allow n T s logs env key now Hrep Hu Hle) as (r & s' & log' & HA & Hrep' & Hr).
  exists r, s', (<[key := log']> logs). split; [done|]. split; [done|].
  assert (Hk : log_of (<[key := log']> logs) k = if decide (k = key) then log' else log_of logs k).
  { unfold log_of. case_decide as Ek; [subst; by rewrite lookup_insert_eq|].
    by rewrite lookup_insert_ne. }
  rewrite Hk. clear Hk. cbv zeta in Hr.
  split; [|by destruct r; [destruct Hr as (? & ? & ?)|]].
  case_decide as Ek; [subst k; rewrite String.eqb_refl; simpl|].
  - destruct r as [d|e].
    + destruct Hr as (-> & _ & ->). by apply grows_step.
    + destruct Hr as [->| ->]; [by apply grows_refl|].
      eapply grows_weaken; [apply sublist_nil_l|by apply grows_step].
  - destruct (String.eqb_spec key k); [congruence|]. simpl.
    destruct r; by apply grows_refl.
Qed.

(** ** One call, and a history of calls, of the service *)

Section Rate.
Context {S1 E1 Env1 S2 E2 Env2 : Type} `{!Limiter S1 E1 Env1} `{!Limiter S2 E2 Env2}.
Context (p : Policy) `{!WindowLimiter S1 E1 Env1 p} `{!WindowLimiter S2 E2 Env2 p}.
Context (show : E1 → string) (cfg : ManagerConfig).
Hypothesis names : wname (S := S1) (p := p) ≠ wname (S := S2) (p := p).

Local Abbreviation name1 := (wname (S := S1) (p := p)).
Local Abbreviation name2 := (wname (S := S2) (p := p)).
Local Abbreviation at1 := (λ c : call Env1 Env2, units (S := S1) (c_primary c)).
Local Abbreviation at2 := (λ c : call Env1 Env2, units (S := S2) (c_fallback c)).
Local Abbreviation grows1 := (grows (Limit (Normalize p)) (width (S := S1) (p := p))).
Local Abbreviation grows2 := (grows (Limit (Normalize p)) (width (S := S2) (p := p))).

(** The grants of one decision to [key], by backend. *)
Definition one (b key : string) (t : Z) (c : call Env1 Env2) (d : Decision) : list Z :=
  if String.eqb (c_key c) key && String.eqb (Backend d) b && Allowed d then [t] else [].

Lemma one_other b key t c d : Backend d ≠ b → one b key t c d = [].
Proof.
  intros Hne. unfold one. destruct (String.eqb_spec (Backend d) b); [done|].
  by rewrite andb_false_r.
Qed.

Lemma one_self b key t c d :
  Backend d = b → one b key t c d = if String.eqb (c_key c) key && Allowed d then [t] else [].
Proof. intros <-. unfold one. by rewrite String.eqb_refl, andb_true_r. Qed.

Lemma use_fallback_grows n T2 (s : service S1 S2) l1 l2 (c : call Env1 Env2) k :
  (∀ r, primary s = Some r → rep (p := p) n (at1 c) r l1) →
  rep (p := p) (S n) T2 (fallback s) l2 →
  usable (S := S2) (c_fallback c) → T2 ≤ at2 c →
  ∃ d s' l2', use_fallback p c s = (Some d, s')
    ∧ represents p n (at1 c) (at2 c) s' l1 l2'
    ∧ (Allowed d = true → Backend d = name2)
    ∧ grows2 T2 (at2 c) (log_of l2 k) (log_of l2' k) (one name2 k (at2 c) c d).
Proof.
  intros Hp Hf Hu Hle2.
  destruct (limiter_grows p n T2 (fallback s) l2 (c_fenv c) (c_key c) (c_fallback c) k Hf Hu Hle2)
    as (r & fb & l2' & HA & Hrep & Hg & Hb).
  unfold use_fallback. rewrite HA.
  assert (Hrep' : ∀ m, represents p n (at1 c) (at2 c) (MkService m (primary s) fb) l1 l2').
  { intros m. by split. }
  destruct r as [d|e].
  - exists d. do 2 eexists. split; [done|]. split; [apply Hrep'|]. split; [done|].
    by rewrite one_self.
  - exists zero_Decision. do 2 eexists. split; [done|]. split; [apply Hrep'|]. split; [done|].
    unfold one. simpl. by rewrite andb_false_r.
Qed.

Lemma AllowPolicy_grows n T1 T2 (s : service S1 S2) l1 l2 (c : call Env1 Env2) k :
  represents p (S n) T1 T2 s l1 l2 →
  usable (S := S1) (c_primary c) → T1 ≤ at1 c →
  usable (S := S2) (c_fallback c) → T2 ≤ at2 c →
  ∃ d s' l1' l2', AllowPolicy show cfg p c s = (Some d, s')
    ∧ represents p n (at1 c) (at2 c) s' l1' l2'
    ∧ grows1 T1 (at1 c) (log_of l1 k) (log_of l1' k) (one name1 k (at1 c) c d)
    ∧ grows2 T2 (at2 c) (log_of l2 k) (log_of l2' k) (one name2 k (at2 c) c d).
Proof.
  intros Hrep Hu1 Hle1 Hu2 Hle2.
  destruct Hrep as [Hp Hf].
  (* Falling back, after Redis may have counted. *)
  assert (Hfb : ∀ m (r : option S1) l1', (∀ r0, r = Some r0 → rep (p := p) n (at1 c) r0 l1') →
            grows1 T1 (at1 c) (log_of l1 k) (log_of l1' k) [] →
            ∃ d s' l1' l2', use_fallback p c (MkService m r (fallback s)) = (Some d, s')
              ∧ represents p n (at1 c) (at2 c) s' l1' l2'
              ∧ grows1 T1 (at1 c) (log_of l1 k) (log_of l1' k) (one name1 k (at1 c) c d)
              ∧ grows2 T2 (at2 c) (log_of l2 k) (log_of l2' k) (one name2 k (at2 c) c d)).
  { intros m r l1' Hr Hg1.
    destruct (use_fallback_grows n T2 (MkService m r (fallback s)) l1' l2 c k Hr Hf Hu2 Hle2)
      as (d & s' & l2' & HF & Hrep' & Hb & Hg).
    exists d, s', l1', l2'. split; [done|]. split; [done|]. split; [|done].
    destruct (Allowed d) eqn:Ed.
    - rewrite one_other; [done|]. rewrite Hb by done. congruence.
    - unfold one. by rewrite Ed, andb_false_r. }
  destruct s as [m [r|] fb]; unfold AllowPolicy, primary_allowed; simpl in *.
  2:{ apply (Hfb m None l1); [done|by apply grows_refl]. }
  specialize (Hp r eq_refl).
  destruct (tryPrimary cfg (c_try c) m) as [[] m1]; simpl.
  2:{ apply (Hfb m1 (Some r) l1); [|by apply grows_refl].
      intros r0 [= <-]. by eapply rep_later. }
  destruct (limiter_grows p n T1 r l1 (c_env c) (c_key c) (c_primary c) k Hp Hu1 Hle1)
    as (x & r' & l1' & -> & Hrep' & Hg & Hb).
  assert (Hr' : ∀ r0, Some r' = Some r0 → rep (p := p) n (at1 c) r0 l1') by (by intros r0 [= <-]).
  destruct x as [d|e]; simpl.
  - do 2 eexists. exists l1', l2. split; [done|]. split; [split; [done|by eapply rep_later]|].
    split; [by rewrite one_self|]. rewrite one_other by congruence. by apply grows_refl.
  - destruct (c_cancelled c).
    + by apply (Hfb m1 (Some r') l1').
    + destruct (recordFailure cfg (show e) (c_fail c) m1) as [? m2].
      by apply (Hfb m2 (Some r') l1').
Qed.

Lemma let_through_cons b key at_ c cs d ds :
  let_through b key at_ (c :: cs) (Some d :: ds)
  = one b key (at_ c) c d ++ let_through b key at_ cs ds.
Proof. unfold one. simpl. by case_if. Qed.

Lemma serve_grows k cs :
  ∀ T1 T2 (s : service S1 S2) l1 l2, represents p (length cs) T1 T2 s l1 l2 → clocks_ok p T1 T2 cs →
  ∃ T1' T2' l1' l2',
    let ds := (serve show cfg p cs s).1 in
    Forall (λ d, d ≠ None) ds
    ∧ grows1 T1 T1' (log_of l1 k) (log_of l1' k) (let_through name1 k at1 cs ds)
    ∧ grows2 T2 T2' (log_of l2 k) (log_of l2' k) (let_through name2 k at2 cs ds).
Proof.
  induction cs as [|c cs IH]; intros T1 T2 s l1 l2 Hrep Hck.
  { exists T1, T2, l1, l2. simpl. split; [constructor|]. split; by apply grows_refl. }
  destruct Hck as ([Hu1 Hle1] & [Hu2 Hle2] & Hck).
  destruct (AllowPolicy_grows (length cs) T1 T2 s l1 l2 c k Hrep Hu1 Hle1 Hu2 Hle2)
    as (d & s' & l1' & l2' & HA & Hrep' & Hg1 & Hg2).
  destruct (IH _ _ s' l1' l2' Hrep' Hck) as (T1' & T2' & l1'' & l2'' & Hds & Hg1' & Hg2').
  exists T1', T2', l1'', l2''. simpl serve. rewrite HA.
  destruct (serve show cfg p cs s') as [ds s'']; cbv zeta; cbn [fst] in *.
  rewrite !let_through_cons. split; [by constructor|]. split; by eapply grows_trans.
Qed.

Lemma grows_rate L W T T' log g :
  1 ≤ L → grows L W T T' [] log g → rate_bounded L W g.
Proof.
  intros HL H t. destruct H as (_ & Hr & ext & -> & Hs).
  - constructor.
  - intros u. unfold within, len; simpl. lia.
  - specialize (Hr t). simpl in Hr. pose proof (within_sublist W t _ _ Hs). lia.
Qed.

(** C5.  The limit survives failover: over any history of calls in which Redis may fail, lose
    replies or be skipped by the open circuit at any point, every call is answered, the requests
    of a client that Redis let through never exceed the limit in a Redis window, and those the
    fallback let through never exceed it in a fallback window; so one proxy admits at most
    twice the limit in any period both windows cover, however often it changes backends. *)
Theorem manager_rate_bounded (T1 T2 : Z) (s : service S1 S2) (cs : list (call Env1 Env2))
    (key : string) :
  represents p (length cs) T1 T2 s ∅ ∅ →
  clocks_ok p T1 T2 cs →
  let ds := (serve show cfg p cs s).1 in
  Forall (λ d, d ≠ None) ds
  ∧ rate_bounded (Limit (Normalize p)) (width (S := S1) (p := p)) (let_through name1 key at1 cs ds)
  ∧ rate_bounded (Limit (Normalize p)) (width (S := S2) (p := p)) (let_through name2 key at2 cs ds).
Proof.
  intros Hrep Hck. pose proof (Normalize_enforceable p) as [HL _].
  destruct (serve_grows key cs T1 T2 s ∅ ∅ Hrep Hck) as (T1' & T2' & l1 & l2 & Hds & Hg1 & Hg2).
  assert (H0 : log_of ∅ key = []) by (unfold log_of; by rewrite lookup_empty).
  rewrite H0 in Hg1, Hg2. split; [exact Hds|].
  split; [exact (grows_rate _ _ _ _ _ _ (proj1 HL) Hg1)|exact (grows_rate _ _ _ _ _ _ (proj1 HL) Hg2)].
Qed.

End Rate.

(** ** An instance: Redis on the reference server, and the in-memory limiter *)

Abbreviation redis0 := (RedisLimiter_Limiter (DB := RefDB) (H := RefServer) 0).
Abbreviation memory0 := (MemoryLimiter_Limiter (λ _ n, n)).
Abbreviation redis0_window := (RedisLimiter_Window (DB := RefDB) 0 "rl:" sample_policy).
Abbreviation memory0_window := (MemoryLimiter_Window (λ _ n, n) sample_policy).

Definition show_error (e : redis_error) : string :=
  match e with EBackend cause => cause | _ => "bad reply" end.

(** Requests of one client over 400 ms: Redis times out from 110 ms on and is back at 350. *)
Definition sample_call (ms : Z) (net : network) : call network unit :=
  MkCall "alice" (at_ms ms) (at_ms ms) (at_ms ms) (at_ms ms) net () false.

Definition sample_calls : list (call network unit) :=
  [sample_call 1000 Delivered; sample_call 1010 (ReplyLost "timeout");
   sample_call 1020 (Unreached "timeout"); sample_call 1030 Delivered; sample_call 1040 Delivered;
   sample_call 1350 Delivered].

Definition sample_breaker : ManagerConfig :=
  withDefaults (MkConfig 0 2 (200 * Millisecond) 0 sample_policy).

Definition sample_service : service (fleet RefDB) MemoryLimiter :=
  MkService (NewManager true sample_breaker) (Some sample_fleet) NewMemoryLimiter.

Definition sample_decisions : list (option Decision) :=
  (serve (H := redis0) (H0 := memory0) show_error sample_breaker sample_policy sample_calls
     sample_service).1.

Lemma sample_represents n :
  Z.of_nat n ≤ 1000 →
  represents (WindowLimiter0 := redis0_window) (WindowLimiter1 := memory0_window)
    sample_policy n 1000 0 sample_service ∅ ∅.
Proof.
  intros Hn. split.
  - intros r [= <-]. exists 0. split; [apply deployed_ok, sample_deployed|]. simpl. lia.
  - simpl. split; [apply wf_New|]. intros k. unfold log_of. rewrite lookup_empty. by split.
Qed.

Lemma manager_rate_bounded_witness :
  rate_bounded 2 100
    (let_through BackendRedis "alice" (λ c, UnixMilli (c_primary c)) sample_calls sample_decisions)
  ∧ (λ d, match d with Some d => Some (Backend d, Allowed d) | None => None end)
      <$> sample_decisions
    = [Some ("redis", true); Some ("memory", true); Some ("memory", true); Some ("memory", false);
       Some ("memory", false); Some ("redis", true)].
Proof.
  split; [|vm_compute; reflexivity].
  refine (proj1 (proj2 (manager_rate_bounded (WindowLimiter0 := redis0_window)
    (WindowLimiter1 := memory0_window) sample_policy show_error sample_breaker _ 1000 0 sample_service sample_calls "alice" _ _))).
  - discriminate.
  - apply sample_represents. vm_compute. discriminate.
  - simpl. unfold last_instant. vm_compute. repeat split; discriminate.
Defined.

(** ** Outage, cancellation, recovery *)

Section Outage.
Context {S1 E1 Env1 S2 E2 Env2 : Type} `{!Limiter S1 E1 Env1} `{!Limiter S2 E2 Env2}.
Context (show : E1 → string) (cfg : ManagerConfig) (p : Policy).

(** The well-formed states of the Redis limiter. *)
Context (good : S1 → Prop).

(** Redis fails, or answers, this call in every such state. *)
Definition down (c : call Env1 Env2) : Prop :=
  ∀ r, good r →
  ∃ e r', limiter_allow (c_env c) (c_key c) p (c_primary c) r = (Some (inr e), r') ∧ good r'.
Definition up (c : call Env1 Env2) : Prop :=
  ∀ r, good r →
  ∃ d r', limiter_allow (c_env c) (c_key c) p (c_primary c) r = (Some (inl d), r') ∧ good r'.

(** The clock readings of a call made during one cooldown after [t0]. *)
Definition during (t0 : Z) (c : call Env1 Env2) : Prop :=
  clock_ok (Cooldown cfg) (c_try c) ∧ clock_ok (Cooldown cfg) (c_fail c)
  ∧ t0 ≤ default 0 (mono (c_fail c))
  ∧ default 0 (mono (c_try c)) ≤ t0 + Cooldown cfg.

(** The fallback leaves the breaker, the flags and Redis alone. *)
Lemma use_fallback_frame (c : call Env1 Env2) (s : service S1 S2) :
  let s' := (use_fallback p c s).2 in
  primary s' = primary s ∧ failures (state s') = failures (state s)
  ∧ openUntil (state s') = openUntil (state s) ∧ lastErr (state s') = lastErr (state s)
  ∧ redisHealthy (state s') = redisHealthy (state s) ∧ degraded (state s') = degraded (state s).
Proof.
  unfold use_fallback.
  by destruct (limiter_allow (c_fenv c) (c_key c) p (c_fallback c) (fallback s)) as [[r|] fb].
Qed.

Lemma redis_calls_refused t0 t cs :
  ∀ s : service S1 S2, cfg_ok cfg → clock_ok (Cooldown cfg) t → t0 ≤ default 0 (mono t) →
  openUntil (state s) = Add t (Cooldown cfg) → Forall (during t0) cs →
  redis_calls show cfg p cs s = 0%nat.
Proof.
  induction cs as [|c cs IH]; intros s Hcfg Ht Ht0 Ho Hcs; [done|].
  apply Forall_cons in Hcs as [(Htry & Hfail & Hlo & Hhi) Hcs]. destruct Hcfg as [Hth Hc].
  assert (Hrun : primary_allowed cfg c s = (None, s)).
  { unfold primary_allowed. destruct s as [m [r|] fb]; [|done]. unfold tryPrimary; simpl in *.
    rewrite Ho, Add_not_zero, After_Add by (done || lia). case_if; [lia|done]. }
  simpl. unfold AllowPolicy. rewrite Hrun. simpl.
  destruct (use_fallback_frame c s) as (_ & _ & Hou & _).
  apply IH; try done. by rewrite Hou.
Qed.

Lemma redis_calls_failing t0 cs :
  ∀ (s : service S1 S2) r, cfg_ok cfg → FailureThreshold cfg ≤ max_int64 → primary s = Some r → good r →
  0 ≤ failures (state s) < FailureThreshold cfg → openUntil (state s) = ZeroTime →
  Forall (λ c, down c ∧ c_cancelled c = false ∧ during t0 c) cs →
  redis_calls show cfg p cs s
  = Nat.min (length cs) (Z.to_nat (FailureThreshold cfg - failures (state s))).
Proof.
  induction cs as [|c cs IH]; intros [m [r0|] fb] r Hcfg Hmax Hr Hg Hf Ho Hcs; simpl in *; [done..| |done].
  injection Hr as ->.
  apply Forall_cons in Hcs as [(Hdown & Hnc & Hdur) Hcs].
  assert (Hrun : primary_allowed cfg c (MkService m (Some r) fb) = (Some r, MkService m (Some r) fb)).
  { unfold primary_allowed, tryPrimary; simpl. by rewrite Ho, IsZero_ZeroTime. }
  unfold AllowPolicy. rewrite Hrun. simpl. destruct (Hdown r Hg) as (e & r1 & -> & Hg1). rewrite Hnc.
  unfold recordFailure, failure_locked. rewrite Ho, IsZero_ZeroTime, andb_true_r.
  rewrite wrap64_id by lia. destruct (Z.leb_spec (FailureThreshold cfg) (failures m + 1)); simpl.
  - set (s' := MkService _ (Some r1) fb). destruct (use_fallback_frame c s') as (_ & _ & Hou & _).
    destruct Hdur as (? & ? & ? & ?).
    rewrite (redis_calls_refused t0 (c_fail c)); try done.
    + assert (failures m + 1 = FailureThreshold cfg) by lia.
      replace (FailureThreshold cfg - failures m) with 1 by lia. simpl. lia.
    + eapply Forall_impl; [exact Hcs|]. by intros x (_ & _ & ?).
  - set (s' := MkService _ (Some r1) fb).
    destruct (use_fallback_frame c s') as (Hpr & Hfa & Hou & _).
    rewrite (IH _ r1); try done.
    + rewrite Hfa. simpl. replace (Z.to_nat (FailureThreshold cfg - failures m))
        with (S (Z.to_nat (FailureThreshold cfg - (failures m + 1)))) by lia. lia.
    + rewrite Hfa. simpl. lia.
Qed.

(** C18.  An outage costs little: served one after another while Redis fails, only the first
    [FailureThreshold] requests are sent to Redis and pay its timeout; all the others, for a
    whole cooldown, are answered by the fallback without touching Redis. *)
Theorem outage_cost (t0 : Z) (cs : list (call Env1 Env2)) (s : service S1 S2) (r : S1) :
  cfg_ok cfg → FailureThreshold cfg ≤ max_int64 → primary s = Some r → good r →
  failures (state s) = 0 → openUntil (state s) = ZeroTime →
  Forall (λ c, down c ∧ c_cancelled c = false ∧ during t0 c) cs →
  redis_calls show cfg p cs s = Nat.min (length cs) (Z.to_nat (FailureThreshold cfg)).
Proof.
  intros Hcfg Hmax Hr Hg Hf Ho Hcs.
  rewrite (redis_calls_failing t0 cs s r Hcfg Hmax Hr Hg); rewrite ?Hf, ?Z.sub_0_r; try done.
  destruct Hcfg. lia.
Qed.

(** What a dead caller leaves alone. *)
Definition same_but_window (m m' : Manager) : Prop :=
  failures m' = failures m ∧ lastErr m' = lastErr m ∧ redisHealthy m' = redisHealthy m
  ∧ degraded m' = degraded m ∧ redisServed m' = redisServed m.

#[local] Instance same_but_window_trans : Transitive same_but_window.
Proof.
  intros m1 m2 m3 (? & ? & ? & ? & ?) (? & ? & ? & ? & ?). unfold same_but_window.
  split; [congruence|]. split; [congruence|]. split; [congruence|]. split; congruence.
Qed.

(** One call whose caller gives up: it is the fallback's, as if Redis were not configured. *)
Lemma cancelled_call_frame (c : call Env1 Env2) m r fb :
  good r → down c → c_cancelled c = true →
  ∃ go m1 r1 d fb', let s := MkService m (Some r) fb in
    good r1 ∧ (primary_allowed cfg c s).1 = (if go : bool then Some r else None)
    ∧ AllowPolicy show cfg p c s = (d, MkService m1 (Some r1) fb')
    ∧ (∀ m0 : Manager, ∃ m0', AllowPolicy show cfg p c (MkService m0 None fb) = (d, MkService m0' None fb'))
    ∧ same_but_window m m1
    ∧ (if IsZero (openUntil m) then go = true else True)
    ∧ openUntil m1 = (if go then window_after_asking cfg c s else openUntil m).
Proof.
  intros Hg Hdown Hc. destruct (tryPrimary_due cfg c (MkService m (Some r) fb) r eq_refl) as (go & E & Hgo).
  simpl in E. unfold AllowPolicy, primary_allowed. simpl. rewrite E. exists go. cbn zeta.
  assert (Hz : if IsZero (openUntil m) then go = true else True).
  { destruct (IsZero (openUntil m)) eqn:Ez; [|done]. apply Hgo. split; [done|by left]. }
  destruct (Hdown r Hg) as (e & r1 & Er & Hg1). unfold use_fallback. simpl.
  destruct (limiter_allow (c_fenv c) (c_key c) p (c_fallback c) fb) as [[x|] fb'] eqn:Ef;
    destruct go; simpl; rewrite ?Er, ?Hc; simpl; rewrite ?Ef; do 4 eexists;
    refine (conj _ (conj eq_refl (conj eq_refl (conj _ (conj _ (conj Hz _))))));
    first [exact Hg1|exact Hg|intros m0; by eexists|by split].
Qed.

(** C32.  A caller that gives up is not a Redis fault: however many requests fail because their
    own context died, no failure is counted, the health flags and the last error stay as they
    were, and each gets exactly the answer it would get if Redis were not configured.  While the
    circuit is closed it stays closed, and every one of them is tried on Redis.  While it is open
    it stays open; but a caller let through as the probe of an open circuit uses the probe up
    though it gives up, and the next one is a whole cooldown away. *)
Theorem cancelled_callers_harmless (cs : list (call Env1 Env2)) (s : service S1 S2) (r : S1) :
  primary s = Some r → good r →
  Forall (λ c, down c ∧ c_cancelled c = true ∧ IsZero (Add (c_try c) (Cooldown cfg)) = false) cs →
  let m := state s in
  let m' := state (serve show cfg p cs s).2 in
  (serve show cfg p cs s).1 = (serve show cfg p cs (MkService m None (fallback s))).1
  ∧ same_but_window m m'
  ∧ (if IsZero (openUntil m)
     then openUntil m' = openUntil m ∧ redis_calls show cfg p cs s = length cs
     else (openUntil m' = openUntil m ∧ redis_calls show cfg p cs s = 0%nat)
          ∨ ∃ c, c ∈ cs ∧ openUntil m' = Add (c_try c) (Cooldown cfg)).
Proof.
  intros Hr Hg Hcs m m'. subst m m'. destruct s as [m r0 fb]. simpl in Hr. subst r0.
  cut (∀ m0, (serve show cfg p cs (MkService m (Some r) fb)).1 = (serve show cfg p cs (MkService m0 None fb)).1
    ∧ same_but_window m (state (serve show cfg p cs (MkService m (Some r) fb)).2)
    ∧ let u := openUntil (state (serve show cfg p cs (MkService m (Some r) fb)).2) in
      let n := redis_calls show cfg p cs (MkService m (Some r) fb) in
      if IsZero (openUntil m) then u = openUntil m ∧ n = length cs
      else (u = openUntil m ∧ n = 0%nat) ∨ ∃ c, c ∈ cs ∧ u = Add (c_try c) (Cooldown cfg)).
  { intros H. apply H. }
  revert m r fb Hg. induction cs as [|c cs IH]; intros m r fb Hg m0.
  { simpl. split; [done|]. split; [done|]. by destruct (IsZero (openUntil m)); [|left]. }
  apply Forall_cons in Hcs as [(Hdown & Hc & Hclock) Hcs].
  destruct (cancelled_call_frame c m r fb Hg Hdown Hc)
    as (go & m1 & r1 & d & fb' & Hg1 & Hgo & E & E0 & Hsame & Hz & Hu).
  destruct (E0 m0) as [m0' E0']. destruct (IH Hcs m1 r1 fb' Hg1 m0') as (Hans & Hsame' & Hwin).
  simpl. rewrite E, E0', Hgo. simpl.
  destruct (serve show cfg p cs (MkService m1 (Some r1) fb')) as [ds s2].
  destruct (serve show cfg p cs (MkService m0' None fb')) as [ds' s2']. simpl in *.
  split; [congruence|]. split; [by etransitivity|]. unfold window_after_asking in Hu. simpl in Hu.
  destruct (IsZero (openUntil m)) eqn:Ez.
  - subst go. rewrite Hu, Ez in Hwin. destruct Hwin as [-> ->]. done.
  - destruct go; [|rewrite Hu, Ez in Hwin].
    + right. rewrite Hu, Hclock in Hwin. destruct Hwin as [[-> _]|(c' & Hc' & ->)].
      * exists c. split; [left|done].
      * exists c'. split; [by right|done].
    + destruct Hwin as [[-> ->]|(c' & Hc' & ->)]; [by left|]. right. exists c'. split; [by right|done].
Qed.

(** C19.  Recovery: once the circuit is closed or its cooldown is over and Redis answers again,
    every request, from the first, is decided by Redis; after any of them the circuit is closed,
    no failure is counted, the service is healthy and not degraded, and [redisServed] has
    counted them all. *)
Theorem recovery (c : call Env1 Env2) (cs : list (call Env1 Env2)) (s : service S1 S2) (r : S1) :
  primary s = Some r → good r →
  IsZero (openUntil (state s)) = true ∨ After (c_try c) (openUntil (state s)) = true →
  Forall up (c :: cs) →
  let m' := state (serve show cfg p (c :: cs) s).2 in
  redis_calls show cfg p (c :: cs) s = length (c :: cs)
  ∧ Forall (λ d, d ≠ None) (serve show cfg p (c :: cs) s).1
  ∧ failures m' = 0 ∧ openUntil m' = ZeroTime ∧ redisHealthy m' = true ∧ degraded m' = false
  ∧ wrapu64 (redisServed m') = wrapu64 (redisServed (state s) + len (c :: cs)).
Proof.
  revert c s r. induction cs as [|c' cs IH]; intros c [m [r0|] fb] r Hr Hg Hgo Hup; try done;
    injection Hr as ->;
    apply Forall_cons in Hup as [Hc Hcs]; simpl in Hgo;
    (assert (Hrun : ∃ m1, primary_allowed cfg c (MkService m (Some r) fb)
                          = (Some r, MkService m1 (Some r) fb)
                          ∧ redisServed m1 = redisServed m);
     [unfold primary_allowed, tryPrimary; simpl; destruct Hgo as [-> | ->];
      [|destruct (IsZero (openUntil m))]; eauto|]);
    destruct Hrun as (m1 & Hrun & Hserved);
    destruct (Hc r Hg) as (d & r1 & Hd & Hg1);
    (assert (HA : AllowPolicy show cfg p c (MkService m (Some r) fb)
                  = (Some d, MkService (add_redisServed (recordSuccess m1).2) (Some r1) fb));
     [unfold AllowPolicy; rewrite Hrun; simpl; by rewrite Hd|]).
  - simpl. rewrite HA, Hrun. simpl. rewrite Hserved. unfold wrapu64. rewrite Zmod_mod.
    repeat split. by repeat constructor.
  - specialize (IH c' (MkService (add_redisServed (recordSuccess m1).2) (Some r1) fb) r1 eq_refl Hg1
                   (or_introl eq_refl) Hcs).
    remember (c' :: cs) as cs' eqn:Ecs. simpl. rewrite HA, Hrun. simpl.
    destruct (serve show cfg p cs' _) as [ds s2]. simpl in *.
    destruct IH as (Hn & Hds & ? & ? & ? & ? & Hs). rewrite Hn. repeat split; try done.
    + by constructor.
    + rewrite Hs, Hserved. unfold wrapu64, len. simpl. rewrite Zplus_mod_idemp_l. f_equal. lia.
Qed.

End Outage.

(** ** The outage properties at work *)

Definition has_node (f : fleet RefDB) : Prop := nodes f ≠ [].

Lemma sample_down ms err :
  down (Limiter0 := redis0) sample_policy has_node (sample_call ms (Unreached err)).
Proof.
  intros f Hf. unfold limiter_allow, RedisLimiter_Limiter, fleet_step; simpl. unfold has_node in Hf.
  destruct (nodes f) as [|r ns]; [done|]. simpl. do 2 eexists. split; [reflexivity|done].
Qed.

Lemma sample_up ms :
  up (Limiter0 := redis0) sample_policy has_node (sample_call ms Delivered).
Proof.
  intros f Hf. unfold limiter_allow, RedisLimiter_Limiter, fleet_step, Redis.Allow, has_node in *.
  simpl. destruct (nodes f) as [|r ns]; [done|]. simpl.
  destruct (slidingWindowScript _ _ _ _ _ _) as [x db]. unfold decide_reply; simpl.
  destruct (r_allowed x =? 0); do 2 eexists; (split; [reflexivity|done]).
Qed.

Definition cancelled_call (ms : Z) : call network unit :=
  MkCall "alice" (at_ms ms) (at_ms ms) (at_ms ms) (at_ms ms) (Unreached "context canceled") () true.

Lemma AllowPolicy_outcome_witness :
  ∃ b s' d,
    decided (H := redis0) (H0 := memory0) show_error sample_breaker sample_policy
      (sample_call 1000 (Unreached "EOF")) sample_service b s' d
    ∧ AllowPolicy (H := redis0) (H0 := memory0) show_error sample_breaker sample_policy
        (sample_call 1000 (Unreached "EOF")) sample_service = (Some d, s')
    ∧ failures (state s') = 1 ∧ b = "memory".
Proof.
  destruct (AllowPolicy_outcome (Limiter0 := redis0) (Limiter1 := memory0) show_error
              sample_breaker sample_policy (sample_call 1000 (Unreached "EOF")) sample_service)
    as (b & s' & d & H1 & H2 & H3).
  - intros r [= <-]. vm_compute. discriminate.
  - vm_compute. discriminate.
  - vm_compute. reflexivity.
  - exists b, s', d. split; [exact H1|]. split; [exact H2|].
    apply (f_equal threads) in H3. vm_compute in H2. injection H2 as _ <-.
    split; [reflexivity|]. vm_compute in H3. by injection H3 as <-.
Defined.

Definition outage_calls : list (call network unit) :=
  [sample_call 1000 (Unreached "EOF"); sample_call 1001 (Unreached "EOF");
   sample_call 1002 (Unreached "EOF"); sample_call 1200 (Unreached "EOF")].

Definition cancelled_calls : list (call network unit) :=
  [cancelled_call 1000; cancelled_call 1001; cancelled_call 1002].

Lemma outage_cost_witness :
  redis_calls (H := redis0) (H0 := memory0) show_error sample_breaker sample_policy
    outage_calls sample_service = 2%nat.
Proof.
  apply (outage_cost (Limiter0 := redis0) (Limiter1 := memory0) show_error sample_breaker
    sample_policy has_node (1000 * Millisecond) outage_calls sample_service sample_fleet).
  - vm_compute. repeat split; discriminate.
  - vm_compute. discriminate.
  - reflexivity.
  - discriminate.
  - reflexivity.
  - reflexivity.
  - repeat (apply Forall_cons; split; [split; [apply sample_down|split; [reflexivity|]];
      repeat split; try (eexists; repeat split); vm_compute; discriminate|]).
    apply Forall_nil. done.
Defined.

(** Two failures trip the circuit for 200 ms; a request at 1202 ms finds Redis back. *)
Definition tripped_service : service (fleet RefDB) MemoryLimiter :=
  (serve (H := redis0) (H0 := memory0) show_error sample_breaker sample_policy
     [sample_call 1000 (Unreached "EOF"); sample_call 1001 (Unreached "EOF")] sample_service).2.

Lemma tripped_primary :
  ∃ r, primary tripped_service = Some r ∧ has_node r.
Proof. eexists. split; [vm_compute; reflexivity|discriminate]. Qed.

(** While the circuit is closed, and as the probe of an open one. *)
Lemma cancelled_callers_harmless_witness :
  failures (state (serve (H := redis0) (H0 := memory0) show_error sample_breaker sample_policy
    cancelled_calls sample_service).2) = 0
  ∧ let m' := state (serve (H := redis0) (H0 := memory0) show_error sample_breaker sample_policy
      [cancelled_call 1202] tripped_service).2 in
    failures m' = failures (state tripped_service)
    ∧ openUntil m' = Add (at_ms 1202) (Cooldown sample_breaker).
Proof.
  split.
  - refine (proj1 (proj1 (proj2 (cancelled_callers_harmless (Limiter0 := redis0) (Limiter1 := memory0)
      show_error sample_breaker sample_policy has_node cancelled_calls sample_service sample_fleet _ _ _)))).
    + reflexivity.
    + discriminate.
    + repeat (apply Forall_cons; split; [split; [apply sample_down|split; reflexivity]|]).
      apply Forall_nil. done.
  - destruct tripped_primary as (r & Hr & Hg). split; [|vm_compute; reflexivity].
    refine (proj1 (proj1 (proj2 (cancelled_callers_harmless (Limiter0 := redis0) (Limiter1 := memory0)
      show_error sample_breaker sample_policy has_node [cancelled_call 1202] tripped_service r Hr Hg _)))).
    apply Forall_cons. split; [split; [apply sample_down|split; reflexivity]|]. by apply Forall_nil.
Defined.

Lemma recovery_witness :
  circuit_open (state tripped_service) = true
  ∧ redis_calls (H := redis0) (H0 := memory0) show_error sample_breaker sample_policy
      [sample_call 1202 Delivered; sample_call 1203 Delivered] tripped_service = 2%nat.
Proof.
  split; [vm_compute; reflexivity|].
  apply (recovery (Limiter0 := redis0) (Limiter1 := memory0) show_error
    sample_breaker sample_policy has_node (sample_call 1202 Delivered)
    [sample_call 1203 Delivered] tripped_service (default sample_fleet (primary tripped_service))).
  - vm_compute. reflexivity.
  - vm_compute. discriminate.
  - right. vm_compute. reflexivity.
  - repeat (apply Forall_cons; split; [apply sample_up|]). apply Forall_nil. done.
Defined.
