(* ===== verification/Metrics.v ===== *)
(** * internal/metrics/metrics.go: traffic counters, the per-second series, the client table

    Entries of the client table are shared through pointers, so they live in a heap: an update
    can reach an entry the table no longer holds.  [sync.Map.Range] visits keys in an order it
    does not promise: the order is an input.  Floating-point quotients are kept as their two
    operands.  A run-time panic is [None]. *)

From S2P Require Import Prelude.
From S2P Require Import GoTime.

Open Scope Z_scope.

(** ** Data *)

Record Bucket := MkBucket { TS : Z; BTotal : Z; BAllowed : Z; BBlocked : Z; BErrors : Z }.

(** [Bucket{TS: sec}] *)
Definition empty_bucket (sec : Z) : Bucket := MkBucket sec 0 0 0 0.

Record Event := MkEvent {
  EKey : string;
  EKind : string;
  EAllowed : bool;
  Status : Z;
  ELimit : Z;
  ERemaining : Z;
  EResetAt : Time;
  EBackend : string;
  Latency : Duration }.

Record clientStat := MkStat {
  kind : string;
  requests : Z;
  s_allowed : Z;
  s_blocked : Z;
  limit : Z;
  remaining : Z;
  resetAt : Time;
  backend : string;
  lastSeen : Time;
  s_latSumNS : Z;
  s_latCount : Z }.

(** [&clientStat{kind: k}] *)
Definition new_clientStat (k : string) : clientStat :=
  MkStat k 0 0 0 0 0 ZeroTime "" ZeroTime 0 0.

(** The counters, and the client table over its heap. *)
Record Collector := MkCollector {
  start : Time;
  total : Z;
  allowed : Z;
  blocked : Z;
  errors : Z;
  latSumNS : Z;
  latCount : Z;
  series : list Bucket;
  stats : gmap nat clientStat;
  clients : gmap string nat;
  next : nat;
  clientTTL : Duration;
  maxClients : Z }.

Definition NewCollector (windowSeconds : Z) (ttl : Duration) (now : Time) : Collector :=
  let windowSeconds := if windowSeconds <? 10 then 10 else windowSeconds in
  let ttl := if ttl <=? 0 then 5 * Minute else ttl in
  MkCollector now 0 0 0 0 0 0 (replicate (Z.to_nat windowSeconds) (empty_bucket 0))
    ∅ ∅ 0 ttl 500.

Definition set_counters (t a b e ls lc : Z) (c : Collector) : Collector :=
  MkCollector (start c) t a b e ls lc (series c) (stats c) (clients c) (next c) (clientTTL c)
    (maxClients c).
Definition set_series (s : list Bucket) (c : Collector) : Collector :=
  MkCollector (start c) (total c) (allowed c) (blocked c) (errors c) (latSumNS c) (latCount c) s
    (stats c) (clients c) (next c) (clientTTL c) (maxClients c).
Definition set_table (h : gmap nat clientStat) (m : gmap string nat) (n : nat) (c : Collector)
    : Collector :=
  MkCollector (start c) (total c) (allowed c) (blocked c) (errors c) (latSumNS c) (latCount c)
    (series c) h m n (clientTTL c) (maxClients c).

(** [c.clients.Delete(key)] *)
Definition delete_client (c : Collector) (key : string) : Collector :=
  set_table (stats c) (delete key (clients c)) (next c) c.

(** What [Range] hands to its callback for one key. *)
Definition row_of (c : Collector) (key : string) : option (string * clientStat) :=
  ptr ← clients c !! key; s ← stats c !! ptr; Some (key, s).

Definition rows (order : list string) (c : Collector) : list (string * clientStat) :=
  omap (row_of c) order.

(** ** [Record] *)

Definition bump (is_allowed isError : bool) (b : Bucket) : Bucket :=
  MkBucket (TS b) (wrapu64 (BTotal b + 1))
    (if is_allowed then wrapu64 (BAllowed b + 1) else BAllowed b)
    (if is_allowed then BBlocked b else wrapu64 (BBlocked b + 1))
    (if isError then wrapu64 (BErrors b + 1) else BErrors b).

(** The remainder is truncated: an instant before 1970 indexes below the ring. *)
Definition recordSeries (now : Time) (is_allowed isError : bool) (c : Collector)
    : option Collector :=
  let sec := Unix now in
  let idx := Z.rem sec (len (series c)) in
  if idx <? 0 then None else
  b ← series c !! Z.to_nat idx;
  let b := if TS b =? sec then b else empty_bucket sec in
  Some (set_series (<[Z.to_nat idx := bump is_allowed isError b]> (series c)) c).

(** [sort.Slice] leaves the order of equal elements open; here they keep the order of [Range],
    which is arbitrary too. *)
Definition not_after (x y : string * Time) : Prop := Before y.2 x.2 = false.

#[export] Instance not_after_dec : RelDecision not_after.
Proof. intros x y. unfold not_after. apply _. Defined.

Definition enforceClientCap (order : list string) (c : Collector) : Collector :=
  let n := Z.min (Z.of_nat (size (clients c))) (maxClients c + 64 + 1) in
  if n <=? maxClients c + 64 then c else
  let all := (λ r, (r.1, lastSeen r.2)) <$> rows order c in
  let all := merge_sort not_after all in
  foldl delete_client c (fst <$> take (Z.to_nat (len all - maxClients c)) all).

Definition touch (now : Time) (ev : Event) (s : clientStat) : clientStat :=
  MkStat (EKind ev) (wrapu64 (requests s + 1))
    (if EAllowed ev then wrapu64 (s_allowed s + 1) else s_allowed s)
    (if EAllowed ev then s_blocked s else wrapu64 (s_blocked s + 1))
    (ELimit ev) (ERemaining ev) (EResetAt ev) (EBackend ev) now
    (if 0 <? Latency ev then wrap64 (s_latSumNS s + Latency ev) else s_latSumNS s)
    (wrap64 (s_latCount s + 1)).

Definition recordClient (order : list string) (now : Time) (ev : Event) (c : Collector)
    : Collector :=
  let '(ptr, c) :=
    match clients c !! EKey ev with
    | Some ptr => (ptr, c)
    | None =>
        let ptr := next c in
        let c := set_table (<[ptr := new_clientStat (EKind ev)]> (stats c))
                   (<[EKey ev := ptr]> (clients c)) (S (next c)) c in
        (ptr, enforceClientCap order c)
    end in
  match stats c !! ptr with
  | Some s => set_table (<[ptr := touch now ev s]> (stats c)) (clients c) (next c) c
  | None => c
  end.

(** [Record]; [order] is the one [Range] takes if the client cap has to be enforced. *)
Definition record (order : list string) (now : Time) (ev : Event) (c : Collector)
    : option Collector :=
  let isError := 500 <=? Status ev in
  let c := set_counters (wrapu64 (total c + 1))
             (if EAllowed ev then wrapu64 (allowed c + 1) else allowed c)
             (if EAllowed ev then blocked c else wrapu64 (blocked c + 1))
             (if isError then wrapu64 (errors c + 1) else errors c)
             (if 0 <? Latency ev then wrap64 (latSumNS c + Latency ev) else latSumNS c)
             (wrap64 (latCount c + 1)) c in
  c ← recordSeries now (EAllowed ev) isError c;
  Some (if String.eqb (EKey ev) "" then c else recordClient order now ev c).

(** ** [Series], [Clients], [Snapshot] *)

Definition series_at (ring : list Bucket) (sec : Z) : Bucket :=
  let n := len ring in
  let b := default (empty_bucket 0) (ring !! Z.to_nat (Z.rem (Z.rem sec n + n) n)) in
  if TS b =? sec then b else empty_bucket sec.

(** The loop from [i = n - 1] down to 0. *)
Definition Series (now : Time) (c : Collector) : list Bucket :=
  let n := len (series c) in
  (λ i, series_at (series c) (Unix now - i)) <$> reverse (seqZ 0 n).

(** A quotient of two integers, computed in floating point; 0 when there is no sample. *)
Record quotient := MkQuotient { num : Z; den : Z }.

Record ClientView := MkView {
  Key : string;
  Kind : string;
  Requests : Z;
  VAllowed : Z;
  VBlocked : Z;
  Limit : Z;
  Remaining : Z;
  ResetInMS : Z;
  Backend : string;
  LastSeen : Z;
  IdleMS : Z;
  AvgMS : quotient }.

Definition view (now : Time) (r : string * clientStat) : ClientView :=
  let '(key, s) := r in
  let d := Sub (resetAt s) now in
  MkView key (kind s) (requests s) (s_allowed s) (s_blocked s) (limit s) (remaining s)
    (if 0 <? d then Milliseconds d else 0) (backend s)
    (UnixMilli (lastSeen s)) (Milliseconds (Sub now (lastSeen s)))
    (if 0 <? s_latCount s then MkQuotient (s_latSumNS s) (s_latCount s * Millisecond)
     else MkQuotient 0 1).

(** [rows[i]] is not to come after [rows[j]]. *)
Definition busier (x y : ClientView) : Prop :=
  if Requests x =? Requests y then String.leb (Key x) (Key y) = true else Requests y < Requests x.

#[export] Instance busier_dec : RelDecision busier.
Proof. intros x y. unfold busier. destruct (Requests x =? Requests y); apply _. Defined.

Definition Clients (order : list string) (now : Time) (limit : Z) (c : Collector)
    : list ClientView * Z :=
  let rows := view now <$> rows order c in
  let total := len rows in
  let rows := merge_sort busier rows in
  (if limit <? len rows then take (Z.to_nat limit) rows else rows, total).

Record Snapshot := MkSnapshot {
  Total : Z;
  SAllowed : Z;
  SBlocked : Z;
  Errors : Z;
  BlockRate : quotient;
  RPS : Z;
  AvgLatencyMS : quotient;
  Uptime : Duration;
  TrackedClients : Z;
  SSeries : list Bucket;
  SClients : list ClientView }.

Definition snapshot (order : list string) (maxClients : Z) (now : Time) (c : Collector)
    : Snapshot :=
  let maxClients := if maxClients <=? 0 then 50 else maxClients in
  let series := Series now c in
  let rps :=
    if 2 <=? len series then default 0 (BTotal <$> series !! Z.to_nat (len series - 2)) else 0 in
  let '(clients, tracked) := Clients order now maxClients c in
  MkSnapshot (total c) (allowed c) (blocked c) (errors c)
    (if 0 <? total c then MkQuotient (blocked c) (total c) else MkQuotient 0 1)
    rps
    (if 0 <? latCount c then MkQuotient (latSumNS c) (latCount c * Millisecond)
     else MkQuotient 0 1)
    (Sub now (start c)) tracked series clients.

(** ** [Sweep] and [ResetClients] *)

Definition sweep_key (cutoff : Time) (st : Z * Collector) (key : string) : Z * Collector :=
  let '(removed, c) := st in
  match row_of c key with
  | Some (_, s) =>
      if Before (lastSeen s) cutoff then (removed + 1, delete_client c key) else (removed, c)
  | None => (removed, c)
  end.

Definition Sweep (order : list string) (now : Time) (c : Collector) : Z * Collector :=
  foldl (sweep_key (Add now (- clientTTL c))) (0, c) order.

Definition ResetClients (order : list string) (c : Collector) : Collector :=
  foldl delete_client c order.

(** ** Specification *)

(** The events a collector has been given, each with its clock reading and [Range] order. *)
Record arrival := MkArrival { a_now : Time; a_event : Event; a_order : list string }.

Fixpoint record_all (l : list arrival) (c : Collector) : option Collector :=
  match l with
  | [] => Some c
  | a :: l => c ← record (a_order a) (a_now a) (a_event a) c; record_all l c
  end.

Definition in_second (sec : Z) (a : arrival) : bool := Unix (a_now a) =? sec.
Definition is_allowed (a : arrival) : bool := EAllowed (a_event a).
Definition is_error (a : arrival) : bool := 500 <=? Status (a_event a).

(** The histogram of one second, counted from scratch. *)
Definition histogram (sec : Z) (l : list arrival) : Bucket :=
  let l := filter (λ a, Unix (a_now a) = sec) l in
  MkBucket sec
    (wrapu64 (len l))
    (wrapu64 (Z.of_nat (countb is_allowed l)))
    (wrapu64 (Z.of_nat (countb (λ a, negb (is_allowed a)) l)))
    (wrapu64 (Z.of_nat (countb is_error l))).

(** The clock never goes back, from [T] on (in seconds). *)
Fixpoint seconds_ok (T : Z) (l : list arrival) : Prop :=
  match l with
  | [] => True
  | a :: l => T ≤ Unix (a_now a) ∧ seconds_ok (Unix (a_now a)) l
  end.

(** Every table entry has its row in the heap, and no two keys share one. *)
Record table_ok (c : Collector) : Prop := {
  tok_heap k ptr : clients c !! k = Some ptr → is_Some (stats c !! ptr);
  tok_next k ptr : clients c !! k = Some ptr → (ptr < next c)%nat;
  tok_inj k k' ptr : clients c !! k = Some ptr → clients c !! k' = Some ptr → k = k' }.

(** [Range] visits every key exactly once. *)
Definition visits (order : list string) (c : Collector) : Prop :=
  NoDup order ∧ ∀ k, k ∈ order ↔ is_Some (clients c !! k).
