(* ===== verification/MetricsProps.v ===== *)
(** * internal/metrics/metrics.go: correctness

    The ring is the histogram of the last seconds, the totals are exact, the client table is
    bounded and shown busiest first, and the client cap drops the wrong client. *)

From Stdlib Require Import Ascii.
From S2P Require Import Prelude.
From S2P Require Import GoTime.
From S2P Require Import GoStrings.
From S2P Require Import Metrics.

Open Scope Z_scope.

(** ** Definitions for the statements *)

(** Every [Range] the collector makes while recording [l] visits the whole table once. *)
Fixpoint orders_ok (l : list arrival) (c : Collector) : Prop :=
  match l with
  | [] => True
  | a :: l =>
      NoDup (a_order a)
      ∧ (∀ k, k ∈ a_order a ↔ is_Some (clients c !! k) ∨ k = EKey (a_event a))
      ∧ match record (a_order a) (a_now a) (a_event a) c with
        | Some c => orders_ok l c
        | None => True
        end
  end.

(** The same as a test. *)
Fixpoint orders_check (l : list arrival) (c : Collector) : bool :=
  match l with
  | [] => true
  | a :: l =>
      bool_decide (NoDup (a_order a))
      && bool_decide ((list_to_set (a_order a) : gset string)
                      = dom (clients c) ∪ {[EKey (a_event a)]})
      && match record (a_order a) (a_now a) (a_event a) c with
         | Some c => orders_check l c
         | None => true
         end
  end.

(** The bucket the ring holds for a second, if it is one of the last [len ring]. *)
Definition ring_ok (n T : Z) (l : list arrival) (ring : list Bucket) : Prop :=
  len ring = n
  ∧ Forall (λ b, 0 ≤ TS b) ring
  ∧ Forall (λ a, Unix (a_now a) ≤ T) l
  ∧ ∀ sec, T - n < sec → series_at ring sec = histogram sec l.

(** Keys idle since before [cutoff]. *)
Definition stale (cutoff : Time) (c : Collector) (k : string) : bool :=
  match row_of c k with Some (_, s) => Before (lastSeen s) cutoff | None => false end.

(** An example: clients named by number, one request each. *)
Definition sample_arrival (now : Z) (key : string) (ok : bool) (status : Z) (order : list string)
    : arrival :=
  MkArrival (Unix0 (now * Second)) (MkEvent key "ip" ok status 10 9 (Unix0 (now * Second + Second))
    "memory" Millisecond) order.

(** ** The ring *)

Lemma ring_index sec n :
  0 < n → Z.rem (Z.rem sec n + n) n = sec mod n.
Proof.
  intros Hn. pose proof (Z.rem_bound_abs sec n ltac:(lia)).
  rewrite Z.rem_mod_nonneg by lia.
  rewrite <- (Z.mul_1_l n) at 2. rewrite Z.mod_add by lia.
  pose proof (Z.quot_rem' sec n) as E. rewrite E at 2.
  rewrite (Z.mul_comm n), Z.add_comm, Z.mod_add by lia. done.
Qed.

Lemma wrapu64_succ_len n : wrapu64 (wrapu64 n + 1) = wrapu64 (n + 1).
Proof. unfold wrapu64. by rewrite Zplus_mod_idemp_l. Qed.

Lemma histogram_snoc sec l a :
  histogram sec (l ++ [a]) =
  if Unix (a_now a) =? sec then bump (is_allowed a) (is_error a) (histogram sec l)
  else histogram sec l.
Proof.
  unfold histogram. rewrite filter_app, filter_cons, filter_nil.
  destruct (Z.eqb_spec (Unix (a_now a)) sec) as [E|E];
    [rewrite decide_True by done|rewrite decide_False by done; by rewrite app_nil_r].
  unfold bump. cbn [TS BTotal BAllowed BBlocked BErrors].
  rewrite len_app, !countb_app. simpl.
  destruct (is_allowed a), (is_error a); simpl; f_equal; unfold len; simpl;
    rewrite ?wrapu64_succ_len; f_equal; lia.
Qed.

Lemma ring_ok_new n : 0 < n → ring_ok n 0 [] (replicate (Z.to_nat n) (empty_bucket 0)).
Proof.
  intros Hn. split; [unfold len; rewrite length_replicate; lia|].
  split; [apply Forall_replicate; simpl; lia|]. split; [constructor|].
  intros sec _. unfold series_at. cbv zeta.
  assert (Hb : default (empty_bucket 0) (replicate (Z.to_nat n) (empty_bucket 0) !!
    Z.to_nat (Z.rem (Z.rem sec (len (replicate (Z.to_nat n) (empty_bucket 0)))
      + len (replicate (Z.to_nat n) (empty_bucket 0)))
      (len (replicate (Z.to_nat n) (empty_bucket 0))))) = empty_bucket 0).
  { destruct (_ !! _) eqn:E; [|done]. by apply lookup_replicate in E as [-> _]. }
  rewrite Hb. change (TS (empty_bucket 0)) with 0. destruct (Z.eqb_spec 0 sec); [by subst|done].
Qed.

(** A second with the same index that is not a whole ring older, and not the same, is later. *)
Lemma mod_eq_later n sec sec' :
  0 < n → sec' mod n = sec mod n → sec - n < sec' → sec ≠ sec' → sec < sec'.
Proof.
  intros Hn Hm Hlt Hne. pose proof (Z.div_mod sec n ltac:(lia)) as E1.
  pose proof (Z.div_mod sec' n ltac:(lia)) as E2. rewrite Hm in E2.
  assert (E : sec - sec' = n * (sec / n - sec' / n)) by lia.
  destruct (Z.lt_trichotomy (sec / n - sec' / n) 0) as [?|[E0|?]]; [nia| |nia].
  rewrite E0 in E. lia.
Qed.

Lemma ring_ok_record n T l c a :
  0 < n → 0 ≤ T → T ≤ Unix (a_now a) → ring_ok n T l (series c) →
  ∃ s, recordSeries (a_now a) (is_allowed a) (is_error a) c = Some (set_series s c)
       ∧ ring_ok n (Unix (a_now a)) (l ++ [a]) s.
Proof.
  intros Hn HT Hle (Hlen & Hts & Hl & Hring). set (sec := Unix (a_now a)) in *.
  unfold recordSeries. fold sec. rewrite Hlen. rewrite Z.rem_mod_nonneg by lia.
  pose proof (Z.mod_pos_bound sec n Hn) as Hidx. case_if; [lia|].
  destruct (lookup_lt_is_Some_2 (series c) (Z.to_nat (sec mod n))) as [b Hb].
  { unfold len in Hlen. lia. }
  rewrite Hb. simpl. eexists. split; [done|]. split; [unfold len in *; by rewrite length_insert|].
  assert (Hb' : series_at (series c) sec = if TS b =? sec then b else empty_bucket sec).
  { unfold series_at. cbv zeta. rewrite Hlen, ring_index by done. by rewrite Hb. }
  rewrite <- Hb'. rewrite (Hring sec) by lia.
  split; [apply Forall_insert; [done|simpl; lia]|].
  split; [apply Forall_snoc_intro; [eapply Forall_impl; [exact Hl|cbv beta; lia]|cbv beta; lia]|].
  intros sec' Hsec'. rewrite histogram_snoc. fold sec.
  unfold series_at, len. cbv zeta. rewrite length_insert. fold (len (series c)).
  rewrite Hlen, ring_index by done. pose proof (Z.mod_pos_bound sec' n Hn) as Hidx'.
  destruct (decide (sec' mod n = sec mod n)) as [Emod|Emod].
  - rewrite Emod, list_lookup_insert_eq by (unfold len in Hlen; lia). simpl.
    destruct (Z.eqb_spec sec sec') as [<-|Hne]; [done|].
    assert (Hlt : sec < sec').
    { apply (mod_eq_later n); [lia|congruence|lia|done]. }
    unfold histogram. rewrite filter_none; [done|]. eapply Forall_impl; [exact Hl|].
    cbv beta. lia.
  - rewrite list_lookup_insert_ne by lia.
    specialize (Hring sec' ltac:(lia)). unfold series_at in Hring. cbv zeta in Hring.
    rewrite Hlen, ring_index in Hring by done. rewrite Hring.
    destruct (Z.eqb_spec sec sec'); [congruence|done].
Qed.

(** ** Counters and frame conditions *)

(** Everything but the client table. *)
Definition outline (c : Collector) : (Z * Z * Z * Z) * (Z * Z) * list Bucket * (Duration * Z) :=
  ((total c, allowed c, blocked c, errors c), (latSumNS c, latCount c), series c,
   (clientTTL c, maxClients c)).

Lemma foldl_delete_outline ks c : outline (foldl delete_client c ks) = outline c.
Proof. revert c. induction ks as [|k ks IH]; intros c; simpl; [done|]. by rewrite IH. Qed.

Lemma enforceClientCap_outline order c : outline (enforceClientCap order c) = outline c.
Proof. unfold enforceClientCap. case_if; [done|]. apply foldl_delete_outline. Qed.

Lemma recordClient_outline order now ev c : outline (recordClient order now ev c) = outline c.
Proof.
  unfold recordClient. destruct (clients c !! EKey ev) as [ptr|].
  - by destruct (stats c !! ptr).
  - set (c0 := set_table _ _ _ c). pose proof (enforceClientCap_outline order c0) as E.
    destruct (stats (enforceClientCap order c0) !! next c); exact E.
Qed.

Lemma record_series n T l c a :
  0 < n → 0 ≤ T → T ≤ Unix (a_now a) → ring_ok n T l (series c) →
  ∃ c', record (a_order a) (a_now a) (a_event a) c = Some c'
        ∧ ring_ok n (Unix (a_now a)) (l ++ [a]) (series c').
Proof.
  intros Hn HT Hle Hring. unfold record. cbv zeta.
  set (c0 := set_counters _ _ _ _ _ _ c).
  destruct (ring_ok_record n T l c0 a Hn HT Hle Hring) as (s & E & Hs).
  unfold is_allowed, is_error in E. rewrite E. simpl. eexists. split; [done|].
  case_if; [done|]. pose proof (recordClient_outline (a_order a) (a_now a) (a_event a)
    (set_series s c0)) as Ho. injection Ho as _ _ _ _ _ _ Eser _ _. by rewrite Eser.
Qed.

Lemma record_all_series n l :
  ∀ T l0 c now, 0 < n → 0 ≤ T → seconds_ok T l → Forall (λ a, Unix (a_now a) ≤ Unix now) l →
  T ≤ Unix now → ring_ok n T l0 (series c) →
  ∃ c', record_all l c = Some c' ∧ ∃ T', T' ≤ Unix now ∧ ring_ok n T' (l0 ++ l) (series c').
Proof.
  induction l as [|a l IH]; intros T l0 c now Hn HT Hs Hl HTn Hring; simpl.
  { eexists. split; [done|]. exists T. by rewrite app_nil_r. }
  destruct Hs as [Ha Hs]. apply Forall_cons in Hl as [Han Hl].
  destruct (record_series n T l0 c a Hn HT Ha Hring) as (c1 & E & Hring1). rewrite E. simpl.
  destruct (IH (Unix (a_now a)) (l0 ++ [a]) c1 now) as (c' & E' & T' & HT' & Hring'); try done.
  - lia.
  - exists c'. split; [done|]. exists T'. split; [done|]. by rewrite <- app_assoc in Hring'.
Qed.

(** The totals after [l0], taken from the events. *)
Definition totals_ok (l0 : list arrival) (c : Collector) : Prop :=
  total c = wrapu64 (len l0)
  ∧ allowed c = wrapu64 (Z.of_nat (countb is_allowed l0))
  ∧ blocked c = wrapu64 (Z.of_nat (countb (λ a, negb (is_allowed a)) l0))
  ∧ errors c = wrapu64 (Z.of_nat (countb is_error l0))
  ∧ wrapu64 (latCount c) = wrapu64 (len l0).

Lemma wrapu64_wrap64 z : wrapu64 (wrap64 z) = wrapu64 z.
Proof.
  unfold wrapu64, wrap64. rewrite Zminus_mod_idemp_l. f_equal. lia.
Qed.

Lemma record_totals l0 a c c' :
  record (a_order a) (a_now a) (a_event a) c = Some c' → totals_ok l0 c → totals_ok (l0 ++ [a]) c'.
Proof.
  unfold record. cbv zeta. set (c0 := set_counters _ _ _ _ _ _ c).
  destruct (recordSeries (a_now a) _ _ c0) as [c1|] eqn:E; simpl; [|done]. intros [= <-] Hok.
  assert (Hout : ∀ c2, outline c2 = outline c1 → totals_ok (l0 ++ [a]) c2).
  { assert (H1 : total c1 = total c0 ∧ allowed c1 = allowed c0 ∧ blocked c1 = blocked c0
                 ∧ errors c1 = errors c0 ∧ latCount c1 = latCount c0).
    { revert E. unfold recordSeries. case_if; [done|]. destruct (series c0 !! _); simpl; [|done].
      by intros [= <-]. }
    intros c2 Ho. unfold outline in Ho. destruct H1 as (? & ? & ? & ? & ?).
    injection Ho as E1 E2 E3 E4 _ E6 _ _ _.
    destruct Hok as (K1 & K2 & K3 & K4 & K5). unfold totals_ok.
    rewrite E1, E2, E3, E4, E6. rewrite len_app, !countb_app. simpl in *.
    unfold is_allowed, is_error in *.
    repeat match goal with H : _ c1 = _ |- _ => rewrite H; clear H end. simpl.
    rewrite wrapu64_wrap64. rewrite <- (wrapu64_succ_len (latCount c)), K5.
    rewrite K1, K2, K3, K4. unfold len; simpl.
    destruct (EAllowed (a_event a)), (500 <=? Status (a_event a)); simpl;
      rewrite ?wrapu64_succ_len; repeat split; f_equal; lia. }
  case_if; apply Hout; [done|]. apply recordClient_outline.
Qed.

Lemma record_all_totals l :
  ∀ l0 c c', record_all l c = Some c' → totals_ok l0 c → totals_ok (l0 ++ l) c'.
Proof.
  induction l as [|a l IH]; intros l0 c c' H Hok; simpl in H.
  { injection H as <-. by rewrite app_nil_r. }
  destruct (record (a_order a) (a_now a) (a_event a) c) as [c1|] eqn:E; simpl in H; [|done].
  replace (l0 ++ a :: l) with ((l0 ++ [a]) ++ l) by (by rewrite <- app_assoc).
  eapply IH; [exact H|]. by eapply record_totals.
Qed.

(** ** The client table *)

Lemma foldl_delete_lookup ks c k :
  clients (foldl delete_client c ks) !! k = if decide (k ∈ ks) then None else clients c !! k.
Proof.
  revert c. induction ks as [|k' ks IH]; intros c; [done|]. cbn [foldl].
  rewrite IH. simpl clients. destruct (decide (k ∈ k' :: ks)) as [H|H]; rewrite elem_of_cons in H.
  - case_decide; [done|]. destruct H as [->|]; [by rewrite lookup_delete_eq|done].
  - rewrite decide_False by naive_solver. rewrite lookup_delete_ne by naive_solver. done.
Qed.

Lemma foldl_delete_size ks c :
  NoDup ks → (∀ k, k ∈ ks → is_Some (clients c !! k)) →
  (size (clients (foldl delete_client c ks)) + length ks = size (clients c))%nat.
Proof.
  revert c. induction ks as [|k ks IH]; intros c Hnd Hks; simpl; [lia|].
  apply NoDup_cons in Hnd as [Hk Hnd]. destruct (Hks k) as [ptr Hptr]; [by left|].
  specialize (IH (delete_client c k) Hnd). simpl in IH.
  rewrite map_size_delete, Hptr in IH. simpl in IH.
  assert (0 < size (clients c))%nat.
  { destruct (decide (clients c = ∅)) as [E|E]; [by rewrite E, lookup_empty in Hptr|].
    apply map_size_non_empty_iff in E. lia. }
  cut (∀ k', k' ∈ ks → is_Some (delete k (clients c) !! k')); [intros Hks'; specialize (IH Hks'); lia|].
  intros k' Hk'. rewrite lookup_delete_ne by (intros ->; done).
  apply Hks. by right.
Qed.

Lemma visits_length order c : visits order c → length order = size (clients c).
Proof.
  intros [Hnd Hin]. assert (H : order ≡ₚ (map_to_list (clients c)).*1).
  { apply NoDup_Permutation; [done|apply NoDup_fst_map_to_list|]. intros k. rewrite Hin.
    split; [intros [ptr Hk]; apply list_elem_of_fmap; exists (k, ptr);
            split; [done|by apply elem_of_map_to_list]|].
    intros ([k' ptr] & -> & Hk)%list_elem_of_fmap. apply elem_of_map_to_list in Hk. by exists ptr. }
  rewrite H, length_fmap. apply length_map_to_list.
Qed.

Lemma row_of_Some c k : table_ok c → is_Some (clients c !! k) → ∃ s, row_of c k = Some (k, s).
Proof.
  intros Hok [ptr Hk]. destruct (tok_heap _ Hok k ptr Hk) as [s Hs]. exists s.
  unfold row_of. by rewrite Hk; simpl; rewrite Hs.
Qed.

Lemma rows_keys order c :
  table_ok c → (∀ k, k ∈ order → is_Some (clients c !! k)) → (rows order c).*1 = order.
Proof.
  intros Hok. induction order as [|k order IH]; intros Hin; [done|].
  destruct (row_of_Some c k Hok) as [s Hs]; [apply Hin; by left|].
  unfold rows in *. simpl. rewrite Hs. simpl. f_equal. apply IH. intros k' ?. apply Hin. by right.
Qed.

Lemma table_ok_delete ks c : table_ok c → table_ok (foldl delete_client c ks).
Proof.
  assert (Hh : stats (foldl delete_client c ks) = stats c ∧ next (foldl delete_client c ks) = next c).
  { revert c. induction ks as [|k ks IH]; intros c; simpl; [done|]. by destruct (IH (delete_client c k)). }
  destruct Hh as [Hs Hn]. intros Hok.
  constructor; rewrite ?Hs, ?Hn; intros *; rewrite !foldl_delete_lookup; repeat case_decide; try done.
  - apply (tok_heap _ Hok).
  - apply (tok_next _ Hok).
  - apply (tok_inj _ Hok).
Qed.

Lemma table_ok_insert c k kd :
  table_ok c → clients c !! k = None →
  table_ok (set_table (<[next c := new_clientStat kd]> (stats c)) (<[k := next c]> (clients c))
              (S (next c)) c).
Proof.
  intros Hok Hk. constructor; simpl.
  - intros k' ptr Hp. apply lookup_insert_is_Some'.
    apply lookup_insert_Some in Hp as [[<- <-]|[_ Hp]]; [by left|right]. by eapply tok_heap.
  - intros k' ptr Hp. apply lookup_insert_Some in Hp as [[<- <-]|[_ Hp]]; [lia|].
    apply (tok_next _ Hok) in Hp. lia.
  - intros k1 k2 ptr H1 H2.
    apply lookup_insert_Some in H1 as [[<- <-]|[_ H1]];
      apply lookup_insert_Some in H2 as [[<- E]|[_ H2]]; [done|..].
    + apply (tok_next _ Hok) in H2. lia.
    + subst. apply (tok_next _ Hok) in H1. lia.
    + by eapply tok_inj.
Qed.

Lemma table_ok_update c h :
  table_ok c → (∀ ptr, is_Some (stats c !! ptr) → is_Some (h !! ptr)) →
  table_ok (set_table h (clients c) (next c) c).
Proof.
  intros Hok Hh. constructor; simpl; [|apply (tok_next _ Hok)|apply (tok_inj _ Hok)].
  intros k ptr Hk. apply Hh. by eapply tok_heap.
Qed.

(** What the cap leaves: all keys, or the [maxClients] last of the sorted ones. *)
Lemma enforceClientCap_spec order c :
  table_ok c → visits order c → 0 ≤ maxClients c →
  let c' := enforceClientCap order c in
  table_ok c' ∧ Z.of_nat (size (clients c')) ≤ maxClients c + 64.
Proof.
  intros Hok Hv Hmax. unfold enforceClientCap. cbv zeta. case_if; [split; [done|lia]|].
  split; [by apply table_ok_delete|].
  set (all := merge_sort _ _). set (n := Z.to_nat _).
  assert (Hperm : all.*1 ≡ₚ order).
  { unfold all. rewrite merge_sort_Permutation, <- list_fmap_compose.
    change (fst ∘ _) with (fst : string * clientStat → string).
    rewrite rows_keys; [done|done|]. intros k Hk. by apply Hv. }
  assert (Hlen : length all = size (clients c)).
  { rewrite <- (visits_length order c Hv), <- Hperm. by rewrite length_fmap. }
  pose proof (foldl_delete_size (fst <$> take n all) c) as Hsize.
  rewrite length_fmap, length_take in Hsize.
  assert (Hnd : NoDup (fst <$> take n all)).
  { rewrite fmap_take. eapply sublist_NoDup; [|apply sublist_take]. rewrite Hperm. apply Hv. }
  specialize (Hsize Hnd).
  enough (∀ k, k ∈ (fst <$> take n all) → is_Some (clients c !! k)) as Hin
    by (specialize (Hsize Hin); unfold n, len in *; lia).
  intros k Hk. apply Hv. rewrite <- Hperm. rewrite fmap_take in Hk.
  by apply elem_of_take in Hk as (i & Hk & _); eapply list_elem_of_lookup_2.
Qed.

(** The table just after a new key was stored. *)
Definition with_client (ev : Event) (c : Collector) : Collector :=
  set_table (<[next c := new_clientStat (EKind ev)]> (stats c))
    (<[EKey ev := next c]> (clients c)) (S (next c)) c.

Lemma with_client_visits order ev c :
  NoDup order → (∀ k, k ∈ order ↔ is_Some (clients c !! k) ∨ k = EKey ev) →
  visits order (with_client ev c).
Proof.
  intros Hnd Hin. split; [done|]. intros k. rewrite Hin. simpl.
  rewrite lookup_insert_is_Some'. naive_solver.
Qed.

Lemma recordClient_table order now ev c :
  table_ok c → 0 ≤ maxClients c → Z.of_nat (size (clients c)) ≤ maxClients c + 64 →
  NoDup order → (∀ k, k ∈ order ↔ is_Some (clients c !! k) ∨ k = EKey ev) →
  table_ok (recordClient order now ev c)
  ∧ Z.of_nat (size (clients (recordClient order now ev c))) ≤ maxClients c + 64.
Proof.
  intros Hok Hmax Hsize Hnd Hin. unfold recordClient.
  assert (Hupd : ∀ c1 ptr, table_ok c1 → Z.of_nat (size (clients c1)) ≤ maxClients c + 64 →
    let c2 := match stats c1 !! ptr with
              | Some s => set_table (<[ptr := touch now ev s]> (stats c1)) (clients c1) (next c1) c1
              | None => c1
              end in
    table_ok c2 ∧ Z.of_nat (size (clients c2)) ≤ maxClients c + 64).
  { intros c1 ptr H1 H2. cbv zeta. destruct (stats c1 !! ptr); [|done]. split; [|done].
    apply table_ok_update; [done|]. intros p Hp. apply lookup_insert_is_Some'. by right. }
  destruct (clients c !! EKey ev) as [ptr|] eqn:Hk; [by apply Hupd|].
  pose proof (enforceClientCap_spec order (with_client ev c)
    (table_ok_insert c (EKey ev) (EKind ev) Hok Hk) (with_client_visits order ev c Hnd Hin) Hmax)
    as [H1 H2].
  by apply Hupd.
Qed.

Lemma record_frame order now ev c c' :
  record order now ev c = Some c' →
  ∃ c1, stats c1 = stats c ∧ clients c1 = clients c ∧ next c1 = next c
        ∧ maxClients c1 = maxClients c
        ∧ c' = if String.eqb (EKey ev) "" then c1 else recordClient order now ev c1.
Proof.
  unfold record. cbv zeta. set (c0 := set_counters _ _ _ _ _ _ c). unfold recordSeries.
  destruct (Z.rem _ _ <? 0); [done|]. destruct (series c0 !! _); simpl; [|done]. intros [= <-].
  match goal with |- context [set_series ?s c0] => exists (set_series s c0) end. done.
Qed.

Lemma table_ok_same c c1 :
  stats c1 = stats c → clients c1 = clients c → next c1 = next c → table_ok c → table_ok c1.
Proof. intros Hs Hc Hn []. by constructor; rewrite ?Hs, ?Hc, ?Hn. Qed.

Lemma record_all_table l :
  ∀ c c', table_ok c → 0 ≤ maxClients c → Z.of_nat (size (clients c)) ≤ maxClients c + 64 →
  orders_ok l c → record_all l c = Some c' →
  table_ok c' ∧ Z.of_nat (size (clients c')) ≤ maxClients c + 64.
Proof.
  induction l as [|a l IH]; intros c c' Hok Hmax Hsize Hord H; simpl in *; [by injection H as <-|].
  destruct Hord as (Hnd & Hin & Hord).
  destruct (record (a_order a) (a_now a) (a_event a) c) as [c2|] eqn:E; simpl in H; [|done].
  destruct (record_frame _ _ _ _ _ E) as (c1 & Hs & Hc & Hn & Hm & Hc2).
  apply (table_ok_same c c1 Hs Hc Hn) in Hok. rewrite <- Hc in Hsize, Hin. rewrite <- Hm in *.
  assert (H2 : table_ok c2 ∧ Z.of_nat (size (clients c2)) ≤ maxClients c1 + 64
               ∧ maxClients c2 = maxClients c1).
  { subst c2. case_if; [done|].
    destruct (recordClient_table (a_order a) (a_now a) (a_event a) c1) as [? ?]; try done.
    pose proof (recordClient_outline (a_order a) (a_now a) (a_event a) c1) as Ho.
    by injection Ho as _ _ _ _ _ _ _ _ ->. }
  destruct H2 as (? & ? & Hm2). rewrite <- Hm2 in *. by apply IH.
Qed.

Lemma table_ok_new ws ttl now : table_ok (NewCollector ws ttl now).
Proof. by constructor; intros *; simpl; rewrite lookup_empty. Qed.

(** ** Sorting *)

#[export] Instance not_after_total : base.Total not_after.
Proof.
  intros x y. unfold not_after, Before, readings.
  destruct (mono x.2), (mono y.2); rewrite !Z.ltb_ge; lia.
Qed.

(** Ascii and string order, as [bytes] compare. *)
Lemma ascii_compare_trans (a b c : ascii) r :
  Ascii.compare a b = r → Ascii.compare b c = r → Ascii.compare a c = r.
Proof.
  unfold Ascii.compare. destruct r; rewrite ?N.compare_eq_iff, ?N.compare_lt_iff, ?N.compare_gt_iff;
    lia.
Qed.

Lemma ascii_compare_eq (a b : ascii) : Ascii.compare a b = Eq → a = b.
Proof. apply Ascii.compare_eq_iff. Qed.

Lemma string_leb_trans a b c :
  String.leb a b = true → String.leb b c = true → String.leb a c = true.
Proof.
  unfold String.leb. revert b c.
  induction a as [|x a IH]; intros [|y b] [|z c]; simpl; try done.
  destruct (Ascii.compare x y) eqn:E1; [| |done].
  - apply ascii_compare_eq in E1 as ->. destruct (Ascii.compare y z); [apply IH|done..].
  - destruct (Ascii.compare y z) eqn:E2; [| |done].
    + apply ascii_compare_eq in E2 as ->. by rewrite E1.
    + by rewrite (ascii_compare_trans x y z Lt E1 E2).
Qed.

#[export] Instance busier_total : base.Total busier.
Proof.
  intros x y. unfold busier. rewrite (Z.eqb_sym (Requests y)).
  destruct (Z.eqb_spec (Requests x) (Requests y)); [apply String.leb_total|lia].
Qed.

#[export] Instance busier_trans : Transitive busier.
Proof.
  intros x y z. unfold busier.
  destruct (Z.eqb_spec (Requests x) (Requests y)), (Z.eqb_spec (Requests y) (Requests z)),
    (Z.eqb_spec (Requests x) (Requests z)); try lia. apply string_leb_trans.
Qed.

(** In a list sorted by age, an entry older than all the others comes first. *)
Lemma oldest_first (l : list (string * Time)) x :
  Sorted not_after l → x ∈ l → (∀ y, y ∈ l → y ≠ x → Before x.2 y.2 = true) → head l = Some x.
Proof.
  intros Hs Hx Hall. destruct l as [|y l]; [by apply not_elem_of_nil in Hx|]. simpl. f_equal.
  destruct (decide (y = x)) as [|Hne]; [done|]. exfalso.
  apply elem_of_cons in Hx as [->|Hx]; [done|].
  revert y Hs Hall Hne. induction l as [|z l IH]; intros y Hs Hall Hne; [by apply not_elem_of_nil in Hx|].
  apply Sorted_inv in Hs as [Hs Hyz]. apply HdRel_inv in Hyz. unfold not_after in Hyz.
  destruct (decide (z = x)) as [->|Hz].
  - rewrite Hall in Hyz; [done|left|done].
  - apply elem_of_cons in Hx as [->|Hx]; [done|].
    apply (IH Hx z Hs); [|done]. intros w Hw. apply Hall. by right.
Qed.

(** ** Helpers for the examples *)

Lemma same_keys (order : list string) (m : gmap string nat) key :
  bool_decide ((list_to_set order : gset string) = dom m ∪ {[key]}) = true →
  ∀ k, k ∈ order ↔ is_Some (m !! k) ∨ k = key.
Proof.
  intros E%bool_decide_eq_true k. rewrite <- (elem_of_list_to_set (C := gset string)), E.
  by rewrite elem_of_union, elem_of_dom, elem_of_singleton.
Qed.

Lemma orders_check_ok l : ∀ c, orders_check l c = true → orders_ok l c.
Proof.
  induction l as [|a l IH]; intros c H; simpl in *; [done|].
  apply andb_true_iff in H as [H H3]. apply andb_true_iff in H as [H1 H2].
  split; [by apply bool_decide_eq_true in H1|]. split; [by apply same_keys|].
  destruct (record (a_order a) (a_now a) (a_event a) c); [by apply IH|done].
Qed.

Lemma visits_sample (order : list string) c :
  bool_decide (NoDup order) = true →
  bool_decide ((list_to_set order : gset string) = dom (clients c)) = true → visits order c.
Proof.
  intros Hnd%bool_decide_eq_true E%bool_decide_eq_true. split; [done|]. intros k.
  rewrite <- (elem_of_list_to_set (C := gset string)), E. apply elem_of_dom.
Qed.

(** ** Sweeping *)

Lemma row_of_delete c k k' : k' ≠ k → row_of (delete_client c k) k' = row_of c k'.
Proof. intros Hne. unfold row_of. simpl. by rewrite lookup_delete_ne. Qed.

Lemma sweep_fold cutoff ks :
  ∀ r c, NoDup ks →
  foldl (sweep_key cutoff) (r, c) ks
  = (r + Z.of_nat (countb (stale cutoff c) ks),
     foldl delete_client c (filter (λ k, stale cutoff c k = true) ks)).
Proof.
  induction ks as [|k ks IH]; intros r c Hnd; [simpl; f_equal; lia|].
  apply NoDup_cons in Hnd as [Hk Hnd]. cbn [foldl countb]. rewrite filter_cons.
  assert (Hst : sweep_key cutoff (r, c) k
    = if stale cutoff c k then (r + 1, delete_client c k) else (r, c)).
  { unfold sweep_key, stale. by destruct (row_of c k) as [[? s]|]; [destruct (Before _ _)|]. }
  rewrite Hst. destruct (stale cutoff c k) eqn:E.
  - rewrite decide_True by done. cbn [foldl]. rewrite IH by done.
    assert (Hext : ∀ k', k' ∈ ks → stale cutoff (delete_client c k) k' = stale cutoff c k').
    { intros k' Hk'. unfold stale. rewrite row_of_delete; [done|by intros ->]. }
    f_equal; [rewrite (countb_ext _ _ _ Hext); lia|]. f_equal.
    clear -Hext. induction ks as [|k' ks IH]; [done|]. rewrite !filter_cons.
    rewrite Hext by left. rewrite IH; [done|]. intros k'' ?. apply Hext. by right.
  - rewrite decide_False by done. by apply IH.
Qed.

(** ** Properties *)

(** C26.  The per-second series is exact: after any events whose clock did not go back, the
    collector has not panicked and [Series] is, for each of the last [n] seconds from oldest to
    newest (at least 10, quiet ones included), the histogram of the events of that very second:
    all, allowed, blocked and failed.  The ring buffer never mixes two seconds that share a
    slot, and never loses one that is still shown. *)
Theorem series_is_histogram (windowSeconds : Z) (ttl : Duration) (t0 now : Time)
    (l : list arrival) :
  seconds_ok 0 l → Forall (λ a, Unix (a_now a) ≤ Unix now) l → 0 ≤ Unix now →
  ∃ c, record_all l (NewCollector windowSeconds ttl t0) = Some c
       ∧ Series now c =
           (λ i, histogram (Unix now - i) l) <$> reverse (seqZ 0 (Z.max 10 windowSeconds)).
Proof.
  intros Hs Hl Hnow. set (n := Z.max 10 windowSeconds).
  assert (Hring : ring_ok n 0 [] (series (NewCollector windowSeconds ttl t0))).
  { simpl. replace (if windowSeconds <? 10 then 10 else windowSeconds) with n
      by (unfold n; case_if; lia). apply ring_ok_new. lia. }
  destruct (record_all_series n l 0 [] _ now ltac:(lia) ltac:(lia) Hs Hl Hnow Hring)
    as (c & E & T' & HT' & Hlen & _ & _ & Hsec).
  exists c. split; [done|]. unfold Series. rewrite Hlen. apply list_fmap_ext.
  intros i x Hx. apply list_elem_of_lookup_2 in Hx. rewrite elem_of_reverse, elem_of_seqZ in Hx.
  apply Hsec. lia.
Qed.

Definition sample_arrivals : list arrival :=
  [sample_arrival 100 "a" true 200 ["a"]; sample_arrival 100 "b" false 429 ["a"; "b"];
   sample_arrival 105 "a" true 502 ["a"; "b"]; sample_arrival 110 "b" true 200 ["b"; "a"]].

Lemma series_is_histogram_witness :
  ∃ c, record_all sample_arrivals (NewCollector 0 0 (Unix0 0)) = Some c
  ∧ Series (Unix0 (110 * Second)) c
    = (λ i, histogram (110 - i) sample_arrivals) <$> reverse (seqZ 0 10)
  ∧ Series (Unix0 (110 * Second)) c !! 4%nat = Some (MkBucket 105 1 1 0 1).
Proof.
  destruct (series_is_histogram 0 0 (Unix0 0) (Unix0 (110 * Second)) sample_arrivals)
    as (c & H1 & H2).
  - vm_compute. repeat split; discriminate.
  - repeat constructor; vm_compute; discriminate.
  - vm_compute. discriminate.
  - exists c. split; [exact H1|]. split; [exact H2|]. vm_compute in H1. injection H1 as <-.
    vm_compute. reflexivity.
Defined.

(** The totals are exact, modulo 2^64: every event is counted once, as allowed or as
    blocked, as an error when its status is 500 or more, and as a latency sample. *)
Theorem totals_exact (windowSeconds : Z) (ttl : Duration) (t0 : Time) (l : list arrival)
    (c : Collector) :
  record_all l (NewCollector windowSeconds ttl t0) = Some c →
  total c = wrapu64 (len l)
  ∧ allowed c = wrapu64 (Z.of_nat (countb is_allowed l))
  ∧ blocked c = wrapu64 (Z.of_nat (countb (λ a, negb (is_allowed a)) l))
  ∧ errors c = wrapu64 (Z.of_nat (countb is_error l))
  ∧ total c = wrapu64 (allowed c + blocked c)
  ∧ wrapu64 (latCount c) = wrapu64 (len l).
Proof.
  intros H. destruct (record_all_totals l [] _ c H) as (H1 & H2 & H3 & H4 & H5); [done|].
  simpl in *. repeat (split; [done|]). split; [|done]. rewrite H1, H2, H3.
  unfold wrapu64. rewrite <- Zplus_mod. f_equal. clear. unfold len.
  induction l as [|a l IH]; simpl; [done|]. destruct (is_allowed a); simpl; lia.
Qed.

Lemma totals_exact_witness :
  ∃ c, record_all sample_arrivals (NewCollector 0 0 (Unix0 0)) = Some c
       ∧ total c = 4 ∧ allowed c = 3 ∧ blocked c = 1 ∧ errors c = 1.
Proof.
  eexists. split; [vm_compute; reflexivity|].
  destruct (totals_exact 0 0 (Unix0 0) sample_arrivals _ ltac:(vm_compute; reflexivity))
    as (H1 & H2 & H3 & H4 & _).
  split; [exact H1|]. split; [exact H2|]. split; [exact H3|exact H4].
Defined.

(** C38.  The client table is bounded: however many distinct clients send requests, and in
    whatever order [Range] visits the table when the cap is enforced, it never holds more than
    564 of them after an event has been recorded.  Events are recorded one at a time. *)
Theorem client_table_bounded (windowSeconds : Z) (ttl : Duration) (t0 : Time)
    (l : list arrival) (c : Collector) :
  orders_ok l (NewCollector windowSeconds ttl t0) →
  record_all l (NewCollector windowSeconds ttl t0) = Some c →
  Z.of_nat (size (clients c)) ≤ 564.
Proof.
  intros Hord H.
  apply (record_all_table l _ c (table_ok_new _ _ _)) in H as [_ H]; [exact H|..|exact Hord];
    simpl; rewrite ?map_size_empty; lia.
Qed.

Lemma client_table_bounded_witness :
  ∃ c, record_all sample_arrivals (NewCollector 0 0 (Unix0 0)) = Some c
       ∧ Z.of_nat (size (clients c)) ≤ 564 ∧ size (clients c) = 2%nat.
Proof.
  eexists. split; [vm_compute; reflexivity|]. split; [|vm_compute; reflexivity].
  apply (client_table_bounded 0 0 (Unix0 0) sample_arrivals); [|vm_compute; reflexivity].
  apply orders_check_ok. vm_compute. reflexivity.
Defined.

(** The dashboard's client table: [Clients] returns the number of tracked keys and, as
    far as the limit allows, one row per key, busiest first (ties by key), and no key left out
    is busier than one shown. *)
Theorem clients_busiest_first (order : list string) (now : Time) (limit : Z) (c : Collector) :
  table_ok c → visits order c → 0 ≤ limit →
  let '(shown, tracked) := Clients order now limit c in
  tracked = Z.of_nat (size (clients c))
  ∧ len shown = Z.min limit tracked
  ∧ ∃ rest, StronglySorted busier (shown ++ rest)
            ∧ Key <$> (shown ++ rest) ≡ₚ order
            ∧ shown ++ rest ≡ₚ view now <$> rows order c.
Proof.
  intros Hok Hv Hlim. unfold Clients. set (rs := view now <$> rows order c).
  set (sorted := merge_sort busier rs).
  assert (Hperm : sorted ≡ₚ rs) by apply merge_sort_Permutation.
  assert (Hkeys : Key <$> rs = order).
  { unfold rs. rewrite <- list_fmap_compose.
    transitivity (rows order c).*1; [apply list_fmap_ext; by intros ? [? ?]|].
    apply rows_keys; [done|]. intros k Hk. by apply Hv. }
  assert (Hlen : length rs = size (clients c)).
  { rewrite <- (visits_length order c Hv), <- Hkeys. by rewrite length_fmap. }
  assert (Hsl : length sorted = length rs) by (by rewrite Hperm).
  assert (Hsorted : StronglySorted busier sorted) by apply (StronglySorted_merge_sort busier).
  unfold len. rewrite Hlen. split; [done|].
  assert (Hall : ∀ shown rest, shown ++ rest = sorted →
    ∃ rest, StronglySorted busier (shown ++ rest) ∧ Key <$> (shown ++ rest) ≡ₚ order
            ∧ shown ++ rest ≡ₚ rs).
  { intros shown rest E. exists rest. rewrite E. split; [done|]. split; [|done].
    by rewrite Hperm, Hkeys. }
  rewrite Hsl, Hlen. case_if.
  - split; [rewrite length_take, Hsl; lia|]. apply (Hall _ (drop (Z.to_nat limit) sorted)).
    apply take_drop.
  - split; [lia|]. apply (Hall _ []), app_nil_r.
Qed.

Definition sample_collector : Collector :=
  default (NewCollector 0 0 (Unix0 0)) (record_all sample_arrivals (NewCollector 0 0 (Unix0 0))).

Lemma sample_collector_ok : table_ok sample_collector.
Proof.
  destruct (record_all_table sample_arrivals (NewCollector 0 0 (Unix0 0)) sample_collector
    (table_ok_new _ _ _)) as [H _]; [done|done| |vm_compute; reflexivity|exact H].
  apply orders_check_ok. vm_compute. reflexivity.
Qed.

Lemma clients_busiest_first_witness :
  let '(shown, tracked) := Clients ["b"; "a"] (Unix0 (110 * Second)) 1 sample_collector in
  tracked = Z.of_nat (size (clients sample_collector)) ∧ len shown = 1 ∧ Key <$> shown = ["a"].
Proof.
  pose proof (clients_busiest_first ["b"; "a"] (Unix0 (110 * Second)) 1 sample_collector
    sample_collector_ok) as H.
  destruct H as (H1 & H2 & _); [apply visits_sample; reflexivity|lia|].
  split; [exact H1|]. split; vm_compute; reflexivity.
Defined.

(** [Sweep] forgets exactly the clients idle for longer than the TTL and returns how many
    they were; [ResetClients] forgets them all; neither touches the totals, the latencies or
    the series. *)
Theorem sweep_forgets_idle (order : list string) (now : Time) (c : Collector) :
  visits order c →
  let cutoff := Add now (- clientTTL c) in
  let '(removed, c') := Sweep order now c in
  (∀ k, clients c' !! k = if stale cutoff c k then None else clients c !! k)
  ∧ removed = Z.of_nat (countb (stale cutoff c) order)
  ∧ outline c' = outline c
  ∧ clients (ResetClients order c) = ∅
  ∧ outline (ResetClients order c) = outline c.
Proof.
  intros [Hnd Hin]. cbv zeta. unfold Sweep. rewrite sweep_fold by done.
  split; [|split; [lia|split; [apply foldl_delete_outline|split; [|apply foldl_delete_outline]]]].
  - intros k. rewrite foldl_delete_lookup.
    destruct (stale (Add now (- clientTTL c)) c k) eqn:E.
    + destruct (decide (k ∈ order)) as [Hk|Hk].
      * by rewrite decide_True by (by apply list_elem_of_filter).
      * assert (Hn : clients c !! k = None) by (apply eq_None_not_Some; by rewrite <- Hin).
        unfold stale, row_of in E. by rewrite Hn in E.
    + rewrite decide_False; [done|]. intros [? _]%list_elem_of_filter. congruence.
  - apply map_eq. intros k. unfold ResetClients. rewrite foldl_delete_lookup, lookup_empty.
    case_decide as Hk; [done|]. apply eq_None_not_Some. by rewrite <- Hin.
Qed.

Lemma sweep_forgets_idle_witness :
  let '(removed, c') := Sweep ["a"; "b"] (Unix0 (406 * Second)) sample_collector in
  removed = 1 ∧ clients c' !! "a" = None ∧ clients c' !! "b" = clients sample_collector !! "b".
Proof.
  pose proof (sweep_forgets_idle ["a"; "b"] (Unix0 (406 * Second)) sample_collector) as H.
  destruct (Sweep ["a"; "b"] (Unix0 (406 * Second)) sample_collector) as [removed c'] eqn:E.
  destruct H as (H1 & H2 & _); [apply visits_sample; reflexivity|].
  split; [exact H2|]. split; [exact (H1 "a")|exact (H1 "b")].
Defined.

(** The client cap drops the wrong client: the row of a new key is stored with no
    last-seen time before the cap is enforced, so when the table is full (564 keys) the newcomer
    looks like the least recently seen client of all and is the first to be dropped; its
    request is then counted on a row the table no longer holds, and the client stays off the
    dashboard however busy it is at that moment. *)
Theorem newcomer_dropped (order : list string) (now : Time) (ev : Event) (c : Collector) :
  table_ok c → 0 ≤ maxClients c → Z.of_nat (size (clients c)) = maxClients c + 64 →
  clients c !! EKey ev = None →
  (∀ k r, row_of c k = Some r → Before ZeroTime (lastSeen r.2) = true) →
  NoDup order → (∀ k, k ∈ order ↔ is_Some (clients c !! k) ∨ k = EKey ev) →
  clients (recordClient order now ev c) !! EKey ev = None.
Proof.
  intros Hok Hmax Hsize Hk Hseen Hnd Hin. unfold recordClient. rewrite Hk.
  fold (with_client ev c). set (c1 := with_client ev c).
  pose proof (table_ok_insert c (EKey ev) (EKind ev) Hok Hk) as Hok1.
  pose proof (with_client_visits order ev c Hnd Hin) as Hv1. fold c1 in Hok1, Hv1.
  cut (clients (enforceClientCap order c1) !! EKey ev = None).
  { intros H. by destruct (stats (enforceClientCap order c1) !! next c). }
  assert (Hsize1 : Z.of_nat (size (clients c1)) = maxClients c + 65).
  { unfold c1. simpl. rewrite map_size_insert, Hk. lia. }
  unfold enforceClientCap. rewrite Hsize1. change (maxClients c1) with (maxClients c).
  case_if; [lia|]. clear E. rewrite foldl_delete_lookup.
  set (aged := (λ r, (r.1, lastSeen r.2)) <$> rows order c1).
  set (all := merge_sort not_after aged).
  assert (Hrow : row_of c1 (EKey ev) = Some (EKey ev, new_clientStat (EKind ev))).
  { unfold row_of, c1. simpl. rewrite lookup_insert_eq. simpl. by rewrite lookup_insert_eq. }
  assert (Hnew : (EKey ev, ZeroTime) ∈ all).
  { unfold all. rewrite merge_sort_Permutation. unfold aged. apply list_elem_of_fmap.
    exists (EKey ev, new_clientStat (EKind ev)). split; [done|].
    unfold rows. apply list_elem_of_omap. exists (EKey ev). split; [|done]. apply Hin. by right. }
  assert (Hhead : head all = Some (EKey ev, ZeroTime)).
  { apply oldest_first; [apply (Sorted_merge_sort not_after)|done|]. intros y Hy Hne.
    unfold all in Hy. rewrite merge_sort_Permutation in Hy.
    apply list_elem_of_fmap in Hy as ([k s] & -> & Hy). simpl in *.
    apply list_elem_of_omap in Hy as (k' & _ & Hy).
    destruct (decide (k' = EKey ev)) as [->|Hk'].
    - rewrite Hrow in Hy. by injection Hy as <- <-.
    - apply (Hseen k' (k, s)). rewrite <- Hy. unfold row_of, c1. simpl.
      rewrite lookup_insert_ne by done. destruct (clients c !! k') as [ptr|] eqn:Ek; [|done].
      simpl. rewrite lookup_insert_ne; [done|]. apply (tok_next _ Hok) in Ek. lia. }
  assert (Hlen : len all = maxClients c + 65).
  { unfold all, len. rewrite merge_sort_Permutation. unfold aged.
    rewrite length_fmap, <- (length_fmap fst), rows_keys; [|done|intros k ?; by apply Hv1].
    by rewrite (visits_length order c1 Hv1). }
  rewrite decide_True; [done|]. rewrite Hlen.
  replace (Z.to_nat (maxClients c + 65 - maxClients c)) with 65%nat by lia.
  destruct all as [|x all']; [done|]. simpl in Hhead. injection Hhead as ->. simpl. left.
Qed.

(** A full table for a cap of 2: 66 clients, numbered in base 36, seen in second 100. *)
Definition full_event (key : string) : Event :=
  MkEvent key "ip" true 200 10 9 (Unix0 (101 * Second)) "memory" Millisecond.

Definition full_collector : Collector :=
  foldl (λ c i, recordClient [] (Unix0 (100 * Second)) (full_event (FormatUint36 i)) c)
    (MkCollector (Unix0 0) 0 0 0 0 0 0 [] ∅ ∅ 0 Minute 2) (seqZ 0 66).

Lemma full_collector_ok : table_ok full_collector.
Proof.
  assert (H1 : map_Forall (λ (_ : string) ptr, is_Some (stats full_collector !! ptr)
                             ∧ (ptr < next full_collector)%nat) (clients full_collector)).
  { eapply bool_decide_unpack. vm_compute. exact I. }
  assert (H2 : NoDup (map_to_list (clients full_collector)).*2).
  { eapply bool_decide_unpack. vm_compute. exact I. }
  constructor.
  - intros k ptr Hk. by apply (H1 k ptr).
  - intros k ptr Hk. by apply (H1 k ptr).
  - intros k k' ptr Hk Hk'.
    apply elem_of_map_to_list, list_elem_of_lookup_1 in Hk as [i Hi].
    apply elem_of_map_to_list, list_elem_of_lookup_1 in Hk' as [j Hj].
    assert (i = j) as ->; [|congruence].
    eapply NoDup_lookup; [exact H2|..]; rewrite list_lookup_fmap; [by rewrite Hi|by rewrite Hj].
Qed.

Definition newcomer : Event := full_event "newcomer".
Definition full_order : list string := "newcomer" :: (map_to_list (clients full_collector)).*1.

Lemma full_collector_seen k r :
  row_of full_collector k = Some r → Before ZeroTime (Metrics.lastSeen r.2) = true.
Proof.
  assert (H : map_Forall (λ (_ : nat) s, Before ZeroTime (lastSeen s) = true)
                (stats full_collector)).
  { eapply bool_decide_unpack. vm_compute. exact I. }
  unfold row_of. destruct (clients full_collector !! k) as [ptr|]; [|discriminate].
  cbn [mbind option_bind]. destruct (stats full_collector !! ptr) as [s|] eqn:Es; [|discriminate].
  cbn [mbind option_bind]. intros [= <-]. exact (H ptr s Es).
Qed.

Lemma full_order_visits k :
  k ∈ full_order ↔ is_Some (clients full_collector !! k) ∨ k = EKey newcomer.
Proof. apply same_keys. vm_compute. reflexivity. Qed.

Lemma full_order_NoDup : NoDup full_order.
Proof. eapply bool_decide_unpack. vm_compute. exact I. Qed.

Lemma newcomer_dropped_witness :
  clients (recordClient full_order (Unix0 (102 * Second)) newcomer full_collector) !! EKey newcomer
  = None.
Proof.
  refine (newcomer_dropped full_order (Unix0 (102 * Second)) newcomer full_collector
    full_collector_ok _ _ _ full_collector_seen full_order_NoDup full_order_visits).
  - vm_compute. discriminate.
  - vm_compute. reflexivity.
  - vm_compute. reflexivity.
Defined.
