(* ===== verification/Hub.v ===== *)
(** * internal/metrics/hub.go: fanning frames out to the connected dashboards

    Subscribers are shared through pointers, so their channels live in a heap.  The operations
    that change the set of subscribers run under the write lock; [Broadcast] holds the read lock,
    so broadcasts may interleave with one another, and clients receive without any lock: a
    broadcast is a sequence of sends, and histories are sequences of these steps.  Closing a
    closed channel and sending on one panic: [None]. *)

From S2P Require Import Prelude.

Open Scope Z_scope.

(** ** Data *)

Record Subscriber (A : Type) := MkSub { ch : list A; ch_closed : bool; dropped : Z }.
Arguments MkSub {A}. Arguments ch {A}. Arguments ch_closed {A}. Arguments dropped {A}.

Record Hub (A : Type) := MkHub {
  heap : gmap nat (Subscriber A);
  subs : gset nat;
  closed : bool;
  buffer : Z;
  next : nat }.
Arguments MkHub {A}. Arguments heap {A}. Arguments subs {A}. Arguments closed {A}.
Arguments buffer {A}. Arguments next {A}.

Section Operations.
Context {A : Type}.
Implicit Types h : Hub A.

Definition NewHub (buffer : Z) : Hub A :=
  let buffer := if buffer <? 1 then 8 else buffer in MkHub ∅ ∅ false buffer 0.

Definition set_sub (s : nat) (x : Subscriber A) h : Hub A :=
  MkHub (<[s := x]> (heap h)) (subs h) (closed h) (buffer h) (next h).
Definition set_subs (ss : gset nat) h : Hub A :=
  MkHub (heap h) ss (closed h) (buffer h) (next h).

(** [close(s.ch)] *)
Definition close_ch (s : nat) h : option (Hub A) :=
  match heap h !! s with
  | Some x => if ch_closed x then None else Some (set_sub s (MkSub (ch x) true (dropped x)) h)
  | None => None
  end.

Definition Subscribe h : option (nat * Hub A) :=
  let s := next h in
  let h := MkHub (<[s := MkSub [] false 0]> (heap h)) (subs h) (closed h) (buffer h) (S s) in
  if closed h then h ← close_ch s h; Some (s, h)
  else Some (s, set_subs ({[s]} ∪ subs h) h).

(** A nil subscriber is ignored. *)
Definition Unsubscribe (s : option nat) h : option (Hub A) :=
  match s with
  | None => Some h
  | Some s =>
      if bool_decide (s ∈ subs h) then close_ch s (set_subs (subs h ∖ {[s]}) h) else Some h
  end.

(** The [select] of [Broadcast] for one subscriber. *)
Definition send (frame : A) (s : nat) h : option (Hub A) :=
  match heap h !! s with
  | Some x =>
      if ch_closed x then None
      else if len (ch x) <? buffer h
      then Some (set_sub s (MkSub (ch x ++ [frame]) false (dropped x)) h)
      else Some (set_sub s (MkSub (ch x) false (wrapu64 (dropped x + 1))) h)
  | None => None
  end.

Definition for_each (f : nat → Hub A → option (Hub A)) (order : list nat) h : option (Hub A) :=
  foldl (λ r s, h ← r; f s h) (Some h) order.

(** [order] is the one the [range] over the set takes. *)
Definition Broadcast (order : list nat) (frame : A) h : option (Hub A) :=
  for_each (send frame) order h.

Definition Len h : Z := Z.of_nat (size (subs h)).

Definition Close (order : list nat) h : option (Hub A) :=
  if closed h then Some h else
  for_each (λ s h, close_ch s (set_subs (subs h ∖ {[s]}) h)) order
    (MkHub (heap h) (subs h) true (buffer h) (next h)).

(** A client's receive: the oldest frame, if there is one. *)
Definition receive (s : nat) h : option A * Hub A :=
  match heap h !! s with
  | Some x =>
      match ch x with
      | frame :: q => (Some frame, set_sub s (MkSub q (ch_closed x) (dropped x)) h)
      | [] => (None, h)
      end
  | None => (None, h)
  end.

(** ** Histories *)

Inductive hub_op :=
| HSubscribe
| HUnsubscribe (s : option nat)
| HSend (frame : A) (s : nat)
| HClose (order : list nat)
| HReceive (s : nat).

(** The send of a broadcast reaches the members of the set, and [Close] ranges over them. *)
Definition op_ok (o : hub_op) h : Prop :=
  match o with
  | HSend _ s => s ∈ subs h
  | HClose order => NoDup order ∧ ∀ s, s ∈ order ↔ s ∈ subs h
  | _ => True
  end.

(** What a step delivers to its client. *)
Definition run_op (o : hub_op) h : option (list (nat * A) * Hub A) :=
  match o with
  | HSubscribe => '(_, h) ← Subscribe h; Some ([], h)
  | HUnsubscribe s => h ← Unsubscribe s h; Some ([], h)
  | HSend frame s => h ← send frame s h; Some ([], h)
  | HClose order => h ← Close order h; Some ([], h)
  | HReceive s =>
      let '(x, h) := receive s h in
      Some (match x with Some frame => [(s, frame)] | None => [] end, h)
  end.

Fixpoint run (ops : list hub_op) h : option (list (nat * A) * Hub A) :=
  match ops with
  | [] => Some ([], h)
  | o :: ops =>
      '(out, h) ← run_op o h;
      '(outs, h) ← run ops h;
      Some (out ++ outs, h)
  end.

(** Histories whose sends and closings follow the set of subscribers. *)
Fixpoint well_run (ops : list hub_op) h : Prop :=
  match ops with
  | [] => True
  | o :: ops =>
      op_ok o h ∧ match run_op o h with Some (_, h) => well_run ops h | None => True end
  end.

(** The frames broadcast to [s], and the ones it received. *)
Definition sent_to (s : nat) (ops : list hub_op) : list A :=
  omap (λ o, match o with HSend frame s' => if Nat.eqb s' s then Some frame else None
                     | _ => None end) ops.
Definition received_by (s : nat) (out : list (nat * A)) : list A :=
  snd <$> filter (λ x, x.1 = s) out.

(** The steps that end a subscription. *)
Definition ends (s : nat) (o : hub_op) : bool :=
  match o with HUnsubscribe (Some s') => Nat.eqb s' s | HClose _ => true | _ => false end.

(** A hub in working order: the channels of the subscribers, and only these, are open, and none
    holds more than its buffer. *)
Record hub_ok h : Prop := {
  hok_open s : s ∈ subs h ↔ ∃ x, heap h !! s = Some x ∧ ch_closed x = false;
  hok_bound s x : heap h !! s = Some x → len (ch x) ≤ buffer h;
  hok_next s : is_Some (heap h !! s) → (s < next h)%nat;
  hok_buffer : 1 ≤ buffer h }.

(** Between operations, a closed hub has no subscriber. *)
Definition settled h : Prop := hub_ok h ∧ (closed h = true → subs h = ∅).

End Operations.
Arguments hub_op : clear implicits.

(** ** Lemmas *)

Section Lemmas.
Context {A : Type}.
Implicit Types h : Hub A.

Lemma hub_ok_update h s x x' :
  hub_ok h → heap h !! s = Some x → ch_closed x' = ch_closed x → len (ch x') ≤ buffer h →
  hub_ok (set_sub s x' h).
Proof.
  intros [] Hs Hc Hl. constructor; simpl; try done.
  - intros s'. rewrite hok_open0. destruct (decide (s = s')) as [<-|Hne].
    + rewrite lookup_insert_eq, Hs. split; intros (y & [= <-] & ?); eexists; (split; [done|]); congruence.
    + by rewrite lookup_insert_ne.
  - intros s' y. destruct (decide (s = s')) as [<-|Hne].
    + rewrite lookup_insert_eq. by intros [= <-].
    + rewrite lookup_insert_ne by done. apply hok_bound0.
  - intros s'. rewrite lookup_insert_is_Some'. intros [<-|H]; [apply hok_next0; by rewrite Hs|auto].
Qed.

Lemma send_ok h frame s :
  hub_ok h → s ∈ subs h → ∃ h', send frame s h = Some h' ∧ hub_ok h' ∧ subs h' = subs h
    ∧ closed h' = closed h.
Proof.
  intros Hok Hs. apply (hok_open _ Hok) in Hs as (x & Hx & Hc). unfold send. rewrite Hx, Hc.
  case_if; eexists; (split; [done|]); (split; [|done]); eapply hub_ok_update; try done; simpl.
  - rewrite len_app. unfold len at 2. simpl. lia.
  - by apply (hok_bound _ Hok s).
Qed.

(** Closing the channel of a subscriber that is taken out of the set. *)
Lemma drop_ok h s :
  hub_ok h → s ∈ subs h →
  ∃ h', close_ch s (set_subs (subs h ∖ {[s]}) h) = Some h' ∧ hub_ok h'
        ∧ subs h' = subs h ∖ {[s]} ∧ closed h' = closed h ∧ buffer h' = buffer h.
Proof.
  intros Hok Hs. pose proof Hs as (x & Hx & Hc)%(hok_open _ Hok). unfold close_ch. simpl.
  rewrite Hx, Hc. eexists. split; [done|]. split; [|done]. destruct Hok. constructor; simpl; try done.
  - intros s'. rewrite elem_of_difference, elem_of_singleton. destruct (decide (s = s')) as [<-|Hne].
    + rewrite lookup_insert_eq. split; [by intros []|by intros (y & [= <-] & ?)].
    + rewrite lookup_insert_ne by done. rewrite hok_open0. naive_solver.
  - intros s' y. destruct (decide (s = s')) as [<-|Hne].
    + rewrite lookup_insert_eq. intros [= <-]. simpl. by apply (hok_bound0 s).
    + rewrite lookup_insert_ne by done. apply hok_bound0.
  - intros s'. rewrite lookup_insert_is_Some'. intros [<-|H]; [apply hok_next0; by rewrite Hx|auto].
Qed.

Lemma close_all_ok order :
  ∀ h, hub_ok h → NoDup order → (∀ s, s ∈ order → s ∈ subs h) →
  ∃ h', for_each (λ s h, close_ch s (set_subs (subs h ∖ {[s]}) h)) order h = Some h' ∧ hub_ok h'
        ∧ (∀ s, s ∈ subs h' ↔ s ∈ subs h ∧ s ∉ order) ∧ closed h' = closed h ∧ buffer h' = buffer h.
Proof.
  unfold for_each. induction order as [|s order IH]; intros h Hok Hnd Hin; simpl.
  { exists h. split; [done|]. split; [done|]. split; [|done]. intros s.
    split; [intros; split; [done|apply not_elem_of_nil]|by intros []]. }
  apply NoDup_cons in Hnd as [Hs Hnd].
  destruct (drop_ok h s Hok (Hin s ltac:(left))) as (h1 & -> & Hok1 & Hsubs & Hcl & Hbu).
  destruct (IH h1 Hok1 Hnd) as (h2 & H2 & Hok2 & Hsubs2 & Hcl2 & Hbu2).
  { intros s' Hs'. rewrite Hsubs. apply elem_of_difference. split; [apply Hin; by right|].
    rewrite elem_of_singleton. by intros ->. }
  exists h2. split; [done|]. split; [done|]. split; [|split; congruence].
  intros s'. rewrite Hsubs2, Hsubs, elem_of_cons, elem_of_difference, elem_of_singleton.
  naive_solver.
Qed.

Lemma hub_ok_new b : hub_ok (A := A) (NewHub b).
Proof.
  constructor; simpl.
  - intros s. rewrite lookup_empty. split; [set_solver|by intros (x & ? & _)].
  - intros s x. by rewrite lookup_empty.
  - intros s [x Hx]. by rewrite lookup_empty in Hx.
  - case_if; lia.
Qed.

Lemma Subscribe_ok h :
  hub_ok h → ∃ h', Subscribe h = Some (next h, h') ∧ hub_ok h' ∧ closed h' = closed h
    ∧ subs h' = (if closed h then subs h else {[next h]} ∪ subs h).
Proof.
  intros Hok. assert (Hfresh : heap h !! next h = None).
  { apply eq_None_not_Some. intros H%(hok_next _ Hok). lia. }
  unfold Subscribe, close_ch; simpl. destruct (closed h) eqn:Ec; simpl;
    rewrite ?lookup_insert_eq; simpl; (eexists; split; [done|]); simpl;
    (split; [|done]); destruct Hok; constructor; simpl.
  - intros s. rewrite insert_insert_eq, hok_open0. destruct (decide (next h = s)) as [<-|Hne].
    + rewrite lookup_insert_eq, Hfresh. split; [by intros (? & ? & _)|by intros (? & [= <-] & ?)].
    + by rewrite lookup_insert_ne.
  - intros s x. rewrite insert_insert_eq. destruct (decide (next h = s)) as [<-|Hne].
    + rewrite lookup_insert_eq. intros [= <-]. unfold len; simpl. lia.
    + rewrite lookup_insert_ne by done. apply hok_bound0.
  - intros s. rewrite insert_insert_eq, lookup_insert_is_Some'. intros [<-|H]; [lia|].
    apply hok_next0 in H. lia.
  - done.
  - intros s. rewrite elem_of_union, elem_of_singleton, hok_open0.
    destruct (decide (next h = s)) as [<-|Hne].
    + rewrite lookup_insert_eq. split; [intros _; by eexists|by left].
    + rewrite lookup_insert_ne by done. naive_solver.
  - intros s x. destruct (decide (next h = s)) as [<-|Hne].
    + rewrite lookup_insert_eq. intros [= <-]. unfold len; simpl. lia.
    + rewrite lookup_insert_ne by done. apply hok_bound0.
  - intros s. rewrite lookup_insert_is_Some'. intros [<-|H]; [lia|]. apply hok_next0 in H. lia.
  - done.
Qed.

(** Nobody else's channel is touched. *)
Lemma Subscribe_other h x h' y :
  Subscribe h = Some (x, h') → y ≠ x → heap h' !! y = heap h !! y.
Proof.
  unfold Subscribe, close_ch. simpl. destruct (closed h); simpl.
  - rewrite lookup_insert_eq. simpl. intros [= <- <-] Hy. simpl. by rewrite !lookup_insert_ne.
  - intros [= <- <-] Hy. simpl. by rewrite lookup_insert_ne.
Qed.

End Lemmas.
