(* ===== verification/HubProps.v ===== *)
(** * internal/metrics/hub.go: correctness

    No history of connections, broadcasts, receives and shutdowns makes the hub panic, and every
    client sees its frames in order, each one missing counted. *)

From S2P Require Import Prelude.
From S2P Require Import Hub.

Open Scope Z_scope.

Section Runs.
Context {A : Type}.
Implicit Types h : Hub A.

(** One step of a hub in working order. *)
Lemma run_op_settled o h :
  settled h → op_ok o h → ∃ out h', run_op o h = Some (out, h') ∧ settled h'.
Proof.
  intros [Hok Hcl] Ho. destruct o as [|[s|]|frame s|order|s]; simpl in *.
  - destruct (Subscribe_ok h Hok) as (h' & -> & Hok' & Hc & Hs). simpl.
    do 2 eexists. split; [done|]. split; [done|]. rewrite Hc, Hs. intros E. rewrite E. auto.
  - case_bool_decide as Hs; simpl.
    + destruct (drop_ok h s Hok Hs) as (h' & -> & Hok' & Hsubs & Hc & _). simpl.
      do 2 eexists. split; [done|]. split; [done|]. rewrite Hc, Hsubs. intros E.
      rewrite Hcl by done. set_solver.
    + by do 2 eexists.
  - by do 2 eexists.
  - destruct (send_ok h frame s Hok Ho) as (h' & -> & Hok' & Hs & Hc). simpl.
    do 2 eexists. split; [done|]. split; [done|]. rewrite Hs, Hc. exact Hcl.
  - unfold Close. destruct (closed h) eqn:E; simpl.
    { do 2 eexists. split; [done|]. split; [done|]. intros _. by apply Hcl. }
    set (h0 := MkHub _ _ _ _ _).
    assert (Hok0 : hub_ok h0) by (destruct Hok; by constructor).
    destruct Ho as [Hnd Hin].
    destruct (close_all_ok order h0 Hok0 Hnd) as (h' & -> & Hok' & Hs & _).
    { intros s Hs. by apply Hin. }
    simpl. do 2 eexists. split; [done|]. split; [done|]. intros _. apply set_eq. intros s.
    rewrite Hs. split; [|set_solver]. intros [H1 H2]. by apply Hin in H1.
  - unfold receive. destruct (heap h !! s) as [x|] eqn:Hx; [|by do 2 eexists].
    destruct (ch x) as [|frame q] eqn:Eq; [by do 2 eexists|].
    do 2 eexists. split; [done|]. split; [|done].
    eapply hub_ok_update; try done. simpl. pose proof (hok_bound _ Hok s x Hx) as Hb.
    rewrite Eq in Hb. unfold len in *. simpl in *. lia.
Qed.

Lemma run_settled ops :
  ∀ h, settled h → well_run ops h → ∃ out h', run ops h = Some (out, h') ∧ settled h'.
Proof.
  induction ops as [|o ops IH]; intros h Hok Hw; simpl; [by do 2 eexists|].
  destruct Hw as [Ho Hw]. destruct (run_op_settled o h Hok Ho) as (out & h1 & E & Hok1).
  rewrite E in *. simpl. destruct (IH h1 Hok1 Hw) as (outs & h2 & -> & Hok2). simpl.
  by do 2 eexists.
Qed.

(** ** What one subscriber sees *)

Lemma received_by_app s (a b : list (nat * A)) :
  received_by s (a ++ b) = received_by s a ++ received_by s b.
Proof. unfold received_by. by rewrite filter_app, fmap_app. Qed.

(** A step that does not concern subscriber [s]. *)
Lemma close_ch_other s s' h h' : close_ch s' h = Some h' → s ≠ s' → heap h' !! s = heap h !! s.
Proof.
  unfold close_ch. intros H Hne. destruct (heap h !! s') as [x|]; [|done].
  destruct (ch_closed x); [done|]. injection H as <-. simpl. by rewrite lookup_insert_ne.
Qed.

(** One step seen by a subscriber that stays connected: what it received and what waits for it
    is what waited before and the frame sent, unless that was dropped and counted. *)
Lemma run_op_seen o h out h' s x :
  hub_ok h → s ∈ subs h → heap h !! s = Some x → ends s o = false →
  run_op o h = Some (out, h') →
  ∃ x' k, heap h' !! s = Some x'
    ∧ received_by s out ++ ch x' = ch x ++ k
    ∧ k `sublist_of` sent_to s [o]
    ∧ wrapu64 (dropped x') = wrapu64 (dropped x + (len (sent_to s [o]) - len k))
    ∧ s ∈ subs h'.
Proof.
  intros Hok Hs Hx He Hrun.
  assert (Hquiet : ∀ h1, heap h1 !! s = heap h !! s → s ∈ subs h1 → sent_to s [o] = [] →
    ∃ x' k, heap h1 !! s = Some x' ∧ ch x' = ch x ++ k ∧ k `sublist_of` sent_to s [o]
      ∧ wrapu64 (dropped x') = wrapu64 (dropped x + (len (sent_to s [o]) - len k)) ∧ s ∈ subs h1).
  { intros h1 Hh Hs1 Hno. exists x, []. rewrite Hh, Hno, app_nil_r. split; [done|].
    split; [done|]. split; [done|]. split; [f_equal; unfold len; simpl; lia|done]. }
  assert (Hlt : (s < next h)%nat) by (apply (hok_next _ Hok); by rewrite Hx).
  destruct o as [|[s'|]|frame s'|order|s']; simpl in He, Hrun.
  - destruct (Subscribe_ok h Hok) as (h1 & E & _ & _ & Hsubs). rewrite E in Hrun. simpl in Hrun.
    injection Hrun as <- <-. apply Hquiet; [|rewrite Hsubs; destruct (closed h); set_solver|done].
    revert E. unfold Subscribe. destruct (closed h); simpl.
    + destruct (close_ch _ _) eqn:E; simpl; [|done]. intros [= <-].
      rewrite (close_ch_other s _ _ _ E) by lia. simpl. by rewrite lookup_insert_ne by lia.
    + intros [= <-]. simpl. by rewrite lookup_insert_ne by lia.
  - apply Nat.eqb_neq in He. case_bool_decide as Hs'; simpl in Hrun.
    + destruct (drop_ok h s' Hok Hs') as (h1 & E & _ & Hsubs & _). rewrite E in Hrun. simpl in Hrun.
      injection Hrun as <- <-. apply Hquiet; [|rewrite Hsubs; set_solver|done].
      rewrite (close_ch_other s _ _ _ E) by done. done.
    + injection Hrun as <- <-. by apply Hquiet.
  - injection Hrun as <- <-. by apply Hquiet.
  - unfold send in Hrun. destruct (decide (s' = s)) as [->|Hne].
    + rewrite Hx in Hrun. apply (hok_open _ Hok) in Hs as Hs2. destruct Hs2 as (x0 & Hx0 & Hc).
      assert (x0 = x) as -> by congruence. rewrite Hc in Hrun.
      unfold sent_to. simpl. rewrite Nat.eqb_refl.
      destruct (len (ch x) <? buffer h); simpl in Hrun; injection Hrun as <- <-; simpl;
        rewrite lookup_insert_eq; [exists (MkSub (ch x ++ [frame]) false (dropped x)), [frame]|
          exists (MkSub (ch x) false (wrapu64 (dropped x + 1))), []]; simpl;
        (split; [done|]).
      * split; [done|]. split; [done|]. split; [f_equal; unfold len; simpl; lia|done].
      * rewrite app_nil_r. split; [done|]. split; [apply sublist_nil_l|]. split; [|done].
        unfold wrapu64, len. simpl. by rewrite Zmod_mod.
    + assert (Hno : sent_to s [HSend frame s'] = []).
      { unfold sent_to. simpl. destruct (Nat.eqb_spec s' s); [done|done]. }
      destruct (heap h !! s') as [y|]; [|done]. destruct (ch_closed y); [done|].
      destruct (len (ch y) <? buffer h); simpl in Hrun; injection Hrun as <- <-; apply Hquiet;
        try done; simpl; by rewrite lookup_insert_ne.
  - done.
  - unfold receive in Hrun. destruct (heap h !! s') as [y|] eqn:Hy;
      [|injection Hrun as <- <-; by apply Hquiet].
    destruct (ch y) as [|frame q] eqn:Eq; injection Hrun as <- <-; [by apply Hquiet|].
    destruct (decide (s' = s)) as [->|Hne].
    + assert (y = x) as -> by congruence. exists (MkSub q (ch_closed x) (dropped x)), [].
      simpl. rewrite lookup_insert_eq, Eq, app_nil_r. split; [done|].
      unfold received_by. rewrite filter_cons, decide_True by done. simpl.
      split; [done|]. split; [done|]. split; [f_equal; unfold len; simpl; lia|done].
    + unfold received_by. rewrite filter_cons, decide_False by done.
      rewrite filter_nil. apply Hquiet; [simpl; by rewrite lookup_insert_ne|done|done].
Qed.

Lemma run_seen ops :
  ∀ h out h' s x,
  settled h → s ∈ subs h → heap h !! s = Some x → well_run ops h →
  Forall (λ o, ends s o = false) ops → run ops h = Some (out, h') →
  ∃ x' k, heap h' !! s = Some x'
    ∧ received_by s out ++ ch x' = ch x ++ k
    ∧ k `sublist_of` sent_to s ops
    ∧ wrapu64 (dropped x') = wrapu64 (dropped x + (len (sent_to s ops) - len k)).
Proof.
  induction ops as [|o ops IH]; intros h out h' s x Hok Hs Hx Hw He Hrun; simpl in Hrun.
  { injection Hrun as <- <-. exists x, []. rewrite app_nil_r. simpl. split; [done|].
    split; [done|]. split; [done|]. f_equal. unfold len; simpl. lia. }
  destruct Hw as [Ho Hw]. apply Forall_cons in He as [He1 He].
  destruct (run_op_settled o h Hok Ho) as (out1 & h1 & E & Hok1). rewrite E in *. simpl in Hrun.
  destruct (run ops h1) as [[outs h2]|] eqn:Er; simpl in Hrun; [|done]. injection Hrun as <- <-.
  destruct (run_op_seen o h out1 h1 s x (proj1 Hok) Hs Hx He1 E)
    as (x1 & k1 & Hx1 & Heq1 & Hk1 & Hd1 & Hs1).
  destruct (IH h1 outs h2 s x1 Hok1 Hs1 Hx1 Hw He Er) as (x2 & k2 & Hx2 & Heq2 & Hk2 & Hd2).
  exists x2, (k1 ++ k2). split; [done|].
  assert (Hsent : sent_to s (o :: ops) = sent_to s [o] ++ sent_to s ops).
  { unfold sent_to. change (o :: ops) with ([o] ++ ops). by rewrite omap_app. }
  rewrite received_by_app, <- app_assoc, Heq2, app_assoc, Heq1, app_assoc, Hsent.
  split; [done|]. split; [by apply sublist_app|].
  rewrite Hd2. unfold wrapu64 in *. rewrite <- Zplus_mod_idemp_l, Hd1, Zplus_mod_idemp_l.
  f_equal. rewrite !len_app. lia.
Qed.

(** ** Properties *)

(** C24.  The hub never panics: whatever the sequence of connections, disconnections (repeated,
    or after the shutdown, or of nil), sends of concurrent broadcasts, receives and shutdowns, no
    channel is closed twice and nothing is sent on a closed one; a channel is closed exactly
    when its client is no longer subscribed, no queue outgrows the buffer, and a closed hub has
    no client. *)
Theorem hub_never_panics (b : Z) (ops : list (hub_op A)) :
  well_run ops (NewHub b) →
  ∃ out h, run ops (NewHub b) = Some (out, h)
    ∧ (∀ s x, heap h !! s = Some x →
         len (ch x) ≤ buffer h ∧ (ch_closed x = false ↔ s ∈ subs h))
    ∧ (closed h = true → Len h = 0).
Proof.
  intros Hw. destruct (run_settled ops (NewHub b)) as (out & h & E & Hok & Hcl); [|done|].
  { by split; [apply hub_ok_new|]. }
  exists out, h. split; [done|]. split.
  - intros s x Hx. split; [by apply (hok_bound _ Hok s)|]. rewrite (hok_open _ Hok).
    split; [by exists x|]. intros (y & Hy & ?). congruence.
  - intros Hc. unfold Len. by rewrite Hcl.
Qed.

(** C25.  Frames arrive in order and none is lost silently: for a client that stays connected,
    what it has received and what still waits for it is, in order, what waited before followed
    by a subsequence of the frames broadcast to it, and [Dropped] has gone up by exactly the
    number of frames missing from that subsequence. *)
Theorem delivery_in_order (ops : list (hub_op A)) (h h' : Hub A) (out : list (nat * A)) (s : nat)
    (x : Subscriber A) :
  settled h → s ∈ subs h → heap h !! s = Some x → well_run ops h →
  Forall (λ o, ends s o = false) ops → run ops h = Some (out, h') →
  ∃ x' kept, heap h' !! s = Some x'
    ∧ received_by s out ++ ch x' = ch x ++ kept
    ∧ kept `sublist_of` sent_to s ops
    ∧ wrapu64 (dropped x') = wrapu64 (dropped x + (len (sent_to s ops) - len kept)).
Proof. apply run_seen. Qed.

End Runs.

(** ** Examples *)

(** [op_ok] and [well_run] as tests. *)
Definition op_check {A} (o : hub_op A) (h : Hub A) : bool :=
  match o with
  | HSend _ s => bool_decide (s ∈ subs h)
  | HClose order => bool_decide (NoDup order) && bool_decide ((list_to_set order : gset nat) = subs h)
  | _ => true
  end.

Fixpoint run_check {A} (ops : list (hub_op A)) (h : Hub A) : bool :=
  match ops with
  | [] => true
  | o :: ops =>
      op_check o h && match run_op o h with Some (_, h) => run_check ops h | None => true end
  end.

Lemma run_check_ok {A} (ops : list (hub_op A)) : ∀ h, run_check ops h = true → well_run ops h.
Proof.
  induction ops as [|o ops IH]; intros h H; simpl in *; [done|].
  apply andb_true_iff in H as [Ho H]. split.
  - destruct o; simpl in *; try done; [by apply bool_decide_eq_true in Ho|].
    apply andb_true_iff in Ho as [H1%bool_decide_eq_true H2%bool_decide_eq_true].
    split; [done|]. intros s. rewrite <- H2. by rewrite elem_of_list_to_set.
  - destruct (run_op o h) as [[out h1]|]; [by apply IH|done].
Qed.

Definition sample_ops : list (hub_op string) :=
  [HSend "f1" 0%nat; HSend "f1" 1%nat; HSend "f2" 0%nat; HReceive 0%nat; HSend "f3" 0%nat;
   HUnsubscribe (Some 1%nat); HUnsubscribe (Some 1%nat); HReceive 0%nat].

Definition sample_history : list (hub_op string) :=
  [HSubscribe; HSubscribe] ++ sample_ops ++ [HClose [0%nat]; HUnsubscribe (Some 0%nat); HSubscribe].

(** Two clients on a hub that keeps one frame for each. *)
Definition sample_hub : Hub string :=
  match run [HSubscribe; HSubscribe] (NewHub 1) with Some (_, h) => h | None => NewHub 1 end.

Lemma hub_never_panics_witness :
  ∃ out h, run sample_history (NewHub 1) = Some (out, h)
    ∧ (closed h = true → Len h = 0) ∧ closed h = true.
Proof.
  destruct (hub_never_panics 1 sample_history) as (out & h & H1 & _ & H3).
  - apply run_check_ok. vm_compute. reflexivity.
  - exists out, h. split; [exact H1|]. split; [exact H3|].
    vm_compute in H1. injection H1 as _ <-. reflexivity.
Defined.

Lemma delivery_in_order_witness :
  ∃ out h x kept, run sample_ops sample_hub = Some (out, h) ∧ heap h !! 0%nat = Some x
    ∧ received_by 0%nat out ++ ch x = kept
    ∧ kept `sublist_of` ["f1"; "f2"; "f3"]
    ∧ received_by 0%nat out = ["f1"; "f3"] ∧ dropped x = 1.
Proof.
  destruct (run sample_ops sample_hub) as [[out h]|] eqn:E; [|vm_compute in E; discriminate E].
  destruct (delivery_in_order sample_ops sample_hub h out 0%nat (MkSub [] false 0))
    as (x & kept & H1 & H2 & H3 & _).
  - destruct (run_settled (A := string) [HSubscribe; HSubscribe] (NewHub 1)) as (o & h1 & E1 & Hok).
    + split; [apply hub_ok_new|reflexivity].
    + apply run_check_ok. vm_compute. reflexivity.
    + unfold sample_hub. rewrite E1. exact Hok.
  - eapply bool_decide_unpack. vm_compute. exact I.
  - vm_compute. reflexivity.
  - apply run_check_ok. vm_compute. reflexivity.
  - repeat constructor.
  - exact E.
  - exists out, h, x, kept. split; [reflexivity|]. split; [exact H1|]. split; [exact H2|].
    split; [exact H3|]. vm_compute in E. injection E as <- <-.
    vm_compute in H1. injection H1 as <-. split; vm_compute; reflexivity.
Defined.
