(* ===== verification/Stores.v ===== *)
(** * internal/limiter/policystore.go and upstreamstore.go: settings shared through Redis

    Both stores keep one value under a key and publish every change on a channel.  [encoding/json]
    enters as a codec: the shared policy survives it, and what else [Unmarshal] accepts or
    rejects is left open.  The network may refuse a command, or execute it and lose its reply. *)

From Stdlib Require Import Ascii.
From S2P Require Import Prelude.
From S2P Require Import GoTime.
From S2P Require Import GoStrings.
From S2P Require Import Policy.

Open Scope Z_scope.

(** ** The server: plain keys, and the messages published so far *)

Record server (B : Type) := MkServer { kv : gmap string B; published : list (string * B) }.
Arguments MkServer {B}. Arguments kv {B}. Arguments published {B}.

(** What happens to one command. *)
Inductive command := Executed | ReplyLost (err : string) | Refused (err : string).

Definition execute {S} (net : command) (f : S → S) (s : S) : option string * S :=
  match net with
  | Executed => (None, f s)
  | ReplyLost err => (Some err, f s)
  | Refused err => (Some err, s)
  end.

Definition set_key {B} (k : string) (v : B) (s : server B) : server B :=
  MkServer (<[k := v]> (kv s)) (published s).
Definition publish {B} (c : string) (v : B) (s : server B) : server B :=
  MkServer (kv s) (published s ++ [(c, v)]).

(** [GET]: an error, or the value if there is one. *)
Definition get {B} (net : option string) (k : string) (s : server B) : option B + string :=
  match net with Some err => inr err | None => inl (kv s !! k) end.

Inductive store_error := EUnavailable (err : string) | ECorrupt (err : string) | EMarshal (err : string).

(** What a watcher meets: its context is cancelled, its channel is closed, or a message. *)
Inductive watch_event (B : Type) := WDone | WClosed | WMsg (payload : B).
Arguments WDone {B}. Arguments WClosed {B}. Arguments WMsg {B} payload.

(** ** The policy store *)

Record policyDoc := MkDoc { Limit_ : Z; WindowMS : Z; UpdateAt : Z }.

(** [encoding/json] on [policyDoc]. *)
Class Codec (B : Type) := {
  Marshal : policyDoc → B + string;
  Unmarshal : B → policyDoc + string }.

(** Encoding succeeds and is undone by decoding, as the package documents for such a struct. *)
Class CodecLaws (B : Type) `{Codec B} : Prop :=
  unmarshal_marshal doc : ∃ b, Marshal doc = inl b ∧ Unmarshal b = inl doc.

Record PolicyStore := MkPolicyStore { p_key : string; p_channel : string }.

Definition NewPolicyStore (prefix : string) : PolicyStore :=
  MkPolicyStore (prefix +:+ "policy") (prefix +:+ "policy:updates").

(** The policy a document stands for: the window's milliseconds are multiplied in 64 bits. *)
Definition doc_policy (doc : policyDoc) : Policy :=
  Normalize (MkPolicy (Limit_ doc) (wrap64 (WindowMS doc * Millisecond))).

Section PolicyOperations.
Context `{Codec B}.

(** [Load]: the policy, whether one was stored, and the error. *)
Definition policy_Load (net : option string) (st : PolicyStore) (s : server B)
    : Policy * bool * option store_error :=
  match get net (p_key st) s with
  | inr err => (MkPolicy 0 0, false, Some (EUnavailable err))
  | inl None => (MkPolicy 0 0, false, None)
  | inl (Some raw) =>
      match Unmarshal raw with
      | inr err => (MkPolicy 0 0, false, Some (ECorrupt err))
      | inl doc => (doc_policy doc, true, None)
      end
  end.

Definition policy_Save (net_set net_publish : command) (p : Policy) (now : Time)
    (st : PolicyStore) (s : server B) : option store_error * server B :=
  let p := Normalize p in
  match Marshal (MkDoc (Limit p) (Milliseconds (Window p)) (UnixMilli now)) with
  | inr err => (Some (EMarshal err), s)
  | inl buf =>
      match execute net_set (set_key (p_key st) buf) s with
      | (Some err, s) => (Some (EUnavailable err), s)
      | (None, s) =>
          let '(err, s) := execute net_publish (publish (p_channel st) buf) s in
          (EUnavailable <$> err, s)
      end
  end.

(** [Watch]: the policies applied, in order. *)
Fixpoint policy_Watch (events : list (watch_event B)) : list Policy :=
  match events with
  | WMsg payload :: events =>
      match Unmarshal payload with
      | inr _ => policy_Watch events
      | inl doc => doc_policy doc :: policy_Watch events
      end
  | _ => []
  end.

End PolicyOperations.

(** ** The upstream store: the payload is the URL itself *)

Record UpstreamStore := MkUpstreamStore { u_key : string; u_channel : string }.

Definition NewUpstreamStore (prefix : string) : UpstreamStore :=
  MkUpstreamStore (prefix +:+ "upstream") (prefix +:+ "upstream:updates").

Definition upstream_Load (net : option string) (st : UpstreamStore) (s : server string)
    : string * bool * option store_error :=
  match get net (u_key st) s with
  | inr err => ("", false, Some (EUnavailable err))
  | inl None => ("", false, None)
  | inl (Some v) =>
      let v := TrimSpace v in
      if String.eqb v "" then ("", false, None) else (v, true, None)
  end.

Definition upstream_Save (net_set net_publish : command) (url : string) (st : UpstreamStore)
    (s : server string) : option store_error * server string :=
  let url := TrimSpace url in
  match execute net_set (set_key (u_key st) url) s with
  | (Some err, s) => (Some (EUnavailable err), s)
  | (None, s) =>
      let '(err, s) := execute net_publish (publish (u_channel st) url) s in
      (EUnavailable <$> err, s)
  end.

Fixpoint upstream_Watch (events : list (watch_event string)) : list string :=
  match events with
  | WMsg payload :: events =>
      let url := TrimSpace payload in
      if String.eqb url "" then upstream_Watch events else url :: upstream_Watch events
  | _ => []
  end.

(** ** Notions for the theorems *)

(** The policy every instance ends up with once [p] has been shared: windows travel in whole
    milliseconds. *)
Definition shared_form (p : Policy) : Policy :=
  MkPolicy (Limit (Normalize p)) (Window (Normalize p) / Millisecond * Millisecond).

(** The messages a watcher of channel [c] gets, in order of publication. *)
Definition delivered {B} (c : string) (s : server B) : list (watch_event B) :=
  (λ m, WMsg m.2) <$> filter (λ m, m.1 = c) (published s).

(** The messages before the watcher stops. *)
Fixpoint watched {B} (events : list (watch_event B)) : list B :=
  match events with WMsg m :: events => m :: watched events | _ => [] end.

(** A codec for the examples: documents travel as they are, and anything else is corrupt. *)
#[export] Instance sample_codec : Codec (option policyDoc) := {|
  Marshal := λ doc, inl (Some doc);
  Unmarshal := λ b, match b with Some doc => inl doc | None => inr "unexpected end of JSON input" end |}.

#[export] Instance sample_codec_laws : CodecLaws (option policyDoc).
Proof. intros doc. by exists (Some doc). Qed.

(** ** Lemmas *)

Lemma doc_policy_shared p now :
  doc_policy (MkDoc (Limit (Normalize p)) (Milliseconds (Window (Normalize p))) now) = shared_form p.
Proof.
  unfold doc_policy, shared_form; simpl.
  pose proof (Normalize_enforceable p) as [HL HW]. unfold_durations.
  assert (Hq : Milliseconds (Window (Normalize p)) = Window (Normalize p) / 1000000).
  { unfold Milliseconds. apply Z.quot_div_nonneg; lia. }
  rewrite Hq. pose proof (Z.div_mod (Window (Normalize p)) 1000000 ltac:(lia)).
  pose proof (Z.mod_pos_bound (Window (Normalize p)) 1000000 ltac:(lia)).
  pose proof (Z.div_le_lower_bound (Window (Normalize p)) 1000000 1 ltac:(lia) ltac:(lia)).
  rewrite wrap64_id by lia. apply Normalize_id. split; simpl; unfold_durations; lia.
Qed.

Lemma shared_form_exact p :
  shared_form p = Normalize p ↔ Window (Normalize p) `mod` Millisecond = 0.
Proof.
  unfold shared_form. destruct (Normalize p) as [l w]; simpl.
  pose proof (Z.div_mod w Millisecond ltac:(done)). split.
  - intros [= E]. lia.
  - intros E. f_equal. lia.
Qed.

Lemma delivered_publish {B} c c' (v : B) s :
  delivered c (publish c' v s) = delivered c s ++ (if decide (c' = c) then [WMsg v] else []).
Proof.
  unfold delivered, publish; simpl. rewrite filter_app, fmap_app, filter_cons, filter_nil.
  simpl. by case_decide.
Qed.

Lemma policy_Watch_spec `{Codec B} (events : list (watch_event B)) :
  policy_Watch events
  = omap (λ m, match Unmarshal m with inl doc => Some (doc_policy doc) | inr _ => None end)
      (watched events).
Proof.
  induction events as [|[| |m] events IH]; simpl; try done.
  destruct (Unmarshal m); simpl; by rewrite IH.
Qed.

Lemma upstream_Watch_spec events :
  upstream_Watch events = filter (λ u, u ≠ "") (TrimSpace <$> watched events).
Proof.
  induction events as [|[| |m] events IH]; simpl; try done. rewrite filter_cons.
  destruct (String.eqb_spec (TrimSpace m) ""); [rewrite decide_False by tauto|
    rewrite decide_True by done]; by rewrite IH.
Qed.

(** What a successful [Save] leaves behind: the stored document decodes to the shared form, and it
    is the last message published. *)
Lemma policy_Save_stored `{CodecLaws B} (p : Policy) (now : Time) (st : PolicyStore) (s s' : server B)
    (net_set net_publish : command) :
  policy_Save net_set net_publish p now st s = (None, s') →
  policy_Load None st s' = (shared_form p, true, None)
  ∧ ∃ m, delivered (p_channel st) s' = delivered (p_channel st) s ++ [WMsg m]
         ∧ policy_Watch [WMsg m] = [shared_form p].
Proof.
  intros Hsave. unfold policy_Save in Hsave.
  destruct (unmarshal_marshal (MkDoc (Limit (Normalize p)) (Milliseconds (Window (Normalize p)))
              (UnixMilli now))) as (b & Hm & Hu).
  rewrite Hm in Hsave. destruct net_set; simpl in Hsave; [|done..].
  destruct net_publish; simpl in Hsave; [|done..]. injection Hsave as <-.
  unfold policy_Load, get. simpl. rewrite lookup_insert_eq, Hu, doc_policy_shared.
  split; [done|]. exists b. rewrite delivered_publish, decide_True by done. split; [done|].
  simpl. by rewrite Hu, doc_policy_shared.
Qed.

Lemma shared_form_enforceable p : enforceable (shared_form p).
Proof. rewrite <- (doc_policy_shared p 0). apply Normalize_enforceable. Qed.

(** ** Properties *)

(** A policy saved from one dashboard is the policy of the whole fleet: once [Save] has
    succeeded, [Load] on any instance returns it, the last message every watcher gets carries
    it, and both are the same policy: the normalized one with its window in whole milliseconds,
    which is what the saving instance itself holds exactly when its window is such. *)
Theorem policy_shared `{CodecLaws B} (p : Policy) (now : Time) (prefix : string) (s s' : server B)
    (net_set net_publish : command) :
  let st := NewPolicyStore prefix in
  policy_Save net_set net_publish p now st s = (None, s') →
  policy_Load None st s' = (shared_form p, true, None)
  ∧ (∃ m, delivered (p_channel st) s' = delivered (p_channel st) s ++ [WMsg m]
          ∧ policy_Watch [WMsg m] = [shared_form p])
  ∧ enforceable (shared_form p)
  ∧ (shared_form p = Normalize p ↔ Window (Normalize p) `mod` Millisecond = 0).
Proof.
  intros st Hsave. destruct (policy_Save_stored p now st s s' _ _ Hsave) as [HL HW].
  split; [exact HL|]. split; [exact HW|].
  split; [apply shared_form_enforceable|apply shared_form_exact].
Qed.

Lemma policy_shared_witness :
  ∃ s' : server (option policyDoc),
    policy_Save Executed Executed (MkPolicy 5 (1500 * 1000)) (Unix0 0) (NewPolicyStore "rl:")
      (MkServer ∅ []) = (None, s')
    ∧ policy_Load None (NewPolicyStore "rl:") s' = (MkPolicy 5 Millisecond, true, None).
Proof.
  eexists. split; [reflexivity|].
  refine (proj1 (policy_shared (MkPolicy 5 (1500 * 1000)) (Unix0 0) "rl:" (MkServer ∅ []) _
    Executed Executed _)).
  reflexivity.
Defined.

(** C36.  Nothing that is stored or published can put an instance on a policy it cannot enforce,
    or stop it from following later changes: whatever the documents are (corrupt, foreign,
    overflowing 64 bits), [Load] reports an error or an enforceable policy, and [Watch] applies
    only enforceable policies, as many as messages decode, skipping the others, until it is
    cancelled. *)
Theorem stored_policies_enforceable `{Codec B} (net : option string) (st : PolicyStore)
    (s : server B) (events : list (watch_event B)) :
  (let '(p, ok, err) := policy_Load net st s in
   (ok = true ↔ ∃ raw doc, net = None ∧ kv s !! p_key st = Some raw ∧ Unmarshal raw = inl doc)
   ∧ (ok = true → enforceable p ∧ err = None))
  ∧ Forall enforceable (policy_Watch events)
  ∧ length (policy_Watch events)
    = countb (λ m, match Unmarshal m with inl _ => true | inr _ => false end) (watched events).
Proof.
  split; [|split].
  - unfold policy_Load, get. destruct net as [err|]; simpl.
    { split; [split; [done|by intros (? & ? & ? & _)]|done]. }
    destruct (kv s !! p_key st) as [raw|] eqn:E; simpl.
    2:{ split; [split; [done|by intros (? & ? & ? & ? & _)]|done]. }
    destruct (Unmarshal raw) as [doc|err] eqn:Eu; simpl.
    + split; [split; [by eauto 10|done]|]. split; [apply Normalize_enforceable|done].
    + split; [split; [done|]|done]. intros (raw' & doc & _ & [= <-] & ?). congruence.
  - rewrite policy_Watch_spec. induction (watched events) as [|m l IH]; simpl; [constructor|].
    destruct (Unmarshal m); [constructor; [apply Normalize_enforceable|]|]; exact IH.
  - rewrite policy_Watch_spec. induction (watched events) as [|m l IH]; simpl; [done|].
    destruct (Unmarshal m); simpl; [f_equal|]; exact IH.
Qed.

(** An upstream saved from one dashboard is the upstream of the whole fleet: once [Save] has
    succeeded, [Load] on any instance returns the trimmed URL and every watcher applies the same
    one; a blank URL is stored but never applied: [Load] then reports that none is stored, and
    watchers keep the target they hold. *)
Theorem upstream_shared (url prefix : string) (s s' : server string)
    (net_set net_publish : command) :
  let st := NewUpstreamStore prefix in
  upstream_Save net_set net_publish url st s = (None, s') →
  upstream_Load None st s'
    = (TrimSpace url, negb (String.eqb (TrimSpace url) ""), None)
  ∧ ∃ m, delivered (u_channel st) s' = delivered (u_channel st) s ++ [WMsg m]
         ∧ upstream_Watch [WMsg m] = (if String.eqb (TrimSpace url) "" then [] else [TrimSpace url]).
Proof.
  intros st Hsave. unfold upstream_Save in Hsave. destruct net_set; simpl in Hsave; [|done..].
  destruct net_publish; simpl in Hsave; [|done..]. injection Hsave as <-.
  unfold upstream_Load, get. simpl. rewrite lookup_insert_eq, TrimSpace_idemp. split.
  - by destruct (String.eqb_spec (TrimSpace url) "") as [->|].
  - exists (TrimSpace url). rewrite delivered_publish, decide_True by done. split; [done|].
    rewrite TrimSpace_idemp. by case_if.
Qed.

Lemma upstream_shared_witness :
  ∃ s', upstream_Save Executed Executed " http://a:1 " (NewUpstreamStore "rl:") (MkServer ∅ [])
        = (None, s')
    ∧ upstream_Load None (NewUpstreamStore "rl:") s' = ("http://a:1", true, None).
Proof.
  eexists. split; [reflexivity|].
  refine (proj1 (upstream_shared " http://a:1 " "rl:" (MkServer ∅ []) _ Executed Executed _)).
  reflexivity.
Defined.
