(* ===== verification/Lifecycle.v ===== *)
(** * Close: stopping the background goroutines

    [MemoryLimiter] (memory.go) runs a janitor and [Manager] (manager.go) a prober; both stop
    them in the same way: [stopOnce.Do] closes the channel [stop], and [wg.Wait] waits for the
    goroutine to return.  The model is that protocol for one such goroutine and any number of
    concurrent [Close] calls. *)

From S2P Require Import Prelude.

(** ** State *)

(** [sync.Once]: nobody has entered [Do] yet, a caller is inside, or [Do] has returned. *)
Inductive once := OnceNew | OnceRunning | OnceDone.

(** The goroutine: at its [select], in the body of a tick, or returned. *)
Inductive worker := WSelect | WBusy | WReturned.

(** A call of [Close]: before [Do], inside it, before [Wait], returned, panicked. *)
Inductive closer := CDo | CInside | CWait | CReturned | CPanic.

#[export] Instance closer_eq_dec : EqDecision closer.
Proof. solve_decision. Defined.

Record life := MkLife {
  stop_closed : bool;
  stopOnce : once;
  running : option worker;
  closers : list closer;
  ticks : nat }.

(** [janitor] is started only for a positive interval, [probeLoop] only with Redis; [n] calls of
    [Close] are about to be made. *)
Definition started (background : bool) (n : nat) : life :=
  MkLife false OnceNew (if background then Some WSelect else None) (replicate n CDo) 0.

(** [wg.Wait] lets its caller go on. *)
Definition idle (s : life) : bool :=
  match running s with Some WReturned | None => true | _ => false end.

(** ** Steps *)

(** The goroutine; when the ticker and [stop] are both ready, [select] takes either. *)
Inductive worker_step : life → life → Prop :=
| worker_tick b o cs n :
    worker_step (MkLife b o (Some WSelect) cs n) (MkLife b o (Some WBusy) cs n)
| worker_done b o cs n :
    worker_step (MkLife b o (Some WBusy) cs n) (MkLife b o (Some WSelect) cs (S n))
| worker_stop o cs n :
    worker_step (MkLife true o (Some WSelect) cs n) (MkLife true o (Some WReturned) cs n).

(** One action of a [Close]; [None] while it is blocked or once it has returned. *)
Definition close_step (c : closer) (s : life) : option (closer * bool * once) :=
  match c with
  | CDo =>
      match stopOnce s with
      | OnceNew => Some (CInside, stop_closed s, OnceRunning)
      | OnceRunning => None
      | OnceDone => Some (CWait, stop_closed s, OnceDone)
      end
  | CInside =>
      (* closing a closed channel panics *)
      if stop_closed s then Some (CPanic, true, stopOnce s) else Some (CWait, true, OnceDone)
  | CWait => if idle s then Some (CReturned, stop_closed s, stopOnce s) else None
  | CReturned | CPanic => None
  end.

Inductive life_step : life → life → Prop :=
| step_worker s s' : worker_step s s' → life_step s s'
| step_close i c c' b o s :
    closers s !! i = Some c → close_step c s = Some (c', b, o) →
    life_step s (MkLife b o (running s) (<[i := c']> (closers s)) (ticks s)).

Definition life_system (background : bool) (n : nat) : system := {|
  st := life;
  init := λ s, s = started background n;
  step := life_step |}.

(** ** Notions for the theorems *)

(** A step on the way to the end: one of a [Close], or the goroutine's return.  Ticks are not:
    the goroutine can go on with them for as long as nobody closes [stop]. *)
Inductive progress : life → life → Prop :=
| progress_stop o cs n :
    progress (MkLife true o (Some WSelect) cs n) (MkLife true o (Some WReturned) cs n)
| progress_close i c c' b o s :
    closers s !! i = Some c → close_step c s = Some (c', b, o) →
    progress s (MkLife b o (running s) (<[i := c']> (closers s)) (ticks s)).

(** The body of a tick that has begun comes to its end. *)
Definition settle (s : life) : life :=
  match running s with
  | Some WBusy => MkLife (stop_closed s) (stopOnce s) (Some WSelect) (closers s) (S (ticks s))
  | _ => s
  end.

(** A step on the way is possible, at once or when the tick that has begun is over. *)
Definition can_progress (s : life) : Prop := ∃ s1 s2, (s1 = s ∨ s1 = settle s) ∧ progress s1 s2.

Definition all_closed (s : life) : Prop :=
  Forall (λ c, c = CReturned) (closers s) ∧ idle s = true.

(** Infinite executions, in which nobody need move at every instant. *)
Definition execution (background : bool) (n : nat) (f : nat → life) : Prop :=
  f 0%nat = started background n ∧ ∀ k, f (S k) = f k ∨ life_step (f k) (f (S k)).

(** As long as a step on the way stays possible, one is taken some time: the scheduler forgets
    nobody, and a [select] with both cases ready does not take the ticker for ever. *)
Definition fair (f : nat → life) : Prop :=
  ∀ k, ∃ j, (k ≤ j)%nat ∧ (progress (f j) (f (S j)) ∨ ¬ can_progress (f j)).

(** How many steps on the way are left. *)
Definition closer_work (c : closer) : nat :=
  match c with CDo => 3 | CInside => 2 | CWait => 1 | CReturned | CPanic => 0 end.
Definition life_work (s : life) : nat :=
  sum_list (closer_work <$> closers s)
  + match running s with Some WReturned | None => 0 | Some _ => 1 end.

(** ** The errors [Close] returns *)

(** [RedisLimiter.Close]: the client is closed only when the limiter owns it. *)
Definition redis_Close (owned : bool) (client_close : option string) : option string :=
  if owned then client_close else None.

(** [Manager.Close] after the wait; [MemoryLimiter.Close] returns nil. *)
Definition manager_Close (primary : option (option string)) (fallback : option string)
    : option string :=
  let err := match primary with Some err => err | None => None end in
  match err with None => fallback | Some _ => err end.

(** ** Invariant *)

(** Exactly one [Close] is inside [Do] while it runs, [stop] is closed exactly once it has
    returned, nobody waits before, and whoever returned found the goroutine gone. *)
Record life_ok (s : life) : Prop := {
  lok_once :
    match stopOnce s with
    | OnceNew => stop_closed s = false ∧ Forall (λ c, c = CDo) (closers s)
    | OnceRunning =>
        stop_closed s = false ∧ countb (λ c, match c with CInside => true | _ => false end) (closers s) = 1%nat
        ∧ Forall (λ c, c = CDo ∨ c = CInside) (closers s)
    | OnceDone => stop_closed s = true ∧ Forall (λ c, c ≠ CInside ∧ c ≠ CPanic) (closers s)
    end;
  lok_returned : Exists (λ c, c = CReturned) (closers s) → idle s = true }.

(** ** Lemmas *)

Lemma Forall_not_returned l : Forall (λ c, c = CDo ∨ c = CInside) l → ¬ Exists (λ c, c = CReturned) l.
Proof.
  intros H E. induction E as [x l ->|x l _ IH]; apply Forall_cons in H as [Hx H]; [|auto].
  by destruct Hx.
Qed.

Lemma worker_step_ok s s' : life_ok s → worker_step s s' → life_ok s'.
Proof.
  intros [Ho Hr] Hstep. destruct Hstep; constructor; simpl in *; try done;
    intros E; by specialize (Hr E).
Qed.

Lemma Exists_insert_returned (l : list closer) i c c' :
  l !! i = Some c → c' ≠ CReturned →
  Exists (λ c, c = CReturned) (<[i := c']> l) → Exists (λ c, c = CReturned) l.
Proof.
  intros Hi Hc. rewrite !Exists_exists. intros (x & Hx & ->).
  apply list_elem_of_lookup_1 in Hx as [j Hj]. destruct (decide (i = j)) as [<-|Hne].
  - rewrite list_lookup_insert_eq in Hj by (by eapply lookup_lt_Some). congruence.
  - rewrite list_lookup_insert_ne in Hj by done. exists CReturned.
    split; [by eapply list_elem_of_lookup_2|done].
Qed.

Lemma close_step_ok s i c c' b o :
  life_ok s → closers s !! i = Some c → close_step c s = Some (c', b, o) →
  life_ok (MkLife b o (running s) (<[i := c']> (closers s)) (ticks s)) ∧ c' ≠ CPanic.
Proof.
  intros [Ho Hr] Hi Hstep.
  pose proof (countb_insert (λ c, match c with CInside => true | _ => false end) _ _ _ c' Hi) as Hcnt.
  assert (Hret : c' ≠ CReturned → life_ok (MkLife b o (running s) (<[i := c']> (closers s)) (ticks s))
                 ↔ match o with
                   | OnceNew => b = false ∧ Forall (λ c, c = CDo) (<[i := c']> (closers s))
                   | OnceRunning => b = false
                     ∧ countb (λ c, match c with CInside => true | _ => false end)
                         (<[i := c']> (closers s)) = 1%nat
                     ∧ Forall (λ c, c = CDo ∨ c = CInside) (<[i := c']> (closers s))
                   | OnceDone => b = true
                     ∧ Forall (λ c, c ≠ CInside ∧ c ≠ CPanic) (<[i := c']> (closers s))
                   end).
  { intros Hc. split; [by intros [? _]|]. intros H. constructor; [exact H|]. simpl. intros E.
    apply Hr. by eapply Exists_insert_returned. }
  destruct c; simpl in Hstep; try done.
  - destruct (stopOnce s) eqn:Eo; [|done|]; injection Hstep as <- <- <-.
    + destruct Ho as [Hb Hall]. split; [|done]. apply Hret; [done|]. split; [done|].
      assert (H0 : countb (λ c, match c with CInside => true | _ => false end) (closers s) = 0%nat).
      { clear -Hall. induction Hall as [|x l -> _ IH]; [done|exact IH]. }
      split; [lia|]. apply Forall_insert; [|by right].
      eapply Forall_impl; [exact Hall|]. by left.
    + destruct Ho as [Hb Hall]. split; [|done]. apply Hret; [done|]. split; [done|].
      by apply Forall_insert.
  - destruct (stopOnce s) eqn:Eo.
    + destruct Ho as [_ Hall]. pose proof (Forall_lookup_1 _ _ _ _ Hall Hi). done.
    + destruct Ho as (Hb & Hone & Hall). rewrite Hb in Hstep. injection Hstep as <- <- <-.
      split; [|done]. apply Hret; [done|]. split; [done|].
      assert (H0 : countb (λ c, match c with CInside => true | _ => false end)
                     (<[i := CWait]> (closers s)) = 0%nat) by lia.
      assert (Hall' : Forall (λ c, c = CDo ∨ c = CInside ∨ c = CWait) (<[i := CWait]> (closers s))).
      { apply Forall_insert; [|by auto]. eapply Forall_impl; [exact Hall|]. naive_solver. }
      clear -H0 Hall'. induction Hall' as [|x l Hx _ IH]; [constructor|]. simpl in H0.
      destruct Hx as [->|[->| ->]]; [|done|]; (constructor; [done|by apply IH]).
    + destruct Ho as [_ Hall]. pose proof (Forall_lookup_1 _ _ _ _ Hall Hi) as [? _]. done.
  - destruct (idle s) eqn:Ei; [|done]. injection Hstep as <- <- <-. split; [|done].
    destruct (stopOnce s) eqn:Eo.
    + destruct Ho as [_ Hall]. pose proof (Forall_lookup_1 _ _ _ _ Hall Hi). done.
    + destruct Ho as (_ & _ & Hall). by pose proof (Forall_lookup_1 _ _ _ _ Hall Hi) as [|].
    + destruct Ho as [Hb Hall]. constructor; [simpl; split; [done|by apply Forall_insert]|].
      simpl. intros _. exact Ei.
Qed.

Lemma life_invariant background n : invariant (life_system background n) life_ok.
Proof.
  apply system_invariant.
  - intros s ->. constructor; simpl.
    + split; [done|]. by apply Forall_replicate.
    + intros E. exfalso. clear -E. induction n; simpl in E; inversion E; by auto.
  - intros s s' Hok Hstep. destruct Hstep as [s s' Hw|i c c' b o s Hi Hc].
    + by eapply worker_step_ok.
    + by apply (close_step_ok s i c c' b o Hok Hi).
Qed.

Lemma inside_exists (l : list closer) :
  countb (λ c, match c with CInside => true | _ => false end) l = 1%nat → ∃ j, l !! j = Some CInside.
Proof.
  induction l as [|x l IH]; simpl; [done|].
  destruct x; try (intros H; destruct (IH H) as [j ?]; by exists (S j)). by exists 0%nat.
Qed.

(** A call that has not returned can move, or the one inside [Do] can, unless all of them wait. *)
Lemma closer_progress s i c :
  life_ok s → closers s !! i = Some c → c ≠ CReturned →
  (∃ s', progress s s') ∨ (stop_closed s = true ∧ idle s = false).
Proof.
  intros [Ho _] Hi Hc. destruct (stopOnce s) eqn:Eo.
  - destruct Ho as [Hb Hall]. pose proof (Forall_lookup_1 _ _ _ _ Hall Hi) as ->. left.
    eexists. eapply progress_close; [exact Hi|]. simpl. by rewrite Eo.
  - destruct Ho as (Hb & Hone & _). destruct (inside_exists _ Hone) as [j Hj]. left.
    eexists. eapply progress_close; [exact Hj|]. simpl. by rewrite Hb.
  - destruct Ho as [Hb Hall]. pose proof (Forall_lookup_1 _ _ _ _ Hall Hi) as [H1 H2].
    destruct c; try done.
    + left. eexists. eapply progress_close; [exact Hi|]. simpl. by rewrite Eo.
    + destruct (idle s) eqn:Hidle; [left|by right].
      eexists. eapply progress_close; [exact Hi|]. simpl. by rewrite Hidle.
Qed.

(** There is no deadlock: until the calls have returned and the goroutine is gone, a step on the
    way is possible. *)
Lemma life_progress n s :
  (0 < n)%nat → life_ok s → length (closers s) = n → all_closed s ∨ can_progress s.
Proof.
  intros Hn Hok Hlen. destruct (decide (Forall (λ c, c = CReturned) (closers s))) as [Hall|Hno].
  - left. split; [done|]. apply (lok_returned _ Hok).
    destruct (closers s) as [|c cs]; simpl in Hlen; [lia|]. apply Forall_cons in Hall as [-> _].
    by apply Exists_cons_hd.
  - right. apply not_Forall_Exists, Exists_exists in Hno as (c & Hc & Hne); [|apply _].
    apply list_elem_of_lookup_1 in Hc as [i Hi].
    destruct (closer_progress s i c Hok Hi Hne) as [[s' Hs']|[Hst Hid]]; [exists s, s'; auto|].
    exists (settle s), (MkLife true (stopOnce s) (Some WReturned) (closers s) (ticks (settle s))).
    split; [by right|].
    destruct s as [b o [[| |]|] cs k]; simpl in *; try done; subst b; apply progress_stop.
Qed.

Lemma sum_insert (l : list closer) i c c' :
  l !! i = Some c → (closer_work c' < closer_work c)%nat →
  (sum_list (closer_work <$> <[i := c']> l) < sum_list (closer_work <$> l))%nat.
Proof.
  revert i. induction l as [|x l IH]; intros [|i] Hi Hlt; simpl in *; try done.
  - injection Hi as ->. lia.
  - apply Nat.add_lt_mono_l. by apply IH.
Qed.

(** A step on the way leaves fewer of them, the others as many. *)
Lemma progress_work s s' : progress s s' → (life_work s' < life_work s)%nat.
Proof.
  intros [o cs n|i c c' b o s0 Hi Hc]; unfold life_work; simpl; [lia|].
  assert (Hlt : (closer_work c' < closer_work c)%nat).
  { destruct c; simpl in Hc; try done; repeat case_match; simplify_eq; simpl; lia. }
  pose proof (sum_insert _ i c c' Hi Hlt). lia.
Qed.

Lemma step_work s s' : life_step s s' → (life_work s' ≤ life_work s)%nat.
Proof.
  intros [s1 s2 Hw|i c c' b o s1 Hi Hc].
  - destruct Hw; unfold life_work; simpl; lia.
  - apply Nat.lt_le_incl, progress_work. by eapply progress_close.
Qed.

Lemma step_closers s s' : life_step s s' → length (closers s') = length (closers s).
Proof. intros [s1 s2 Hw|i c c' b o s1 Hi Hc]; [by destruct Hw|]. simpl. by rewrite length_insert. Qed.

(** Nothing moves once all is closed. *)
Lemma all_closed_final s s' : all_closed s → life_step s s' → False.
Proof.
  intros [Hall Hid] Hstep. revert Hall Hid.
  destruct Hstep as [s1 s2 Hw|i c c' b o s1 Hi Hc]; intros Hall Hid.
  - by destruct Hw.
  - by pose proof (Forall_lookup_1 _ _ _ _ Hall Hi) as ->.
Qed.

Section Executions.
Context (background : bool) (n : nat) (f : nat → life) (Hf : execution background n f).

Lemma execution_reachable k : reachable (life_system background n) (f k).
Proof.
  destruct Hf as [H0 Hs]. exists (f 0%nat). split; [exact H0|]. induction k as [|k IH]; [apply rtc_refl|].
  destruct (Hs k) as [->|Hstep]; [done|]. by eapply rtc_r.
Qed.

Lemma execution_closers k : length (closers (f k)) = n.
Proof.
  destruct Hf as [H0 Hs]. induction k as [|k IH]; [rewrite H0; apply length_replicate|].
  destruct (Hs k) as [->|Hstep]; [done|]. by rewrite (step_closers _ _ Hstep).
Qed.

Lemma execution_work k j : (k ≤ j)%nat → (life_work (f j) ≤ life_work (f k))%nat.
Proof.
  intros Hle. induction Hle as [|j _ IH]; [done|]. destruct (proj2 Hf j) as [->|Hstep]; [done|].
  pose proof (step_work _ _ Hstep). lia.
Qed.

(** A fair execution comes to its end: every step on the way uses up some of the work. *)
Lemma execution_ends : (0 < n)%nat → fair f → ∃ k, all_closed (f k).
Proof.
  intros Hn Hfair. assert (H : ∀ m k, (life_work (f k) ≤ m)%nat → ∃ j, all_closed (f j)).
  2: by apply (H (life_work (f 0%nat)) 0%nat).
  induction m as [|m IH]; intros k Hm; destruct (Hfair k) as (j & Hj & Hp);
    pose proof (execution_work k j Hj) as Hw;
    (destruct Hp as [Hp%progress_work|Hno];
     [|exists j; destruct (life_progress n (f j) Hn
         (life_invariant background n (f j) (execution_reachable j)) (execution_closers j)); done]).
  - lia.
  - apply (IH (S j)). lia.
Qed.

Lemma all_closed_stays k j : all_closed (f k) → (k ≤ j)%nat → f j = f k.
Proof.
  intros Hk Hle. induction Hle as [|j _ IH]; [done|]. destruct (proj2 Hf j) as [->|Hstep]; [done|].
  rewrite IH in Hstep. by apply all_closed_final in Hstep.
Qed.

End Executions.

(** ** Properties *)

(** C37.  [Close] is safe to call more than once, also concurrently: however many calls
    interleave with one another and with the background goroutine, none panics (the channel is
    closed once); a call that has returned leaves the goroutine gone, so that no tick runs after
    it; there is no deadlock, because until every call has returned and the goroutine is gone a
    step towards that is possible, ticks not counted, at once or when the tick that has begun is
    over; and under a scheduler that takes such steps some time every call does return, the
    goroutine is gone, and nothing happens any more. *)
Theorem close_safe (background : bool) (n : nat) (f : nat → life) :
  execution background n f → (0 < n)%nat →
  (∀ k, Forall (λ c, c ≠ CPanic) (closers (f k))
        ∧ (Exists (λ c, c = CReturned) (closers (f k)) →
           ∀ j, (k ≤ j)%nat → ticks (f j) = ticks (f k))
        ∧ (all_closed (f k) ∨ can_progress (f k)))
  ∧ (fair f → ∃ k, all_closed (f k) ∧ ∀ j, (k ≤ j)%nat → f j = f k).
Proof.
  intros Hf Hn. split.
  - intros k. pose proof (execution_reachable background n f Hf k) as Hreach.
    pose proof (life_invariant background n (f k) Hreach) as Hok. split; [|split].
    + destruct Hok as [Ho _]. destruct (stopOnce (f k)).
      * eapply Forall_impl; [apply Ho|]. by intros ? ->.
      * eapply Forall_impl; [apply (proj2 (proj2 Ho))|]. intros ? [-> | ->]; done.
      * eapply Forall_impl; [apply Ho|]. by intros ? [_ ?].
    + intros E j Hle. apply (lok_returned _ Hok) in E.
      assert (H : idle (f j) = true ∧ ticks (f j) = ticks (f k)); [|by destruct H].
      induction Hle as [|j _ [IHi IHt]]; [done|]. destruct (proj2 Hf j) as [->|Hstep]; [done|].
      rewrite <- IHt. by destruct Hstep as [s1 s2 Hw|]; [destruct Hw|].
    + eapply life_progress; [done..|]. by eapply execution_closers.
  - intros Hfair. destruct (execution_ends background n f Hf Hn Hfair) as [k Hk].
    exists k. split; [done|]. intros j. by apply (all_closed_stays background n f Hf).
Qed.

(** Two concurrent calls against a goroutine that has just begun a tick. *)
Definition shutdown_states : list life := [
  started true 2;
  MkLife false OnceNew (Some WBusy) [CDo; CDo] 0;
  MkLife false OnceRunning (Some WBusy) [CInside; CDo] 0;
  MkLife true OnceDone (Some WBusy) [CWait; CDo] 0;
  MkLife true OnceDone (Some WSelect) [CWait; CDo] 1;
  MkLife true OnceDone (Some WReturned) [CWait; CDo] 1;
  MkLife true OnceDone (Some WReturned) [CReturned; CDo] 1;
  MkLife true OnceDone (Some WReturned) [CReturned; CWait] 1 ].

Definition shutdown_end : life := MkLife true OnceDone (Some WReturned) [CReturned; CReturned] 1.

Definition sample_shutdown (k : nat) : life := default shutdown_end (shutdown_states !! k).

Lemma sample_shutdown_run : execution true 2 sample_shutdown.
Proof.
  split; [reflexivity|]. intros k. destruct k as [|[|[|[|[|[|[|[|k]]]]]]]]; [right..|by left];
    unfold sample_shutdown; cbn.
  - apply step_worker, worker_tick.
  - by apply (step_close 0%nat CDo CInside _ _ (MkLife false OnceNew (Some WBusy) [CDo; CDo] 0)).
  - by apply (step_close 0%nat CInside CWait _ _ (MkLife false OnceRunning (Some WBusy) [CInside; CDo] 0)).
  - apply step_worker, worker_done.
  - apply step_worker, worker_stop.
  - by apply (step_close 0%nat CWait CReturned _ _ (MkLife true OnceDone (Some WReturned) [CWait; CDo] 1)).
  - by apply (step_close 1%nat CDo CWait _ _ (MkLife true OnceDone (Some WReturned) [CReturned; CDo] 1)).
  - by apply (step_close 1%nat CWait CReturned _ _ (MkLife true OnceDone (Some WReturned) [CReturned; CWait] 1)).
Qed.

Lemma shutdown_end_stuck : ¬ can_progress shutdown_end.
Proof.
  intros (s1 & s2 & Hs & Hp). assert (s1 = shutdown_end) as -> by (by destruct Hs).
  apply progress_work in Hp. unfold life_work in Hp. simpl in Hp. lia.
Qed.

Lemma sample_shutdown_fair : fair sample_shutdown.
Proof.
  intros k. exists (k + 8)%nat. split; [lia|]. right.
  assert (E : sample_shutdown (k + 8) = shutdown_end).
  { unfold sample_shutdown. by rewrite lookup_ge_None_2 by (simpl; lia). }
  rewrite E. apply shutdown_end_stuck.
Qed.

Lemma close_safe_witness :
  (∀ j, (6 ≤ j)%nat → ticks (sample_shutdown j) = 1%nat)
  ∧ can_progress (sample_shutdown 3)
  ∧ ∃ k, all_closed (sample_shutdown k).
Proof.
  destruct (close_safe true 2 sample_shutdown sample_shutdown_run ltac:(lia)) as [H1 H2].
  split; [|split].
  - destruct (H1 6%nat) as (_ & Hr & _). apply Hr. apply Exists_cons_hd. reflexivity.
  - destruct (H1 3%nat) as (_ & _ & [[Hall _]|Hp]); [|exact Hp].
    apply Forall_cons in Hall as [Hall _]. discriminate Hall.
  - destruct (H2 sample_shutdown_fair) as (k & Hk & _). exists k. exact Hk.
Defined.
