(* ===== verification/GoFloat.v ===== *)
(** * Go's float64, and strconv.ParseFloat

    [float64] is the IEEE 754 binary64 format of the Standard Library's executable
    specification, which rounds to nearest even as Go does.  A [float64] that does not fit the
    integer type it is converted to gives a value Go leaves to the platform: the conversions
    take it as a parameter. *)

From Stdlib Require Import Ascii SpecFloat.
From S2P Require Import Prelude.
From S2P Require Import GoTime.
From S2P Require Import GoStrings.
From S2P Require Import GoText.

Open Scope Z_scope.

Abbreviation float64 := spec_float.

(** ** Arithmetic *)

Definition fmul : float64 → float64 → float64 := SFmul 53 1024.
Definition fdiv : float64 → float64 → float64 := SFdiv 53 1024.
Definition fadd : float64 → float64 → float64 := SFadd 53 1024.

(** [float64(n)] for an integer [n]. *)
Definition float (n : Z) : float64 := binary_normalize 53 1024 n 0 false.

(** The integer part of a finite number. *)
Definition truncate (f : float64) : option Z :=
  match f with
  | S754_zero _ => Some 0
  | S754_finite s m e =>
      let v := if 0 <=? e then Zpos m * 2 ^ e else Zpos m / 2 ^ (- e) in
      Some (if s then - v else v)
  | _ => None
  end.

(** [int64(f)] and [uint64(f)]; [other] is what the platform makes of the values that do not
    fit. *)
Definition to_int64 (other : float64 → Z) (f : float64) : Z :=
  match truncate f with
  | Some z => if in64 z then z else other f
  | None => other f
  end.

Definition to_uint64 (other : float64 → Z) (f : float64) : Z :=
  match truncate f with
  | Some z => if (0 <=? z) && (z <? 18446744073709551616) then z else other f
  | None => other f
  end.

(** [d.Seconds()] *)
Definition Seconds (d : Duration) : float64 :=
  fadd (float (Z.quot d Second)) (fdiv (float (Z.rem d Second)) (float 1000000000)).

(** ** [strconv.ParseFloat(s, 64)] *)

(** The mantissa: all digits as one integer, how many of them follow the point. *)
Record mantissa := MkMant {
  m_value : Z; m_frac : Z; m_dot : bool; m_digits : bool; m_under : bool }.

Definition float_digit (hex : bool) (c : ascii) : option Z :=
  if hex then hex_digit c else if is_digit c then Some (code c - 48) else None.

Fixpoint read_mantissa (hex : bool) (l : list ascii) (m : mantissa) : mantissa * list ascii :=
  match l with
  | [] => (m, [])
  | c :: r =>
      if Ascii.eqb c "_" then
        read_mantissa hex r (MkMant (m_value m) (m_frac m) (m_dot m) (m_digits m) true)
      else if Ascii.eqb c "." then
        if m_dot m then (m, l)
        else read_mantissa hex r (MkMant (m_value m) (m_frac m) true (m_digits m) (m_under m))
      else
        match float_digit hex c with
        | Some d =>
            let b := if hex then 16 else 10 in
            read_mantissa hex r
              (MkMant (m_value m * b + d) (if m_dot m then m_frac m + 1 else m_frac m) (m_dot m)
                 true (m_under m))
        | None => (m, l)
        end
  end.

(** The digits of an exponent, which stop being counted at 10000. *)
Fixpoint read_exponent (l : list ascii) (e : Z) (under : bool) : Z * bool * list ascii :=
  match l with
  | [] => (e, under, [])
  | c :: r =>
      if Ascii.eqb c "_" then read_exponent r e true
      else if is_digit c then
        read_exponent r (if e <? 10000 then e * 10 + (code c - 48) else e) under
      else (e, under, l)
  end.

(** An underscore must stand between digits, or between a base prefix and a digit.  [last] is
    the kind of the preceding character: a digit, an underscore, or anything else. *)
Inductive seen := SawNothing | SawDigit | SawUnderscore | SawOther.

Fixpoint underscores (hex : bool) (l : list ascii) (last : seen) : bool :=
  match l with
  | [] => match last with SawUnderscore => false | _ => true end
  | c :: l =>
      if is_digit c || (hex && is_some (hex_digit c)) then underscores hex l SawDigit
      else if Ascii.eqb c "_" then
        match last with SawDigit => underscores hex l SawUnderscore | _ => false end
      else
        match last with SawUnderscore => false | _ => underscores hex l SawOther end
  end.

Definition underscoreOK (l : list ascii) : bool :=
  let l := match l with c :: r => if Ascii.eqb c "-" || Ascii.eqb c "+" then r else l | [] => [] end in
  match l with
  | z :: c :: r =>
      if Ascii.eqb z "0" && (Ascii.eqb (lower c) "b" || Ascii.eqb (lower c) "o" || Ascii.eqb (lower c) "x")
      then underscores (Ascii.eqb (lower c) "x") r SawDigit
      else underscores false l SawNothing
  | _ => underscores false l SawNothing
  end.

(** [(-1)^neg * m * b^e], correctly rounded. *)
Definition scaled (neg : bool) (m b e : Z) : float64 :=
  match m with
  | Zpos p =>
      if 0 <=? e then binary_normalize 53 1024 ((if neg then -1 else 1) * m * b ^ e) 0 neg
      else fdiv (S754_finite neg p 0) (S754_finite false (Z.to_pos (b ^ (- e))) 0)
  | _ => S754_zero neg
  end.

(** An optional sign. *)
Definition read_sign (l : list ascii) : bool * list ascii :=
  match l with
  | c :: r =>
      if Ascii.eqb c "+" then (false, r) else if Ascii.eqb c "-" then (true, r) else (false, l)
  | [] => (false, [])
  end.

Definition is_hex (l : list ascii) : bool :=
  match l with z :: x :: _ :: _ => Ascii.eqb z "0" && Ascii.eqb (lower x) "x" | _ => false end.

Inductive num_error := ErrSyntax | ErrRange.

(** A finite literal, of which everything must be read. *)
Definition read_float (s : list ascii) : float64 + num_error :=
  let '(neg, l) := read_sign s in
  let hex := is_hex l in
  let l := if hex then drop 2 l else l in
  let '(m, l) := read_mantissa hex l (MkMant 0 0 false false false) in
  if negb (m_digits m) then inr ErrSyntax else
  let exponent :=
    match l with
    | c :: l =>
        if Ascii.eqb (lower c) (if hex then "p" else "e") then
          let '(eneg, l) := read_sign l in
          match l with
          | d :: _ =>
              if is_digit d then
                let '(e, u, l) := read_exponent l 0 (m_under m) in
                Some (if eneg then - e else e, u, l)
              else None
          | [] => None
          end
        else if hex then None else Some (0, m_under m, c :: l)
    | [] => if hex then None else Some (0, m_under m, [])
    end in
  match exponent with
  | Some (e, under, []) =>
      if under && negb (underscoreOK s) then inr ErrSyntax else
      let f := if hex then scaled neg (m_value m) 2 (e - 4 * m_frac m)
               else scaled neg (m_value m) 10 (e - m_frac m) in
      match f with S754_infinity _ => inr ErrRange | _ => inl f end
  | _ => inr ErrSyntax
  end.

Definition ParseFloat (s : string) : float64 + num_error :=
  let l := bytes s in
  let '(neg, r) := read_sign l in
  if equal_ascii r "inf" || equal_ascii r "infinity" then inl (S754_infinity neg)
  else if equal_ascii l "nan" then inl S754_nan
  else read_float l.

(** ** Exactness: integers below 2^53 *)

(** [f] is the integer [v], with no rounding. *)
Definition is_int (f : float64) (v : Z) : Prop :=
  ∃ m e, f = S754_finite false m e ∧ -52 ≤ e ≤ 0 ∧ Zpos m = v * 2 ^ (- e).

Lemma digits2_spec p : 2 ^ (Zdigits2 (Zpos p) - 1) ≤ Zpos p < 2 ^ Zdigits2 (Zpos p).
Proof.
  induction p as [p IH|p IH|]; simpl in *; [| |done];
    rewrite Pos2Z.inj_succ; replace (Z.succ _ - 1) with (Z.succ (Zpos (digits2_pos p) - 1)) by lia;
    rewrite !Z.pow_succ_r by lia; lia.
Qed.

Lemma digits2_unique m d : 0 < d → 2 ^ (d - 1) ≤ m < 2 ^ d → Zdigits2 m = d.
Proof.
  intros Hd H. destruct m as [|p|p]; [pose proof (Z.pow_pos_nonneg 2 (d - 1)); lia| |lia].
  pose proof (digits2_spec p) as H'. assert (1 ≤ Zdigits2 (Zpos p)) by (simpl; lia).
  destruct (Z.lt_trichotomy (Zdigits2 (Zpos p)) d) as [Hlt|[?|Hlt]]; [|done|].
  - pose proof (Z.pow_le_mono_r 2 (Zdigits2 (Zpos p)) (d - 1)). lia.
  - pose proof (Z.pow_le_mono_r 2 d (Zdigits2 (Zpos p) - 1)). lia.
Qed.

Lemma digits2_shift p n :
  0 ≤ n → Zdigits2 (Zpos p * 2 ^ n) = Zdigits2 (Zpos p) + n.
Proof.
  intros Hn. pose proof (digits2_spec p). assert (1 ≤ Zdigits2 (Zpos p)) by (simpl; lia).
  apply digits2_unique; [lia|]. replace (_ + n - 1) with (Zdigits2 (Zpos p) - 1 + n) by lia.
  rewrite !Z.pow_add_r by lia. pose proof (Z.pow_pos_nonneg 2 n). nia.
Qed.

Lemma digits2_small p d : Zpos p < 2 ^ d → 0 ≤ d → Zdigits2 (Zpos p) ≤ d.
Proof.
  intros H Hd. pose proof (digits2_spec p). apply Z.nlt_ge. intros Hlt.
  pose proof (Z.pow_le_mono_r 2 d (Zdigits2 (Zpos p) - 1)). lia.
Qed.

Lemma iter_pos_add {A} (f : A → A) n : ∀ x, SpecFloat.iter_pos f n x = Nat.iter (Pos.to_nat n) f x.
Proof.
  induction n as [n IH|n IH|]; intros x; cbn [SpecFloat.iter_pos]; [| |done]; rewrite !IH, <- Nat.iter_add.
  - rewrite Pos2Nat.inj_xI, <- Nat.iter_succ_r. f_equal. lia.
  - rewrite Pos2Nat.inj_xO. f_equal. lia.
Qed.

(** Shifting out zeros loses nothing. *)
Lemma shr_exact v e n :
  0 ≤ v → 0 ≤ n →
  shr {| shr_m := v * 2 ^ n; shr_r := false; shr_s := false |} e n
  = ({| shr_m := v; shr_r := false; shr_s := false |}, e + n).
Proof.
  intros Hv Hn. destruct n as [|p|p]; [|simpl|lia].
  { simpl. do 2 f_equal; lia. }
  f_equal. rewrite iter_pos_add, <- (positive_nat_Z p).
  clear Hn. induction (Pos.to_nat p) as [|k IH]; [simpl; by rewrite Z.mul_1_r|].
  rewrite Nat2Z.inj_succ, Z.pow_succ_r, Nat.iter_succ_r by lia. rewrite <- IH. f_equal.
  replace (v * (2 * 2 ^ Z.of_nat k)) with (2 * (v * 2 ^ Z.of_nat k)) by lia.
  destruct (v * 2 ^ Z.of_nat k) eqn:E; [done|done|].
  pose proof (Z.pow_pos_nonneg 2 (Z.of_nat k)). nia.
Qed.

(** Rounding a number that is an integer below 2^53 returns it. *)
Lemma round_exact m e v :
  0 < v < 2 ^ 53 → -1074 ≤ e ≤ 0 → Zpos m = v * 2 ^ (- e) →
  is_int (binary_round_aux 53 1024 false (Zpos m) e loc_Exact) v.
Proof.
  intros Hv He Hm. destruct v as [|q|q]; [lia| |lia].
  assert (Hd : Zdigits2 (Zpos m) = Zdigits2 (Zpos q) - e).
  { rewrite Hm, digits2_shift by lia. lia. }
  pose proof (digits2_small q 53 ltac:(lia) ltac:(lia)) as Hq.
  assert (Hq1 : 1 ≤ Zdigits2 (Zpos q)) by (simpl; lia).
  set (n := Z.max 0 (fexp 53 1024 (Zdigits2 (Zpos m) + e) - e)).
  assert (Hfe : fexp 53 1024 (Zdigits2 (Zpos m) + e) = Zdigits2 (Zpos q) - 53).
  { rewrite Hd. unfold fexp, emin. lia. }
  assert (Hn : 0 ≤ n ≤ - e) by (subst n; rewrite Hfe; lia).
  assert (Hsplit : Zpos m = Zpos q * 2 ^ (- (e + n)) * 2 ^ n).
  { rewrite Hm, <- Z.mul_assoc, <- Z.pow_add_r by lia. do 2 f_equal. lia. }
  unfold binary_round_aux, shr_fexp. cbn [shr_record_of_loc].
  assert (Hshr : ∀ k, shr (Build_shr_record (Zpos q * 2 ^ k * 2 ^ n) false false) e
    (fexp 53 1024 (Zdigits2 (Zpos m) + e) - e) =
    shr (Build_shr_record (Zpos q * 2 ^ k * 2 ^ n) false false) e n).
  { intros k. subst n. destruct (fexp _ _ _ - e) eqn:E; [done| |done].
    by rewrite Z.max_r by lia. }
  rewrite Hsplit at 1. rewrite Hshr, shr_exact;
    [|apply Z.mul_nonneg_nonneg; [lia|apply Z.pow_nonneg; lia]|lia].
  cbn [shr_m loc_of_shr_record shr_r shr_s round_nearest_even].
  rewrite digits2_shift by lia.
  replace (fexp 53 1024 (Zdigits2 (Zpos q) + - (e + n) + (e + n)) - (e + n)) with
    (Zdigits2 (Zpos q) - 53 - (e + n)) by (unfold fexp, emin; lia).
  pose proof (Z.pow_pos_nonneg 2 (- (e + n))) as Hp.
  destruct (Zpos q * 2 ^ (- (e + n))) as [|r|r] eqn:Er; [nia| |nia].
  assert (Hle : Zdigits2 (Zpos q) - 53 - (e + n) ≤ 0) by (subst n; rewrite Hfe; lia).
  assert (Hz : shr (Build_shr_record (Zpos r) false false) (e + n)
    (Zdigits2 (Zpos q) - 53 - (e + n)) = (Build_shr_record (Zpos r) false false, e + n)).
  { destruct (Zdigits2 (Zpos q) - 53 - (e + n)); [done|lia|done]. }
  rewrite Hz. cbn [shr_m]. destruct (Z.leb_spec (e + n) (1024 - 53)); [|lia].
  exists r, (e + n). split; [done|]. split; [subst n; rewrite Hfe; lia|]. by rewrite Er.
Qed.

Lemma iter_xO q p : Zpos (Pos.iter xO q p) = Zpos q * 2 ^ Zpos p.
Proof.
  revert q. induction p as [|p IH] using Pos.peano_ind; intros q; [simpl; lia|].
  rewrite Pos.iter_succ, Pos2Z.inj_succ, Z.pow_succ_r by lia.
  change (Zpos (Pos.iter xO q p)~0) with (2 * Zpos (Pos.iter xO q p)). rewrite IH. lia.
Qed.

Lemma float_exact v : 0 < v < 2 ^ 53 → is_int (float v) v.
Proof.
  intros Hv. destruct v as [|q|q]; [lia| |lia]. unfold float, binary_normalize, binary_round.
  pose proof (digits2_small q 53 ltac:(lia) ltac:(lia)) as Hq. simpl in Hq.
  unfold shl_align. set (k := fexp 53 1024 (Zpos (digits2_pos q) + 0)).
  assert (Hk : -52 ≤ k ≤ 0) by (subst k; unfold fexp, emin; lia).
  destruct (k - 0) as [|p|p] eqn:E; [|lia|].
  - apply round_exact; [done|lia|simpl; lia].
  - apply round_exact; [done|lia|]. rewrite iter_xO. do 2 f_equal. lia.
Qed.

Lemma fmul_exact x y a b :
  is_int x a → is_int y b → 0 < a * b < 2 ^ 53 → is_int (fmul x y) (a * b).
Proof.
  intros (m & e & -> & He & Hm) (m' & e' & -> & He' & Hm') Hab.
  unfold fmul, SFmul. simpl xorb. apply round_exact; [done|lia|].
  rewrite Pos2Z.inj_mul, Hm, Hm'. replace (- (e + e')) with (- e + - e') by lia.
  rewrite Z.pow_add_r by lia. lia.
Qed.

Lemma truncate_int f v : is_int f v → truncate f = Some v.
Proof.
  intros (m & e & -> & He & Hm). simpl. f_equal. destruct (Z.leb_spec 0 e).
  - replace e with 0 in * by lia. simpl in *. lia.
  - rewrite Hm. apply Z.div_mul. apply Z.pow_nonzero; lia.
Qed.

(** ** Reading integers *)

Lemma read_mantissa_digits l :
  ∀ v, Forall (λ c, is_digit c = true) l → l ≠ [] →
  ∀ d, read_mantissa false l (MkMant v 0 false d false)
       = (MkMant (parse_base 10 v (text l)) 0 false true false, []).
Proof.
  induction l as [|c l IH]; intros v HF Hne d; [done|]. apply Forall_cons in HF as [Hc HF].
  cbn [read_mantissa]. assert (Hu : c ≠ "_"%char ∧ c ≠ "."%char) by (split; intros ->; discriminate Hc).
  rewrite (proj2 (Ascii.eqb_neq _ _) (proj1 Hu)), (proj2 (Ascii.eqb_neq _ _) (proj2 Hu)).
  unfold float_digit. rewrite Hc. simpl m_dot. simpl m_frac. simpl m_under. simpl m_value.
  change (text (c :: l)) with (String c (text l)). cbn [parse_base]. rewrite value36_digit by done.
  destruct l as [|c' l']; [done|]. by apply IH.
Qed.

Lemma digit_not_letter c x : is_digit c = true → is_digit x = false → lower c ≠ x.
Proof.
  intros Hc Hx E. unfold lower in E. pose proof Hc as Hc'. unfold is_digit in Hc'. zify_bool.
  destruct (Z.leb_spec 65 (code c)); [lia|]. simpl in E. congruence.
Qed.

(** A decimal integer below 2^53 is read without rounding. *)
Lemma ParseFloat_int k : 0 < k < 2 ^ 53 → ParseFloat (FormatInt k) = inl (float k).
Proof.
  intros Hk. unfold FormatInt. destruct (Z.ltb_spec k 0); [lia|].
  destruct (parse_unsigned_digits k) as [Hp HF]; [lia|].
  assert (Hv : parse_base 10 0 (digits 10 20 k "") = k).
  { apply parse_digits_base; simpl Z.of_nat; lia. }
  set (s := digits 10 20 k "") in *. unfold ParseFloat, equal_ascii.
  destruct (bytes s) as [|c l] eqn:E; [by destruct s|].
  pose proof HF as HF'. apply Forall_cons in HF' as [Hc _].
  assert (Hs : read_sign (c :: l) = (false, c :: l)).
  { unfold read_sign. rewrite (proj2 (Ascii.eqb_neq c "+")), (proj2 (Ascii.eqb_neq c "-"));
      [done|intros ->; discriminate Hc..]. }
  rewrite Hs. rewrite fmap_cons.
  assert (Hl : ∀ x t, is_digit x = false → String.eqb (text (lower c :: (lower <$> l))) (String x t) = false).
  { intros x t Hx. apply String.eqb_neq. intros [= Ex _]. by apply (digit_not_letter c x). }
  rewrite !Hl by done. simpl orb. cbn iota. unfold read_float. rewrite Hs.
  assert (Hh : is_hex (c :: l) = false).
  { unfold is_hex. destruct l as [|x [|y l]]; [done|done|].
    rewrite (proj2 (Ascii.eqb_neq (lower x) "x")); [by rewrite andb_false_r|].
    apply Forall_cons in HF as [_ HF]. apply Forall_cons in HF as [Hx _].
    by apply digit_not_letter. }
  rewrite Hh, read_mantissa_digits by done.
  cbn [m_digits m_value m_frac m_under negb andb]. cbn iota.
  rewrite <- E, text_bytes, Hv. unfold scaled. destruct k as [|p|p]; [lia| |lia].
  replace (0 - 0) with 0 by lia. cbn [Z.leb Z.compare].
  replace (1 * Z.pos p * 10 ^ 0) with (Z.pos p) by lia. fold (float (Z.pos p)).
  destruct (float_exact (Z.pos p) ltac:(lia)) as (m & e & Hf & _).
  change (binary_normalize 53 1024 (Z.pos p) 0 false) with (float (Z.pos p)). by rewrite Hf.
Qed.
