(* ===== verification/GoDuration.v ===== *)
(** * time.ParseDuration

    The library's parser, step by step: the magnitudes are [uint64] with the wrap-around written
    out, the fractions are computed in floating point. *)

From Stdlib Require Import Ascii.
From S2P Require Import Prelude.
From S2P Require Import GoTime.
From S2P Require Import GoStrings.
From S2P Require Import GoText.
From S2P Require Import GoFloat.

Open Scope Z_scope.

Abbreviation two63 := 9223372036854775808.

(** [leadingInt]: the digits in front; [None] when they exceed 2^63. *)
Fixpoint leadingInt (x : Z) (l : list ascii) : option (Z * list ascii) :=
  match l with
  | [] => Some (x, [])
  | c :: r =>
      if is_digit c then
        if two63 / 10 <? x then None else
        let x := x * 10 + (code c - 48) in
        if two63 <? x then None else leadingInt x r
      else Some (x, l)
  end.

(** [leadingFraction]: the digits of a fraction and its scale, a power of ten; once the digits
    overflow the rest is skipped. *)
Fixpoint leadingFraction (x scale : Z) (overflow : bool) (l : list ascii) : Z * Z * list ascii :=
  match l with
  | [] => (x, scale, [])
  | c :: r =>
      if is_digit c then
        if overflow then leadingFraction x scale true r
        else if (two63 - 1) / 10 <? x then leadingFraction x scale true r
        else
          let y := x * 10 + (code c - 48) in
          if two63 <? y then leadingFraction x scale true r
          else leadingFraction y (scale * 10) false r
      else (x, scale, l)
  end.

(** The characters before the next point or digit. *)
Fixpoint leadingUnit (l : list ascii) : list ascii * list ascii :=
  match l with
  | [] => ([], [])
  | c :: r =>
      if Ascii.eqb c "." || is_digit c then ([], l)
      else let '(u, r) := leadingUnit r in (c :: u, r)
  end.

(** [unitMap]; the two micro signs are U+00B5 and U+03BC. *)
Definition unitMap (u : list ascii) : option Duration :=
  let named s := bool_decide (u = bytes s) in
  let micro c := bool_decide (u = map ascii_of_nat c ++ bytes "s") in
  if named "ns" then Some Nanosecond
  else if named "us" || micro [194; 181]%nat || micro [206; 188]%nat then Some 1000
  else if named "ms" then Some Millisecond
  else if named "s" then Some Second
  else if named "m" then Some Minute
  else if named "h" then Some Hour
  else None.

(** One number with its unit; what is left is shorter. *)
Definition duration_term (l : list ascii) : option (Z * list ascii) :=
  match l with
  | [] => None
  | c :: _ =>
      if negb (Ascii.eqb c "." || is_digit c) then None else
      '(v, l1) ← leadingInt 0 l;
      let pre := negb (length l1 =? length l)%nat in
      let '(f, scale, l2, post) :=
        match l1 with
        | d :: r =>
            if Ascii.eqb d "." then
              let '(f, scale, l2) := leadingFraction 0 1 false r in
              (f, scale, l2, negb (length l2 =? length r)%nat)
            else (0, 1, l1, false)
        | [] => (0, 1, l1, false)
        end in
      if negb pre && negb post then None else
      let '(u, l3) := leadingUnit l2 in
      match u with
      | [] => None
      | _ :: _ =>
          unit ← unitMap u;
          if two63 / unit <? v then None else
          let v := v * unit in
          if 0 <? f then
            let frac := to_uint64 (λ _, 0) (fmul (float f) (fdiv (float unit) (float scale))) in
            let v := wrapu64 (v + frac) in
            if two63 <? v then None else Some (v, l3)
          else Some (v, l3)
      end
  end.

(** The sum of the terms; as many as there are characters. *)
Fixpoint duration_terms (fuel : nat) (d : Z) (l : list ascii) : option Z :=
  match l, fuel with
  | [], _ => Some d
  | _ :: _, O => None
  | _ :: _, S fuel =>
      '(v, l) ← duration_term l;
      let d := wrapu64 (d + v) in
      if two63 <? d then None else duration_terms fuel d l
  end.

Definition ParseDuration (s : string) : option Duration :=
  let '(neg, l) := read_sign (bytes s) in
  if bool_decide (l = bytes "0") then Some 0 else
  match l with
  | [] => None
  | _ :: _ =>
      d ← duration_terms (length l) 0 l;
      if neg then Some (wrap64 (- wrap64 d))
      else if max_int64 <? d then None else Some d
  end.

(** ** Lemmas *)

Lemma leadingInt_length l : ∀ x v r, leadingInt x l = Some (v, r) → (length r ≤ length l)%nat.
Proof.
  induction l as [|c l IH]; intros x v r; simpl; [by intros [= <- <-]|].
  destruct (is_digit c); [|by intros [= <- <-]]. case_if; [done|]. case_if; [done|].
  intros H%IH. lia.
Qed.

Lemma leadingFraction_length l :
  ∀ x s o f sc r, leadingFraction x s o l = (f, sc, r) → (length r ≤ length l)%nat.
Proof.
  induction l as [|c l IH]; intros x s o f sc r; simpl; [by intros [= <- <- <-]|].
  destruct (is_digit c); [|by intros [= <- <- <-]].
  repeat case_if; intros H%IH; lia.
Qed.

Lemma leadingUnit_split l : ∀ u r, leadingUnit l = (u, r) → l = u ++ r.
Proof.
  induction l as [|c l IH]; intros u r; simpl; [by intros [= <- <-]|].
  case_if; [by intros [= <- <-]|]. destruct (leadingUnit l) as [u' r'] eqn:E.
  intros [= <- <-]. simpl. f_equal. by apply IH.
Qed.

(** Each term consumes something: the fuel of [ParseDuration] suffices. *)
Lemma duration_term_length l v r : duration_term l = Some (v, r) → (length r < length l)%nat.
Proof.
  destruct l as [|c l]; [done|]. unfold duration_term. case_if; [done|].
  destruct (leadingInt 0 (c :: l)) as [[n l1]|] eqn:E1; [|done]. cbn [mbind option_bind].
  apply leadingInt_length in E1.
  match goal with |- context [match l1 with [] => ?a | _ :: _ => _ end] =>
    set (frac := match l1 with [] => a | _ :: _ => _ end) end.
  assert (Hfrac : ∀ f sc l2 post, frac = (f, sc, l2, post) → (length l2 ≤ length l1)%nat).
  { intros f sc l2 post. subst frac. destruct l1 as [|d r1]; [by intros [= <- <- <- <-]|].
    case_if; [|by intros [= <- <- <- <-]].
    destruct (leadingFraction 0 1 false r1) as [[f' sc'] l2'] eqn:E2.
    apply leadingFraction_length in E2. intros [= <- <- <- <-]. simpl. lia. }
  destruct frac as [[[f sc] l2] post]. specialize (Hfrac _ _ _ _ eq_refl).
  case_if; [done|]. destruct (leadingUnit l2) as [u l3] eqn:E3.
  apply leadingUnit_split in E3. destruct u as [|a u]; [done|].
  assert (Hlen : (length l3 < length (c :: l))%nat).
  { subst l2. rewrite length_app in Hfrac. simpl in Hfrac. lia. }
  destruct (unitMap (a :: u)) as [unit|]; [|done]. cbn [mbind option_bind].
  repeat case_if; try done; intros [= ? <-]; exact Hlen.
Qed.

Lemma duration_terms_bound fuel : ∀ d l v, duration_terms fuel d l = Some v → 0 ≤ d ≤ two63 → 0 ≤ v ≤ two63.
Proof.
  induction fuel as [|fuel IH]; intros d l v; destruct l as [|c l]; cbn [duration_terms];
    try done; try (intros [= <-]; exact id).
  destruct (duration_term (c :: l)) as [[w r]|]; [|done]. cbn [mbind option_bind].
  case_if; [done|]. intros H _. apply (IH _ _ _ H). split; [|lia].
  unfold wrapu64. apply Z.mod_pos_bound. lia.
Qed.

(** Whatever the string, the result is an [int64]. *)
Lemma ParseDuration_range s d : ParseDuration s = Some d → min_int64 ≤ d ≤ max_int64.
Proof.
  unfold ParseDuration. destruct (read_sign (bytes s)) as [neg l].
  case_bool_decide; [by intros [= <-]|]. destruct l as [|c l]; [done|].
  destruct (duration_terms _ _ _) as [v|] eqn:E; [|done]. cbn [mbind option_bind].
  apply duration_terms_bound in E; [|lia]. destruct neg.
  - intros [= <-]. apply wrap64_range.
  - case_if; [done|]. intros [= <-]. lia.
Qed.
