(* ===== verification/GoNet.v ===== *)
(** * The parts of Go's net, encoding/base64 and net/http the control plane uses

    Host and port splitting, base64, HTTP Basic credentials, headers, and the routing of
    requests by [http.ServeMux]. *)

From Stdlib Require Import Ascii.
From S2P Require Import Prelude.
From S2P Require Import GoStrings.
From S2P Require Import GoText.

Open Scope Z_scope.

(** ** [net.SplitHostPort]; [None] stands for its errors *)

Definition elem (c : ascii) (l : list ascii) : bool := existsb (Ascii.eqb c) l.

Definition SplitHostPort (s : string) : option (string * string) :=
  let l := bytes s in
  '(before, port) ← cut_last ":" l;
  match l with
  | "["%char :: rest =>
      '(b, after) ← cut "]" l;
      if (length b + 1 =? length before)%nat && negb (elem "[" rest) && negb (elem "]" after)
      then Some (text (drop 1 b), text port) else None
  | _ =>
      if elem ":" before || elem "[" l || elem "]" l then None
      else Some (text before, text port)
  end.

(** ** [base64.StdEncoding] *)

Definition b64_char (v : Z) : ascii :=
  ascii_of_nat (Z.to_nat
    (if v <? 26 then 65 + v else if v <? 52 then 71 + v else if v <? 62 then v - 4
     else if v =? 62 then 43 else 47)).

Definition b64_value (c : ascii) : option Z :=
  let n := code c in
  if (65 <=? n) && (n <=? 90) then Some (n - 65)
  else if (97 <=? n) && (n <=? 122) then Some (n - 71)
  else if is_digit c then Some (n + 4)
  else if n =? 43 then Some 62
  else if n =? 47 then Some 63
  else None.

Definition byte (n : Z) : ascii := ascii_of_nat (Z.to_nat (n mod 256)).

(** Four sextets are three bytes. *)
Definition quantum (a b c d : Z) : Z := Z.shiftl a 18 + Z.shiftl b 12 + Z.shiftl c 6 + d.

Fixpoint decode_quanta (l : list ascii) : option (list ascii) :=
  match l with
  | [] => Some []
  | c0 :: c1 :: c2 :: c3 :: r =>
      a ← b64_value c0; b ← b64_value c1;
      match b64_value c2, b64_value c3 with
      | Some c, Some d =>
          let v := quantum a b c d in
          k ← decode_quanta r;
          Some (byte (Z.shiftr v 16) :: byte (Z.shiftr v 8) :: byte v :: k)
      | Some c, None =>
          if Ascii.eqb c3 "=" && (length r =? 0)%nat then
            let v := quantum a b c 0 in Some [byte (Z.shiftr v 16); byte (Z.shiftr v 8)]
          else None
      | None, _ =>
          if Ascii.eqb c2 "=" && Ascii.eqb c3 "=" && (length r =? 0)%nat then
            Some [byte (Z.shiftr (quantum a b 0 0) 16)]
          else None
      end
  | _ => None
  end.

(** Carriage returns and newlines are skipped wherever they stand. *)
Definition is_newline (c : ascii) : bool := (code c =? 10) || (code c =? 13).

Definition DecodeString (l : list ascii) : option (list ascii) :=
  decode_quanta (List.filter (λ c, negb (is_newline c)) l).

Definition sextet (n k : Z) : ascii := b64_char (Z.shiftr n k mod 64).

Fixpoint EncodeToString (l : list ascii) : list ascii :=
  match l with
  | [] => []
  | [a] => let n := Z.shiftl (code a) 16 in [sextet n 18; sextet n 12; "="%char; "="%char]
  | [a; b] =>
      let n := Z.shiftl (code a) 16 + Z.shiftl (code b) 8 in
      [sextet n 18; sextet n 12; sextet n 6; "="%char]
  | a :: b :: c :: r =>
      let n := Z.shiftl (code a) 16 + Z.shiftl (code b) 8 + code c in
      sextet n 18 :: sextet n 12 :: sextet n 6 :: sextet n 0 :: EncodeToString r
  end.

(** ** Headers and HTTP Basic credentials *)

(** Values by canonical header name. *)
Abbreviation Header := (gmap string (list string)).

Definition Get (h : Header) (key : string) : string :=
  match h !! key with Some (v :: _) => v | _ => "" end.

Definition parseBasicAuth (auth : string) : option (string * string) :=
  let l := bytes auth in
  if (length l <? 6)%nat || negb (equal_ascii (take 6 l) "basic ") then None else
  c ← DecodeString (drop 6 l);
  '(user, pass) ← cut ":" c;
  Some (text user, text pass).

Definition BasicAuth (h : Header) : option (string * string) :=
  let auth := Get h "Authorization" in
  if String.eqb auth "" then None else parseBasicAuth auth.

(** ** Escapes, and the parts between separators *)

(** [url.QueryUnescape], where a plus is a space, and [url.PathUnescape]. *)
Fixpoint unescape (plus : bool) (l : list ascii) : option (list ascii) :=
  match l with
  | [] => Some []
  | c :: r =>
      if Ascii.eqb c "%" then
        match r with
        | h :: k :: r =>
            a ← hex_digit h; b ← hex_digit k; u ← unescape plus r;
            Some (byte (a * 16 + b) :: u)
        | _ => None
        end
      else
        u ← unescape plus r;
        Some ((if plus && Ascii.eqb c "+" then " "%char else c) :: u)
  end.

Fixpoint split (x : ascii) (l : list ascii) : list (list ascii) :=
  match l with
  | [] => [[]]
  | c :: l =>
      if Ascii.eqb c x then [] :: split x l
      else match split x l with p :: ps => (c :: p) :: ps | [] => [[c]] end
  end.

(** ** [http.ServeMux]

    A pattern is a method, or none for any, and a path; a path that ends in a slash stands for
    everything below it.  Patterns have no wildcards and no host here (an admin prefix with
    braces or without its slash is refused by [Validate]).  Paths are matched as they were sent,
    segment by segment, each segment unescaped on its own. *)

Record pattern := MkPattern { pat_method : option string; pat_path : string }.

Definition ends_in_slash (p : string) : bool :=
  match reverse (bytes p) with "/"%char :: _ => true | _ => false end.

(** An escape that is not one leaves its segment as it is. *)
Definition pathUnescape (l : list ascii) : list ascii :=
  match unescape false l with Some u => u | None => l end.

(** The segments of a path, after its first slash. *)
Definition segments (p : string) : list (list ascii) :=
  pathUnescape <$> split "/" (drop 1 (bytes p)).

(** What a pattern asks for literally: the last segment of a subtree is anything. *)
Definition literals (p : string) : list (list ascii) :=
  if ends_in_slash p then removelast (segments p) else segments p.

Definition path_matches (p path : string) : bool :=
  let lits := literals p in
  let segs := segments path in
  if ends_in_slash p
  then bool_decide (take (length lits) segs = lits) && (length lits <? length segs)%nat
  else bool_decide (lits = segs).

(** The most specific pattern with method [pm]: the one with the most literals. *)
Fixpoint match_path {H} (pm : option string) (path : string) (routes : list (pattern * H))
    : option (pattern * H) :=
  match routes with
  | [] => None
  | r :: routes =>
      let best := match_path pm path routes in
      if bool_decide (pat_method r.1 = pm) && path_matches (pat_path r.1) path then
        match best with
        | Some b =>
            if (length (literals (pat_path r.1)) <? length (literals (pat_path b.1)))%nat then best
            else Some r
        | None => Some r
        end
      else best
  end.

(** The patterns of the method come first, for HEAD then those of GET, then those without one. *)
Definition match_route {H} (routes : list (pattern * H)) (m path : string) : option (pattern * H) :=
  if String.eqb path "" then None else
  match match_path (Some m) path routes with
  | Some r => Some r
  | None =>
      let get := if String.eqb m "HEAD" then match_path (Some "GET") path routes else None in
      match get with Some r => Some r | None => match_path None path routes end
  end.

(** [cleanPath]: no empty, "." or ".." segments ([path.Clean]), one slash in front, and the one
    behind kept. *)
Fixpoint clean_segments (stack l : list (list ascii)) : list (list ascii) :=
  match l with
  | [] => reverse stack
  | p :: l =>
      if bool_decide (p = [] ∨ p = bytes ".") then clean_segments stack l
      else if bool_decide (p = bytes "..") then clean_segments (drop 1 stack) l
      else clean_segments (p :: stack) l
  end.

Definition cleanPath (p : string) : string :=
  let p := if HasPrefix p "/" then p else "/" +:+ p in
  match clean_segments [] (split "/" (drop 1 (bytes p))) with
  | [] => "/"
  | segs =>
      let np := text (concat ((λ s, "/"%char :: s) <$> segs)) in
      if ends_in_slash p then np +:+ "/" else np
  end.

(** The path the mux looks up; CONNECT requests keep theirs. *)
Definition canonical (m path : string) : string :=
  if String.eqb m "CONNECT" then path else cleanPath path.

(** [exactMatch]: the pattern matches without anything below it. *)
Definition exact_match {H} (r : option (pattern * H)) (path : string) : bool :=
  match r with
  | None => false
  | Some (pt, _) =>
      negb (ends_in_slash (pat_path pt))
      || (ends_in_slash path
          && (length (segments (pat_path pt)) =? length (segments path))%nat)
  end.

Inductive routed (H : Type) := Handled (h : H) | Redirected (path : string) | Unrouted.
Arguments Handled {H} h. Arguments Redirected {H} path. Arguments Unrouted {H}.

(** A path that only a slash keeps from being a pattern's is redirected there, and one that is
    not clean to the clean one; [Unrouted] is the mux's own 404 or 405. *)
Definition route {H} (routes : list (pattern * H)) (m path : string) : routed H :=
  let p := canonical m path in
  let r := match_route routes m p in
  let slashed := p +:+ "/" in
  if negb (exact_match r p) && negb (ends_in_slash p) && negb (String.eqb p "")
     && exact_match (match_route routes m slashed) slashed
  then Redirected slashed
  else if negb (String.eqb p path) then Redirected p
  else match r with Some (_, h) => Handled h | None => Unrouted end.

(** ** Lemmas on base64 *)

Lemma b64_value_char v : 0 ≤ v < 64 → b64_value (b64_char v) = Some v.
Proof.
  intros Hv. assert (H : Forall (λ v, b64_value (b64_char v) = Some v) (seqZ 0 64)).
  { eapply bool_decide_unpack; vm_compute; exact I. }
  rewrite Forall_forall in H. apply H, elem_of_seqZ. lia.
Qed.

Lemma b64_value_sextet n k : b64_value (sextet n k) = Some (Z.shiftr n k mod 64).
Proof. apply b64_value_char, Z.mod_pos_bound. lia. Qed.

Lemma code_range c : 0 ≤ code c < 256.
Proof. unfold code. pose proof (nat_ascii_bounded c). lia. Qed.

Lemma byte_code c : byte (code c) = c.
Proof.
  unfold byte. rewrite Z.mod_small by apply code_range. unfold code.
  by rewrite Nat2Z.id, ascii_nat_embedding.
Qed.

Lemma byte_mod n m : n mod 256 = m → byte n = byte m.
Proof. intros <-. unfold byte. by rewrite Zmod_mod. Qed.

Lemma byte_of a n : n mod 256 = code a → byte n = a.
Proof. intros H. rewrite <- (byte_code a). by apply byte_mod. Qed.

(** The four sextets of a 24-bit number give it back. *)
Lemma quantum_sextets n :
  0 ≤ n < 16777216 →
  quantum (Z.shiftr n 18 mod 64) (Z.shiftr n 12 mod 64) (Z.shiftr n 6 mod 64) (Z.shiftr n 0 mod 64) = n.
Proof.
  intros Hn. unfold quantum. rewrite !Z.shiftl_mul_pow2, !Z.shiftr_div_pow2 by lia.
  change (2 ^ 18) with 262144. change (2 ^ 12) with 4096. change (2 ^ 6) with 64.
  change (2 ^ 0) with 1. rewrite Z.div_1_r. Z.to_euclidean_division_equations. lia.
Qed.

Lemma sextet_not_newline n k : is_newline (sextet n k) = false.
Proof.
  unfold sextet. pose proof (Z.mod_pos_bound (Z.shiftr n k) 64 ltac:(lia)) as Hv.
  assert (H : Forall (λ v, is_newline (b64_char v) = false) (seqZ 0 64)).
  { eapply bool_decide_unpack; vm_compute; exact I. }
  rewrite Forall_forall in H. apply H, elem_of_seqZ. lia.
Qed.

Ltac shifts :=
  unfold quantum; rewrite ?Z.shiftl_mul_pow2, ?Z.shiftr_div_pow2 by lia;
  change (2 ^ 18) with 262144; change (2 ^ 16) with 65536; change (2 ^ 12) with 4096;
  change (2 ^ 8) with 256; change (2 ^ 6) with 64; change (2 ^ 0) with 1;
  rewrite ?Z.div_1_r; Z.to_euclidean_division_equations; lia.

(** Lists by three elements at a time. *)
Lemma list_ind3 {A} (P : list A → Prop) :
  P [] → (∀ a, P [a]) → (∀ a b, P [a; b]) → (∀ a b c l, P l → P (a :: b :: c :: l)) → ∀ l, P l.
Proof.
  intros H0 H1 H2 H3 l. assert (P l ∧ (∀ a, P (a :: l)) ∧ (∀ a b, P (a :: b :: l))) as [? _]; [|done].
  induction l as [|x l (IH0 & IH1 & IH2)]; [by auto|].
  split; [by auto|]. split; [by auto|]. intros a b. by apply H3.
Qed.

Lemma decode_encode_quanta l : decode_quanta (EncodeToString l) = Some l.
Proof.
  induction l as [|a|a b|a b c l IH] using list_ind3; [done|..];
    cbn [EncodeToString]; cbn zeta; cbn [decode_quanta]; rewrite ?b64_value_sextet;
    cbn [mbind option_bind];
    pose proof (code_range a); try pose proof (code_range b); try pose proof (code_range c).
  - simpl. do 2 f_equal. apply byte_of. shifts.
  - simpl. do 2 f_equal; [|f_equal]; apply byte_of; shifts.
  - rewrite IH. cbn [mbind option_bind]. rewrite quantum_sextets by shifts.
    do 2 f_equal; [|f_equal; [|f_equal]]; apply byte_of; shifts.
Qed.

Lemma encode_no_newlines l :
  List.filter (λ c, negb (is_newline c)) (EncodeToString l) = EncodeToString l.
Proof.
  induction l as [|a|a b|a b c l IH] using list_ind3; [done|..];
    cbn [EncodeToString]; cbn zeta; cbn [List.filter]; rewrite !sextet_not_newline; simpl; try done.
  by rewrite IH.
Qed.

Lemma DecodeString_Encode l : DecodeString (EncodeToString l) = Some l.
Proof. unfold DecodeString. by rewrite encode_no_newlines, decode_encode_quanta. Qed.

(** ** Lemmas on HTTP Basic *)

(** The credentials a client sends for a user and a password. *)
Definition basic_credentials (user pass : string) : string :=
  "Basic " +:+ text (EncodeToString (bytes (user +:+ ":" +:+ pass))).

Lemma parseBasicAuth_credentials user pass :
  ":"%char ∉ bytes user → parseBasicAuth (basic_credentials user pass) = Some (user, pass).
Proof.
  intros Hu. unfold parseBasicAuth, basic_credentials.
  rewrite bytes_app, bytes_text. set (c := EncodeToString _).
  change (bytes "Basic " ++ c) with ("B"%char :: "a"%char :: "s"%char :: "i"%char :: "c"%char :: " "%char :: c).
  cbn [length take drop firstn skipn Nat.ltb Nat.leb]. rewrite take_0, drop_0.
  assert (E : equal_ascii ["B"; "a"; "s"; "i"; "c"; " "]%char "basic " = true) by (vm_compute; reflexivity).
  rewrite E. simpl orb. cbn iota. subst c. rewrite DecodeString_Encode. cbn [mbind option_bind].
  assert (Hc : cut ":" (bytes (user +:+ ":" +:+ pass)) = Some (bytes user, bytes pass)).
  { apply cut_Some. split; [by rewrite !bytes_app|done]. }
  rewrite Hc. cbn [mbind option_bind]. by rewrite !text_bytes.
Qed.

(** ** Lemmas on the mux *)

Lemma match_path_Some {H} pm path (routes : list (pattern * H)) r :
  match_path pm path routes = Some r →
  r ∈ routes ∧ pat_method r.1 = pm ∧ path_matches (pat_path r.1) path = true.
Proof.
  induction routes as [|x routes IH]; simpl; [done|]. intros E.
  destruct (bool_decide (pat_method x.1 = pm) && path_matches (pat_path x.1) path) eqn:Ex.
  - assert (Hx : x ∈ x :: routes ∧ pat_method x.1 = pm ∧ path_matches (pat_path x.1) path = true).
    { apply andb_true_iff in Ex as [Hm%bool_decide_eq_true Hp]. split; [left|done]. }
    destruct (match_path pm path routes) as [b|]; [|by injection E as <-].
    destruct (_ <? _)%nat; [|by injection E as <-]. injection E as ->.
    destruct (IH eq_refl) as (? & ? & ?). split; [by right|done].
  - destruct (IH E) as (? & ? & ?). split; [by right|done].
Qed.

Lemma match_path_best {H} pm path (routes : list (pattern * H)) r :
  r ∈ routes → pat_method r.1 = pm → path_matches (pat_path r.1) path = true →
  ∃ b, match_path pm path routes = Some b
       ∧ (length (literals (pat_path r.1)) ≤ length (literals (pat_path b.1)))%nat.
Proof.
  induction routes as [|x routes IH]; intros Hin Hm Hp; [by apply not_elem_of_nil in Hin|].
  simpl. apply elem_of_cons in Hin as [->|Hin].
  - rewrite bool_decide_eq_true_2, Hp by done. simpl.
    destruct (match_path pm path routes) as [b|]; [|by exists x].
    destruct (Nat.ltb_spec (length (literals (pat_path x.1))) (length (literals (pat_path b.1))));
      [exists b|exists x]; (split; [done|lia]).
  - destruct (IH Hin Hm Hp) as (b & -> & Hle). destruct (_ && _); [|by exists b].
    destruct (Nat.ltb_spec (length (literals (pat_path x.1))) (length (literals (pat_path b.1))));
      [exists b|exists x]; (split; [done|lia]).
Qed.

(** A subtree holds the paths that go on where its literals end. *)
Lemma path_matches_subtree p path :
  ends_in_slash p = true →
  path_matches p path = true ↔ ∃ rest, rest ≠ [] ∧ segments path = literals p ++ rest.
Proof.
  intros Hp. unfold path_matches. rewrite Hp, andb_true_iff, bool_decide_eq_true, Nat.ltb_lt. split.
  - intros [Ht Hl]. exists (drop (length (literals p)) (segments path)). split.
    + intros E%(f_equal length). rewrite length_drop in E. simpl in E. lia.
    + rewrite <- Ht at 1. by rewrite take_drop.
  - intros (rest & Hne & ->). rewrite take_app_length, length_app. split; [done|].
    destruct rest; [done|]. simpl. lia.
Qed.

Lemma path_matches_literal p path :
  ends_in_slash p = false → path_matches p path = true ↔ segments p = segments path.
Proof. intros Hp. unfold path_matches, literals. by rewrite Hp, bool_decide_eq_true. Qed.

Lemma split_app x a b : split x (a ++ x :: b) = split x a ++ split x b.
Proof.
  induction a as [|c a IH]; simpl; [by rewrite (proj2 (Ascii.eqb_eq x x))|].
  rewrite IH. destruct (Ascii.eqb c x); [done|].
  destruct (split x a) as [|p ps] eqn:E; [|done]. by destruct a as [|d a]; simpl in E;
    [|destruct (Ascii.eqb d x); [|destruct (split x a)]].
Qed.

(** The parts, one by one. *)
Lemma split_inv x l p ps :
  split x l = p :: ps →
  (x ∉ p) ∧ ((l = p ∧ ps = []) ∨ ∃ r, l = p ++ x :: r ∧ ps = split x r).
Proof.
  revert p ps. induction l as [|c l IH]; intros p ps; simpl.
  { intros [= <- <-]. split; [apply not_elem_of_nil|by left]. }
  destruct (Ascii.eqb_spec c x) as [->|Hne].
  { intros [= <- <-]. split; [apply not_elem_of_nil|]. right. by exists l. }
  destruct (split x l) as [|q qs] eqn:E.
  - intros [= <- <-]. by destruct l as [|d l]; simpl in E; [|destruct (Ascii.eqb d x); [|destruct (split x l)]].
  - intros [= <- <-]. destruct (IH q qs eq_refl) as [Hq Hl]. split.
    { apply not_elem_of_cons. split; [congruence|done]. }
    destruct Hl as [[-> ->]|(r & -> & ->)]; [by left|]. right. by exists r.
Qed.

Lemma split_nonempty x l : split x l ≠ [].
Proof. destruct l as [|c l]; simpl; [done|]. destruct (Ascii.eqb c x); [done|]. by destruct (split x l). Qed.

Lemma split_whole x l : x ∉ l → split x l = [l].
Proof.
  intros Hl. destruct (split x l) as [|p ps] eqn:E; [by apply split_nonempty in E|].
  apply split_inv in E as [_ [[-> ->]|(r & -> & _)]]; [done|]. exfalso. apply Hl.
  apply elem_of_app. right. left.
Qed.

(** Where the list of parts is taken apart, so is the text. *)
Lemma split_break x ss : ∀ l tt, split x l = ss ++ tt → ss ≠ [] → tt ≠ [] →
  ∃ u v, l = u ++ x :: v ∧ split x u = ss ∧ split x v = tt.
Proof.
  induction ss as [|s ss IH]; intros l tt E Hs Ht; [done|]. simpl in E.
  apply split_inv in E as [Hx [[-> E]|(r & -> & E)]]; [by destruct ss, tt|].
  destruct ss as [|s' ss].
  - exists s, r. split; [done|]. by rewrite split_whole.
  - destruct (IH r tt (eq_sym E) ltac:(done) Ht) as (u & v & -> & Eu & Ev).
    exists (s ++ x :: u), v. split; [by rewrite <- app_assoc|]. split; [|done].
    by rewrite split_app, split_whole, Eu.
Qed.

(** A part is what stands between two separators, or between one and an end. *)
Lemma split_part x l seg :
  seg ∈ split x l ↔
  (x ∉ seg) ∧ ∃ a b, l = a ++ seg ++ b ∧ (a = [] ∨ ∃ a', a = a' ++ [x]) ∧ (b = [] ∨ ∃ b', b = x :: b').
Proof.
  split.
  - intros (ss & tt & E)%list_elem_of_split.
    assert (Hseg : ∃ a l', l = a ++ l' ∧ (a = [] ∨ ∃ a', a = a' ++ [x]) ∧ split x l' = seg :: tt).
    { destruct ss as [|s ss]; [by exists [], l; auto|].
      destruct (split_break x (s :: ss) l (seg :: tt) E ltac:(done) ltac:(done)) as (u & v & -> & _ & Ev).
      exists (u ++ [x]), v. split; [by rewrite <- app_assoc|]. split; [right; by exists u|done]. }
    destruct Hseg as (a & l' & -> & Ha & El). apply split_inv in El as [Hx Hl]. split; [done|].
    destruct Hl as [[-> _]|(r & -> & _)].
    + exists a, []. by rewrite app_nil_r; auto.
    + exists a, (x :: r). split; [done|]. split; [done|]. right. by exists r.
  - intros (Hx & a & b & -> & Ha & Hb).
    assert (Hin : seg ∈ split x (seg ++ b)).
    { destruct Hb as [->|(b' & ->)]; [rewrite app_nil_r, split_whole by done; left|].
      rewrite split_app, split_whole by done. left. }
    destruct Ha as [->|(a' & ->)]; [done|]. rewrite <- app_assoc. simpl. rewrite split_app.
    apply elem_of_app. by right.
Qed.

(** The segments of what is in front. *)
Definition base (p : string) : list (list ascii) := if String.eqb p "" then [] else segments p.

Lemma segments_app p q : HasPrefix q "/" = true → segments (p +:+ q) = base p ++ segments q.
Proof.
  intros (r & ->)%HasPrefix_spec. unfold base. destruct p as [|c p]; [done|]. simpl String.eqb. cbn iota.
  unfold segments. rewrite !bytes_app. change (bytes (String c p)) with (c :: bytes p).
  change (bytes "/" ++ bytes r) with ("/"%char :: bytes r). cbn [app drop].
  rewrite !drop_0, split_app, fmap_app. done.
Qed.

Lemma ends_in_slash_app a b : b ≠ "" → ends_in_slash (a +:+ b) = ends_in_slash b.
Proof.
  intros Hb. unfold ends_in_slash. rewrite bytes_app, reverse_app.
  destruct (reverse (bytes b)) as [|c l] eqn:E; [|done].
  apply (f_equal reverse) in E. rewrite reverse_involutive in E. by destruct b.
Qed.

Lemma app_length_string a b : String.length (a +:+ b) = (String.length a + String.length b)%nat.
Proof. induction a as [|c a IH]; simpl; [done|]. by rewrite IH. Qed.
