(* ===== verification/Config.v ===== *)
(** * config/config.go: the configuration, read from the environment

    The environment is a map from names to values.  An error of [Validate] is a value that says
    which check failed and on what. *)

From Stdlib Require Import Ascii.
From S2P Require Import Prelude.
From S2P Require Import GoTime.
From S2P Require Import GoStrings.
From S2P Require Import GoText.
From S2P Require Import GoDuration.
From S2P Require Import GoNet.

Open Scope Z_scope.

Record Config := MkConfiguration {
  Port : Z;
  ReadTimeout : Duration;
  WriteTimeout : Duration;
  IdleTimeout : Duration;
  ShutdownTimeout : Duration;

  RedisAddr : string;
  RedisPassword : string;
  RedisDB : Z;
  RedisTimeout : Duration;
  RedisPrefix : string;

  RateLimitRPS : Z;
  WindowSizeSeconds : Z;

  FailureThreshold : Z;
  FallbackCooldown : Duration;
  ProbeInterval : Duration;
  CleanupInterval : Duration;

  UpstreamURL : string;
  UpstreamTimeout : Duration;
  TrustProxyHeaders : bool;
  UpstreamEditable : bool;

  DashboardEnabled : bool;
  MetricsWindow : Z;
  AdminPrefix : string;
  AdminAddr : string;
  AdminToken : string;

  LogLevel : string }.

Definition DefaultAdminPrefix : string := "/_rl".

Definition NormalizePrefix (v : string) : string :=
  let v := TrimSpace v in
  let v := Trim v "/" in
  if String.eqb v "" then "" else "/" +:+ v.

(** ** Derived values *)

Definition AdminSeparate (c : Config) : bool := negb (String.eqb (TrimSpace (AdminAddr c)) "").

Definition AdminURL (path : string) (c : Config) : string :=
  if AdminSeparate c then
    let host := AdminAddr c in
    let host := if HasPrefix host ":" then "localhost" +:+ host else host in
    "http://" +:+ host +:+ path
  else "http://localhost:" +:+ FormatInt (Port c) +:+ AdminPrefix c +:+ path.

(** [Config.Window]: the product is a 64-bit one. *)
Definition config_Window (c : Config) : Duration := wrap64 (WindowSizeSeconds c * Second).

Definition Addr (c : Config) : string := ":" +:+ FormatInt (Port c).

Definition config_RedisEnabled (c : Config) : bool :=
  negb (String.eqb (RedisAddr c) "") && negb (EqualFold (RedisAddr c) "disabled").

Definition Redact (c : Config) : Config :=
  let masked := if String.eqb (RedisPassword c) "" then RedisPassword c else "***" in
  MkConfiguration (Port c) (ReadTimeout c) (WriteTimeout c) (IdleTimeout c) (ShutdownTimeout c)
    (RedisAddr c) masked (RedisDB c) (RedisTimeout c) (RedisPrefix c)
    (RateLimitRPS c) (WindowSizeSeconds c)
    (FailureThreshold c) (FallbackCooldown c) (ProbeInterval c) (CleanupInterval c)
    (UpstreamURL c) (UpstreamTimeout c) (TrustProxyHeaders c) (UpstreamEditable c)
    (DashboardEnabled c) (MetricsWindow c) (AdminPrefix c) (AdminAddr c) (AdminToken c)
    (LogLevel c).

(** ** Validation *)

Inductive config_error :=
| EPort (got : Z)
| ERateLimit (got : Z)
| EWindow (got : Z)
| ERedisTimeout (got : Duration)
| EThreshold (got : Z)
| EMetricsWindow (got : Z)
| EUpstreamURL
| EPrefixSlash (prefix : string)
| EPrefixLiteral (prefix bad : string)
| EPrefixDashboard (prefix : string)
| EAdminAddr (addr : string)
| EAdminClash (addr public : string).

Definition tab : string := String (ascii_of_nat 9) "".

(** What an admin prefix may not contain, in the order of the loop. *)
Definition bad_parts : list string := ["{"; "}"; "?"; "#"; ".."; " "; tab; "//"].

Definition validateAdminPrefix (prefix : string) : option config_error :=
  if String.eqb prefix "" then None
  else if negb (HasPrefix prefix "/") then Some (EPrefixSlash prefix)
  else
    match List.find (Contains prefix) bad_parts with
    | Some bad => Some (EPrefixLiteral prefix bad)
    | None =>
        if Contains prefix "/dashboard" then Some (EPrefixDashboard prefix) else None
    end.

Definition Validate (c : Config) : option config_error :=
  if (Port c <? 1) || (65535 <? Port c) then Some (EPort (Port c))
  else if RateLimitRPS c <? 1 then Some (ERateLimit (RateLimitRPS c))
  else if WindowSizeSeconds c <? 1 then Some (EWindow (WindowSizeSeconds c))
  else if RedisTimeout c <=? 0 then Some (ERedisTimeout (RedisTimeout c))
  else if FailureThreshold c <? 1 then Some (EThreshold (FailureThreshold c))
  else if (MetricsWindow c <? 10) || (3600 <? MetricsWindow c)
       then Some (EMetricsWindow (MetricsWindow c))
  else if String.eqb (UpstreamURL c) "" then Some EUpstreamURL
  else
    match validateAdminPrefix (AdminPrefix c) with
    | Some err => Some err
    | None =>
        if AdminSeparate c then
          match SplitHostPort (TrimSpace (AdminAddr c)) with
          | None => Some (EAdminAddr (AdminAddr c))
          | Some _ =>
              if String.eqb (TrimSpace (AdminAddr c)) (Addr c)
              then Some (EAdminClash (AdminAddr c) (Addr c)) else None
          end
        else None
    end.

(** ** The environment *)

Abbreviation environment := (gmap string string).

Section Environment.
Context (env : environment).

Definition envString (key def : string) : string :=
  match env !! key with
  | Some v => if String.eqb (TrimSpace v) "" then def else TrimSpace v
  | None => def
  end.

Definition envInt (key : string) (def : Z) : Z :=
  match env !! key with
  | Some v => match Atoi (TrimSpace v) with Some n => n | None => def end
  | None => def
  end.

Definition envBool (key : string) (def : bool) : bool :=
  match env !! key with
  | Some v => match ParseBool (TrimSpace v) with Some b => b | None => def end
  | None => def
  end.

Definition envDuration (key : string) (def : Duration) : Duration :=
  match env !! key with
  | None => def
  | Some v =>
      let v := TrimSpace v in
      if String.eqb v "" then def else
      match ParseDuration v with
      | Some d => d
      | None => match Atoi v with Some n => wrap64 (n * Second) | None => def end
      end
  end.

(** The composite literal of [Load]. *)
Definition read_config : Config := {|
  Port := envInt "PORT" 8080;
  ReadTimeout := envDuration "READ_TIMEOUT" (15 * Second);
  WriteTimeout := envDuration "WRITE_TIMEOUT" 0;
  IdleTimeout := envDuration "IDLE_TIMEOUT" (60 * Second);
  ShutdownTimeout := envDuration "SHUTDOWN_TIMEOUT" (10 * Second);

  RedisAddr := envString "REDIS_ADDR" "localhost:6379";
  RedisPassword := envString "REDIS_PASSWORD" "";
  RedisDB := envInt "REDIS_DB" 0;
  RedisTimeout := envDuration "REDIS_TIMEOUT" (200 * Millisecond);
  RedisPrefix := envString "REDIS_PREFIX" "rl:";

  RateLimitRPS := envInt "RATE_LIMIT_RPS" 10;
  WindowSizeSeconds := envInt "WINDOW_SIZE_SECONDS" 1;

  FailureThreshold := envInt "FAILURE_THRESHOLD" 3;
  FallbackCooldown := envDuration "FALLBACK_COOLDOWN" (5 * Second);
  ProbeInterval := envDuration "PROBE_INTERVAL" (2 * Second);
  CleanupInterval := envDuration "CLEANUP_INTERVAL" (30 * Second);

  UpstreamURL := envString "UPSTREAM_URL" "mock://internal";
  UpstreamTimeout := envDuration "UPSTREAM_TIMEOUT" (30 * Second);
  TrustProxyHeaders := envBool "TRUST_PROXY_HEADERS" false;
  UpstreamEditable := envBool "UPSTREAM_EDITABLE" false;

  DashboardEnabled := envBool "DASHBOARD_ENABLED" true;
  MetricsWindow := envInt "METRICS_WINDOW_SECONDS" 60;
  AdminPrefix := NormalizePrefix (envString "ADMIN_PREFIX" DefaultAdminPrefix);
  AdminAddr := envString "ADMIN_ADDR" "";
  AdminToken := envString "ADMIN_TOKEN" "";

  LogLevel := envString "LOG_LEVEL" "info" |}.

Definition Load : Config + config_error :=
  let c := read_config in
  match Validate c with Some err => inr err | None => inl c end.

End Environment.

(** ** Notions for the theorems *)

(** A path segment that stands for itself: no character that a pattern, a query or a fragment
    gives a meaning to, no two dots in a row, and not one the dashboard page takes for its own. *)
Definition literal_segment (seg : list ascii) : Prop :=
  Forall (λ c, c ∉ ["{"; "}"; "?"; "#"; " "; ascii_of_nat 9]%char) seg
  ∧ (∀ a b, seg ≠ a ++ "."%char :: "."%char :: b)
  ∧ (∀ r, seg ≠ bytes "dashboard" ++ r).

(** A prefix [http.ServeMux] reads as a literal path: none, or segments each behind a slash that
    stand for themselves, none of them empty but perhaps the last. *)
Definition literal_prefix (p : string) : Prop :=
  p = "" ∨ ∃ l, bytes p = "/"%char :: l
    ∧ Forall literal_segment (split "/" l)
    ∧ ∀ before after, split "/" l = before ++ [] :: after → after = [].

(** What [Validate] promises. *)
Record valid (c : Config) : Prop := {
  v_port : 1 ≤ Port c ≤ 65535;
  v_rate : 1 ≤ RateLimitRPS c;
  v_window : 1 ≤ WindowSizeSeconds c;
  v_timeout : 0 < RedisTimeout c;
  v_threshold : 1 ≤ FailureThreshold c;
  v_metrics : 10 ≤ MetricsWindow c ≤ 3600;
  v_upstream : UpstreamURL c ≠ "";
  v_prefix : literal_prefix (AdminPrefix c);
  v_admin : TrimSpace (AdminAddr c) ≠ "" →
    (∃ host port, SplitHostPort (TrimSpace (AdminAddr c)) = Some (host, port))
    ∧ TrimSpace (AdminAddr c) ≠ ":" +:+ FormatInt (Port c) }.

(** An error is about a field that is out of range, and quotes its value. *)
Definition violates (err : config_error) (c : Config) : Prop :=
  match err with
  | EPort n => n = Port c ∧ ¬ 1 ≤ n ≤ 65535
  | ERateLimit n => n = RateLimitRPS c ∧ n < 1
  | EWindow n => n = WindowSizeSeconds c ∧ n < 1
  | ERedisTimeout d => d = RedisTimeout c ∧ d ≤ 0
  | EThreshold n => n = FailureThreshold c ∧ n < 1
  | EMetricsWindow n => n = MetricsWindow c ∧ ¬ 10 ≤ n ≤ 3600
  | EUpstreamURL => UpstreamURL c = ""
  | EPrefixSlash p => p = AdminPrefix c ∧ p ≠ "" ∧ ∀ l, bytes p ≠ "/"%char :: l
  | EPrefixLiteral p bad => p = AdminPrefix c ∧ ¬ literal_prefix p ∧ ∃ a b, p = a +:+ bad +:+ b
  | EPrefixDashboard p => p = AdminPrefix c ∧ ∃ a b, p = a +:+ "/dashboard" +:+ b
  | EAdminAddr addr =>
      addr = AdminAddr c ∧ TrimSpace addr ≠ "" ∧ SplitHostPort (TrimSpace addr) = None
  | EAdminClash addr public =>
      addr = AdminAddr c ∧ TrimSpace addr = public ∧ public = ":" +:+ FormatInt (Port c)
  end.

(** The fields of a width hold values of that width. *)
Record in_width (c : Config) : Prop := {
  w_ints : Forall (λ n, min_int64 ≤ n ≤ max_int64)
    [Port c; RedisDB c; RateLimitRPS c; WindowSizeSeconds c; FailureThreshold c; MetricsWindow c];
  w_durations : Forall (λ d, min_int64 ≤ d ≤ max_int64)
    [ReadTimeout c; WriteTimeout c; IdleTimeout c; ShutdownTimeout c; RedisTimeout c;
     FallbackCooldown c; ProbeInterval c; CleanupInterval c; UpstreamTimeout c] }.

(** A value the environment holds in canonical form: no surrounding space. *)
Definition trimmed (s : string) : Prop := TrimSpace s = s.

(** The variables of each kind. *)
Definition int_keys : list string :=
  ["PORT"; "REDIS_DB"; "RATE_LIMIT_RPS"; "WINDOW_SIZE_SECONDS"; "FAILURE_THRESHOLD";
   "METRICS_WINDOW_SECONDS"].
Definition bool_keys : list string := ["TRUST_PROXY_HEADERS"; "UPSTREAM_EDITABLE"; "DASHBOARD_ENABLED"].
Definition duration_keys : list string :=
  ["READ_TIMEOUT"; "WRITE_TIMEOUT"; "IDLE_TIMEOUT"; "SHUTDOWN_TIMEOUT"; "REDIS_TIMEOUT";
   "FALLBACK_COOLDOWN"; "PROBE_INTERVAL"; "CLEANUP_INTERVAL"; "UPSTREAM_TIMEOUT"].
Definition string_keys : list string :=
  ["REDIS_ADDR"; "REDIS_PASSWORD"; "REDIS_PREFIX"; "UPSTREAM_URL"; "ADMIN_PREFIX"; "ADMIN_ADDR";
   "ADMIN_TOKEN"; "LOG_LEVEL"].

(** [v] is a value the variable [key] can take; no value is, of a variable the program does not
    know. *)
Definition readable (key v : string) : bool :=
  let v := TrimSpace v in
  if one_of key int_keys then is_some (Atoi v)
  else if one_of key bool_keys then is_some (ParseBool v)
  else if one_of key duration_keys then is_some (ParseDuration v) || is_some (Atoi v)
  else if one_of key string_keys then negb (String.eqb v "")
  else false.

(** [c] with the Redis password [p]. *)
Definition with_password (p : string) (c : Config) : Config :=
  MkConfiguration (Port c) (ReadTimeout c) (WriteTimeout c) (IdleTimeout c) (ShutdownTimeout c)
    (RedisAddr c) p (RedisDB c) (RedisTimeout c) (RedisPrefix c)
    (RateLimitRPS c) (WindowSizeSeconds c)
    (FailureThreshold c) (FallbackCooldown c) (ProbeInterval c) (CleanupInterval c)
    (UpstreamURL c) (UpstreamTimeout c) (TrustProxyHeaders c) (UpstreamEditable c)
    (DashboardEnabled c) (MetricsWindow c) (AdminPrefix c) (AdminAddr c) (AdminToken c)
    (LogLevel c).
