(* ===== verification/ConfigProps.v ===== *)
(** * config/config.go: correctness

    What a loaded configuration guarantees, what the environment can and cannot do to it, and
    what becomes of values at the edge: overflow, prefixes, secrets. *)

From Stdlib Require Import Ascii.
From S2P Require Import Prelude.
From S2P Require Import GoTime.
From S2P Require Import GoStrings.
From S2P Require Import GoText.
From S2P Require Import GoDuration.
From S2P Require Import GoNet.
From S2P Require Import Config.

Open Scope Z_scope.

(** ** Prefixes *)

Lemma find_None {A} (f : A → bool) (l : list A) :
  List.find f l = None ↔ Forall (λ x, f x = false) l.
Proof.
  induction l as [|x l IH]; simpl; [done|]. rewrite Forall_cons. destruct (f x); naive_solver.
Qed.

(** What the checks of [validateAdminPrefix] mean for the segments behind the first slash. *)
Section Segments.
Context (l : list ascii).

(** A text without a slash is in the path if it is in a segment. *)
Lemma in_segment s :
  s ≠ [] → "/"%char ∉ s →
  (∃ a b, "/"%char :: l = a ++ s ++ b) ↔ ∃ seg, seg ∈ split "/" l ∧ ∃ a b, seg = a ++ s ++ b.
Proof.
  intros Hs Hx. split.
  - intros (a & b & E). destruct a as [|c a].
    { destruct s as [|c s]; [done|]. injection E as <- _. exfalso. apply Hx. left. }
    injection E as _ ->.
    assert (Ha : ∃ a1 a2, a = a1 ++ a2 ∧ ("/"%char ∉ a2) ∧ (a1 = [] ∨ ∃ a', a1 = a' ++ ["/"%char])).
    { destruct (decide ("/"%char ∈ a)) as [Hin|]; [|exists [], a; auto].
      apply list_elem_of_split_r in Hin as (a1 & a2 & -> & Ha2).
      exists (a1 ++ ["/"%char]), a2. rewrite <- app_assoc. eauto. }
    assert (Hb : ∃ b1 b2, b = b1 ++ b2 ∧ ("/"%char ∉ b1) ∧ (b2 = [] ∨ ∃ b', b2 = "/"%char :: b')).
    { destruct (decide ("/"%char ∈ b)) as [Hin|]; [|exists b, []; rewrite app_nil_r; auto].
      apply list_elem_of_split_l in Hin as (b1 & b2 & -> & Hb1). exists b1, ("/"%char :: b2). eauto. }
    destruct Ha as (a1 & a2 & -> & Ha2 & Ha), Hb as (b1 & b2 & -> & Hb1 & Hb).
    exists (a2 ++ s ++ b1). split; [|by exists a2, b1]. apply split_part. split.
    { rewrite !elem_of_app. tauto. }
    exists a1, b2. by rewrite <- !app_assoc.
  - intros (seg & (_ & a & b & El & _)%split_part & a' & b' & ->). rewrite El.
    exists ("/"%char :: a ++ a'), (b' ++ b). simpl. by rewrite <- !app_assoc.
Qed.

(** A slash and a text is in the path if a segment starts with the text. *)
Lemma starts_segment s :
  "/"%char ∉ s →
  (∃ a b, "/"%char :: l = a ++ ("/"%char :: s) ++ b) ↔ ∃ seg, seg ∈ split "/" l ∧ ∃ r, seg = s ++ r.
Proof.
  intros Hx. split.
  - intros (a & b & E).
    assert (Ha : ∃ a1, l = a1 ++ s ++ b ∧ (a1 = [] ∨ ∃ a', a1 = a' ++ ["/"%char])).
    { destruct a as [|c a]; injection E; [intros ->; by exists []; auto|].
      intros -> _. exists (a ++ ["/"%char]). rewrite <- app_assoc. eauto. }
    destruct Ha as (a1 & -> & Ha).
    assert (Hb : ∃ b1 b2, b = b1 ++ b2 ∧ ("/"%char ∉ b1) ∧ (b2 = [] ∨ ∃ b', b2 = "/"%char :: b')).
    { destruct (decide ("/"%char ∈ b)) as [Hin|]; [|exists b, []; rewrite app_nil_r; auto].
      apply list_elem_of_split_l in Hin as (b1 & b2 & -> & Hb1). exists b1, ("/"%char :: b2). eauto. }
    destruct Hb as (b1 & b2 & -> & Hb1 & Hb). exists (s ++ b1). split; [|by exists b1].
    apply split_part. split; [rewrite elem_of_app; tauto|]. exists a1, b2. by rewrite <- !app_assoc.
  - intros (seg & (_ & a & b & El & Ha & _)%split_part & r & ->). rewrite El.
    destruct Ha as [->|(a' & ->)]; [by exists [], (r ++ b); simpl; rewrite <- app_assoc|].
    exists ("/"%char :: a'), (r ++ b). simpl. by rewrite <- !app_assoc.
Qed.

(** Two slashes in a row leave an empty segment with another one behind. *)
Lemma empty_segment :
  (∃ a b, "/"%char :: l = a ++ ["/"; "/"]%char ++ b) ↔
  ∃ before after, split "/" l = before ++ [] :: after ∧ after ≠ [].
Proof.
  split.
  - intros (a & b & E). destruct a as [|c a]; injection E.
    + intros ->. exists [], (split "/" b). split; [done|apply split_nonempty].
    + intros -> _. exists (split "/" a), (split "/" b). split; [|apply split_nonempty].
      simpl. by rewrite split_app.
  - intros (ss & tt & E & Ht). destruct ss as [|s ss].
    + apply split_inv in E as [_ [[-> ->]|(r & -> & _)]]; [done|]. by exists [], r.
    + destruct (split_break "/" (s :: ss) l ([] :: tt) E ltac:(done) ltac:(done)) as (u & v & El & _ & Ev).
      apply split_inv in Ev as [_ [[-> ->]|(r & -> & _)]]; [done|]. rewrite El.
      by exists ("/"%char :: u), r.
Qed.

End Segments.

Lemma Contains_bytes s q : Contains s q = false ↔ ¬ ∃ a b, bytes s = a ++ bytes q ++ b.
Proof. rewrite <- not_true_iff_false. unfold Contains. by rewrite contains_spec. Qed.

(** The single characters of the list, as one condition on the segments. *)
Lemma bad_characters l :
  Forall (λ bad, ¬ ∃ a b, "/"%char :: l = a ++ bad ++ b)
    [["{"]; ["}"]; ["?"]; ["#"]; [" "]; [ascii_of_nat 9]]%char
  ↔ Forall (Forall (λ c, c ∉ ["{"; "}"; "?"; "#"; " "; ascii_of_nat 9]%char)) (split "/" l).
Proof.
  change [["{"]; ["}"]; ["?"]; ["#"]; [" "]; [ascii_of_nat 9]]%char
    with ((λ c, [c]) <$> ["{"; "}"; "?"; "#"; " "; ascii_of_nat 9]%char).
  rewrite Forall_fmap, Forall_forall. unfold compose. split.
  - intros H. apply Forall_forall. intros seg Hseg. apply Forall_forall. intros c Hc Hin.
    apply (H c Hin). apply in_segment; [done| |].
    + intros <-%list_elem_of_singleton. by apply split_part in Hseg as [? _].
    + exists seg. split; [done|]. by apply list_elem_of_split in Hc.
  - intros H c Hin. rewrite in_segment; [|done|].
    + intros (seg & Hseg & a & b & ->). rewrite Forall_forall in H. specialize (H _ Hseg).
      rewrite Forall_forall in H. apply (H c); [|done]. apply elem_of_app. right. left.
    + intros <-%list_elem_of_singleton. revert Hin. eapply bool_decide_unpack. vm_compute. exact I.
Qed.

Lemma segments_literal l :
  Forall (λ bad, Contains (text ("/"%char :: l)) bad = false) bad_parts
  ∧ Contains (text ("/"%char :: l)) "/dashboard" = false ↔
  Forall literal_segment (split "/" l)
  ∧ ∀ before after, split "/" l = before ++ [] :: after → after = [].
Proof.
  assert (Hbad : Forall (λ bad, Contains (text ("/"%char :: l)) bad = false) bad_parts ↔
    Forall (λ bad, ¬ ∃ a b, "/"%char :: l = a ++ bad ++ b)
      [["{"]; ["}"]; ["?"]; ["#"]; [" "]; [ascii_of_nat 9]]%char
    ∧ (¬ ∃ a b, "/"%char :: l = a ++ ["."; "."]%char ++ b)
    ∧ ¬ ∃ a b, "/"%char :: l = a ++ ["/"; "/"]%char ++ b).
  { transitivity (Forall (λ bad, ¬ ∃ a b, "/"%char :: l = a ++ bad ++ b) (bytes <$> bad_parts)).
    { rewrite Forall_fmap. apply Forall_proper; [|done]. intros bad. by rewrite Contains_bytes, bytes_text. }
    change (bytes <$> bad_parts)
      with [["{"]; ["}"]; ["?"]; ["#"]; ["."; "."]; [" "]; [ascii_of_nat 9]; ["/"; "/"]]%char.
    rewrite !Forall_cons. pose proof (Forall_nil_2 (λ bad, ¬ ∃ a b, "/"%char :: l = a ++ bad ++ b)).
    tauto. }
  rewrite Hbad, bad_characters, Contains_bytes, bytes_text.
  change (bytes "/dashboard") with ("/"%char :: bytes "dashboard").
  rewrite (in_segment l ["."; "."]%char), (starts_segment l (bytes "dashboard")), empty_segment;
    [|eapply bool_decide_unpack; vm_compute; exact I|done|eapply bool_decide_unpack; vm_compute; exact I].
  unfold literal_segment. rewrite !Forall_and, !Forall_forall. split.
  - intros ((Hc & Hd & He) & Hb). split; [split; [done|split]|].
    + intros seg Hseg a b E. apply Hd. exists seg. split; [done|by exists a, b].
    + intros seg Hseg r E. apply Hb. exists seg. split; [done|by exists r].
    + intros before after E. destruct after as [|x after]; [done|]. exfalso. apply He. by exists before, (x :: after).
  - intros ((Hc & Hd & Hb) & He). split; [split; [done|split]|].
    + intros (seg & Hseg & a & b & E). by apply (Hd seg Hseg a b).
    + intros (before & after & E & Hne). by apply Hne, (He before).
    + intros (seg & Hseg & r & E). by apply (Hb seg Hseg r).
Qed.

Lemma validateAdminPrefix_spec p : validateAdminPrefix p = None ↔ literal_prefix p.
Proof.
  unfold validateAdminPrefix, literal_prefix.
  destruct (String.eqb_spec p "") as [->|Hne]; [split; [by left|done]|].
  destruct (HasPrefix p "/") eqn:Hp; cbn [negb].
  - apply HasPrefix_spec in Hp as (r & ->).
    assert (E : "/" +:+ r = text ("/"%char :: bytes r)) by (apply bytes_inj; by rewrite bytes_text, bytes_app).
    assert (Hb : bytes ("/" +:+ r) = "/"%char :: bytes r) by by rewrite bytes_app.
    pose proof (segments_literal (bytes r)) as Hs. rewrite <- E, <- find_None in Hs.
    assert (Hr : (if List.find (Contains ("/" +:+ r)) bad_parts is Some _ then False else
                  if Contains ("/" +:+ r) "/dashboard" then False else True) ↔
                 "/" +:+ r = "" ∨ ∃ l, bytes ("/" +:+ r) = "/"%char :: l
                   ∧ Forall literal_segment (split "/" l)
                   ∧ ∀ before after, split "/" l = before ++ [] :: after → after = []).
    { rewrite Hb. split.
      - intros H. right. exists (bytes r). split; [done|]. apply Hs.
        by destruct (List.find _ _), (Contains _ _).
      - intros [?|(l & [= <-] & H)]; [done|]. apply Hs in H as [-> ->]. exact I. }
    rewrite <- Hr. by destruct (List.find _ _), (Contains _ _).
  - split; [done|]. intros [?|(l & E & _)]; [done|]. exfalso. apply not_true_iff_false in Hp. apply Hp.
    apply HasPrefix_spec. exists (text l). apply bytes_inj. by rewrite bytes_app, bytes_text, E.
Qed.

(** The error names the part of the prefix it is about. *)
Lemma validateAdminPrefix_error p err c :
  AdminPrefix c = p → validateAdminPrefix p = Some err → violates err c.
Proof.
  intros <- E. assert (Hno : ¬ literal_prefix (AdminPrefix c)).
  { intros H%validateAdminPrefix_spec. congruence. }
  unfold validateAdminPrefix in E. destruct (String.eqb_spec (AdminPrefix c) "") as [|Hne]; [done|].
  destruct (HasPrefix (AdminPrefix c) "/") eqn:Hp; cbn [negb] in E.
  - destruct (List.find (Contains (AdminPrefix c)) bad_parts) as [bad|] eqn:Ef.
    + injection E as <-. apply find_some in Ef as [_ Hc%Contains_spec]. done.
    + destruct (Contains (AdminPrefix c) "/dashboard") eqn:Ec; [|done]. injection E as <-.
      apply Contains_spec in Ec. done.
  - injection E as <-. split; [done|]. split; [done|]. intros l El. apply not_true_iff_false in Hp.
    apply Hp, HasPrefix_spec. exists (text l). apply bytes_inj. by rewrite bytes_app, bytes_text, El.
Qed.

(** A canonical prefix: empty, or a slash, then something that neither starts nor ends with
    one. *)
Lemma NormalizePrefix_shape v :
  NormalizePrefix v = "" ∨
  ∃ l, bytes (NormalizePrefix v) = "/"%char :: l ∧ l ≠ []
    ∧ (∀ a r, l = a :: r → a ≠ "/"%char) ∧ (∀ a r, l = r ++ [a] → a ≠ "/"%char).
Proof.
  unfold NormalizePrefix. destruct (String.eqb_spec (Trim (TrimSpace v) "/") "") as [|Hne]; [by left|].
  right. destruct (trim_set_spec (bytes "/") (bytes (TrimSpace v))) as (H1 & H2 & _).
  exists (trim_set (bytes "/") (bytes (TrimSpace v))).
  split; [unfold Trim; rewrite bytes_app, bytes_text; done|]. split.
  { intros E. apply Hne. unfold Trim. by rewrite E. }
  split; intros a r E ->; [eapply H1|eapply H2]; try exact E; left.
Qed.

(** The routes of a canonical prefix are registered under the prefix itself. *)
Lemma NormalizePrefix_no_slash v : TrimSuffix (NormalizePrefix v) "/" = NormalizePrefix v.
Proof.
  unfold TrimSuffix. destruct (NormalizePrefix_shape v) as [->|(l & E & Hne & _ & Hlast)]; [done|].
  destruct (strip_list _ _) as [r|] eqn:Es; [|done]. exfalso. apply strip_list_Some in Es.
  rewrite E in Es. change (reverse (bytes "/")) with ["/"%char] in Es.
  apply (f_equal reverse) in Es. rewrite reverse_involutive in Es. simpl in Es.
  rewrite reverse_cons in Es. destruct (reverse r) as [|b k] eqn:Er.
  - by injection Es as ->.
  - injection Es as _ ->. by apply (Hlast "/"%char k).
Qed.

(** ** Validation *)

Lemma Validate_iff c : Validate c = None ↔ valid c.
Proof.
  unfold Validate. split.
  - destruct ((Port c <? 1) || (65535 <? Port c)) eqn:?; [done|].
    destruct (RateLimitRPS c <? 1) eqn:?; [done|]. destruct (WindowSizeSeconds c <? 1) eqn:?; [done|].
    destruct (RedisTimeout c <=? 0) eqn:?; [done|]. destruct (FailureThreshold c <? 1) eqn:?; [done|].
    destruct ((MetricsWindow c <? 10) || (3600 <? MetricsWindow c)) eqn:?; [done|].
    destruct (String.eqb_spec (UpstreamURL c) "") as [|HU]; [done|].
    destruct (validateAdminPrefix (AdminPrefix c)) eqn:HP; [done|].
    apply validateAdminPrefix_spec in HP. zify_bool. intros HA.
    constructor; try lia; try assumption. unfold AdminSeparate in HA.
    destruct (String.eqb_spec (TrimSpace (AdminAddr c)) "") as [|_]; [done|]. intros _. cbn [negb] in HA.
    destruct (SplitHostPort (TrimSpace (AdminAddr c))) as [[host port]|]; [|discriminate HA].
    split; [by exists host, port|].
    by destruct (String.eqb_spec (TrimSpace (AdminAddr c)) (Addr c)).
  - intros [Hp Hr Hw Ht Hf Hm HU HP HA].
    rewrite (proj2 (Z.ltb_ge (Port c) 1)), (proj2 (Z.ltb_ge 65535 (Port c))) by lia. cbn [orb].
    rewrite (proj2 (Z.ltb_ge (RateLimitRPS c) 1)), (proj2 (Z.ltb_ge (WindowSizeSeconds c) 1)),
      (proj2 (Z.leb_gt (RedisTimeout c) 0)), (proj2 (Z.ltb_ge (FailureThreshold c) 1)),
      (proj2 (Z.ltb_ge (MetricsWindow c) 10)), (proj2 (Z.ltb_ge 3600 (MetricsWindow c))) by lia. cbn [orb].
    rewrite (proj2 (String.eqb_neq _ _) HU), (proj2 (validateAdminPrefix_spec _) HP).
    unfold AdminSeparate. destruct (String.eqb_spec (TrimSpace (AdminAddr c)) "") as [|Hs]; [done|].
    destruct (HA Hs) as ((host & port & ->) & Hne). cbn [negb]. fold (Addr c) in Hne.
    by rewrite (proj2 (String.eqb_neq _ _) Hne).
Qed.

(** The error is about the field it names. *)
Lemma Validate_error c err : Validate c = Some err → violates err c.
Proof.
  unfold Validate.
  destruct ((Port c <? 1) || (65535 <? Port c)) eqn:?; [intros [= <-]; zify_bool; split; [done|lia]|].
  destruct (Z.ltb_spec (RateLimitRPS c) 1); [by intros [= <-]|].
  destruct (Z.ltb_spec (WindowSizeSeconds c) 1); [by intros [= <-]|].
  destruct (Z.leb_spec (RedisTimeout c) 0); [by intros [= <-]|].
  destruct (Z.ltb_spec (FailureThreshold c) 1); [by intros [= <-]|].
  destruct ((MetricsWindow c <? 10) || (3600 <? MetricsWindow c)) eqn:?;
    [intros [= <-]; zify_bool; split; [done|lia]|].
  destruct (String.eqb_spec (UpstreamURL c) ""); [by intros [= <-]|].
  destruct (validateAdminPrefix (AdminPrefix c)) as [e|] eqn:Ep.
  { intros [= <-]. by eapply validateAdminPrefix_error. }
  unfold AdminSeparate. destruct (String.eqb_spec (TrimSpace (AdminAddr c)) ""); [done|]. cbn [negb].
  destruct (SplitHostPort (TrimSpace (AdminAddr c))) eqn:?; [|by intros [= <-]].
  destruct (String.eqb_spec (TrimSpace (AdminAddr c)) (Addr c)); [|done]. by intros [= <-].
Qed.

(** ** The environment *)

Lemma envString_trimmed env key def : trimmed def → trimmed (envString env key def).
Proof.
  unfold trimmed, envString. intros Hd. destruct (env !! key) as [v|]; [|done].
  case_if; [done|]. apply TrimSpace_idemp.
Qed.

Lemma envString_nonempty env key def : def ≠ "" → envString env key def ≠ "".
Proof.
  unfold envString. intros Hd. destruct (env !! key) as [v|]; [|done].
  by destruct (String.eqb_spec (TrimSpace v) "").
Qed.

Lemma envInt_range env key def :
  min_int64 ≤ def ≤ max_int64 → min_int64 ≤ envInt env key def ≤ max_int64.
Proof.
  unfold envInt. intros Hd. destruct (env !! key) as [v|]; [|done].
  destruct (Atoi (TrimSpace v)) as [n|] eqn:E; [|done]. by apply Atoi_range in E.
Qed.

Lemma envDuration_range env key def :
  min_int64 ≤ def ≤ max_int64 → min_int64 ≤ envDuration env key def ≤ max_int64.
Proof.
  unfold envDuration. intros Hd. destruct (env !! key) as [v|]; [|done]. case_if; [done|].
  destruct (ParseDuration (TrimSpace v)) as [d|] eqn:Ed; [by apply ParseDuration_range in Ed|].
  destruct (Atoi (TrimSpace v)) as [n|]; [apply wrap64_range|done].
Qed.

Lemma read_config_in_width env : in_width (read_config env).
Proof.
  constructor; simpl; repeat (apply Forall_cons; split);
    try apply Forall_nil_2; try apply envInt_range; try apply envDuration_range;
    unfold Second, Millisecond; lia.
Qed.

(** C8.  Whatever the environment holds, a configuration that [Load] hands out is well typed: its
    numbers are values of their machine width; the port, the rate, the window, the timeouts and
    the thresholds are in the ranges the service needs; the admin prefix is empty or a literal
    path with one slash in front and none behind (so the routes are registered under it
    unchanged); an admin listener has a host and a port that are not the public ones; and no
    string carries surrounding space. *)
Theorem Load_well_typed (env : environment) (c : Config) :
  Load env = inl c →
  valid c ∧ in_width c
  ∧ TrimSuffix (AdminPrefix c) "/" = AdminPrefix c
  ∧ RedisAddr c ≠ ""
  ∧ Forall trimmed [RedisAddr c; RedisPassword c; RedisPrefix c; UpstreamURL c; AdminAddr c;
                    AdminToken c; LogLevel c].
Proof.
  unfold Load. destruct (Validate (read_config env)) eqn:E; [done|]. intros [= <-].
  split; [by apply Validate_iff|]. split; [apply read_config_in_width|].
  split; [apply NormalizePrefix_no_slash|]. split; [by apply envString_nonempty|].
  simpl. repeat (apply Forall_cons; split); try apply Forall_nil_2; by apply envString_trimmed.
Qed.

Definition sample_env : environment :=
  {[ "PORT" := " 9000 "; "ADMIN_PREFIX" := "/ops/rl/"; "REDIS_TIMEOUT" := "350ms";
     "SHUTDOWN_TIMEOUT" := "45"; "ADMIN_ADDR" := "127.0.0.1:9090" ]}.

Definition sample_config : Config := match Load sample_env with inl c => c | inr _ => read_config ∅ end.

Lemma Load_well_typed_witness :
  Load sample_env = inl sample_config
  ∧ TrimSuffix (AdminPrefix sample_config) "/" = AdminPrefix sample_config
  ∧ Port sample_config = 9000 ∧ ShutdownTimeout sample_config = 45 * Second.
Proof.
  split; [vm_compute; reflexivity|]. split.
  - refine (proj1 (proj2 (proj2 (Load_well_typed sample_env sample_config _)))).
    vm_compute. reflexivity.
  - split; vm_compute; reflexivity.
Defined.

(** C13.  [Validate] accepts exactly the configurations that can work: every number in range; the
    admin prefix empty or, read segment by segment, a path that stands for itself in a pattern
    (no wildcard, query, fragment or space characters, no "..", no empty segment but perhaps the
    last, none that starts with "dashboard"); an admin address, if there is one, that splits into
    host and port and is not that of the public listener.  And whatever it reports is so: the
    error names a field that is out of range, and quotes its value. *)
Theorem Validate_spec (c : Config) :
  (Validate c = None ↔ valid c) ∧ ∀ err, Validate c = Some err → violates err c.
Proof. split; [apply Validate_iff|apply Validate_error]. Qed.

(** [sample_config] with another prefix and another admin address. *)
Definition with_admin (prefix addr : string) : Config :=
  let c := sample_config in
  MkConfiguration (Port c) (ReadTimeout c) (WriteTimeout c) (IdleTimeout c) (ShutdownTimeout c)
    (RedisAddr c) (RedisPassword c) (RedisDB c) (RedisTimeout c) (RedisPrefix c)
    (RateLimitRPS c) (WindowSizeSeconds c)
    (FailureThreshold c) (FallbackCooldown c) (ProbeInterval c) (CleanupInterval c)
    (UpstreamURL c) (UpstreamTimeout c) (TrustProxyHeaders c) (UpstreamEditable c)
    (DashboardEnabled c) (MetricsWindow c) prefix addr (AdminToken c) (LogLevel c).

Lemma Validate_spec_witness :
  valid (with_admin "/ops/rl" ":9001")
  ∧ ¬ valid (with_admin "/{tenant}" "") ∧ ¬ valid (with_admin "/a/../b" "")
  ∧ ¬ valid (with_admin "/ops/dashboards" "") ∧ ¬ valid (with_admin "" " :9000")
  ∧ violates (EAdminAddr "9001") (with_admin "" "9001").
Proof.
  split; [apply (proj1 (Validate_spec _)); vm_compute; reflexivity|].
  assert (Hno : ∀ c, Validate c ≠ None → ¬ valid c).
  { intros c Hc Hv. apply Hc. exact (proj2 (proj1 (Validate_spec c)) Hv). }
  split; [apply Hno; vm_compute; discriminate|]. split; [apply Hno; vm_compute; discriminate|].
  split; [apply Hno; vm_compute; discriminate|]. split; [apply Hno; vm_compute; discriminate|].
  apply (proj2 (Validate_spec (with_admin "" "9001"))). vm_compute. reflexivity.
Defined.

(** ** Unreadable values *)

Section Unreadable.
Context (env : environment) (k v : string).

(** A reader [f] of one variable sees nothing of another one, nor of a value it takes for an
    unset one. *)
Lemma unreadable {A} (f : option string → A) key :
  (key = k → f (Some v) = f None) → f (<[k := v]> env !! key) = f (delete k env !! key).
Proof.
  intros H. destruct (decide (k = key)) as [<-|Hne].
  - by rewrite lookup_insert_eq, lookup_delete_eq, H.
  - by rewrite lookup_insert_ne, lookup_delete_ne.
Qed.

Ltac one_variable key :=
  match goal with
  | |- _ = ?r =>
      let g := (eval pattern (delete k env !! key) in r) in
      match g with ?f _ => refine (unreadable f key _); intros E end
  end.

Lemma envString_unreadable key def :
  (key = k → TrimSpace v = "") →
  envString (<[k := v]> env) key def = envString (delete k env) key def.
Proof. unfold envString. intros H. one_variable key. by rewrite H. Qed.

Lemma envInt_unreadable key def :
  (key = k → Atoi (TrimSpace v) = None) →
  envInt (<[k := v]> env) key def = envInt (delete k env) key def.
Proof. unfold envInt. intros H. one_variable key. by rewrite H. Qed.

Lemma envBool_unreadable key def :
  (key = k → ParseBool (TrimSpace v) = None) →
  envBool (<[k := v]> env) key def = envBool (delete k env) key def.
Proof. unfold envBool. intros H. one_variable key. by rewrite H. Qed.

Lemma envDuration_unreadable key def :
  (key = k → ParseDuration (TrimSpace v) = None ∧ Atoi (TrimSpace v) = None) →
  envDuration (<[k := v]> env) key def = envDuration (delete k env) key def.
Proof.
  unfold envDuration. intros H. one_variable key. destruct (H E) as [-> ->]. by case_if.
Qed.

Lemma is_some_false {A} (o : option A) : is_some o = false → o = None.
Proof. by destruct o. Qed.

Lemma one_of_spec key l : one_of key l = true ↔ key ∈ l.
Proof.
  unfold one_of. rewrite existsb_exists. split.
  - intros (x & Hx & E%String.eqb_eq). subst. by apply list_elem_of_In.
  - intros H. exists key. by rewrite <- list_elem_of_In, String.eqb_refl.
Qed.

(** The kinds are disjoint: what is of one kind is of no earlier one. *)
Lemma readable_other : readable k v = false →
  (k ∈ int_keys → Atoi (TrimSpace v) = None)
  ∧ (k ∈ bool_keys → ParseBool (TrimSpace v) = None)
  ∧ (k ∈ duration_keys → ParseDuration (TrimSpace v) = None ∧ Atoi (TrimSpace v) = None)
  ∧ (k ∈ string_keys → TrimSpace v = "").
Proof.
  intros H. unfold readable in H.
  assert (Hdis : NoDup (int_keys ++ bool_keys ++ duration_keys ++ string_keys)).
  { eapply bool_decide_unpack; vm_compute; exact I. }
  apply NoDup_app in Hdis as (_ & D1 & (_ & D2 & (_ & D3 & _)%NoDup_app)%NoDup_app).
  assert (Hno : ∀ l, k ∉ l → one_of k l = false).
  { intros l Hk. apply not_true_iff_false. by rewrite one_of_spec. }
  assert (Hyes : ∀ l, k ∈ l → one_of k l = true) by (intros l; apply one_of_spec).
  split; [|split; [|split]]; intros Hk.
  - rewrite Hyes in H by done. by apply is_some_false.
  - rewrite (Hno int_keys) in H by (intros Hi; specialize (D1 k Hi); set_solver).
    rewrite Hyes in H by done. by apply is_some_false.
  - rewrite (Hno int_keys), (Hno bool_keys) in H by
      (intros Hi; specialize (D1 k); specialize (D2 k); rewrite !elem_of_app in *; tauto).
    rewrite Hyes in H by done. apply orb_false_iff in H as [H1 H2].
    split; by apply is_some_false.
  - rewrite (Hno int_keys), (Hno bool_keys), (Hno duration_keys) in H by
      (intros Hi; specialize (D1 k); specialize (D2 k); specialize (D3 k); rewrite !elem_of_app in *; tauto).
    rewrite Hyes in H by done. apply negb_false_iff in H. by apply String.eqb_eq.
Qed.

End Unreadable.

(** C31.  A value that cannot be read never stops the service and never changes another setting: a
    malformed, blank or unknown variable leaves the result of [Load] exactly as if it were not
    set, error or not. *)
Theorem Load_ignores_unreadable (env : environment) (key v : string) :
  readable key v = false → Load (<[key := v]> env) = Load (delete key env).
Proof.
  intros (Hi & Hb & Hd & Hs)%readable_other. unfold Load.
  assert (E : read_config (<[key := v]> env) = read_config (delete key env)); [|by rewrite E].
  unfold read_config. f_equal; try apply (f_equal NormalizePrefix);
    first [apply envInt_unreadable; intros <-; apply Hi|apply envBool_unreadable; intros <-; apply Hb
          |apply envDuration_unreadable; intros <-; apply Hd|apply envString_unreadable; intros <-; apply Hs];
    (eapply bool_decide_unpack; vm_compute; exact I).
Qed.

Lemma Load_ignores_unreadable_witness :
  readable "PORT" "not-a-number" = false
  ∧ Load (<["PORT" := "not-a-number"]> sample_env) = Load (delete "PORT" sample_env).
Proof.
  split; [vm_compute; reflexivity|].
  apply (Load_ignores_unreadable sample_env "PORT" "not-a-number"). vm_compute. reflexivity.
Defined.

(** ** Derived values *)

Lemma digits_no_separator l c :
  Forall (λ c, is_digit c = true) l → is_digit c = false → elem c l = false.
Proof.
  intros Hl Hc. unfold elem. induction Hl as [|a l Ha _ IH]; simpl; [done|].
  rewrite IH, orb_false_r. apply Ascii.eqb_neq. congruence.
Qed.

(** The address of the public listener names exactly the configured port: splitting it
    yields an empty host (every interface) and a decimal that reads back as the port. *)
Theorem Addr_roundtrip (c : Config) :
  valid c → ∃ port, SplitHostPort (Addr c) = Some ("", port) ∧ Atoi port = Some (Port c).
Proof.
  intros Hv. pose proof (v_port c Hv) as Hp. exists (FormatInt (Port c)).
  split; [|apply Atoi_FormatInt; lia]. unfold SplitHostPort, Addr.
  set (d := bytes (FormatInt (Port c))).
  assert (Hd : Forall (λ c, is_digit c = true) d).
  { subst d. unfold FormatInt. destruct (Z.ltb_spec (Port c) 0); [lia|].
    apply parse_unsigned_digits. lia. }
  change (bytes (":" +:+ FormatInt (Port c))) with (":"%char :: d).
  assert (E : cut_last ":" (":"%char :: d) = Some ([], d)).
  { apply cut_last_Some. split; [done|]. intros H. eapply Forall_forall in Hd; [|exact H]. done. }
  rewrite E. cbn [mbind option_bind].
  assert (Hno : ∀ x, x = "["%char ∨ x = "]"%char → elem x (":"%char :: d) = false).
  { intros x Hx. unfold elem. simpl. fold (elem x d). rewrite (digits_no_separator d x Hd);
      by destruct Hx as [->| ->]. }
  rewrite !Hno by auto. simpl. subst d. by rewrite text_bytes.
Qed.

Lemma valid_sample : valid sample_config.
Proof. apply Validate_iff. vm_compute. reflexivity. Qed.

Lemma Addr_roundtrip_witness :
  Addr sample_config = ":9000"
  ∧ ∃ port, SplitHostPort (Addr sample_config) = Some ("", port)
            ∧ Atoi port = Some (Port sample_config).
Proof. split; [vm_compute; reflexivity|]. exact (Addr_roundtrip sample_config valid_sample). Defined.

(** C39.  The configured window is the one in force up to 9223372036 seconds; beyond that the
    64-bit product wraps around, and a configuration [Load] accepts can end up with a window
    under a second. *)
Theorem config_Window_exact :
  (∀ c, valid c → config_Window c = WindowSizeSeconds c * Second ↔ WindowSizeSeconds c ≤ 9223372036)
  ∧ ∃ env c, Load env = inl c ∧ WindowSizeSeconds c = 18446744074 ∧ config_Window c = 290448384.
Proof.
  split.
  - intros c Hv. pose proof (v_window c Hv). unfold config_Window, Second. split.
    + intros E. pose proof (wrap64_range (WindowSizeSeconds c * 1000000000)). lia.
    + intros Hle. apply wrap64_id. lia.
  - exists {[ "WINDOW_SIZE_SECONDS" := "18446744074" ]}. eexists.
    split; [vm_compute; reflexivity|]. split; reflexivity.
Qed.

(** [Redact] hides the Redis password, all of it (configurations that differ in a password
    alone are logged alike, whatever its length), and changes nothing else: in particular the
    admin token stays readable. *)
Theorem Redact_spec (c : Config) (p q : string) :
  (p ≠ "" → q ≠ "" → Redact (with_password p c) = Redact (with_password q c))
  ∧ with_password (RedisPassword c) (Redact c) = c
  ∧ AdminToken (Redact c) = AdminToken c.
Proof.
  split; [|by destruct c]. intros Hp Hq. unfold Redact. simpl.
  by rewrite (proj2 (String.eqb_neq _ _) Hp), (proj2 (String.eqb_neq _ _) Hq).
Qed.

Lemma Redact_spec_witness :
  Redact (with_password "hunter2" sample_config) = Redact (with_password "s3" sample_config)
  ∧ RedisPassword (Redact (with_password "s3" sample_config)) = "***".
Proof.
  split; [|reflexivity]. apply (proj1 (Redact_spec sample_config "hunter2" "s3")); done.
Defined.

(** Two configurations that cannot work pass validation: an admin listener on the public
    port of one interface (the public listener holds the port on all of them), and an admin
    prefix that is a single dot, whose routes no cleaned request path can match. *)
Theorem Validate_gaps :
  (∃ env c, Load env = inl c ∧ AdminAddr c = "127.0.0.1:8080" ∧ Addr c = ":8080"
    ∧ SplitHostPort (AdminAddr c) = Some ("127.0.0.1", "8080"))
  ∧ ∃ env c, Load env = inl c ∧ AdminPrefix c = "/.".
Proof.
  split.
  - exists {[ "ADMIN_ADDR" := "127.0.0.1:8080" ]}. eexists.
    split; [vm_compute; reflexivity|]. split; [reflexivity|]. split; vm_compute; reflexivity.
  - exists {[ "ADMIN_PREFIX" := "." ]}. eexists. split; [vm_compute; reflexivity|reflexivity].
Qed.

(** Redis is off exactly when its address says so, in any case: an address [Load] hands out
    is never empty, so leaving the variable unset or blank selects the default server. *)
Theorem RedisEnabled_loaded (env : environment) (c : Config) :
  Load env = inl c → config_RedisEnabled c = negb (EqualFold (RedisAddr c) "disabled").
Proof.
  unfold Load. destruct (Validate (read_config env)); [done|]. intros [= <-].
  unfold config_RedisEnabled.
  assert (H : RedisAddr (read_config env) ≠ "") by by apply envString_nonempty.
  by rewrite (proj2 (String.eqb_neq _ _) H).
Qed.

Lemma RedisEnabled_loaded_witness :
  ∃ c, Load {[ "REDIS_ADDR" := "Disabled" ]} = inl c ∧ config_RedisEnabled c = false.
Proof.
  eexists. split; [vm_compute; reflexivity|].
  refine (eq_trans (RedisEnabled_loaded {[ "REDIS_ADDR" := "Disabled" ]} _ _) _);
    vm_compute; reflexivity.
Defined.
