(* ===== verification/Http.v ===== *)
(** * Requests and responses of the control plane

    What the handlers of internal/api read of a request and write to a response.  The body
    type of a response is a parameter, of which handlers only need the error documents. *)

From Stdlib Require Import Ascii SpecFloat.
From S2P Require Import Prelude.
From S2P Require Import GoStrings.
From S2P Require Import GoText.
From S2P Require Import GoFloat.
From S2P Require Import GoNet.

Open Scope Z_scope.

Definition StatusOK : Z := 200.
Definition StatusBadRequest : Z := 400.
Definition StatusUnauthorized : Z := 401.
Definition StatusForbidden : Z := 403.
Definition StatusNotFound : Z := 404.

(** [url.Values] *)
Abbreviation Values := (gmap string (list string)).

(** [Values.Get] *)
Definition get_value (v : Values) (key : string) : string :=
  match v !! key with Some (x :: _) => x | _ => "" end.

(** The path decoded and as it was sent.  The body is the bytes that arrive, and the error reading ends with if it is not their end. *)
Record request := MkRequest {
  Method : string;
  Path : string;
  EscapedPath : string;
  RawQuery : string;
  RHeader : Header;
  Body : list ascii;
  BodyErr : option string;
  RemoteAddr : string }.

(** The errors the handlers report, with what the code formats into their messages. *)
Inductive api_error :=
| EUnauthorized
| ENoEndpoint (path : string)
| EForm (err : string)
| EInteger (v : string)
| ENumber (v : string) (err : num_error)
| ENothing
| EJson (err : string)
| ERps (got : Z)
| EWindowSeconds (got : float64)
| ELocked
| EUrlRequired
| EUpstream (err : string).

Record response (B : Type) := MkResponse { status : Z; headers : list (string * string); body : B }.
Arguments MkResponse {B}. Arguments status {B}. Arguments headers {B}. Arguments body {B}.

(** The document {"error": code, "message": message}. *)
Class ErrorDocument (B : Type) := error_document : string → api_error → B.

(** [writeJSON] and [writeError]; [proxy.WriteJSON] encodes the document. *)
Definition writeJSON {B} (st : Z) (payload : B) : response B := MkResponse st [] payload.

Definition writeError {B} `{ErrorDocument B} (st : Z) (code : string) (err : api_error)
    : response B := MkResponse st [] (error_document code err).

(** A handler over a world [W]: its response and the world it leaves; [None] is a panic, or a
    call that has not returned. *)
Definition handler (W B : Type) : Type := request → W → option (response B * W).

(** ** [url.ParseQuery] *)

(** One "key=value"; [None] is an error, [Some None] nothing. *)
Definition parse_pair (p : list ascii) : option (option (string * string)) :=
  if elem ";" p then None
  else
    match p with
    | [] => Some None
    | _ =>
        let '(k, v) := match cut "=" p with Some kv => kv | None => (p, []) end in
        k ← unescape true k; v ← unescape true v; Some (Some (text k, text v))
    end.

Definition add_value (k v : string) (m : Values) : Values :=
  <[k := default [] (m !! k) ++ [v]]> m.

(** What could be parsed, and whether anything could not. *)
Definition ParseQuery (q : list ascii) : Values * bool :=
  foldl (λ '(m, err) p,
      match parse_pair p with
      | None => (m, true)
      | Some None => (m, err)
      | Some (Some (k, v)) => (add_value k v m, err)
      end) (∅, false) (split "&" q).

(** [r.URL.Query()] *)
Definition Query (r : request) : Values := (ParseQuery (bytes (RawQuery r))).1.

(** ** [http.Request.ParseForm] *)

(** The media type of a Content-Type: what precedes the parameters, in lower case.  Whether the
    whole is well formed is [mime]'s verdict, a parameter. *)
Definition media_type (ct : string) : string :=
  let l := match cut ";" (bytes ct) with Some (b, _) => b | None => bytes ct end in
  text (lower <$> bytes (TrimSpace (text l))).

(** [PostForm]: the body of an urlencoded POST, PUT or PATCH.  Other media types, multipart ones
    included, are left to other methods of the library and yield no values. *)
Definition ParseForm (mime : string → option string) (r : request) : Values + string :=
  let ct := Get (RHeader r) "Content-Type" in
  let ct := if String.eqb ct "" then "application/octet-stream" else ct in
  let post :=
    if one_of (Method r) ["POST"; "PUT"; "PATCH"] then
      match mime ct with
      | Some err => inr err
      | None =>
          if String.eqb (media_type ct) "application/x-www-form-urlencoded" then
            if 10485760 <? len (Body r) then inr "http: POST too large" else
            match BodyErr r with
            | Some err => inr err
            | None =>
                let '(m, err) := ParseQuery (Body r) in
                if err then inr "invalid URL escape or separator" else inl m
            end
          else inl ∅
      end
    else inl ∅ in
  match post with
  | inr err => inr err
  | inl m =>
      if (ParseQuery (bytes (RawQuery r))).2 then inr "invalid URL escape or separator" else inl m
  end.

(** ** [encoding/json]

    The text of a document is parsed by the library; how its values are stored into a structure
    is written out where the code relies on it. *)

#[warnings="-automation"]
Inductive json :=
| JNull
| JBool (b : bool)
| JNumber (literal : string)
| JString (s : string)
| JArray (l : list json)
| JObject (fields : list (string * json)).

(** Input that is no document, and input that ends before the document does. *)
Inductive json_error := Syntax (err : string) | Incomplete (err : string).

(** The first value of an input, or the error its scanner ends with. *)
Class JsonParser := json_first : list ascii → json + json_error.

(** A decoder over [http.MaxBytesReader]: the first document of the first [limit] bytes; if it is
    not complete there, what ended the reading. *)
Definition decode_body `{JsonParser} (limit : nat) (r : request) : json + string :=
  match json_first (take limit (Body r)) with
  | inl v => inl v
  | inr (Syntax err) => inr err
  | inr (Incomplete err) =>
      if (limit <? length (Body r))%nat then inr "http: request body too large"
      else inr (default err (BodyErr r))
  end.

(** A key names a field if they are equal up to case. *)
Definition names (key field : string) : bool := EqualFold key field.
