(* ===== verification/Auth.v ===== *)
(** * internal/api/auth.go: the admin token

    A caller presents the token in one of three headers; a guarded handler runs only then. *)

From Stdlib Require Import Ascii.
From S2P Require Import Prelude.
From S2P Require Import GoStrings.
From S2P Require Import GoText.
From S2P Require Import GoNet.
From S2P Require Import Http.

Open Scope Z_scope.

Definition authRealm : string := "rate-limiter admin".

Definition authEnabled (token : string) : bool := negb (String.eqb token "").

(** [subtle.ConstantTimeCompare]: the differences of all bytes are collected before any of them
    is looked at. *)
Definition ConstantTimeCompare (x y : list ascii) : Z :=
  if (length x =? length y)%nat then
    let v := foldl (λ v p, Z.lor v (Z.lxor (code p.1) (code p.2))) 0 (zip x y) in
    if v =? 0 then 1 else 0
  else 0.

Definition tokenEqual (got want : string) : bool :=
  ConstantTimeCompare (bytes got) (bytes want) =? 1.

Definition cutPrefixFold (s prefix : string) : string * bool :=
  let l := bytes s in
  let n := length (bytes prefix) in
  if (n <=? length l)%nat && EqualFold (text (take n l)) prefix
  then (text (drop n l), true) else (s, false).

Definition authorized (token : string) (h : Header) : bool :=
  if negb (authEnabled token) then true
  else
    let x := Get h "X-Admin-Token" in
    if negb (String.eqb x "") && tokenEqual x token then true
    else
      let a := Get h "Authorization" in
      let bearer :=
        if negb (String.eqb a "") then
          let '(rest, ok) := cutPrefixFold a "Bearer " in
          ok && tokenEqual (TrimSpace rest) token
        else false in
      if bearer then true
      else match BasicAuth h with Some (_, pass) => tokenEqual pass token | None => false end.

Definition quote : string := String (ascii_of_nat 34) "".

Section Guard.
Context {W B : Type} `{ErrorDocument B}.

Definition denyAuth : response B :=
  let challenge :=
    "Basic realm=" +:+ quote +:+ authRealm +:+ quote +:+ ", charset=" +:+ quote +:+ "UTF-8" +:+ quote in
  let resp := writeError StatusUnauthorized "unauthorized" EUnauthorized in
  MkResponse (status resp) (("WWW-Authenticate", challenge) :: headers resp) (body resp).

Definition guard (token : string) (h : handler W B) : handler W B :=
  λ r w, if negb (authorized token (RHeader r)) then Some (denyAuth, w) else h r w.

Definition GuardHandler (token : string) (next : handler W B) : handler W B :=
  λ r w, if negb (authorized token (RHeader r)) then Some (denyAuth, w) else next r w.

End Guard.

(** ** Lemmas *)

Lemma foldl_lor (l : list (ascii * ascii)) v :
  0 ≤ v →
  let r := foldl (λ v p, Z.lor v (Z.lxor (code p.1) (code p.2))) v l in
  0 ≤ r ∧ (r = 0 ↔ v = 0 ∧ Forall (λ p, p.1 = p.2) l).
Proof.
  revert v. induction l as [|[a b] l IH]; intros v Hv; simpl.
  { split; [done|]. split; [by intros ->|by intros [? _]]. }
  assert (Hx : 0 ≤ Z.lxor (code a) (code b)).
  { apply Z.lxor_nonneg. pose proof (code_range a). pose proof (code_range b). lia. }
  assert (Hor : 0 ≤ Z.lor v (Z.lxor (code a) (code b))) by by apply Z.lor_nonneg.
  destruct (IH _ Hor) as [Hr Hiff]. split; [exact Hr|]. rewrite Hiff, Z.lor_eq_0_iff, Z.lxor_eq_0_iff.
  rewrite Forall_cons. simpl. split.
  - intros [[-> Hc] Hl]. split; [done|]. split; [|done].
    by rewrite <- (byte_code a), <- (byte_code b), Hc.
  - intros [-> [-> Hl]]. done.
Qed.

(** The comparison accepts exactly the equal strings. *)
Lemma tokenEqual_spec got want : tokenEqual got want = true ↔ got = want.
Proof.
  unfold tokenEqual, ConstantTimeCompare.
  destruct (Nat.eqb_spec (length (bytes got)) (length (bytes want))) as [E|E].
  - destruct (foldl_lor (zip (bytes got) (bytes want)) 0 ltac:(lia)) as [_ Hiff].
    set (v := foldl _ _ _) in *. destruct (Z.eqb_spec v 0) as [Hv|Hv]; (split; [|intros ->]); try done.
    + intros _. apply Hiff in Hv as [_ HF]. apply bytes_inj.
      apply list_eq_same_length with (length (bytes got)); [done|done|].
      intros i x y _ Hx Hy. apply (Forall_lookup_1 _ _ i (x, y) HF).
      apply lookup_zip_with_Some. by exists x, y.
    + exfalso. apply Hv, Hiff. split; [done|]. apply Forall_lookup. intros i [a b].
      intros (x & y & [= -> ->] & Hx & Hy)%lookup_zip_with_Some. simpl. congruence.
  - split; [done|]. by intros ->.
Qed.

(** The prefix is matched in any case and cut off whole. *)
Lemma cutPrefixFold_spec s p r :
  Forall (λ c, lower c ≠ "s"%char ∧ lower c ≠ "k"%char) (bytes p) →
  cutPrefixFold s p = (r, true) ↔
  ∃ q, s = q +:+ r ∧ lower <$> bytes q = lower <$> bytes p.
Proof.
  intros Hp. unfold cutPrefixFold, EqualFold. rewrite bytes_text.
  set (n := length (bytes p)). set (l := bytes s).
  destruct (Nat.leb_spec n (length l)) as [Hn|Hn]; simpl.
  - destruct (equal_fold (take n l) (bytes p)) eqn:E.
    + apply equal_fold_lower in E; [|done]. split.
      * intros [= <-]. exists (text (take n l)). rewrite bytes_text. split; [|done].
        apply bytes_inj. by rewrite bytes_app, !bytes_text, take_drop.
      * intros (q & Hs & Hq). f_equal. apply bytes_inj. rewrite bytes_text. subst l.
        rewrite Hs, bytes_app. apply (f_equal length) in Hq. rewrite !length_fmap in Hq.
        subst n. by rewrite <- Hq, drop_app_length.
    + split; [done|]. intros (q & Hs & Hq). pose proof Hq as Hlen.
      apply (f_equal length) in Hlen. rewrite !length_fmap in Hlen. exfalso.
      apply not_true_iff_false in E. apply E. apply equal_fold_lower; [done|].
      subst l n. by rewrite Hs, bytes_app, <- Hlen, take_app_length.
  - split; [done|]. intros (q & Hs & Hq). exfalso. apply (f_equal length) in Hq.
    rewrite !length_fmap in Hq. subst l n. rewrite Hs, bytes_app, length_app in Hn. lia.
Qed.

Lemma bearer_folds : Forall (λ c, lower c ≠ "s"%char ∧ lower c ≠ "k"%char) (bytes "Bearer ").
Proof. eapply bool_decide_unpack; vm_compute; exact I. Qed.

Lemma authorized_spec token h :
  authorized token h = true ↔
  token = ""
  ∨ Get h "X-Admin-Token" = token
  ∨ (∃ scheme rest, Get h "Authorization" = scheme +:+ rest
      ∧ lower <$> bytes scheme = bytes "bearer " ∧ TrimSpace rest = token)
  ∨ ∃ user, BasicAuth h = Some (user, token).
Proof.
  unfold authorized, authEnabled. destruct (String.eqb_spec token "") as [->|Ht]; simpl.
  { split; [by left|done]. }
  set (x := Get h "X-Admin-Token"). set (a := Get h "Authorization").
  assert (Hx : negb (String.eqb x "") && tokenEqual x token = true ↔ x = token).
  { rewrite andb_true_iff, negb_true_iff, String.eqb_neq, tokenEqual_spec.
    split; [by intros []|]. intros ->. done. }
  destruct (negb (String.eqb x "") && tokenEqual x token).
  { split; [|done]. intros _. right; left. by apply Hx. }
  assert (Hx' : x ≠ token) by (intros E; by apply Hx in E). clear Hx.
  set (bearer := if negb (String.eqb a "") then _ else false).
  assert (Hb : bearer = true ↔ ∃ scheme rest, a = scheme +:+ rest
                 ∧ lower <$> bytes scheme = bytes "bearer " ∧ TrimSpace rest = token).
  { subst bearer. destruct (cutPrefixFold a "Bearer ") as [rest ok] eqn:Ec. split.
    - destruct (negb (String.eqb a "")); [|done].
      intros [-> Hr]%andb_true_iff. apply tokenEqual_spec in Hr.
      apply cutPrefixFold_spec in Ec as (q & -> & Hq); [|exact bearer_folds].
      exists q, rest. done.
    - intros (q & r & Ha & Hq & Hr).
      assert (Ec' : cutPrefixFold a "Bearer " = (r, true)).
      { apply cutPrefixFold_spec; [exact bearer_folds|]. by exists q. }
      rewrite Ec in Ec'. injection Ec' as -> ->.
      assert (Hne : a ≠ "").
      { intros E. rewrite E in Ha. destruct q; [done|done]. }
      rewrite (proj2 (String.eqb_neq _ _) Hne). simpl. by apply tokenEqual_spec. }
  destruct bearer.
  { split; [|done]. intros _. do 2 right; left. by apply Hb. }
  destruct (BasicAuth h) as [[user pass]|].
  - rewrite tokenEqual_spec. split.
    + intros ->. do 3 right. by exists user.
    + intros [?|[?|[H|(u & [= _ ->])]]]; [done|done| |done]. by apply Hb in H.
  - split; [done|]. intros [?|[?|[H|(u & ?)]]]; [done|done| |done]. by apply Hb in H.
Qed.

Lemma guard_open {W B} `{ErrorDocument B} token (h : handler W B) r w :
  authorized token (RHeader r) = true → guard token h r w = h r w.
Proof. unfold guard. by intros ->. Qed.

Lemma guard_closed {W B} `{ErrorDocument B} token (h : handler W B) r w :
  authorized token (RHeader r) = false → guard token h r w = Some (denyAuth, w).
Proof. unfold guard. by intros ->. Qed.

(** ** Properties *)

(** C11.  A request is let in exactly when no token is configured or it presents the token in one
    of the three documented ways: the X-Admin-Token header, a bearer credential (the scheme in
    any case, spaces around the token ignored), or the password of HTTP Basic credentials with
    any user name.  Nothing else lets a request in, whatever its headers hold. *)
Theorem authorized_iff (token : string) (h : Header) :
  authorized token h = true ↔
  token = ""
  ∨ Get h "X-Admin-Token" = token
  ∨ (∃ scheme rest, Get h "Authorization" = scheme +:+ rest
      ∧ lower <$> bytes scheme = bytes "bearer " ∧ TrimSpace rest = token)
  ∨ ∃ user, BasicAuth h = Some (user, token).
Proof. apply authorized_spec. Qed.

(** C30.  The header a client builds for a configured token (which carries no surrounding space,
    as loaded from the environment) is accepted: the token itself in X-Admin-Token, after
    "Bearer " or "bearer ", or base64-encoded behind any user name without a colon, even if the
    token contains colons or bytes that are not text. *)
Theorem credentials_roundtrip (token user : string) (h : Header) :
  TrimSpace token = token → ":"%char ∉ bytes user →
  authorized token (<["X-Admin-Token" := [token]]> h) = true
  ∧ authorized token (<["Authorization" := ["Bearer " +:+ token]]> h) = true
  ∧ authorized token (<["Authorization" := ["bearer " +:+ token]]> h) = true
  ∧ authorized token (<["Authorization" := [basic_credentials user token]]> h) = true.
Proof.
  intros Ht Hu. split; [|split; [|split]]; apply authorized_spec.
  - right; left. unfold Get. by rewrite lookup_insert_eq.
  - do 2 right; left. exists "Bearer ", token. unfold Get. by rewrite lookup_insert_eq.
  - do 2 right; left. exists "bearer ", token. unfold Get. by rewrite lookup_insert_eq.
  - do 3 right. exists user. unfold BasicAuth, Get. rewrite lookup_insert_eq.
    rewrite parseBasicAuth_credentials by done. done.
Qed.

Lemma credentials_roundtrip_witness :
  authorized "s:3" (<["Authorization" := [basic_credentials "anything" "s:3"]]> ∅) = true
  ∧ authorized "s:3" (<["Authorization" := ["Basic c2FtOnM6NA=="]]> ∅) = false.
Proof.
  split; [|vm_compute; reflexivity].
  refine (proj2 (proj2 (proj2 (credentials_roundtrip "s:3" "anything" ∅ _ _)))).
  - vm_compute. reflexivity.
  - eapply bool_decide_unpack. vm_compute. exact I.
Defined.
