(* ===== verification/Api.v ===== *)
(** * internal/api/api.go: the control plane

    The handlers as functions of a request and of the world they act on: the manager, the
    in-memory limiter, the metrics, the hub, the proxy and the shared stores.  Clock readings,
    iteration orders, what the network does to a command and the pages of a Redis scan are
    inputs.  internal/proxy is not in the repository: what the handlers use of it is a class.
    Logging is left out. *)

From Stdlib Require Import Ascii SpecFloat.
From S2P Require Import Prelude.
From S2P Require Import GoTime.
From S2P Require Import GoStrings.
From S2P Require Import GoText.
From S2P Require Import GoFloat.
From S2P Require Import GoNet.
From S2P Require Import Memory.
From S2P Require Import RedisServer.
From S2P Require Import Redis.
From S2P Require Import Service.
From S2P Require Import Metrics.
From S2P Require Import Hub.
From S2P Require Import Stores.
From S2P Require Import Breaker.
From S2P Require Import Policy.
From S2P Require Import Http.
From S2P Require Import Auth.

Open Scope Z_scope.

(** ** internal/proxy, as far as the control plane uses it

    [P] is [proxy.Handler], [U] is [proxy.Upstream]; [NewUpstream] builds a target from a URL or
    refuses it. *)
Class ProxyPackage (P U : Type) := {
  current : P → option U;
  SetUpstream : U → P → P;
  NewUpstream : string → Duration → U + string;
  Target : U → string;
  RawURL : U → string;
  Mock : U → bool }.

(** The handler serves from the target it was last given. *)
Class ProxyLaws (P U : Type) `{ProxyPackage P U} : Prop :=
  current_SetUpstream (u : U) (p : P) : current (SetUpstream u p) = Some u.

(** ** Views *)

Record PolicyView := MkPolicyView {
  RPS : Z; WindowSeconds : float64; ViewLimit : Z; EffectiveRPS : float64 }.

Definition policyView (p : Policy) : PolicyView :=
  let secs := Seconds (Window p) in
  let eff := float (Limit p) in
  let eff := if SFltb (S754_zero false) secs then fdiv (float (Limit p)) secs else eff in
  MkPolicyView (Limit p) secs (Limit p) eff.

Record UpstreamView := MkUpstreamView {
  UTarget : string; URawURL : string; UMock : bool; Editable : bool }.

Record StatsPayload := MkStatsPayload {
  Timestamp : Z;
  Version : string;
  SPolicy : PolicyView;
  Traffic : Metrics.Snapshot;
  SLimiter : Service.Stats;
  SUpstream : string;
  Subscribers : Z }.

(** [FleetNote]: empty, or why the fleet's view is missing. *)
Inductive fleet_note := NoNote | Unavailable (err : redis_error) | ServingFallback.

Record ClientsResponse := MkClientsResponse {
  CRPolicy : PolicyView;
  CTotal : Z;
  Rows : list ClientView;
  Fleet : option (gmap string Z);
  FleetNote : fleet_note }.

(** The document of [handleHealth]. *)
Record HealthPayload := MkHealth {
  HVersion : string;
  Uptime : float64;
  HBackend : string;
  HRedisEnabled : bool;
  HRedisHealthy : bool;
  HDegraded : bool }.

Inductive payload :=
| PError (code : string) (err : api_error)
| PStats (p : StatsPayload)
| PHealth (h : HealthPayload)
| PReady
| PPolicy (v : PolicyView)
| PPolicySet (v : PolicyView) (shared : bool) (share_error : option store_error)
| PClients (r : ClientsResponse)
| PReset (redis_keys_deleted : Z) (note : option redis_error)
| PUpstream (v : UpstreamView)
| PUpstreamSet (v : UpstreamView) (shared : bool) (share_error : option store_error)
| PStream (sub : nat).

#[export] Instance payload_error : ErrorDocument payload := PError.

(** ** The server *)

Record Server (U : Type) := MkServer {
  s_redis : option RedisLimiter;
  s_store : option PolicyStore;
  s_upstream : option U;
  s_upstreamStore : option UpstreamStore;
  s_upstreamTimeout : Duration;
  s_upstreamEditable : bool;
  s_token : string;
  s_version : string;
  s_started : Time }.
Arguments MkServer {U}.
Arguments s_redis {U}. Arguments s_store {U}. Arguments s_upstream {U}.
Arguments s_upstreamStore {U}. Arguments s_upstreamTimeout {U}. Arguments s_upstreamEditable {U}.
Arguments s_token {U}. Arguments s_version {U}. Arguments s_started {U}.

(** What the handlers act on; [B] is the encoding of a shared policy. *)
Record world (P B : Type) := MkWorld {
  w_manager : Manager;
  w_memory : MemoryLimiter;
  w_metrics : Collector;
  w_hub : Hub (list ascii);
  w_proxy : option P;
  w_policies : Stores.server B;
  w_upstreams : Stores.server string }.
Arguments MkWorld {P B}.
Arguments w_manager {P B}. Arguments w_memory {P B}. Arguments w_metrics {P B}.
Arguments w_hub {P B}. Arguments w_proxy {P B}. Arguments w_policies {P B}.
Arguments w_upstreams {P B}.

Section Updates.
Context {P B : Type}.
Implicit Types w : world P B.

Definition set_manager m w : world P B :=
  MkWorld m (w_memory w) (w_metrics w) (w_hub w) (w_proxy w) (w_policies w) (w_upstreams w).
Definition set_memory m w : world P B :=
  MkWorld (w_manager w) m (w_metrics w) (w_hub w) (w_proxy w) (w_policies w) (w_upstreams w).
Definition set_metrics c w : world P B :=
  MkWorld (w_manager w) (w_memory w) c (w_hub w) (w_proxy w) (w_policies w) (w_upstreams w).
Definition set_hub h w : world P B :=
  MkWorld (w_manager w) (w_memory w) (w_metrics w) h (w_proxy w) (w_policies w) (w_upstreams w).
Definition set_proxy p w : world P B :=
  MkWorld (w_manager w) (w_memory w) (w_metrics w) (w_hub w) p (w_policies w) (w_upstreams w).
Definition set_policies s w : world P B :=
  MkWorld (w_manager w) (w_memory w) (w_metrics w) (w_hub w) (w_proxy w) s (w_upstreams w).
Definition set_upstreams s w : world P B :=
  MkWorld (w_manager w) (w_memory w) (w_metrics w) (w_hub w) (w_proxy w) (w_policies w) s.

End Updates.

(** [Options]; the manager comes with its two limiters. *)
Record Options (P U B : Type) := MkOptions {
  o_limiter : option (Manager * option RedisLimiter * MemoryLimiter);
  o_metrics : option Collector;
  o_hub : option (Hub (list ascii));
  o_store : option PolicyStore;
  o_upstream : option U;
  o_proxy : option P;
  o_upstreamStore : option UpstreamStore;
  o_upstreamTimeout : Duration;
  o_upstreamEditable : bool;
  o_token : string;
  o_version : string }.
Arguments MkOptions {P U B}.
Arguments o_limiter {P U B}. Arguments o_metrics {P U B}. Arguments o_hub {P U B}.
Arguments o_store {P U B}. Arguments o_upstream {P U B}. Arguments o_proxy {P U B}.
Arguments o_upstreamStore {P U B}. Arguments o_upstreamTimeout {P U B}.
Arguments o_upstreamEditable {P U B}. Arguments o_token {P U B}. Arguments o_version {P U B}.

(** [New], with the shared stores it will meet. *)
Definition New {P U B} (o : Options P U B) (policies : Stores.server B)
    (upstreams : Stores.server string) (now : Time) : (Server U * world P B) + string :=
  match o_limiter o with
  | None => inr "api: limiter is required"
  | Some (m, redis, mem) =>
      match o_metrics o with
      | None => inr "api: metrics collector is required"
      | Some c =>
          let hub := match o_hub o with Some h => h | None => NewHub 8 end in
          let version := if String.eqb (o_version o) "" then "dev" else o_version o in
          inl (MkServer redis (o_store o) (o_upstream o) (o_upstreamStore o)
                 (o_upstreamTimeout o) (o_upstreamEditable o) (o_token o) version now,
               MkWorld m mem c hub (o_proxy o) policies upstreams)
      end
  end.

(** What the environment decides during one request: the clock, the orders in which the client
    table and the in-memory limiter are ranged over, what becomes of the SET and the PUBLISH of a
    save, and the pages of the scans. *)
Record inputs := MkInputs {
  i_now : Time;
  i_clients : list string;
  i_keys : list string;
  i_set : Stores.command;
  i_publish : Stores.command;
  i_scan : list (scan_page (list Z));
  i_delete : list (scan_page Z) }.

(** ** Decoding a policy update *)

Record policyRequest := MkPolicyRequest { r_rps : option Z; r_window : option float64 }.

(** A value stored into an [*int] or a [*float64]: null leaves the pointer nil, and [None] is an
    error. *)
Definition json_int (v : json) : option (option Z) :=
  match v with
  | JNull => Some None
  | JNumber l => Some <$> Atoi l
  | _ => None
  end.

Definition json_float (v : json) : option (option float64) :=
  match v with
  | JNull => Some None
  | JNumber l => match ParseFloat l with inl f => Some (Some f) | inr _ => None end
  | _ => None
  end.

(** One field of the document: the last of several with one name counts, and an unknown name is
    an error ([DisallowUnknownFields]). *)
Definition policy_field (st : policyRequest * bool) (f : string * json) : policyRequest * bool :=
  let '(req, ok) := st in
  let '(key, v) := f in
  if names key "rps" then
    match json_int v with
    | Some n => (MkPolicyRequest n (r_window req), ok)
    | None => (req, false)
    end
  else if names key "window_seconds" then
    match json_float v with
    | Some f => (MkPolicyRequest (r_rps req) f, ok)
    | None => (req, false)
    end
  else (req, false).

Definition policy_of_json (v : json) : policyRequest + string :=
  match v with
  | JNull => inl (MkPolicyRequest None None)
  | JObject fields =>
      let '(req, ok) := foldl policy_field (MkPolicyRequest None None, true) fields in
      if ok then inl req else inr "unknown field or wrong type"
  | _ => inr "cannot unmarshal into policyRequest"
  end.

Section Decoding.
Context `{JsonParser} (mime : string → option string).

Definition is_form (ct : string) : bool :=
  HasPrefix ct "application/x-www-form-urlencoded" || HasPrefix ct "multipart/form-data".

(** The two sources end with the same test. *)
Definition some_field (req : policyRequest) : policyRequest + api_error :=
  match r_rps req, r_window req with
  | None, None => inr ENothing
  | _, _ => inl req
  end.

Definition policy_of_form (form : Values) : policyRequest + api_error :=
  let v := get_value form "rps" in
  let w := get_value form "window_seconds" in
  match (if String.eqb v "" then Some None else Some <$> Atoi v) with
  | None => inr (EInteger v)
  | Some rps =>
      if String.eqb w "" then some_field (MkPolicyRequest rps None)
      else
        match ParseFloat w with
        | inr err => inr (ENumber w err)
        | inl f => some_field (MkPolicyRequest rps (Some f))
        end
  end.

Definition decodePolicyRequest (r : request) : policyRequest + api_error :=
  if is_form (Get (RHeader r) "Content-Type") then
    match ParseForm mime r with
    | inr err => inr (EForm err)
    | inl form => policy_of_form form
    end
  else
    match decode_body 4096 r with
    | inr err => inr (EJson err)
    | inl v =>
        match policy_of_json v with
        | inr err => inr (EJson err)
        | inl req => some_field req
        end
    end.

(** ** Decoding an upstream change *)

(** Null leaves a string as it is. *)
Definition upstream_field (st : string * bool) (f : string * json) : string * bool :=
  let '(url, ok) := st in
  let '(key, v) := f in
  if names key "url" then
    match v with
    | JNull => (url, ok)
    | JString s => (s, ok)
    | _ => (url, false)
    end
  else (url, false).

Definition upstream_of_json (v : json) : string + string :=
  match v with
  | JNull => inl ""
  | JObject fields =>
      let '(url, ok) := foldl upstream_field ("", true) fields in
      if ok then inl url else inr "unknown field or wrong type"
  | _ => inr "cannot unmarshal into upstreamRequest"
  end.

Definition required_url (v : string) : string + api_error :=
  let v := TrimSpace v in if String.eqb v "" then inr EUrlRequired else inl v.

Definition decodeUpstreamRequest (r : request) : string + api_error :=
  if is_form (Get (RHeader r) "Content-Type") then
    match ParseForm mime r with
    | inr err => inr (EForm err)
    | inl form => required_url (get_value form "url")
    end
  else
    match decode_body 4096 r with
    | inr err => inr (EJson err)
    | inl v =>
        match upstream_of_json v with
        | inr err => inr (EJson err)
        | inl url => required_url url
        end
    end.

End Decoding.

Definition validatePolicy (p : Policy) : option api_error :=
  if (Limit p <? 1) || (1000000 <? Limit p) then Some (ERps (Limit p))
  else if (Window p <? Second) || (Hour <? Window p) then Some (EWindowSeconds (Seconds (Window p)))
  else None.

(** ** The handlers *)

Section Handlers.
Context {P U B : Type} `{ProxyPackage P U} `{Codec B} `{JsonParser}.
Context (mime : string → option string) (other : float64 → Z) (s : Server U).
Implicit Types w : world P B.

Definition currentUpstream w : option U :=
  match w_proxy w with
  | Some p => match current p with Some u => Some u | None => s_upstream s end
  | None => s_upstream s
  end.

Definition upstreamView w : UpstreamView :=
  let editable := s_upstreamEditable s && is_some (w_proxy w) in
  match currentUpstream w with
  | Some u => MkUpstreamView (Target u) (RawURL u) (Mock u) editable
  | None => MkUpstreamView "" "" false editable
  end.

(** [m.Stats()] of the manager in the world. *)
Definition manager_stats w : Service.Stats :=
  Service.stats (is_some (s_redis s)) (w_memory w) (w_manager w).

Definition Snapshot_ (i : inputs) w : StatsPayload :=
  let upstream :=
    match w_proxy w with
    | Some p =>
        match current p with
        | Some u => Target u
        | None => match s_upstream s with Some u => Target u | None => "unconfigured" end
        end
    | None => match s_upstream s with Some u => Target u | None => "unconfigured" end
    end in
  MkStatsPayload (UnixMilli (i_now i)) (s_version s) (policyView (policy (w_manager w)))
    (Metrics.snapshot (i_clients i) 50 (i_now i) (w_metrics w))
    (manager_stats w) upstream (Hub.Len (w_hub w)).

Definition handleStats (i : inputs) : handler (world P B) payload :=
  λ _ w, Some (writeJSON StatusOK (PStats (Snapshot_ i w)), w).

Definition handleHealth (i : inputs) : handler (world P B) payload :=
  λ _ w,
    let st := manager_stats w in
    Some (writeJSON StatusOK
      (PHealth (MkHealth (s_version s) (Seconds (Sub (i_now i) (s_started s)))
         (Service.StatsBackend st) (Service.RedisEnabled st) (Service.RedisHealthy st)
         (Service.Degraded st))), w).

Definition handleReady : handler (world P B) payload :=
  λ _ w, Some (writeJSON StatusOK PReady, w).

Definition handlePolicyGet : handler (world P B) payload :=
  λ _ w, Some (writeJSON StatusOK (PPolicy (policyView (policy (w_manager w)))), w).

(** The policy an update asks for, over the one in force. *)
Definition policy_next (req : policyRequest) (p : Policy) : Policy :=
  let p := match r_rps req with Some n => MkPolicy n (Window p) | None => p end in
  match r_window req with
  | Some f => MkPolicy (Limit p) (to_int64 other (fmul f (float Second)))
  | None => p
  end.

(** [handlePolicySet] once the policy in force has been read and [next] computed. *)
Definition policy_commit (i : inputs) (next : Policy) w : response payload * world P B :=
  match validatePolicy next with
  | Some err => (writeError StatusBadRequest "invalid_policy" err, w)
  | None =>
      let '(applied, m) := SetPolicy next (w_manager w) in
      let w := set_manager m w in
      match s_store s with
      | None => (writeJSON StatusOK (PPolicySet (policyView applied) false None), w)
      | Some st =>
          let '(err, srv) :=
            policy_Save (i_set i) (i_publish i) applied (i_now i) st (w_policies w) in
          (writeJSON StatusOK (PPolicySet (policyView applied) (negb (is_some err)) err),
           set_policies srv w)
      end
  end.

Definition handlePolicySet (i : inputs) : handler (world P B) payload :=
  λ r w,
    match decodePolicyRequest mime r with
    | inr err => Some (writeError StatusBadRequest "invalid_request" err, w)
    | inl req => Some (policy_commit i (policy_next req (policy (w_manager w))) w)
    end.

(** The number of rows asked for. *)
Definition clients_limit (r : request) : Z :=
  match Atoi (get_value (Query r) "limit") with
  | Some n => if (0 <? n) && (n <=? 500) then n else 50
  | None => 50
  end.

Definition handleClients (i : inputs) : handler (world P B) payload :=
  λ r w,
    let '(rows, total) := Metrics.Clients (i_clients i) (i_now i) (clients_limit r) (w_metrics w) in
    let resp := MkClientsResponse (policyView (policy (w_manager w))) total rows in
    match s_redis s with
    | Some rl =>
        if degraded (w_manager w)
        then Some (writeJSON StatusOK (PClients (resp None ServingFallback)), w)
        else
          match ActiveKeys rl 200 (i_scan i) with
          | None => None
          | Some (inr err) => Some (writeJSON StatusOK (PClients (resp None (Unavailable err))), w)
          | Some (inl fleet) => Some (writeJSON StatusOK (PClients (resp (Some fleet) NoNote)), w)
          end
    | None => Some (writeJSON StatusOK (PClients (resp None ServingFallback)), w)
    end.

Definition handleClientsReset (i : inputs) : handler (world P B) payload :=
  λ _ w,
    let w := set_metrics (Metrics.ResetClients (i_clients i) (w_metrics w)) w in
    let w := set_memory (Memory.Reset (i_keys i) (w_memory w)) w in
    match s_redis s with
    | None => Some (writeJSON StatusOK (PReset 0 None), w)
    | Some _ =>
        match Redis.Reset (i_delete i) with
        | None => None
        | Some (n, err) => Some (writeJSON StatusOK (PReset n err), w)
        end
    end.

Definition handleUpstreamGet : handler (world P B) payload :=
  λ _ w, Some (writeJSON StatusOK (PUpstream (upstreamView w)), w).

Definition handleUpstreamSet (i : inputs) : handler (world P B) payload :=
  λ r w,
    match w_proxy w with
    | None => Some (writeError StatusForbidden "upstream_locked" ELocked, w)
    | Some p =>
        if negb (s_upstreamEditable s)
        then Some (writeError StatusForbidden "upstream_locked" ELocked, w) else
        match decodeUpstreamRequest mime r with
        | inr err => Some (writeError StatusBadRequest "invalid_request" err, w)
        | inl rawURL =>
            match NewUpstream rawURL (s_upstreamTimeout s) with
            | inr err => Some (writeError StatusBadRequest "invalid_upstream" (EUpstream err), w)
            | inl up =>
                let w := set_proxy (Some (SetUpstream up p)) w in
                match s_upstreamStore s with
                | None => Some (writeJSON StatusOK (PUpstreamSet (upstreamView w) false None), w)
                | Some st =>
                    let '(err, srv) :=
                      upstream_Save (i_set i) (i_publish i) (RawURL up) st (w_upstreams w) in
                    let w := set_upstreams srv w in
                    Some (writeJSON StatusOK
                            (PUpstreamSet (upstreamView w) (negb (is_some err)) err), w)
                end
            end
        end
    end.

(** [handleStream] up to its subscription: the head of the response, which goes on with the
    frames of [sub].  What follows, to the unsubscription, is the machine of Sse.v. *)
Definition stream_head (sub : nat) : response payload :=
  MkResponse StatusOK
    [("Content-Type", "text/event-stream; charset=utf-8");
     ("Cache-Control", "no-cache, no-transform");
     ("Connection", "keep-alive");
     ("X-Accel-Buffering", "no")] (PStream sub).

Definition open_stream w : option (nat * world P B) :=
  '(sub, h) ← Subscribe (w_hub w); Some (sub, set_hub h w).

Definition startStream : handler (world P B) payload :=
  λ _ w, '(sub, w) ← open_stream w; Some (stream_head sub, w).

(** ** Routing *)

Inductive endpoint :=
| Health | Ready | StatsDoc | Stream | PolicyGet | PolicySet | ClientsList | ClientsReset
| UpstreamGet | UpstreamSet | NoEndpoint.

(** A route either goes to its handler or through [guard]. *)
Inductive target := Open (e : endpoint) | Guarded (e : endpoint).

Definition on (m path : string) (t : target) : pattern * target := (MkPattern (Some m) path, t).

Definition Register (prefix : string) : list (pattern * target) :=
  let p := TrimSuffix prefix "/" in
  [on "GET" (p +:+ "/api/health") (Open Health);
   on "GET" (p +:+ "/healthz") (Open Health);
   on "GET" (p +:+ "/readyz") (Open Ready);
   on "GET" (p +:+ "/api/stats") (Guarded StatsDoc);
   on "GET" (p +:+ "/api/stream") (Guarded Stream);
   on "GET" (p +:+ "/api/policy") (Guarded PolicyGet);
   on "PUT" (p +:+ "/api/policy") (Guarded PolicySet);
   on "POST" (p +:+ "/api/policy") (Guarded PolicySet);
   on "GET" (p +:+ "/api/clients") (Guarded ClientsList);
   on "POST" (p +:+ "/api/clients/reset") (Guarded ClientsReset);
   on "GET" (p +:+ "/api/upstream") (Guarded UpstreamGet);
   on "PUT" (p +:+ "/api/upstream") (Guarded UpstreamSet);
   on "POST" (p +:+ "/api/upstream") (Guarded UpstreamSet);
   (MkPattern None (p +:+ "/api/"), Open NoEndpoint)].

Definition endpoint_handler (i : inputs) (e : endpoint) : handler (world P B) payload :=
  match e with
  | Health => handleHealth i
  | Ready => handleReady
  | StatsDoc => handleStats i
  | Stream => startStream
  | PolicyGet => handlePolicyGet
  | PolicySet => handlePolicySet i
  | ClientsList => handleClients i
  | ClientsReset => handleClientsReset i
  | UpstreamGet => handleUpstreamGet
  | UpstreamSet => handleUpstreamSet i
  | NoEndpoint => λ r w, Some (writeError StatusNotFound "not_found" (ENoEndpoint (Path r)), w)
  end.

Definition serve_target (i : inputs) (t : target) : handler (world P B) payload :=
  match t with
  | Open e => endpoint_handler i e
  | Guarded e => guard (s_token s) (endpoint_handler i e)
  end.

End Handlers.

(** ** Samples for the examples *)

(** A proxy that takes http URLs only. *)
#[export] Instance sample_proxy : ProxyPackage (option string) string := {|
  current := id;
  SetUpstream := λ u _, Some u;
  NewUpstream := λ url _, if HasPrefix url "http://" then inl url else inr "unsupported scheme";
  Target := id;
  RawURL := id;
  Mock := λ _, false |}.

#[export] Instance sample_proxy_laws : ProxyLaws (option string) string.
Proof. done. Qed.

(** A parser of the two documents the examples send. *)
Definition doc_rps : list ascii := bytes "{rps:7}".
Definition doc_window : list ascii := bytes "{window_seconds:1.001}".
Definition doc_url : list ascii := bytes "{url: http://b:2 }".

#[export] Instance sample_parser : JsonParser := λ l,
  if bool_decide (l = doc_rps) then inl (JObject [("rps", JNumber "7")])
  else if bool_decide (l = doc_window) then inl (JObject [("window_seconds", JNumber "1.001")])
  else if bool_decide (l = doc_url) then inl (JObject [("url", JString " http://b:2 ")])
  else inr (Incomplete "unexpected EOF").

Definition sample_server : Server string :=
  MkServer None (Some (NewPolicyStore "rl:")) (Some "mock://internal") (Some (NewUpstreamStore "rl:"))
    (30 * Second) true "s3cret" "dev" (Unix0 0).

Definition sample_world : world (option string) (option policyDoc) :=
  MkWorld (NewManager false (withDefaults (MkConfig 0 0 0 0 (MkPolicy 10 Second))))
    NewMemoryLimiter (NewCollector 60 0 (Unix0 0)) (NewHub 8) (Some (Some "http://a:1"))
    (Stores.MkServer ∅ []) (Stores.MkServer ∅ []).

Definition quiet : inputs := MkInputs (Unix0 (10 * Second)) [] [] Executed Executed [] [].

Definition json_put (path : string) (b : list ascii) : request :=
  MkRequest "PUT" path path "" {[ "Content-Type" := ["application/json"] ]} b None "10.0.0.1:5".
