(* ===== verification/Dashboard.v ===== *)
(** * internal/dashboard/dashboard.go: the embedded page

    The page is a constant of the binary and [http.ServeContent], which answers conditional and
    range requests, a parameter; the routes and the headers that lock the page down are the
    program's own. *)

From Stdlib Require Import Ascii.
From S2P Require Import Prelude.
From S2P Require Import GoTime.
From S2P Require Import GoStrings.
From S2P Require Import GoText.
From S2P Require Import GoNet.
From S2P Require Import Http.

Open Scope Z_scope.

Definition dashboard_Path : string := "/dashboard".

Definition page_headers : list (string * string) :=
  [("Content-Type", "text/html; charset=utf-8");
   ("X-Content-Type-Options", "nosniff");
   ("Cache-Control", "no-cache");
   ("Referrer-Policy", "same-origin");
   ("Content-Security-Policy",
    "default-src 'none'; script-src 'unsafe-inline'; style-src 'unsafe-inline'; connect-src 'self'; img-src data:; base-uri 'none'; form-action 'none'")].

(** [Handler]: an error if the page cannot be read, else a handler that sets its headers and
    serves the page as of the instant it was built. *)
Definition dashboard_Handler {W B} (ServeContent : request → string → Time → list ascii → response B)
    (page : list ascii + string) (now : Time) : handler W B + string :=
  match page with
  | inr err => inr err
  | inl page =>
      inl (λ r w,
        let resp := ServeContent r "index.html" now page in
        Some (MkResponse (status resp) (page_headers ++ headers resp) (body resp), w))
  end.

(** [Register] *)
Definition dashboard_routes {H} (prefix : string) (h : H) : list (pattern * H) :=
  let p := TrimSuffix prefix "/" in
  [(MkPattern (Some "GET") (p +:+ dashboard_Path), h);
   (MkPattern (Some "GET") (p +:+ dashboard_Path +:+ "/"), h)].
