(* ===== verification/ApiProps.v ===== *)
(** * internal/api/api.go: correctness

    Routing and authorisation, what an update of the policy does on every branch, and what each
    endpoint may touch. *)

From Stdlib Require Import Ascii SpecFloat.
From S2P Require Import Prelude.
From S2P Require Import GoTime.
From S2P Require Import GoStrings.
From S2P Require Import GoText.
From S2P Require Import GoFloat.
From S2P Require Import GoNet.
From S2P Require Import Memory.
From S2P Require Import Redis.
From S2P Require Import Metrics.
From S2P Require Import Hub.
From S2P Require Import Stores.
From S2P Require Import Breaker.
From S2P Require Import Policy.
From S2P Require Import Http.
From S2P Require Import Auth.
From S2P Require Import Api.
From S2P Require Import Dashboard.

Open Scope Z_scope.

(** ** Routing *)

(** The mux of the process: the control plane's routes and whatever else is mounted. *)
Definition mounted {H} (prefix : string) (others : list (pattern * H)) : list (pattern * (target + H)) :=
  (prod_map id inl <$> Register prefix) ++ (prod_map id inr <$> others).

(** A route that leaves the paths below [root] to the control plane: it does not match them, or
    only as part of a broader subtree, for any method. *)
Definition yields_to {H} (root : string) (r : pattern * H) : Prop :=
  ∀ path, path_matches root path = true → path_matches (pat_path r.1) path = true →
    pat_method r.1 = None ∧ (length (literals (pat_path r.1)) < length (literals root))%nat.

Definition control_root (prefix : string) : string := TrimSuffix prefix "/" +:+ "/api/".

Lemma literals_app p q :
  HasPrefix q "/" = true → literals (p +:+ q) = base p ++ literals q.
Proof.
  intros Hq. unfold literals. rewrite ends_in_slash_app by (by intros ->).
  rewrite segments_app by done. destruct (ends_in_slash q); [|done].
  apply removelast_app. unfold segments. destruct (drop 1 (bytes q)) as [|c l]; simpl; [done|].
  destruct (Ascii.eqb c "/"); [done|]. by destruct (split "/" l).
Qed.

Lemma control_root_segments prefix :
  let p := TrimSuffix prefix "/" in
  ends_in_slash (control_root prefix) = true
  ∧ literals (control_root prefix) = base p ++ [bytes "api"]
  ∧ segments (control_root prefix) = base p ++ [bytes "api"; []].
Proof.
  intros p. unfold control_root. rewrite ends_in_slash_app, literals_app, segments_app by done.
  split; [done|]. by split.
Qed.

Lemma control_root_matches prefix path :
  path_matches (control_root prefix) path = true ↔
  ∃ rest, rest ≠ [] ∧ segments path = base (TrimSuffix prefix "/") ++ bytes "api" :: rest.
Proof.
  destruct (control_root_segments prefix) as (He & Hl & _).
  rewrite path_matches_subtree, Hl by done. by setoid_rewrite <- (assoc_L (++)).
Qed.

(** The table of a prefix is the table of the root, moved below the prefix. *)
Definition below (p : string) (r : pattern * target) : pattern * target :=
  (MkPattern (pat_method r.1) (p +:+ pat_path r.1), r.2).

Lemma Register_below prefix : Register prefix = below (TrimSuffix prefix "/") <$> Register "".
Proof. reflexivity. Qed.

(** The subtree's own route has no method; the others have one, and stand for their path alone. *)
Definition route_shape (r : pattern * target) : Prop :=
  HasPrefix (pat_path r.1) "/" = true
  ∧ ((r.1 = MkPattern None "/api/")
     ∨ (ends_in_slash (pat_path r.1) = false ∧ last (segments (pat_path r.1)) ≠ Some []
        ∧ pat_method r.1 ≠ None)).

Lemma Register_shape prefix pt t :
  (pt, t) ∈ Register prefix →
  ∃ r, r ∈ Register "" ∧ (pt, t) = below (TrimSuffix prefix "/") r ∧ route_shape r.
Proof.
  rewrite Register_below. intros (r & E & Hr)%list_elem_of_fmap. exists r.
  split; [done|]. split; [done|]. assert (Hall : Forall route_shape (Register "")).
  { unfold route_shape, Register. repeat (apply Forall_cons; split); [..|by apply Forall_nil];
      (split; [reflexivity|]); [right|right|right|right|right|right|right|right|right|right|right|right|right|left];
      [(split; [reflexivity|split; discriminate])..|reflexivity]. }
  by eapply Forall_forall in Hall.
Qed.

Lemma match_route_Some {H} (routes : list (pattern * H)) m path r :
  match_route routes m path = Some r →
  r ∈ routes ∧ path_matches (pat_path r.1) path = true
  ∧ (pat_method r.1 = Some m ∨ (m = "HEAD" ∧ pat_method r.1 = Some "GET") ∨ pat_method r.1 = None).
Proof.
  unfold match_route. destruct (String.eqb path ""); [done|].
  destruct (match_path (Some m) path routes) as [r1|] eqn:E1.
  { intros [= <-]. apply match_path_Some in E1 as (? & ? & ?). split; [done|]. split; [done|]. by left. }
  destruct (if String.eqb m "HEAD" then _ else None) as [r2|] eqn:E2.
  { intros [= <-]. destruct (String.eqb_spec m "HEAD"); [|done].
    apply match_path_Some in E2 as (? & ? & ?). split; [done|]. split; [done|]. right. by left. }
  intros (? & ? & ?)%match_path_Some. split; [done|]. split; [done|]. right. by right.
Qed.

(** Every path below the control plane's subtree is matched by one of its routes. *)
Lemma match_route_control {H} prefix (others : list (pattern * H)) m path :
  path ≠ "" → Forall (yields_to (control_root prefix)) others →
  path_matches (control_root prefix) path = true →
  ∃ pt t, match_route (mounted prefix others) m path = Some (pt, inl t)
          ∧ (pt, t) ∈ Register prefix.
Proof.
  intros Hne Hothers Hpath.
  assert (Hcand : ∀ pm r, match_path pm path (mounted prefix others) = Some r →
    (pm ≠ None ∨ (length (literals (control_root prefix)) ≤ length (literals (pat_path r.1)))%nat) →
    ∃ pt t, r = (pt, inl t) ∧ (pt, t) ∈ Register prefix).
  { intros pm r (Hr & Hm & Hp)%match_path_Some Hlong. apply elem_of_app in Hr as [Hr|Hr];
      apply list_elem_of_fmap in Hr as ([pt h] & -> & Hr); [by exists pt, h|].
    exfalso. eapply Forall_forall in Hothers; [|exact Hr].
    destruct (Hothers path Hpath Hp) as [Hn Hl]. simpl in *. destruct Hlong; [congruence|lia]. }
  unfold match_route. rewrite (proj2 (String.eqb_neq path "")) by done.
  destruct (match_path (Some m) path _) as [r|] eqn:E.
  { destruct (Hcand (Some m) r E) as (pt & t & -> & ?); [by left|]. by exists pt, t. }
  clear E. set (get := if String.eqb m "HEAD" then _ else None).
  destruct get as [r|] eqn:E; subst get.
  { destruct (String.eqb m "HEAD"); [|done].
    destruct (Hcand (Some "GET") r E) as (pt & t & -> & ?); [by left|]. by exists pt, t. }
  destruct (match_path_best None path (mounted prefix others)
    (MkPattern None (control_root prefix), inl (Open NoEndpoint))) as (b & Eb & Hlen); [|done|done|].
  - apply elem_of_app. left. apply list_elem_of_fmap.
    exists (MkPattern None (control_root prefix), Open NoEndpoint). split; [done|].
    unfold Register. do 13 (apply elem_of_cons; right). by left.
  - rewrite Eb. destruct (Hcand None b Eb) as (pt & t & -> & ?); [by right|]. by exists pt, t.
Qed.

(** None of its routes is the path with one more slash. *)
Lemma control_not_exact prefix pt t path :
  (pt, t) ∈ Register prefix → path_matches (control_root prefix) path = true →
  path_matches (pat_path pt) (path +:+ "/") = true →
  exact_match (Some (pt, t)) (path +:+ "/") = false.
Proof.
  intros (r & _ & [= -> ->] & Hpre & Hshape)%Register_shape Hpath Hm.
  apply control_root_matches in Hpath as (rest & Hrest & Hseg).
  assert (Hp : path ≠ "").
  { intros ->. destruct (base _) as [|x l]; simpl in Hseg; [|by destruct l]. by injection Hseg as ? <-. }
  assert (Hs : segments (path +:+ "/") = segments path ++ [[]]).
  { rewrite segments_app by done. unfold base. by rewrite (proj2 (String.eqb_neq path "")). }
  cbn [below fst snd pat_path pat_method] in *. unfold exact_match. cbn [pat_path].
  rewrite !ends_in_slash_app, Hs by (done || by intros E; rewrite E in Hpre).
  rewrite segments_app, length_app by done. destruct Hshape as [E|(Ee & Hl & _)].
  - rewrite E. simpl negb. cbn [orb andb]. apply Nat.eqb_neq. rewrite Hseg, !length_app. simpl.
    destruct rest; [done|]. simpl. lia.
  - exfalso. apply path_matches_literal in Hm; [|by rewrite ends_in_slash_app by (by intros E; rewrite E in Hpre)].
    rewrite segments_app, Hs in Hm by done. apply Hl.
    apply (f_equal last) in Hm. rewrite last_snoc, last_app in Hm.
    destruct (last (segments (pat_path r.1))) eqn:El; [congruence|].
    apply last_None in El. unfold segments in El. destruct (drop 1 (bytes (pat_path r.1))) as [|c l];
      simpl in El; [done|]. destruct (Ascii.eqb c "/"); [done|]. by destruct (split "/" l).
Qed.

(** Every path below the control plane's subtree is served by it, or, if it is not clean,
    redirected to the clean one. *)
Lemma route_control {H} prefix (others : list (pattern * H)) m path :
  let p := canonical m path in
  Forall (yields_to (control_root prefix)) others → path_matches (control_root prefix) p = true →
  ∃ pt t, (pt, t) ∈ Register prefix
    ∧ route (mounted prefix others) m path
      = (if negb (String.eqb p path) then Redirected p else Handled (inl t))
    ∧ match_route (mounted prefix others) m p = Some (pt, inl t).
Proof.
  intros p Hothers Hpath. unfold route. fold p. assert (Hp : p ≠ "").
  { intros E. rewrite E in Hpath. apply control_root_matches in Hpath as (rest & Hne & Hseg).
    destruct (base _) as [|x l]; simpl in Hseg; [|by destruct l]. by injection Hseg as ? <-. }
  destruct (match_route_control prefix others m p Hp Hothers Hpath) as (pt & t & E & Hin).
  exists pt, t. split; [done|]. split; [|done]. rewrite E.
  assert (Hsl : path_matches (control_root prefix) (p +:+ "/") = true).
  { apply control_root_matches. apply control_root_matches in Hpath as (rest & Hne & Hseg).
    exists (rest ++ [[]]). split; [by destruct rest|]. rewrite segments_app by done.
    unfold base at 1. rewrite (proj2 (String.eqb_neq p "")), Hseg by done.
    by rewrite <- (assoc_L (++)). }
  destruct (match_route_control prefix others m (p +:+ "/") ltac:(by destruct p) Hothers Hsl)
    as (pt' & t' & E' & Hin').
  pose proof (match_route_Some _ _ _ _ E') as (_ & Hm & _). rewrite E'.
  pose proof (control_not_exact prefix pt' t' p Hin' Hpath Hm) as Hx.
  unfold exact_match in Hx at 1. unfold exact_match at 2. rewrite Hx, andb_false_r. done.
Qed.

(** ** What is mounted beside the control plane *)

Lemma string_app_assoc (a b c : string) : (a +:+ b) +:+ c = a +:+ b +:+ c.
Proof. apply bytes_inj. by rewrite !bytes_app, <- app_assoc. Qed.

(** The dashboard under the same prefix, and the proxy behind everything else, leave the control
    plane's subtree to it. *)
Lemma dashboard_yields {H} prefix (page proxied : H) :
  Forall (yields_to (control_root prefix))
    (dashboard_routes prefix page ++ [(MkPattern None "/", proxied)]).
Proof.
  unfold dashboard_routes. set (p := TrimSuffix prefix "/").
  repeat (apply Forall_cons; split); [| | |by apply Forall_nil];
    intros path (rest & Hne & Hseg)%control_root_matches Hm; cbn [fst pat_path pat_method] in *.
  - exfalso. apply path_matches_literal in Hm; [|by rewrite ends_in_slash_app].
    rewrite segments_app, Hseg in Hm by done. by apply (inj (app _)) in Hm.
  - exfalso. apply path_matches_subtree in Hm as (rest' & _ & Hm); [|by rewrite ends_in_slash_app].
    rewrite literals_app, Hseg, <- (assoc_L (++)) in Hm by done. by apply (inj (app _)) in Hm.
  - split; [done|]. destruct (control_root_segments prefix) as (_ & -> & _).
    rewrite length_app. simpl. lia.
Qed.

(** No two routes share a method and a path. *)
Lemma Register_unique prefix pt t pt' t' :
  (pt, t) ∈ Register prefix → (pt', t') ∈ Register prefix → pat_method pt = pat_method pt' →
  segments (pat_path pt) = segments (pat_path pt') → pt = pt' ∧ t = t'.
Proof.
  assert (Hnd : NoDup ((λ r : pattern * target, (pat_method r.1, segments (pat_path r.1))) <$> Register "")).
  { eapply bool_decide_unpack; vm_compute; exact I. }
  intros (r1 & H1 & [= -> ->] & Hp1 & _)%Register_shape (r2 & H2 & [= -> ->] & Hp2 & _)%Register_shape.
  simpl. intros Em Ep. rewrite !segments_app in Ep by done. apply (inj (app _)) in Ep.
  apply list_elem_of_lookup in H1 as [i Hi]. apply list_elem_of_lookup in H2 as [j Hj].
  assert (i = j) as <-; [|by split; congruence].
  apply (NoDup_lookup _ i j (pat_method r1.1, segments (pat_path r1.1)) Hnd); rewrite list_lookup_fmap.
  - by rewrite Hi.
  - by rewrite Hj, Em, Ep.
Qed.

(** The routes with a method are literal paths. *)
Lemma Register_literal_path prefix pt t m :
  (pt, t) ∈ Register prefix → pat_method pt = Some m → ends_in_slash (pat_path pt) = false.
Proof.
  intros (r & _ & [= -> _] & Hpre & Hs)%Register_shape Em. simpl in *.
  destruct Hs as [E|(He & _)]; [by rewrite E in Em|].
  by rewrite ends_in_slash_app by (by intros E; rewrite E in Hpre).
Qed.

Lemma Register_path_nonempty prefix pt t : (pt, t) ∈ Register prefix → pat_path pt ≠ "".
Proof.
  intros (r & _ & [= -> _] & Hpre & _)%Register_shape. simpl.
  apply HasPrefix_spec in Hpre as (q & ->). by destruct (TrimSuffix prefix "/").
Qed.

Lemma dispatch {H} prefix (others : list (pattern * H)) pt t m :
  (pt, t) ∈ Register prefix → pat_method pt = Some m → canonical m (pat_path pt) = pat_path pt →
  Forall (λ r, path_matches (pat_path r.1) (pat_path pt) = true → pat_method r.1 = None) others →
  route (mounted prefix others) m (pat_path pt) = Handled (inl t).
Proof.
  intros Hin Hm Hclean Hothers.
  pose proof (Register_literal_path prefix pt t m Hin Hm) as Hls.
  pose proof (Register_path_nonempty prefix pt t Hin) as Hne.
  destruct (match_path_best (Some m) (pat_path pt) (mounted prefix others) (pt, inl t)) as (b & Eb & _).
  - apply elem_of_app. left. apply list_elem_of_fmap. by exists (pt, t).
  - done.
  - by apply path_matches_literal.
  - assert (b = (pt, inl t)) as ->.
    { apply match_path_Some in Eb as (Hb & Hbm & Hbp).
      apply elem_of_app in Hb as [Hb|Hb]; apply list_elem_of_fmap in Hb as ([pb h] & -> & Hb); simpl in *.
      - pose proof (Register_literal_path prefix pb h m Hb Hbm) as Hbs. apply path_matches_literal in Hbp; [|done].
        destruct (Register_unique prefix pb h pt t Hb Hin) as [-> ->]; [congruence|done..].
      - exfalso. eapply Forall_forall in Hothers; [|exact Hb]. simpl in Hothers.
        rewrite Hothers in Hbm by done. done. }
    unfold route. rewrite Hclean. unfold match_route at 1 3.
    rewrite (proj2 (String.eqb_neq _ _) Hne), Eb, String.eqb_refl.
    unfold exact_match at 1. by rewrite Hls.
Qed.

(** ** Authorisation *)

Section Properties.
Context {P U B : Type} `{ProxyPackage P U} `{Codec B} `{JsonParser}.
Context (mime : string → option string) (other : float64 → Z) (s : Server U).
Implicit Types w : world P B.

(** The routes that answer without a token. *)
Lemma Register_open prefix pt e :
  (pt, Open e) ∈ Register prefix → e = Health ∨ e = Ready ∨ e = NoEndpoint.
Proof.
  unfold Register. intros Hin.
  repeat (apply elem_of_cons in Hin as [Hin|Hin]; [first [discriminate Hin|injection Hin as _ ->; by auto]|]).
  by apply not_elem_of_nil in Hin.
Qed.

(** C2.  Every request below the control plane's subtree is answered by the control plane,
    whatever else is mounted beside it, never by the proxied application; a path that is not
    clean is only redirected to the clean one.  And while a token is configured and the request
    does not present it, nothing changes and nothing is shown: the answer is the 401 challenge,
    the 404 of an unknown endpoint, or the health or readiness document, which stay open. *)
Theorem unauthorized_sees_nothing {H'} (prefix : string) (others : list (pattern * H'))
    (i : inputs) (r : request) (w : world P B) :
  let path := canonical (Method r) (EscapedPath r) in
  Forall (yields_to (control_root prefix)) others →
  path_matches (control_root prefix) path = true →
  authorized (s_token s) (RHeader r) = false →
  (path ≠ EscapedPath r
   ∧ route (mounted prefix others) (Method r) (EscapedPath r) = Redirected path)
  ∨ ∃ t resp, route (mounted prefix others) (Method r) (EscapedPath r) = Handled (inl t)
    ∧ serve_target mime other s i t r w = Some (resp, w)
    ∧ (resp = denyAuth
       ∨ resp = writeError StatusNotFound "not_found" (ENoEndpoint (Path r))
       ∨ (∃ doc, resp = writeJSON StatusOK (PHealth doc)) ∨ resp = writeJSON StatusOK PReady).
Proof.
  intros path Hothers Hpath Hauth.
  destruct (route_control prefix others (Method r) (EscapedPath r) Hothers Hpath)
    as (pt & t & Hin & Hr & _). fold path in Hr. destruct (String.eqb_spec path (EscapedPath r)) as [_|Hne]; [|by left].
  right. exists t. destruct t as [e|e]; simpl.
  - destruct (Register_open prefix pt e Hin) as [->|[->| ->]]; simpl; eexists;
      (split; [exact Hr|]); (split; [reflexivity|]); eauto 6.
  - exists denyAuth. split; [exact Hr|]. split; [by apply guard_closed|by left].
Qed.

(** The interface the dashboard's page, the deployment guide and the tests rely on: the method, the
    path below the prefix, whether it is open to everybody, and what answers.  Nothing else is
    below the subtree. *)
Definition api_table : list (string * string * bool * (inputs → handler (world P B) payload)) := [
  ("GET", "/api/health", true, handleHealth s);
  ("GET", "/healthz", true, handleHealth s);
  ("GET", "/readyz", true, λ _, handleReady);
  ("GET", "/api/stats", false, handleStats s);
  ("GET", "/api/stream", false, λ _, startStream);
  ("GET", "/api/policy", false, λ _, handlePolicyGet);
  ("PUT", "/api/policy", false, handlePolicySet mime other s);
  ("POST", "/api/policy", false, handlePolicySet mime other s);
  ("GET", "/api/clients", false, handleClients s);
  ("POST", "/api/clients/reset", false, handleClientsReset s);
  ("GET", "/api/upstream", false, λ _, handleUpstreamGet s);
  ("PUT", "/api/upstream", false, handleUpstreamSet mime s);
  ("POST", "/api/upstream", false, handleUpstreamSet mime s) ].

Ltac each_row H :=
  repeat (apply elem_of_cons in H as [H|H]; [injection H as -> -> -> ->|]);
  [..|by apply not_elem_of_nil in H].

Lemma table_registered prefix m path open h :
  (m, path, open, h) ∈ api_table →
  ∃ t, (MkPattern (Some m) (TrimSuffix prefix "/" +:+ path), t) ∈ Register prefix
    ∧ ∀ i r w, serve_target mime other s i t r w
        = if open || authorized (s_token s) (RHeader r) then h i r w else Some (denyAuth, w).
Proof.
  intros Hin. unfold api_table in Hin. each_row Hin; eexists;
    (split; [unfold Register, on; repeat (first [by apply elem_of_cons; left|apply elem_of_cons; right])|]);
    intros i r w; simpl; try done; unfold guard; by destruct (authorized _ _).
Qed.

Lemma registered_table prefix pt t :
  (pt, t) ∈ Register prefix →
  (pt = MkPattern None (control_root prefix) ∧ t = Open NoEndpoint)
  ∨ ∃ m path open h, pt = MkPattern (Some m) (TrimSuffix prefix "/" +:+ path)
                     ∧ (m, path, open, h) ∈ api_table.
Proof.
  unfold Register, on. intros Hin.
  repeat (apply elem_of_cons in Hin as [Hin|Hin]; [injection Hin as -> ->|]);
    [..|by apply not_elem_of_nil in Hin].
  14: by left.
  all: right; do 4 eexists; (split; [reflexivity|]); unfold api_table;
    repeat (first [by apply elem_of_cons; left|apply elem_of_cons; right]).
Qed.

(** C33.  The control plane is wired as [api_table] says, under any prefix and whatever is mounted
    beside it: each listed method and path is answered by the handler listed for it, behind the
    token unless it is listed as open (the mux refuses patterns whose path is not clean); and any
    other method or path below the subtree is answered 404, whoever asks. *)
Theorem endpoints_reached {H'} (prefix : string) (others : list (pattern * H')) :
  let p := TrimSuffix prefix "/" in
  (∀ m path open h, (m, path, open, h) ∈ api_table → cleanPath (p +:+ path) = p +:+ path →
     Forall (λ r, path_matches (pat_path r.1) (p +:+ path) = true → pat_method r.1 = None) others →
     ∃ t, route (mounted prefix others) m (p +:+ path) = Handled (inl t)
     ∧ ∀ i r w, serve_target mime other s i t r w
         = if open || authorized (s_token s) (RHeader r) then h i r w else Some (denyAuth, w))
  ∧ (∀ m path, Forall (yields_to (control_root prefix)) others →
     path_matches (control_root prefix) path = true → canonical m path = path →
     (∀ m' path' open h, (m', path', open, h) ∈ api_table → m' = m ∨ (m = "HEAD" ∧ m' = "GET") →
        segments (p +:+ path') ≠ segments path) →
     ∃ t, route (mounted prefix others) m path = Handled (inl t)
     ∧ ∀ i r w, serve_target mime other s i t r w
         = Some (writeError StatusNotFound "not_found" (ENoEndpoint (Path r)), w)).
Proof.
  intros p. split.
  - intros m path open h Hin Hclean Hothers.
    destruct (table_registered prefix m path open h Hin) as (t & Ht & Hserve).
    exists t. split; [|done]. apply (dispatch prefix others (MkPattern (Some m) (p +:+ path))); [done..| |done].
    unfold canonical. by destruct (String.eqb m "CONNECT").
  - intros m path Hothers Hpath Hclean Hno.
    destruct (route_control prefix others m path Hothers) as (pt & t & Hin & Hr & Hm); [by rewrite Hclean|].
    rewrite Hclean in Hr, Hm. rewrite String.eqb_refl in Hr. exists t. split; [exact Hr|].
    destruct (registered_table prefix pt t Hin) as [[_ ->]|(m' & path' & open & h & -> & Hd)]; [done|].
    exfalso. pose proof (Register_literal_path prefix _ t m' Hin eq_refl) as Hlit.
    apply match_route_Some in Hm as (_ & Hp & Hmeth). apply path_matches_literal in Hp; [|exact Hlit].
    apply (Hno m' path' open h Hd); [|exact Hp]. simpl in Hmeth. naive_solver.
Qed.

(** ** Updating the policy *)

(** What the dashboard may ask for. *)
Definition acceptable (p : Policy) : Prop := 1 ≤ Limit p ≤ 1000000 ∧ Second ≤ Window p ≤ Hour.

Lemma validatePolicy_spec p : validatePolicy p = None ↔ acceptable p.
Proof.
  unfold validatePolicy, acceptable. split.
  - repeat case_if; try done; lia.
  - intros [HL HW]. rewrite (proj2 (Z.ltb_ge (Limit p) 1)), (proj2 (Z.ltb_ge 1000000 (Limit p))),
      (proj2 (Z.ltb_ge (Window p) Second)), (proj2 (Z.ltb_ge Hour (Window p))) by lia. done.
Qed.

Lemma acceptable_enforceable p : acceptable p → enforceable p.
Proof. intros [HL HW]. split; [done|]. unfold_durations. lia. Qed.

(** An acceptable policy is stored as it is: [SetPolicy] normalizes nothing away. *)
Lemma SetPolicy_acceptable p m :
  acceptable p →
  SetPolicy p m = (p, MkManager p (failures m) (openUntil m) (lastErr m) (redisHealthy m)
                        (degraded m) (redisServed m) (fallbackServed m)).
Proof. intros Hp. unfold SetPolicy. by rewrite (Normalize_id p) by by apply acceptable_enforceable. Qed.

Lemma SetPolicy_policy p m : policy (SetPolicy p m).2 = Normalize p.
Proof. done. Qed.

Lemma policy_commit_spec i next w :
  let '(resp, w') := policy_commit s i next w in
  (status resp = StatusBadRequest ∧ w' = w ∧ ¬ acceptable next)
  ∨ (status resp = StatusOK ∧ acceptable next
     ∧ (∃ ps, w' = set_policies ps (set_manager (SetPolicy next (w_manager w)).2 w))
     ∧ policy (w_manager w') = next).
Proof.
  unfold policy_commit. destruct (validatePolicy next) as [err|] eqn:E.
  - left. split; [done|]. split; [done|]. intros Ha%validatePolicy_spec. congruence.
  - apply validatePolicy_spec in E. rewrite (SetPolicy_acceptable next _ E).
    destruct (s_store s) as [st|].
    + destruct (policy_Save _ _ _ _ _ _) as [err srv]. right.
      split; [done|]. split; [done|]. split; [by exists srv|done].
    + right. split; [done|]. split; [done|]. split; [|done]. exists (w_policies w). by destruct w.
Qed.

(** C7.  A policy update either answers 200, with the policy in force being exactly the one asked
    for, in range, each field the request left out keeping its value; or it answers 400 and
    changes nothing, which happens exactly when the request cannot be decoded or asks for a
    policy out of range.  What becomes of the SET and the PUBLISH that share it plays no part. *)
Theorem policy_update (i : inputs) (r : request) (w : world P B) :
  ∃ resp w', handlePolicySet mime other s i r w = Some (resp, w')
  ∧ ((status resp = StatusBadRequest ∧ w' = w
      ∧ ∀ req, decodePolicyRequest mime r = inl req →
          ¬ acceptable (policy_next other req (policy (w_manager w))))
     ∨ ∃ req, status resp = StatusOK ∧ decodePolicyRequest mime r = inl req
         ∧ acceptable (policy (w_manager w'))
         ∧ Limit (policy (w_manager w')) = default (Limit (policy (w_manager w))) (r_rps req)
         ∧ Window (policy (w_manager w'))
           = default (Window (policy (w_manager w)))
               ((λ f, to_int64 other (fmul f (float Second))) <$> r_window req)
         ∧ w_memory w' = w_memory w ∧ w_metrics w' = w_metrics w ∧ w_hub w' = w_hub w
         ∧ w_proxy w' = w_proxy w ∧ w_upstreams w' = w_upstreams w).
Proof.
  unfold handlePolicySet. destruct (decodePolicyRequest mime r) as [req|err] eqn:E.
  - pose proof (policy_commit_spec i (policy_next other req (policy (w_manager w))) w) as Hc.
    destruct (policy_commit _ _ _ _) as [resp w']. exists resp, w'. split; [done|].
    destruct Hc as [(Hs & -> & Hna)|(Hs & Ha & (ps & ->) & Hp)].
    + left. split; [done|]. split; [done|]. intros req' [= <-]. exact Hna.
    + right. exists req. split; [done|]. split; [done|]. simpl in Hp |- *. rewrite Hp.
      split; [done|]. unfold policy_next. by destruct (r_rps req), (r_window req).
  - do 2 eexists. split; [done|]. left. split; [done|]. split; [done|]. done.
Qed.

(** What one request may touch. *)
Lemma endpoint_frame i e r w resp w' :
  endpoint_handler mime other s i e r w = Some (resp, w') →
  (e = PolicySet ∨ (w_manager w' = w_manager w ∧ w_policies w' = w_policies w))
  ∧ (e = ClientsReset ∨ (w_memory w' = w_memory w ∧ w_metrics w' = w_metrics w))
  ∧ (e = UpstreamSet ∨ (w_proxy w' = w_proxy w ∧ w_upstreams w' = w_upstreams w))
  ∧ (e = Stream ∨ w_hub w' = w_hub w)
  ∧ (policy (w_manager w') = policy (w_manager w) ∨ acceptable (policy (w_manager w'))).
Proof.
  intros Hh. destruct e; simpl in Hh; try (injection Hh as _ <-; by auto 10).
  - unfold startStream, open_stream in Hh. destruct (Subscribe (w_hub w)) as [[sub h]|]; [|done].
    injection Hh as _ <-. by auto 10.
  - destruct (policy_update i r w) as (resp1 & w1 & E & Hcase). rewrite E in Hh.
    injection Hh as -> ->. split; [by left|].
    destruct Hcase as [(_ & -> & _)|(req & _ & _ & Ha & _ & _ & -> & -> & -> & -> & ->)]; by auto 10.
  - unfold handleClients in Hh. destruct (Metrics.Clients _ _ _ _) as [rows total].
    destruct (s_redis s) as [rl|]; [|injection Hh as _ <-; by auto 10].
    destruct (degraded (w_manager w)); [injection Hh as _ <-; by auto 10|].
    destruct (ActiveKeys _ _ _) as [[fleet|err]|]; [..|done]; injection Hh as _ <-; by auto 10.
  - unfold handleClientsReset in Hh. destruct (s_redis s); [|injection Hh as _ <-; by auto 10].
    destruct (Redis.Reset _) as [[n err]|]; [|done]. injection Hh as _ <-; by auto 10.
  - unfold handleUpstreamSet in Hh. destruct (w_proxy w) as [p|] eqn:Ep;
      [|injection Hh as _ <-; rewrite ?Ep; by auto 10].
    destruct (negb _); [injection Hh as _ <-; rewrite ?Ep; by auto 10|].
    destruct (decodeUpstreamRequest mime r) as [url|err];
      [|injection Hh as _ <-; rewrite ?Ep; by auto 10].
    destruct (NewUpstream url _) as [up|err]; [|injection Hh as _ <-; rewrite ?Ep; by auto 10].
    destruct (s_upstreamStore s) as [st|]; [|injection Hh as _ <-; by auto 10].
    destruct (upstream_Save _ _ _ _ _) as [err srv]. injection Hh as _ <-; by auto 10.
Qed.

(** C23.  Whatever requests arrive, the policy in force stays one the limiters can enforce, and each
    endpoint touches only its own part: the three that set something the policy and its store,
    the client tracking, the upstream and its store; the stream the hub, where it takes one
    subscriber, in nobody's place (it gives it back when the stream ends, see Sse.v); and any
    other endpoint changes nothing at all. *)
Theorem endpoints_keep_invariant (i : inputs) (e : endpoint) (r : request) (w : world P B)
    (resp : response payload) (w' : world P B) :
  endpoint_handler mime other s i e r w = Some (resp, w') →
  (enforceable (policy (w_manager w)) → enforceable (policy (w_manager w')))
  ∧ (e ∉ [PolicySet; ClientsReset; UpstreamSet; Stream] → w' = w)
  ∧ (e ≠ PolicySet → w_manager w' = w_manager w ∧ w_policies w' = w_policies w)
  ∧ (e ≠ ClientsReset → w_memory w' = w_memory w ∧ w_metrics w' = w_metrics w)
  ∧ (e ≠ UpstreamSet → w_proxy w' = w_proxy w ∧ w_upstreams w' = w_upstreams w)
  ∧ (e ≠ Stream → w_hub w' = w_hub w)
  ∧ (e = Stream → hub_ok (w_hub w) →
     ∃ sub, resp = stream_head sub ∧ (sub ∉ subs (w_hub w)) ∧ hub_ok (w_hub w')
       ∧ subs (w_hub w') = (if closed (w_hub w) then subs (w_hub w) else {[sub]} ∪ subs (w_hub w))
       ∧ ∀ x, x ≠ sub → heap (w_hub w') !! x = heap (w_hub w) !! x).
Proof.
  intros Hh. pose proof Hh as (Hpol & Hcli & Hup & Hhub & Hacc)%endpoint_frame. split.
  { intros He. destruct Hacc as [->|Ha]; [done|by apply acceptable_enforceable]. }
  split; [|split; [tauto|split; [tauto|split; [tauto|split; [tauto|]]]]].
  - rewrite !not_elem_of_cons. intros (N1 & N2 & N3 & N4 & _).
    destruct Hpol as [?|[E1 E2]], Hcli as [?|[E3 E4]], Hup as [?|[E5 E6]], Hhub as [?|E7]; try done.
    destruct w, w'; simpl in *; congruence.
  - intros -> Hok. simpl in Hh. unfold startStream, open_stream in Hh.
    destruct (Subscribe_ok (w_hub w) Hok) as (h' & E & Hok' & Hc & Hs). rewrite E in Hh. simpl in Hh.
    injection Hh as <- <-. exists (next (w_hub w)). split; [done|]. split.
    { intros (x & Hx & _)%(hok_open _ Hok). pose proof (hok_next _ Hok (next (w_hub w))) as Hn.
      rewrite Hx in Hn. specialize (Hn ltac:(by eexists)). lia. }
    split; [done|]. split; [done|]. intros x Hx. by eapply Subscribe_other.
Qed.

End Properties.

(** ** Witnesses *)

Definition no_mime : string → option string := λ _, None.
Definition saturate : float64 → Z := λ _, max_int64.

(** What the process mounts: [true] is the dashboard's page, [false] the proxy. *)
Definition sample_routes : list (pattern * bool) :=
  dashboard_routes "/_rl" true ++ [(MkPattern None "/", false)].

Definition anonymous (method path : string) : request := MkRequest method path path "" ∅ [] None "10.0.0.1:5".

Lemma unauthorized_sees_nothing_witness :
  let r := anonymous "POST" "/_rl/api/clients/reset" in
  authorized (s_token sample_server) (RHeader r) = false
  ∧ ∃ t resp, route (mounted "/_rl" sample_routes) (Method r) (EscapedPath r) = Handled (inl t)
    ∧ serve_target no_mime saturate sample_server quiet t r sample_world = Some (resp, sample_world).
Proof.
  split; [vm_compute; reflexivity|].
  destruct (unauthorized_sees_nothing no_mime saturate sample_server "/_rl" sample_routes quiet
    (anonymous "POST" "/_rl/api/clients/reset") sample_world) as [[Hne _]|(t & resp & Hr & Hs & _)].
  - exact (dashboard_yields "/_rl" true false).
  - vm_compute. reflexivity.
  - vm_compute. reflexivity.
  - exfalso. apply Hne. vm_compute. reflexivity.
  - exists t, resp. split; [exact Hr|exact Hs].
Defined.

Lemma endpoints_reached_witness :
  (∃ t, route (mounted "/_rl" sample_routes) "POST" "/_rl/api/clients/reset" = Handled (inl t)
   ∧ ∀ i r w, serve_target no_mime saturate sample_server i t r w
       = if authorized "s3cret" (RHeader r) then handleClientsReset sample_server i r w
         else Some (denyAuth, w))
  ∧ ∃ t, route (mounted "/_rl" sample_routes) "DELETE" "/_rl/api/policy" = Handled (inl t)
    ∧ ∀ i r (w : world (option string) (option policyDoc)), serve_target no_mime saturate sample_server i t r w
        = Some (writeError StatusNotFound "not_found" (ENoEndpoint (Path r)), w).
Proof.
  destruct (endpoints_reached (P := option string) (B := option policyDoc) no_mime saturate
    sample_server "/_rl" sample_routes) as [H1 H2]. split.
  - apply (H1 "POST" "/api/clients/reset" false (handleClientsReset sample_server)).
    + unfold api_table. do 9 (apply elem_of_cons; right). by apply elem_of_cons; left.
    + vm_compute. reflexivity.
    + repeat (apply Forall_cons; split); [discriminate|discriminate|reflexivity|by apply Forall_nil].
  - apply (H2 "DELETE" "/_rl/api/policy").
    + exact (dashboard_yields "/_rl" true false).
    + vm_compute. reflexivity.
    + vm_compute. reflexivity.
    + intros m path op h Hin [E|[E _]]; [|discriminate E]. exfalso. rewrite E in Hin.
      unfold api_table in Hin. repeat (apply elem_of_cons in Hin as [Hin|Hin]; [discriminate Hin|]).
      by apply not_elem_of_nil in Hin.
Defined.

Lemma endpoints_keep_invariant_witness :
  ∃ resp w', endpoint_handler no_mime saturate sample_server quiet PolicySet
      (json_put "/_rl/api/policy" doc_rps) sample_world = Some (resp, w')
    ∧ Limit (policy (w_manager w')) = 7
    ∧ (enforceable (policy (w_manager sample_world)) → enforceable (policy (w_manager w'))).
Proof.
  do 2 eexists. split; [reflexivity|]. split; [reflexivity|].
  refine (proj1 (endpoints_keep_invariant no_mime saturate sample_server quiet PolicySet
    (json_put "/_rl/api/policy" doc_rps) sample_world _ _ _)). reflexivity.
Defined.
