(* ===== verification/ApiUpdates.v ===== *)
(** * internal/api/api.go: updates and what becomes of them

    How an update of the policy or the upstream reaches the rest of the fleet, how exact the
    window of a request is, what a reset forgets, and the cases the handlers get wrong. *)

From Stdlib Require Import Ascii SpecFloat.
From S2P Require Import Prelude.
From S2P Require Import GoTime.
From S2P Require Import GoStrings.
From S2P Require Import GoText.
From S2P Require Import GoFloat.
From S2P Require Import GoNet.
From S2P Require Import Memory.
From S2P Require Import MemoryProps.
From S2P Require Import Redis.
From S2P Require Import Metrics.
From S2P Require Import MetricsProps.
From S2P Require Import Hub.
From S2P Require Import Stores.
From S2P Require Import Breaker.
From S2P Require Import Policy.
From S2P Require Import Http.
From S2P Require Import Auth.
From S2P Require Import Api.
From S2P Require Import ApiProps.

Open Scope Z_scope.

(** ** Sharing *)

Section Sharing.
Context {P U B : Type} `{ProxyLaws P U} `{CodecLaws B} `{JsonParser}.
Context (mime : string → option string) (other : float64 → Z) (s : Server U).
Implicit Types w : world P B.

(** The store is saved to exactly when an update is accepted. *)
Lemma policy_commit_saves i next w st :
  acceptable next → s_store s = Some st →
  ∃ err, policy_Save (i_set i) (i_publish i) next (i_now i) st (w_policies w)
         = (err, w_policies (policy_commit s i next w).2)
  ∧ (policy_commit s i next w).1 = writeJSON StatusOK (PPolicySet (policyView next) (negb (is_some err)) err).
Proof.
  intros Ha Hst. unfold policy_commit. rewrite (proj2 (validatePolicy_spec next) Ha).
  rewrite (SetPolicy_acceptable next _ Ha), Hst.
  destruct (policy_Save _ _ _ _ _ _) as [err srv]. by exists err.
Qed.

(** C15.  An update the response calls shared is the policy of the whole fleet: every instance that
    loads, and every one that watches, takes over the policy this one now holds, with its window
    cut to whole milliseconds; so the instances agree exactly when the window is a whole number
    of milliseconds. *)
Theorem update_reaches_fleet (i : inputs) (next : Policy) (w : world P B) (st : PolicyStore) :
  s_store s = Some st → acceptable next →
  (policy_commit s i next w).1 = writeJSON StatusOK (PPolicySet (policyView next) true None) →
  let w' := (policy_commit s i next w).2 in
  policy (w_manager w') = next
  ∧ policy_Load None st (w_policies w') = (shared_form next, true, None)
  ∧ (∃ m, delivered (p_channel st) (w_policies w') = delivered (p_channel st) (w_policies w) ++ [WMsg m]
          ∧ policy_Watch [WMsg m] = [shared_form next])
  ∧ (shared_form next = next ↔ Window next `mod` Millisecond = 0).
Proof.
  intros Hst Ha Hresp w'. destruct (policy_commit_saves i next w st Ha Hst) as (err & Hs & Hr).
  rewrite Hr in Hresp. injection Hresp as Herr. destruct err as [e|]; [done|].
  pose proof (policy_commit_spec s i next w) as Hc. subst w'.
  destruct (policy_commit s i next w) as [resp w1]. simpl in *.
  apply policy_Save_stored in Hs as [HL HW].
  split; [by destruct Hc as [(_ & _ & ?)|(_ & _ & _ & ?)]|]. split; [exact HL|]. split; [exact HW|].
  assert (HN : Normalize next = next) by by apply Normalize_id, acceptable_enforceable.
  pose proof (shared_form_exact next) as Hx. rewrite HN in Hx. exact Hx.
Qed.

(** C16.  A change of the upstream is refused with 403 and no effect unless the deployment allows
    it, whatever the request holds; with 400 and no effect if no URL can be decoded or the URL is
    not one a target can be built from; otherwise the proxy serves from the new target at once,
    the response shows it, and what other instances load is its URL, trimmed, whenever the
    response says it was shared. *)
Theorem upstream_update (i : inputs) (r : request) (w : world P B) :
  ∃ resp w', handleUpstreamSet mime s i r w = Some (resp, w')
  ∧ ((status resp = StatusForbidden ∧ w' = w ∧ (w_proxy w = None ∨ s_upstreamEditable s = false))
     ∨ (status resp = StatusBadRequest ∧ w' = w
        ∧ ∀ url up, decodeUpstreamRequest mime r = inl url →
            NewUpstream url (s_upstreamTimeout s) ≠ inl up)
     ∨ ∃ url up shared err,
         s_upstreamEditable s = true ∧ decodeUpstreamRequest mime r = inl url
         ∧ NewUpstream url (s_upstreamTimeout s) = inl up
         ∧ resp = writeJSON StatusOK
             (PUpstreamSet (MkUpstreamView (Target up) (RawURL up) (Mock up) true) shared err)
         ∧ currentUpstream s w' = Some up ∧ w_manager w' = w_manager w
         ∧ ∀ st, s_upstreamStore s = Some st → shared = true →
             TrimSpace (RawURL up) ≠ "" →
             upstream_Load None st (w_upstreams w') = (TrimSpace (RawURL up), true, None)).
Proof.
  unfold handleUpstreamSet. destruct (w_proxy w) as [p|] eqn:Ep.
  2:{ do 2 eexists. split; [done|]. left. by auto. }
  destruct (s_upstreamEditable s) eqn:Ee; simpl.
  2:{ do 2 eexists. split; [done|]. left. by auto. }
  destruct (decodeUpstreamRequest mime r) as [url|err] eqn:Ed.
  2:{ do 2 eexists. split; [done|]. right; left. split; [done|]. split; [done|]. done. }
  destruct (NewUpstream url (s_upstreamTimeout s)) as [up|err] eqn:En.
  2:{ do 2 eexists. split; [done|]. right; left. split; [done|]. split; [done|].
      intros url' up [= <-]. by rewrite En. }
  assert (Hview : ∀ w1 : world P B, w_proxy w1 = Some (SetUpstream up p) →
    currentUpstream s w1 = Some up
    ∧ upstreamView s w1 = MkUpstreamView (Target up) (RawURL up) (Mock up) true).
  { intros w1 Hw. assert (Hcur : currentUpstream s w1 = Some up).
    { unfold currentUpstream. rewrite Hw. by rewrite current_SetUpstream. }
    split; [exact Hcur|]. unfold upstreamView. by rewrite Hcur, Ee, Hw. }
  destruct (s_upstreamStore s) as [st|].
  - destruct (upstream_Save _ _ _ _ _) as [err srv] eqn:Es. do 2 eexists. split; [done|].
    do 2 right. exists url, up, (negb (is_some err)), err.
    set (w' := set_upstreams srv _). destruct (Hview w' eq_refl) as [Hcur Hv].
    split; [done|]. split; [done|]. split; [exact En|]. split; [by rewrite Hv|].
    split; [exact Hcur|]. split; [done|]. intros st' [= <-] Hsh Hne. destruct err; [done|].
    unfold upstream_Save in Es. destruct (i_set i); simpl in Es; [|done..].
    destruct (i_publish i); simpl in Es; [|done..]. injection Es as <-.
    unfold upstream_Load, get. simpl. rewrite lookup_insert_eq, TrimSpace_idemp.
    by rewrite (proj2 (String.eqb_neq _ _) Hne).
  - do 2 eexists. split; [done|]. do 2 right. exists url, up, false, None.
    set (w' := set_proxy _ w). destruct (Hview w' eq_refl) as [Hcur Hv].
    split; [done|]. split; [done|]. split; [exact En|]. split; [by rewrite Hv|].
    split; [exact Hcur|]. split; [done|]. done.
Qed.

(** A reset forgets every client, the local ones for certain: afterwards the client table is
    empty and the in-memory limiter tracks no key, while the totals of the traffic are kept, and
    the policy is untouched. *)
Theorem reset_forgets (i : inputs) (r : request) (w : world P B) (resp : response payload)
    (w' : world P B) :
  wf (w_memory w) → (∀ key, tracked (w_memory w) key → key ∈ i_keys i) →
  visits (i_clients i) (w_metrics w) →
  handleClientsReset s i r w = Some (resp, w') →
  Memory.Keys (w_memory w') = 0 ∧ clients (w_metrics w') = ∅
  ∧ outline (w_metrics w') = outline (w_metrics w) ∧ w_manager w' = w_manager w
  ∧ ∃ n note, resp = writeJSON StatusOK (PReset n note) ∧ (s_redis s = None → note = None).
Proof.
  intros Hwf Hk [Hnd Hv] Hh.
  assert (Hc : clients (Metrics.ResetClients (i_clients i) (w_metrics w)) = ∅).
  { apply map_eq. intros k. unfold Metrics.ResetClients. rewrite foldl_delete_lookup, lookup_empty.
    case_decide as Hd; [done|]. apply eq_None_not_Some. by rewrite <- Hv. }
  assert (Hw : ∃ n note, (resp, w') = (writeJSON StatusOK (PReset n note),
      set_memory (Memory.Reset (i_keys i) (w_memory w))
        (set_metrics (Metrics.ResetClients (i_clients i) (w_metrics w)) w))
      ∧ (s_redis s = None → note = None)).
  { unfold handleClientsReset in Hh. destruct (s_redis s).
    - destruct (Redis.Reset _) as [[n err]|]; [|done]. injection Hh as <- <-. by exists n, err.
    - injection Hh as <- <-. by exists 0, None. }
  destruct Hw as (n & note & [= -> ->] & Hnote). simpl.
  split; [by apply Reset_Keys|]. split; [exact Hc|].
  split; [apply foldl_delete_outline|]. split; [done|]. by exists n, note.
Qed.

End Sharing.

(** ** How exact a window is *)

Lemma Seconds_whole k : 1 ≤ k ≤ 3600 → Seconds (k * Second) = float k.
Proof.
  intros Hk. unfold Seconds, Second. rewrite Z.quot_mul, Z.rem_mul by lia.
  destruct (float_exact k ltac:(lia)) as (m & e & E & _). rewrite E. reflexivity.
Qed.

Lemma whole_window other k : 1 ≤ k ≤ 3600 → to_int64 other (fmul (float k) (float Second)) = k * Second.
Proof.
  intros Hk. assert (Hf : is_int (fmul (float k) (float Second)) (k * Second)).
  { apply fmul_exact; [apply float_exact|apply float_exact|]; unfold Second; lia. }
  unfold to_int64. rewrite (truncate_int _ _ Hf).
  by rewrite (proj2 (in64_spec (k * Second))) by (unfold Second; lia).
Qed.

(** C29.  A window of a whole number of seconds, from 1 to 3600, is exact on every path: given in
    JSON or in a form it sets the policy to that many seconds with no rounding, the view shows
    that number, and posting back what the view shows changes nothing. *)
Theorem whole_seconds_roundtrip (other : float64 → Z) (k : Z) (p : Policy) :
  1 ≤ k ≤ 3600 →
  let req := MkPolicyRequest None (Some (float k)) in
  policy_of_json (JObject [("window_seconds", JNumber (FormatInt k))]) = inl req
  ∧ policy_of_form {[ "window_seconds" := [FormatInt k] ]} = inl req
  ∧ policy_next other req p = MkPolicy (Limit p) (k * Second)
  ∧ WindowSeconds (policyView (MkPolicy (Limit p) (k * Second))) = float k.
Proof.
  intros Hk req. assert (HP : ParseFloat (FormatInt k) = inl (float k)) by (apply ParseFloat_int; lia).
  split; [|split; [|split]].
  - unfold policy_of_json. simpl. by rewrite HP.
  - unfold policy_of_form, get_value. rewrite lookup_singleton_eq, lookup_singleton_ne by done.
    simpl. rewrite HP. destruct (FormatInt k) eqn:E; [|done].
    assert (Atoi (FormatInt k) = Some k) as HA by (apply Atoi_FormatInt; lia). by rewrite E in HA.
  - unfold policy_next. simpl. by rewrite whole_window.
  - simpl. by apply Seconds_whole.
Qed.

Lemma whole_seconds_roundtrip_witness :
  policy_next (λ _, 0) (MkPolicyRequest None (Some (float 90))) (MkPolicy 5 Second)
  = MkPolicy 5 (90 * Second).
Proof.
  refine (proj1 (proj2 (proj2 (whole_seconds_roundtrip (λ _, 0) 90 (MkPolicy 5 Second) _)))). lia.
Defined.

(** A fractional window is not: the product of the seconds and 1e9 is cut, not rounded, so
    1.001 seconds become 1000999999 nanoseconds; the fleet, which is told whole milliseconds,
    then takes over a window a millisecond shorter than the one asked for; and posting back the
    seconds the view shows for a window of 1001 milliseconds changes the policy. *)
Theorem fractional_window_truncated (other : float64 → Z) :
  (∃ req, policy_of_json (JObject [("window_seconds", JNumber "1.001")]) = inl req
    ∧ policy_next other req (MkPolicy 10 Second) = MkPolicy 10 1000999999)
  ∧ shared_form (MkPolicy 10 1000999999) = MkPolicy 10 (1000 * Millisecond)
  ∧ let p := MkPolicy 10 (1001 * Millisecond) in
    policy_next other (MkPolicyRequest None (Some (WindowSeconds (policyView p)))) p ≠ p.
Proof.
  split; [|split].
  - eexists. split; [vm_compute; reflexivity|]. vm_compute. reflexivity.
  - vm_compute. reflexivity.
  - vm_compute. discriminate.
Qed.

(** ** Two updates at once *)

Section Race.
Context {P U B : Type} `{ProxyPackage P U} `{Codec B} `{JsonParser}.
Context (mime : string → option string) (other : float64 → Z) (s : Server U).
Implicit Types w : world P B.

(** Two handlers that both read the policy before either has stored its own. *)
Definition racing_updates (i1 i2 : inputs) (req1 req2 : policyRequest) w
    : response payload * response payload * world P B :=
  let p := policy (w_manager w) in
  let '(resp1, w) := policy_commit s i1 (policy_next other req1 p) w in
  let '(resp2, w) := policy_commit s i2 (policy_next other req2 p) w in
  (resp1, resp2, w).

(** C40.  Two partial updates at once can lose one: the handler computes the new policy from the
    one it read, so an update of the window alone that overlaps an update of the limit puts the
    old limit back, though both were answered 200. *)
Theorem concurrent_update_lost (i1 i2 : inputs) (n : Z) (f : float64) w :
  let p := policy (w_manager w) in
  let req1 := MkPolicyRequest (Some n) None in
  let req2 := MkPolicyRequest None (Some f) in
  acceptable (policy_next other req1 p) → acceptable (policy_next other req2 p) →
  let '(resp1, resp2, w') := racing_updates i1 i2 req1 req2 w in
  status resp1 = StatusOK ∧ status resp2 = StatusOK ∧ Limit (policy (w_manager w')) = Limit p.
Proof.
  intros p req1 req2 Ha1 Ha2. unfold racing_updates. fold p.
  pose proof (policy_commit_spec s i1 (policy_next other req1 p) w) as Hc1.
  destruct (policy_commit s i1 _ w) as [resp1 w1].
  destruct Hc1 as [(_ & _ & ?)|(Hs1 & _ & _ & _)]; [done|].
  pose proof (policy_commit_spec s i2 (policy_next other req2 p) w1) as Hc2.
  destruct (policy_commit s i2 _ w1) as [resp2 w2].
  destruct Hc2 as [(_ & _ & ?)|(Hs2 & _ & _ & Hp)]; [done|].
  split; [done|]. split; [done|]. by rewrite Hp.
Qed.

(** ** Multipart forms *)

(** The media type of a multipart request is not the one whose body is read. *)
Lemma media_type_multipart ct :
  HasPrefix ct "multipart/form-data" = true →
  String.eqb (media_type ct) "application/x-www-form-urlencoded" = false.
Proof.
  intros (r & ->)%HasPrefix_spec. apply String.eqb_neq. unfold media_type. rewrite bytes_app.
  set (l := match cut ";" _ with Some (b, _) => b | None => _ end).
  assert (Hl : ∃ k, l = "m"%char :: k).
  { subst l. destruct (cut ";" _) as [[b k]|] eqn:E; [|by eexists].
    apply cut_Some in E as [E _]. destruct b as [|x b]; [by injection E|]. injection E as <- _. by eexists. }
  destruct Hl as (k & ->). unfold TrimSpace. rewrite !bytes_text.
  assert (Hleft : TrimLeft ("m"%char :: k) = "m"%char :: k) by by apply trim_id.
  rewrite Hleft. destruct (TrimRight_spec ("m"%char :: k)) as [_ (after & E)].
  destruct (TrimRight ("m"%char :: k)) as [|c t]; [done|]. injection E as <- _. done.
Qed.

(** Multipart forms never work: the handlers take them for forms, but what they call to read
    one leaves the parts of a multipart body alone, so every such update of the policy is refused
    with 400, whatever it holds. *)
Theorem multipart_update_refused (i : inputs) (r : request) w :
  HasPrefix (Get (RHeader r) "Content-Type") "multipart/form-data" = true →
  ∃ resp, handlePolicySet mime other s i r w = Some (resp, w) ∧ status resp = StatusBadRequest.
Proof.
  intros Hct. unfold handlePolicySet, decodePolicyRequest, is_form.
  rewrite Hct, orb_true_r. unfold ParseForm. set (ct := Get (RHeader r) "Content-Type") in *.
  assert (Hne : String.eqb ct "" = false).
  { apply String.eqb_neq. intros E. rewrite E in Hct. discriminate Hct. }
  rewrite Hne, (media_type_multipart ct Hct).
  destruct (one_of (Method r) ["POST"; "PUT"; "PATCH"]); [destruct (mime ct)|];
    try destruct (ParseQuery (bytes (RawQuery r))).2; by eexists.
Qed.

End Race.

(** ** Witnesses *)

Lemma update_reaches_fleet_witness :
  let next := MkPolicy 7 (2 * Second) in
  let w' := (policy_commit sample_server quiet next sample_world).2 in
  policy (w_manager w') = next
  ∧ policy_Load None (NewPolicyStore "rl:") (w_policies w') = (next, true, None).
Proof.
  destruct (update_reaches_fleet sample_server quiet (MkPolicy 7 (2 * Second)) sample_world
    (NewPolicyStore "rl:")) as (H1 & H2 & _).
  - reflexivity.
  - split; simpl; unfold_durations; lia.
  - reflexivity.
  - split; [exact H1|exact H2].
Defined.

Lemma upstream_update_witness :
  ∃ resp w', handleUpstreamSet no_mime sample_server quiet (json_put "/_rl/api/upstream" doc_url)
      sample_world = Some (resp, w')
    ∧ status resp = StatusOK ∧ currentUpstream sample_server w' = Some "http://b:2".
Proof.
  destruct (upstream_update no_mime sample_server quiet (json_put "/_rl/api/upstream" doc_url)
    sample_world) as (resp & w' & E & H).
  exists resp, w'. split; [exact E|].
  destruct H as [(_ & _ & [H|H])|[(_ & _ & H)|(url & up & sh & err & _ & Hd & Hn & -> & Hc & _)]].
  - discriminate H.
  - discriminate H.
  - destruct (H "http://b:2" "http://b:2"); vm_compute; reflexivity.
  - split; [reflexivity|]. rewrite Hc. vm_compute in Hd. injection Hd as <-.
    vm_compute in Hn. by injection Hn as <-.
Defined.

Lemma reset_forgets_witness :
  ∃ resp w', handleClientsReset sample_server quiet (anonymous "POST" "/_rl/api/clients/reset")
      sample_world = Some (resp, w')
    ∧ Memory.Keys (w_memory w') = 0.
Proof.
  do 2 eexists. split; [reflexivity|].
  refine (proj1 (reset_forgets sample_server quiet (anonymous "POST" "/_rl/api/clients/reset")
    sample_world _ _ _ _ _ _)).
  - exact wf_New.
  - by intros key [e He].
  - split; [apply NoDup_nil_2|]. intros k. simpl. rewrite lookup_empty.
    split; [by intros ?%not_elem_of_nil|by intros [? ?]].
  - reflexivity.
Defined.

Lemma concurrent_update_lost_witness :
  let '(resp1, resp2, w') :=
    racing_updates saturate sample_server quiet quiet (MkPolicyRequest (Some 99) None)
      (MkPolicyRequest None (Some (float 60))) sample_world in
  status resp1 = StatusOK ∧ status resp2 = StatusOK ∧ Limit (policy (w_manager w')) = 10.
Proof.
  assert (H1 : acceptable (policy_next saturate (MkPolicyRequest (Some 99) None)
    (policy (w_manager sample_world)))).
  { split; simpl; (eapply bool_decide_unpack; vm_compute; exact I). }
  assert (H2 : acceptable (policy_next saturate (MkPolicyRequest None (Some (float 60)))
    (policy (w_manager sample_world)))).
  { split; simpl; (eapply bool_decide_unpack; vm_compute; exact I). }
  pose proof (concurrent_update_lost saturate sample_server quiet quiet 99 (float 60) sample_world
    H1 H2) as H.
  destruct (racing_updates _ _ _ _ _ _ _) as [[resp1 resp2] w']. exact H.
Defined.

Lemma multipart_update_refused_witness :
  let r := MkRequest "POST" "/_rl/api/policy" "/_rl/api/policy" ""
    {[ "Content-Type" := ["multipart/form-data; boundary=b"] ]} (bytes "--b") None "10.0.0.1:5" in
  ∃ resp, handlePolicySet no_mime saturate sample_server quiet r sample_world = Some (resp, sample_world)
          ∧ status resp = StatusBadRequest.
Proof.
  refine (multipart_update_refused no_mime saturate sample_server quiet
    (MkRequest "POST" "/_rl/api/policy" "/_rl/api/policy" ""
      {[ "Content-Type" := ["multipart/form-data; boundary=b"] ]} (bytes "--b") None "10.0.0.1:5")
    sample_world _).
  vm_compute. reflexivity.
Defined.
