(* ===== verification/Sse.v ===== *)
(** * internal/api/sse.go: the live stream

    The broadcaster and the handlers of the connected dashboards run beside each other and
    beside the other requests, over one hub: each is a machine whose steps end at the points
    where another may run, and a history is a sequence of such steps.  Which case a [select]
    takes, whether a write or a flush succeeds, the clock and the orders of iteration are inputs;
    a run-time panic is [None].  [json.Marshal] is a parameter. *)

From Stdlib Require Import Ascii SpecFloat.
From S2P Require Import Prelude.
From S2P Require Import GoTime.
From S2P Require Import GoStrings.
From S2P Require Import GoText.
From S2P Require Import GoNet.
From S2P Require Import Redis.
From S2P Require Import Metrics.
From S2P Require Import Stores.
From S2P Require Import Hub.
From S2P Require Import Http.
From S2P Require Import Auth.
From S2P Require Import Api.

Open Scope Z_scope.

Definition newline : ascii := ascii_of_nat 10.
Definition carriage_return : ascii := ascii_of_nat 13.

(** [json.Marshal] of the snapshot, and what its documentation says of the text: strings are
    escaped and no white space is added, so no line ends in it. *)
Class SnapshotEncoder := json_marshal : StatsPayload → list ascii + string.

Class OneLine `{SnapshotEncoder} : Prop :=
  marshal_one_line p b : json_marshal p = inl b → (newline ∉ b) ∧ (carriage_return ∉ b).

(** ** Frames *)

(** The buffer [encodeFrame] builds from the encoded payload. *)
Definition frame_of (event : string) (b : list ascii) : list ascii :=
  bytes "event: " ++ bytes event ++ [newline] ++ bytes "data: " ++ b ++ [newline; newline].

Definition encodeFrame `{SnapshotEncoder} (event : string) (p : StatsPayload) : list ascii + string :=
  match json_marshal p with inr err => inr err | inl b => inl (frame_of event b) end.

Definition keepalive : list ascii := bytes ": keepalive" ++ [newline; newline].

(** ** [handleStream] *)

(** Its program points, with the subscriber it holds. *)
Inductive stream_pc :=
| StSubscribe
| StFirst (sub : nat)
| StLoop (sub : nat)
| StLeave (sub : nat)
| StGone.

(** A stream, with all it wrote to its client: the chunks, in order. *)
Record stream := MkStream { st_pc : stream_pc; st_out : list (list ascii) }.

Inductive select := SelDone | SelKeepalive | SelFrame.

(** One step's inputs: the environment of a snapshot, the case of the [select], how many bytes a
    write that fails gets through ([None] is a write that succeeds), and whether the flush does. *)
Record stream_input := MkStreamInput {
  si_env : inputs; si_select : select; si_failed : option nat; si_flush : bool }.

(** A write and its flush: a failed write may leave the beginning of the chunk, and the chunk is on
    its way even if the flush fails. *)
Definition write_chunk (i : stream_input) (sub : nat) (chunk : list ascii) (st : stream) : stream :=
  match si_failed i with
  | Some n => MkStream (StLeave sub) (st_out st ++ [take n chunk])
  | None => MkStream (if si_flush i then StLoop sub else StLeave sub) (st_out st ++ [chunk])
  end.

Section Streams.
Context {P U B : Type} `{ProxyPackage P U} `{Codec B} `{SnapshotEncoder}.
Context (s : Server U).
Implicit Types w : world P B.

Definition handleStream (i : stream_input) (st : stream) w : option (stream * world P B) :=
  match st_pc st with
  | StSubscribe =>
      '(sub, w) ← open_stream w; Some (MkStream (StFirst sub) (st_out st), w)
  | StFirst sub =>
      match encodeFrame "stats" (Snapshot_ s (si_env i) w) with
      | inr _ => Some (MkStream (StLoop sub) (st_out st), w)
      | inl frame => Some (write_chunk i sub frame st, w)
      end
  | StLoop sub =>
      match si_select i with
      | SelDone => Some (MkStream (StLeave sub) (st_out st), w)
      | SelKeepalive => Some (write_chunk i sub keepalive st, w)
      | SelFrame =>
          match receive sub (w_hub w) with
          | (Some frame, h) => Some (write_chunk i sub frame st, set_hub h w)
          | (None, _) =>
              (* the channel is empty: closed, or this case is not ready *)
              match heap (w_hub w) !! sub with
              | Some x =>
                  if ch_closed x then Some (MkStream (StLeave sub) (st_out st), w) else Some (st, w)
              | None => Some (st, w)
              end
          end
      end
  | StLeave sub => h ← Unsubscribe (Some sub) (w_hub w); Some (MkStream StGone (st_out st), set_hub h w)
  | StGone => Some (st, w)
  end.

(** ** [StartBroadcaster] *)

Definition broadcast_interval (interval : Duration) : Duration :=
  if interval <=? 0 then Second else interval.

(** Where the loop is: in its [select], with a frame to send, or returned. *)
Inductive broadcaster := BSelect | BSend (frame : list ascii) | BStopped.

(** What it goes on with: a case of the [select], or the send; [order] is the order of the range
    over the subscribers, or over the client table. *)
Inductive wake := WakeDone (order : list nat) | WakeSweep (order : list string) (now : Time)
                | WakeTick (i : inputs) | WakeSend (order : list nat).

(** A step that is not the loop's next one leaves it where it is. *)
Definition StartBroadcaster (e : wake) (b : broadcaster) w : option (broadcaster * world P B) :=
  match b, e with
  | BSelect, WakeDone order => h ← Close order (w_hub w); Some (BStopped, set_hub h w)
  | BSelect, WakeSweep order now =>
      let '(_, c) := Metrics.Sweep order now (w_metrics w) in Some (BSelect, set_metrics c w)
  | BSelect, WakeTick i =>
      match encodeFrame "stats" (Snapshot_ s i w) with
      | inr _ => Some (BSelect, w)
      | inl frame => Some (BSend frame, w)
      end
  | BSend frame, WakeSend order => h ← Broadcast order frame (w_hub w); Some (BSelect, set_hub h w)
  | _, _ => Some (b, w)
  end.

(** ** The whole plane *)

Context `{JsonParser} (mime : string → option string) (other : SpecFloat.spec_float → Z).

Record plane := MkPlane {
  p_world : world P B; p_streams : list stream; p_broadcaster : broadcaster }.

Definition p_running (p : plane) : bool :=
  match p_broadcaster p with BStopped => false | _ => true end.

(** A request, at the target its route names; a step of a stream; or one of the broadcaster. *)
Inductive plane_event :=
| EvRequest (i : inputs) (t : target) (r : request)
| EvStream (n : nat) (i : stream_input)
| EvWake (e : wake).

(** Whether a request starts a stream: it reaches [handleStream], past the guard. *)
Definition opens_stream (t : target) (r : request) : bool :=
  match t with
  | Open Stream => true
  | Guarded Stream => authorized (s_token s) (RHeader r)
  | _ => false
  end.

(** Every other request is answered in one step. *)
Definition plane_run (e : plane_event) (p : plane) : option plane :=
  match e with
  | EvRequest i t r =>
      if opens_stream t r
      then Some (MkPlane (p_world p) (p_streams p ++ [MkStream StSubscribe []]) (p_broadcaster p))
      else
        '(_, w) ← serve_target mime other s i t r (p_world p);
        Some (MkPlane w (p_streams p) (p_broadcaster p))
  | EvStream n i =>
      match p_streams p !! n with
      | None => Some p
      | Some st =>
          '(st, w) ← handleStream i st (p_world p);
          Some (MkPlane w (<[n := st]> (p_streams p)) (p_broadcaster p))
      end
  | EvWake e =>
      '(b, w) ← StartBroadcaster e (p_broadcaster p) (p_world p);
      Some (MkPlane w (p_streams p) b)
  end.

(** The inputs of a request hold all the pages its walks of the Redis key space ask for, to the
    last one or to an error (their contexts have deadlines). *)
Definition scans_end (i : inputs) : Prop :=
  match s_redis s with
  | Some rl => is_Some (ActiveKeys rl 200 (i_scan i)) ∧ is_Some (Redis.Reset (i_delete i))
  | None => True
  end.

(** The ranges over the subscribers visit each of them once. *)
Definition event_ok (e : plane_event) (p : plane) : Prop :=
  let range order := NoDup order ∧ ∀ x, x ∈ order ↔ x ∈ subs (w_hub (p_world p)) in
  match e with
  | EvRequest i _ _ => scans_end i
  | EvWake (WakeDone order) | EvWake (WakeSend order) => range order
  | _ => True
  end.

Fixpoint plane_runs (es : list plane_event) (p : plane) : option plane :=
  match es with
  | [] => Some p
  | e :: es => p ← plane_run e p; plane_runs es p
  end.

Fixpoint events_ok (es : list plane_event) (p : plane) : Prop :=
  match es with
  | [] => True
  | e :: es => event_ok e p ∧ match plane_run e p with Some p => events_ok es p | None => True end
  end.

(** ** Notions for the theorems *)

(** The subscriber a stream holds: it is taken at its first step and given back at its last. *)
Definition holds (st : stream) : option nat :=
  match st_pc st with StFirst x | StLoop x | StLeave x => Some x | _ => None end.

(** A step of stream [n] that is not one more keepalive. *)
Definition progress (n : nat) (e : plane_event) : bool :=
  match e with
  | EvStream m i => Nat.eqb m n && match si_select i with SelKeepalive => false | _ => true end
  | _ => false
  end.

(** The plane at start: a new hub, with nobody on it. *)
Definition plane_start (p : plane) : Prop :=
  (∃ b, w_hub (p_world p) = NewHub b) ∧ p_streams p = [] ∧ p_broadcaster p = BSelect.

(** Every subscriber belongs to exactly one running stream, and, until the shutdown, every such
    stream has its subscriber. *)
Record plane_ok (p : plane) : Prop := {
  pok_hub : settled (w_hub (p_world p));
  pok_running : closed (w_hub (p_world p)) = negb (p_running p);
  pok_subs x : p_running p = true →
    x ∈ subs (w_hub (p_world p)) ↔ ∃ n st, p_streams p !! n = Some st ∧ holds st = Some x;
  pok_one n n' st st' x : p_streams p !! n = Some st → p_streams p !! n' = Some st' →
    holds st = Some x → holds st' = Some x → n = n';
  pok_known n st x : p_streams p !! n = Some st → holds st = Some x →
    is_Some (heap (w_hub (p_world p)) !! x) }.

End Streams.

(** ** A client: the event-stream format of the HTML standard *)

(** The complete lines of a text. *)
Fixpoint text_lines (l cur : list ascii) : list (list ascii) :=
  match l with
  | [] => []
  | c :: l =>
      if Ascii.eqb c newline || Ascii.eqb c carriage_return then (reverse cur) :: text_lines l []
      else text_lines l (c :: cur)
  end.

(** The event type and the data lines collected so far. *)
Record sse_state := MkSse { sse_event : list ascii; sse_data : list (list ascii) }.

Definition sse_clear : sse_state := MkSse [] [].

(** One line: the events it dispatches, and what is collected then. *)
Definition sse_line (x : sse_state) (line : list ascii)
    : list (list ascii * list (list ascii)) * sse_state :=
  match line with
  | [] => (match sse_data x with [] => [] | _ => [(sse_event x, sse_data x)] end, sse_clear)
  | c :: _ =>
      if Ascii.eqb c ":" then ([], x)
      else
        let '(field, value) := match cut ":" line with Some fv => fv | None => (line, []) end in
        let value := match value with " "%char :: v => v | v => v end in
        if bool_decide (field = bytes "event") then ([], MkSse value (sse_data x))
        else if bool_decide (field = bytes "data") then ([], MkSse (sse_event x) (sse_data x ++ [value]))
        else ([], x)
  end.

Fixpoint sse_lines (x : sse_state) (ls : list (list ascii)) : list (list ascii * list (list ascii)) :=
  match ls with
  | [] => []
  | line :: ls => let '(out, x) := sse_line x line in out ++ sse_lines x ls
  end.

(** The events a client dispatches: their types and their data lines. *)
Definition sse_parse (l : list ascii) : list (list ascii * list (list ascii)) :=
  sse_lines sse_clear (text_lines l []).

(** What a chunk is: a snapshot of some state, or a comment. *)
Inductive chunk_kind := Frame (b : list ascii) | Comment.

Definition chunk_bytes (c : chunk_kind) : list ascii :=
  match c with Frame b => frame_of "stats" b | Comment => keepalive end.

Definition chunk_event (c : chunk_kind) : option (list ascii * list (list ascii)) :=
  match c with Frame b => Some (bytes "stats", [b]) | Comment => None end.

Definition chunk_ok (c : chunk_kind) : Prop :=
  match c with Frame b => (newline ∉ b) ∧ (carriage_return ∉ b) | Comment => True end.
