(* ===== verification/SseProps.v ===== *)
(** * internal/api/sse.go: correctness

    The streams and the broadcaster over every interleaving: no panic, no subscriber left
    behind, an orderly end; and what a client reads. *)

From Stdlib Require Import Ascii SpecFloat.
From S2P Require Import Prelude.
From S2P Require Import GoTime.
From S2P Require Import GoStrings.
From S2P Require Import GoText.
From S2P Require Import GoNet.
From S2P Require Import Redis.
From S2P Require Import Metrics.
From S2P Require Import Stores.
From S2P Require Import Hub.
From S2P Require Import Breaker.
From S2P Require Import Policy.
From S2P Require Import Http.
From S2P Require Import Auth.
From S2P Require Import Api.
From S2P Require Import ApiProps.
From S2P Require Import Sse.

Open Scope Z_scope.

(** ** Reading frames back *)

Definition no_eol (l : list ascii) : Prop := (newline ∉ l) ∧ (carriage_return ∉ l).

Lemma text_lines_line line rest :
  no_eol line → text_lines (line ++ newline :: rest) [] = line :: text_lines rest [].
Proof.
  intros [Hn Hc]. assert (H : ∀ cur, text_lines (line ++ newline :: rest) cur
    = (reverse cur ++ line) :: text_lines rest []); [|by rewrite H].
  induction line as [|c line IH]; intros cur; [by rewrite app_nil_r|].
  apply not_elem_of_cons in Hn as [Hn1 Hn]. apply not_elem_of_cons in Hc as [Hc1 Hc].
  cbn [app text_lines]. rewrite (proj2 (Ascii.eqb_neq c newline)), (proj2 (Ascii.eqb_neq c carriage_return))
    by congruence. simpl orb. cbn iota. rewrite IH by done. by rewrite reverse_cons, <- app_assoc.
Qed.

Lemma no_eol_app a b : no_eol a → no_eol b → no_eol (a ++ b).
Proof. unfold no_eol. rewrite !elem_of_app. tauto. Qed.

Lemma sse_data_line x b :
  sse_line x (bytes "data: " ++ b) = ([], MkSse (sse_event x) (sse_data x ++ [b])).
Proof.
  change (bytes "data: ") with ["d"; "a"; "t"; "a"; ":"; " "]%char. cbn [app sse_line].
  rewrite (proj2 (Ascii.eqb_neq "d" ":")) by done.
  assert (E : cut ":" ("d" :: "a" :: "t" :: "a" :: ":" :: " " :: b)%char
              = Some (bytes "data", (" " :: b)%char)) by (apply cut_Some; split; [done|
    eapply bool_decide_unpack; vm_compute; exact I]).
  by rewrite E.
Qed.

Lemma sse_frame b rest :
  no_eol b → sse_parse (frame_of "stats" b ++ rest) = (bytes "stats", [b]) :: sse_parse rest.
Proof.
  intros Hb. unfold sse_parse, frame_of.
  assert (E : (bytes "event: " ++ bytes "stats" ++ [newline] ++ bytes "data: " ++ b ++ [newline; newline]) ++ rest
    = bytes "event: stats" ++ newline :: ((bytes "data: " ++ b) ++ newline :: ([] ++ newline :: rest))).
  { by rewrite <- !app_assoc. }
  rewrite E, !text_lines_line; [|split; apply not_elem_of_nil|
    apply no_eol_app; [|exact Hb]; (eapply bool_decide_unpack; vm_compute; exact I)|
    eapply bool_decide_unpack; vm_compute; exact I].
  assert (E1 : sse_line sse_clear (bytes "event: stats") = ([], MkSse (bytes "stats") [])) by reflexivity.
  cbn [sse_lines]. rewrite E1, sse_data_line. reflexivity.
Qed.

Lemma sse_comment rest : sse_parse (keepalive ++ rest) = sse_parse rest.
Proof.
  unfold sse_parse, keepalive.
  assert (E : (bytes ": keepalive" ++ [newline; newline]) ++ rest
    = bytes ": keepalive" ++ newline :: ([] ++ newline :: rest)) by by rewrite <- !app_assoc.
  rewrite E, !text_lines_line; [reflexivity|split; apply not_elem_of_nil|].
  eapply bool_decide_unpack; vm_compute; exact I.
Qed.

Lemma sse_chunks cs rest :
  Forall chunk_ok cs →
  sse_parse (concat (chunk_bytes <$> cs) ++ rest) = omap chunk_event cs ++ sse_parse rest.
Proof.
  induction 1 as [|[b|] cs Hc _ IH]; [done|..]; rewrite fmap_cons; cbn [concat chunk_bytes];
    rewrite <- (assoc_L (++)).
  - by rewrite sse_frame, IH.
  - by rewrite sse_comment, IH.
Qed.

(** The beginning of a chunk dispatches nothing: what is missing is the end of its empty line. *)
Lemma text_lines_take n : ∀ l cur, text_lines (take n l) cur `prefix_of` text_lines l cur.
Proof.
  induction n as [|n IH]; intros l cur; [rewrite take_0; apply prefix_nil|].
  destruct l as [|c l]; simpl; [done|]. destruct (_ || _); [by apply prefix_cons|done].
Qed.

Lemma sse_silent ls ls' x :
  ls' `prefix_of` ls → Forall (λ line, line ≠ []) ls → sse_lines x ls' = [].
Proof.
  intros [k ->] [Hls _]%Forall_app. revert x. induction Hls as [|line ls' Hl _ IH]; intros x; [done|].
  simpl. destruct (sse_line x line) as [out x'] eqn:E. rewrite IH, app_nil_r.
  unfold sse_line in E. destruct line as [|c line]; [done|]. destruct (Ascii.eqb c ":"); [congruence|].
  destruct (cut ":" (c :: line)) as [[field value]|]; repeat case_bool_decide; congruence.
Qed.

Lemma sse_partial c n :
  chunk_ok c → take n (chunk_bytes c) = chunk_bytes c ∨ sse_parse (take n (chunk_bytes c)) = [].
Proof.
  intros Hc. assert (Hlast : ∃ l, chunk_bytes c = l ++ [newline]
    ∧ Forall (λ line, line ≠ []) (text_lines l [])).
  { destruct c as [b|].
    - exists (bytes "event: stats" ++ newline :: ((bytes "data: " ++ b) ++ newline :: [])). split.
      { simpl. unfold frame_of. by rewrite <- !app_assoc. }
      rewrite !text_lines_line; [by repeat constructor|apply no_eol_app; [|exact Hc]|];
        (eapply bool_decide_unpack; vm_compute; exact I).
    - exists (bytes ": keepalive" ++ [newline]). split; [reflexivity|].
      eapply bool_decide_unpack; vm_compute; exact I. }
  destruct Hlast as (l & -> & Hl). destruct (decide (n ≤ length l)%nat) as [Hn|Hn].
  - right. rewrite take_app_le by done. eapply sse_silent; [apply text_lines_take|exact Hl].
  - left. apply take_ge. rewrite length_app. simpl. lia.
Qed.

(** ** What the hub's operations keep *)

Definition good_frame (f : list ascii) : Prop := ∃ b, f = frame_of "stats" b ∧ no_eol b.

Section Evolution.
Context (G : list ascii → Prop).

Definition frames_ok (h : Hub (list ascii)) : Prop :=
  ∀ x y, heap h !! x = Some y → Forall G (ch y).

(** Subscribers are never forgotten by the heap, and only frames of which [G] holds wait for them. *)
Definition evolves (h h' : Hub (list ascii)) : Prop :=
  (∀ x, is_Some (heap h !! x) → is_Some (heap h' !! x)) ∧ (frames_ok h → frames_ok h').

#[local] Instance evolves_preorder : PreOrder evolves.
Proof.
  split; [by intros h; split|]. intros h1 h2 h3 [D1 F1] [D2 F2]. split; auto.
Qed.

Lemma evolves_heap h h' : heap h' = heap h → evolves h h'.
Proof. unfold evolves, frames_ok. intros ->. done. Qed.

Lemma evolves_set x y y' h :
  heap h !! x = Some y → (Forall G (ch y) → Forall G (ch y')) →
  evolves h (set_sub x y' h).
Proof.
  intros Hx Hf. split.
  - intros z Hz. simpl. apply lookup_insert_is_Some'. by right.
  - intros Hok z k. simpl. destruct (decide (x = z)) as [<-|Hne].
    + rewrite lookup_insert_eq. intros [= <-]. by apply Hf, (Hok x).
    + rewrite lookup_insert_ne by done. apply Hok.
Qed.

Lemma close_ch_evolves x h h' : close_ch x h = Some h' → evolves h h'.
Proof.
  unfold close_ch. destruct (heap h !! x) as [y|] eqn:E; [|done]. destruct (ch_closed y); [done|].
  intros [= <-]. by apply (evolves_set x y).
Qed.

Lemma send_evolves f x h h' : G f → send f x h = Some h' → evolves h h'.
Proof.
  intros Hf. unfold send. destruct (heap h !! x) as [y|] eqn:E; [|done].
  destruct (ch_closed y); [done|]. case_if; intros [= <-]; apply (evolves_set x y); try done.
  simpl. intros Hy. by apply Forall_snoc_intro.
Qed.

Lemma for_each_evolves (f : nat → Hub (list ascii) → option (Hub (list ascii))) order :
  (∀ x h h', f x h = Some h' → evolves h h') →
  ∀ h h', for_each f order h = Some h' → evolves h h'.
Proof.
  intros Hf. unfold for_each. induction order as [|x order IH]; intros h h' E; simpl in E.
  { by injection E as <-. }
  destruct (f x h) as [h1|] eqn:E1.
  - etransitivity; [eapply Hf, E1|by apply IH].
  - exfalso. clear -E. induction order; simpl in E; [done|auto].
Qed.

Lemma Unsubscribe_evolves x h h' : Unsubscribe x h = Some h' → evolves h h'.
Proof.
  destruct x as [x|]; simpl; [|by intros [= <-]]. case_bool_decide; [|by intros [= <-]].
  intros E%close_ch_evolves. etransitivity; [|exact E]. by apply evolves_heap.
Qed.

Lemma Close_evolves order h h' : Close order h = Some h' → evolves h h'.
Proof.
  unfold Close. destruct (closed h); [by intros [= <-]|]. intros E. etransitivity;
    [|eapply for_each_evolves, E]; [by apply evolves_heap|].
  intros x h1 h2 E1%close_ch_evolves. etransitivity; [|exact E1]. by apply evolves_heap.
Qed.

Lemma Broadcast_evolves order f h h' : G f → Broadcast order f h = Some h' → evolves h h'.
Proof. intros Hf. apply for_each_evolves. intros. by eapply send_evolves. Qed.

Lemma Subscribe_evolves h x h' :
  hub_ok h → Subscribe h = Some (x, h') → x = next h ∧ evolves h h' ∧ is_Some (heap h' !! x).
Proof.
  intros Hok. assert (Hfresh : heap h !! next h = None).
  { apply eq_None_not_Some. intros H%(hok_next _ Hok). lia. }
  unfold Subscribe. set (h0 := MkHub _ _ _ _ _).
  assert (H0 : evolves h h0 ∧ is_Some (heap h0 !! next h)).
  { split; [split|].
    - intros z Hz. simpl. apply lookup_insert_is_Some'. by right.
    - intros Hf z y. simpl. destruct (decide (next h = z)) as [<-|Hne].
      + rewrite lookup_insert_eq. by intros [= <-].
      + rewrite lookup_insert_ne by done. apply Hf.
    - simpl. rewrite lookup_insert_eq. by eexists. }
  destruct (closed h0).
  - destruct (close_ch (next h) h0) as [h1|] eqn:E; simpl; [|done]. intros [= <- <-].
    apply close_ch_evolves in E. split; [done|]. split; [by etransitivity; [apply H0|]|].
    apply E, H0.
  - intros [= <- <-]. split; [done|]. split; [|apply H0]. etransitivity; [apply H0|].
    by apply evolves_heap.
Qed.

Lemma receive_evolves x h f h' :
  receive x h = (f, h') → evolves h h' ∧ subs h' = subs h ∧ closed h' = closed h
  ∧ (frames_ok h → ∀ fr, f = Some fr → G fr).
Proof.
  unfold receive. destruct (heap h !! x) as [y|] eqn:E; [|by intros [= <- <-]].
  destruct (ch y) as [|fr q] eqn:Eq; intros [= <- <-]; [done|].
  split; [|split; [done|split; [done|]]].
  - apply (evolves_set x y); [done|]. rewrite Eq. simpl. by intros [_ ?]%Forall_cons.
  - intros Hf fr' [= <-]. specialize (Hf x y E). rewrite Eq in Hf. by apply Forall_cons in Hf as [? _].
Qed.

End Evolution.

Lemma receive_settled x (h : Hub (list ascii)) : settled h → settled (receive x h).2.
Proof.
  intros [Hok Hcl]. unfold receive. destruct (heap h !! x) as [y|] eqn:E; [|done].
  destruct (ch y) as [|fr q] eqn:Eq; [done|]. simpl. split; [|done].
  eapply hub_ok_update; try done. simpl. pose proof (hok_bound _ Hok x y E) as Hb.
  rewrite Eq in Hb. unfold len in *. simpl in *. lia.
Qed.

Lemma Broadcast_settled order f (h : Hub (list ascii)) :
  settled h → (∀ x, x ∈ order → x ∈ subs h) →
  ∃ h', Broadcast order f h = Some h' ∧ settled h' ∧ subs h' = subs h ∧ closed h' = closed h.
Proof.
  unfold Broadcast, for_each. revert h. induction order as [|x order IH]; intros h [Hok Hcl] Hin.
  { exists h. split; [done|]. split; [exact (conj Hok Hcl)|done]. }
  destruct (send_ok h f x Hok (Hin x ltac:(left))) as (h1 & E & Hok1 & Hs1 & Hc1).
  simpl. rewrite E. destruct (IH h1) as (h2 & -> & Hset & Hs2 & Hc2).
  - split; [done|]. by rewrite Hs1, Hc1.
  - intros y Hy. rewrite Hs1. apply Hin. by right.
  - exists h2. split; [done|]. split; [done|]. split; congruence.
Qed.

Lemma Close_settled order (h : Hub (list ascii)) :
  settled h → NoDup order → (∀ x, x ∈ order ↔ x ∈ subs h) →
  ∃ h', Close order h = Some h' ∧ settled h' ∧ closed h' = true.
Proof.
  intros [Hok Hcl] Hnd Hin. unfold Close. destruct (closed h) eqn:E.
  { exists h. split; [done|]. split; [|done]. split; [exact Hok|]. intros _. by apply Hcl. }
  set (h0 := MkHub _ _ _ _ _).
  assert (Hok0 : hub_ok h0) by (destruct Hok; by constructor).
  destruct (close_all_ok order h0 Hok0 Hnd) as (h' & Eh & Hok' & Hs & Hc & _).
  { intros x Hx. by apply Hin. }
  exists h'. split; [exact Eh|]. split; [|exact Hc]. split; [done|]. intros _. apply set_eq.
  intros x. rewrite Hs. split; [|set_solver]. intros [H1 H2]. by apply Hin in H1.
Qed.

Lemma Unsubscribe_settled x (h : Hub (list ascii)) :
  settled h → ∃ h', Unsubscribe (Some x) h = Some h' ∧ settled h' ∧ closed h' = closed h
    ∧ subs h' = subs h ∖ {[x]}.
Proof.
  intros [Hok Hcl]. simpl. case_bool_decide as Hx.
  - destruct (drop_ok h x Hok Hx) as (h' & -> & Hok' & Hs & Hc & _). exists h'.
    split; [done|]. split; [|done]. split; [done|]. rewrite Hc, Hs. intros E.
    rewrite Hcl by done. set_solver.
  - exists h. split; [done|]. split; [done|]. split; [done|]. set_solver.
Qed.

(** ** One step of a stream *)

Section Plane.
Context {P U B : Type} `{ProxyPackage P U} `{Codec B} `{SnapshotEncoder} `{JsonParser}.
Context (mime : string → option string) (other : spec_float → Z) (s : Server U).
Context (G : list ascii → Prop).
Implicit Types w : world P B.
Implicit Types p : plane (P := P) (B := B).

(** Every request that opens no stream is answered, and leaves the hub alone. *)
Lemma endpoint_request i e r w :
  e ≠ Stream → scans_end s i →
  ∃ resp w', endpoint_handler mime other s i e r w = Some (resp, w') ∧ w_hub w' = w_hub w.
Proof.
  intros He Hscan. assert (Hsome : is_Some (endpoint_handler mime other s i e r w)).
  { destruct e; try done; simpl; try by eexists.
    - unfold handlePolicySet. destruct (decodePolicyRequest mime r); by eexists.
    - unfold handleClients. destruct (Metrics.Clients _ _ _ _) as [rows total]. unfold scans_end in Hscan.
      destruct (s_redis s) as [rl|]; [|by eexists]. destruct (degraded _); [by eexists|].
      destruct Hscan as [[[fleet|err] ->] _]; by eexists.
    - unfold handleClientsReset. unfold scans_end in Hscan. destruct (s_redis s) as [rl|]; [|by eexists].
      destruct Hscan as [_ [[n err] ->]]. by eexists.
    - unfold handleUpstreamSet. destruct (w_proxy w); [|by eexists]. destruct (negb _); [by eexists|].
      destruct (decodeUpstreamRequest mime r) as [url|err]; [|by eexists].
      destruct (NewUpstream url _) as [up|err]; [|by eexists].
      destruct (s_upstreamStore s); [|by eexists]. destruct (upstream_Save _ _ _ _ _). by eexists. }
  destruct Hsome as [[resp w'] E]. exists resp, w'. split; [exact E|].
  apply endpoint_frame in E as (_ & _ & _ & [?|Hh] & _); done.
Qed.

Lemma serve_request i t r w :
  opens_stream s t r = false → scans_end s i →
  ∃ resp w', serve_target mime other s i t r w = Some (resp, w') ∧ w_hub w' = w_hub w.
Proof.
  intros Ho Hscan. destruct t as [e|e]; simpl.
  - apply endpoint_request; [by intros ->|done].
  - destruct (authorized (s_token s) (RHeader r)) eqn:Ea.
    + rewrite guard_open by done. apply endpoint_request; [|done]. intros ->. simpl in Ho. congruence.
    + rewrite guard_closed by done. by eexists _, _.
Qed.

(** What a step may do to the hub's subscribers: take one, give one back, or neither. *)
Definition stream_effect (st st' : stream) (h h' : Hub (list ascii)) : Prop :=
  (holds st = None ∧ holds st' = Some (next h) ∧ is_Some (heap h' !! next h)
   ∧ subs h' = (if closed h then subs h else {[next h]} ∪ subs h))
  ∨ (∃ x, holds st = Some x ∧ holds st' = None ∧ subs h' = subs h ∖ {[x]})
  ∨ (holds st' = holds st ∧ subs h' = subs h).

Lemma holds_write i x chunk st : holds (write_chunk i x chunk st) = Some x.
Proof. unfold write_chunk. by destruct (si_failed i), (si_flush i). Qed.

Lemma handleStream_step i st w :
  settled (w_hub w) →
  ∃ st' w', handleStream s i st w = Some (st', w')
    ∧ settled (w_hub w') ∧ closed (w_hub w') = closed (w_hub w) ∧ evolves G (w_hub w) (w_hub w')
    ∧ stream_effect st st' (w_hub w) (w_hub w')
    ∧ set_hub (w_hub w) w' = w.
Proof.
  intros Hset. assert (Hid : set_hub (w_hub w) w = w) by by destruct w.
  unfold handleStream, open_stream. destruct (st_pc st) as [|x|x|x|] eqn:Epc.
  - destruct (Subscribe_ok (w_hub w) (proj1 Hset)) as (h' & E & Hok' & Hc & Hs). rewrite E. simpl.
    apply (Subscribe_evolves G) in E as (_ & Hev & Hx); [|apply Hset].
    do 2 eexists. split; [done|]. simpl. split; [|split; [done|split; [done|split; [|done]]]].
    + split; [done|]. rewrite Hc, Hs. intros Ec. rewrite Ec. by apply Hset.
    + left. unfold holds. by rewrite Epc.
  - destruct (encodeFrame "stats" _); do 2 eexists; (split; [done|]);
      (split; [done|]); (split; [done|]); (split; [done|]); (split; [|done]); right; right;
      (split; [|done]); unfold holds at 2; rewrite Epc; [apply holds_write|done].
  - destruct (si_select i).
    + do 2 eexists. split; [done|]. split; [done|]. split; [done|]. split; [done|]. split; [|done].
      do 2 right. unfold holds. by rewrite Epc.
    + do 2 eexists. split; [done|]. split; [done|]. split; [done|]. split; [done|]. split; [|done].
      do 2 right. split; [|done]. unfold holds at 2. rewrite Epc. apply holds_write.
    + pose proof (receive_settled x (w_hub w) Hset) as Hs.
      destruct (receive x (w_hub w)) as [[f|] h] eqn:E.
      * apply (receive_evolves G) in E as (Hev & Hsub & Hc & _). do 2 eexists. split; [done|]. simpl.
        split; [done|]. split; [done|]. split; [done|]. split; [|done]. do 2 right.
        split; [|done]. unfold holds at 2. rewrite Epc. apply holds_write.
      * assert (Hsame : ∀ st', holds st' = holds st → ∃ st2 w', Some (st', w) = Some (st2, w')
          ∧ settled (w_hub w') ∧ closed (w_hub w') = closed (w_hub w)
          ∧ evolves G (w_hub w) (w_hub w') ∧ stream_effect st st2 (w_hub w) (w_hub w')
          ∧ set_hub (w_hub w) w' = w).
        { intros st' Hst. exists st', w. split; [done|]. split; [done|]. split; [done|].
          split; [done|]. split; [|done]. by do 2 right. }
        destruct (heap (w_hub w) !! x) as [y|]; [destruct (ch_closed y)|]; apply Hsame;
          unfold holds; by rewrite ?Epc.
  - destruct (Unsubscribe_settled x (w_hub w) Hset) as (h' & E & Hs & Hc & Hsub). rewrite E.
    cbn [mbind option_bind]. do 2 eexists. split; [done|]. simpl. split; [done|]. split; [done|].
    split; [by eapply Unsubscribe_evolves|]. split; [|done]. right; left. exists x.
    unfold holds. by rewrite Epc.
  - do 2 eexists. split; [done|]. split; [done|]. split; [done|]. split; [done|]. split; [|done].
    by do 2 right.
Qed.

(** ** The invariant *)

Lemma plane_ok_start p : plane_start p → plane_ok p.
Proof.
  intros ([b Hh] & Hst & Hr). constructor; unfold p_running; rewrite ?Hh, ?Hst, ?Hr; try done.
  - split; [apply hub_ok_new|done].
  - intros x _. split; [intros Hx; by apply not_elem_of_empty in Hx|by intros (n & st & ? & _)].
Qed.

(** A new world and broadcaster under the same streams. *)
Lemma plane_ok_world p w' b :
  let p' := MkPlane w' (p_streams p) b in
  plane_ok p → settled (w_hub w') → closed (w_hub w') = negb (p_running p') →
  (p_running p' = true → p_running p = true ∧ subs (w_hub w') = subs (w_hub (p_world p))) →
  evolves G (w_hub (p_world p)) (w_hub w') →
  plane_ok p'.
Proof.
  intros p' [] Hset Hc Hrun [Hd _]. constructor; simpl; try done.
  - intros x Hr. destruct (Hrun Hr) as [Hr' ->]. by apply pok_subs.
  - intros n st x Hn Hx. by eapply Hd, pok_known.
Qed.

(** A step of stream [n], from [st] to [st']. *)
Section Step.
Context (p : plane (P := P) (B := B)) (n : nat) (st st' : stream) (w' : world P B).
Context (Hp : plane_ok p) (Hn : p_streams p !! n = Some st).
Context (Hev : evolves G (w_hub (p_world p)) (w_hub w')).
Context (Heff : stream_effect st st' (w_hub (p_world p)) (w_hub w')).

(** The next subscriber is nobody's yet. *)
Lemma next_free m st0 : p_streams p !! m = Some st0 → holds st0 ≠ Some (next (w_hub (p_world p))).
Proof.
  intros Hm Hx. pose proof (pok_known p Hp m st0 _ Hm Hx) as Hlt.
  apply (hok_next _ (proj1 (pok_hub p Hp))) in Hlt. lia.
Qed.

Lemma stream_at m st0 :
  <[n := st']> (p_streams p) !! m = Some st0 ↔
  (m = n ∧ st0 = st') ∨ (m ≠ n ∧ p_streams p !! m = Some st0).
Proof.
  assert (Hlen : (n < length (p_streams p))%nat) by (eapply lookup_lt_Some, Hn).
  destruct (decide (m = n)) as [->|Hne].
  - rewrite list_lookup_insert_eq by done. naive_solver.
  - rewrite list_lookup_insert_ne by done. naive_solver.
Qed.

Lemma subs_after x :
  p_running p = true →
  x ∈ subs (w_hub w') ↔ ∃ m st0, <[n := st']> (p_streams p) !! m = Some st0 ∧ holds st0 = Some x.
Proof.
  intros Hr. assert (Hcl : closed (w_hub (p_world p)) = false) by (by rewrite (pok_running p Hp), Hr).
  assert (Hsub : x ∈ subs (w_hub w') ↔ holds st' = Some x ∨ (x ∈ subs (w_hub (p_world p)) ∧ holds st ≠ Some x)).
  { assert (Hin : holds st = Some x → x ∈ subs (w_hub (p_world p))).
    { intros Hx. apply (pok_subs p Hp x Hr). by exists n, st. }
    pose proof (next_free n st Hn).
    destruct Heff as [(Ho & -> & _ & ->)|[(y & Ho & -> & ->)|(-> & ->)]].
    - rewrite Hcl, elem_of_union, elem_of_singleton, Ho. naive_solver.
    - rewrite elem_of_difference, elem_of_singleton, Ho. naive_solver.
    - destruct (decide (holds st = Some x)); naive_solver. }
  rewrite Hsub, (pok_subs p Hp x Hr). split.
  - intros [Hx|[(m & st0 & Hm & Hx) Hne]]; [exists n, st'|exists m, st0]; (split; [|done]);
      apply stream_at; [by left|right]. split; [|done]. intros ->. congruence.
  - intros (m & st0 & [(-> & ->)|(Hne & Hm)]%stream_at & Hx); [by left|right].
    split; [by exists m, st0|]. intros Hst. by apply Hne, (pok_one p Hp m n st0 st x).
Qed.

(** What the stream holds now is its own: it held it before, or nobody did. *)
Lemma held_after x :
  holds st' = Some x → holds st = Some x ∨ x = next (w_hub (p_world p)).
Proof.
  destruct Heff as [(_ & -> & _)|[(y & _ & -> & _)|(-> & _)]]; [|done|by left].
  intros [= <-]. by right.
Qed.

Lemma one_after m m' st1 st2 x :
  <[n := st']> (p_streams p) !! m = Some st1 → <[n := st']> (p_streams p) !! m' = Some st2 →
  holds st1 = Some x → holds st2 = Some x → m = m'.
Proof.
  intros [(-> & ->)|(Hne & Hm)]%stream_at [(-> & ->)|(Hne' & Hm')]%stream_at Hx1 Hx2.
  - done.
  - apply held_after in Hx1 as [Hx1| ->]; [|by apply (next_free m' st2 Hm') in Hx2].
    by apply (pok_one p Hp n m' st st2 x).
  - apply held_after in Hx2 as [Hx2| ->]; [|by apply (next_free m st1 Hm) in Hx1].
    by apply (pok_one p Hp m n st1 st x).
  - by apply (pok_one p Hp m m' st1 st2 x).
Qed.

Lemma known_after m st0 x :
  <[n := st']> (p_streams p) !! m = Some st0 → holds st0 = Some x → is_Some (heap (w_hub w') !! x).
Proof.
  intros [(-> & ->)|(Hne & Hm)]%stream_at Hx; [|by eapply Hev, (pok_known p Hp m)].
  destruct Heff as [(_ & Ho & Hs & _)|[(y & _ & Ho & _)|(Ho & _)]]; rewrite Ho in Hx.
  - by injection Hx as <-.
  - done.
  - by eapply Hev, (pok_known p Hp n).
Qed.

Lemma plane_ok_stream :
  settled (w_hub w') → closed (w_hub w') = closed (w_hub (p_world p)) →
  plane_ok (MkPlane w' (<[n := st']> (p_streams p)) (p_broadcaster p)).
Proof.
  intros Hset Hc. constructor; simpl; [done| |exact subs_after|exact one_after|exact known_after].
  rewrite Hc. apply (pok_running p Hp).
Qed.

End Step.

Lemma plane_ok_connect p :
  plane_ok p → plane_ok (MkPlane (p_world p) (p_streams p ++ [MkStream StSubscribe []]) (p_broadcaster p)).
Proof.
  intros Hp. assert (Hat : ∀ m st x, (p_streams p ++ [MkStream StSubscribe []]) !! m = Some st →
    holds st = Some x → p_streams p !! m = Some st).
  { intros m st x [Hm|[_ Hm]]%lookup_app_Some Hx; [done|].
    by apply list_lookup_singleton_Some in Hm as [_ <-]. }
  constructor; simpl; [apply (pok_hub p Hp)|apply (pok_running p Hp)|..].
  - intros x Hr. rewrite (pok_subs p Hp x Hr). split; intros (m & st & Hm & Hx); exists m, st.
    + split; [by apply lookup_app_l_Some|done].
    + split; [by eapply Hat|done].
  - intros m m' st st' x Hm Hm' Hx Hx'. eapply (pok_one p Hp); eauto.
  - intros m st x Hm Hx. eapply (pok_known p Hp); eauto.
Qed.

(** A frame that waits to be sent is a [G] one. *)
Definition pending_ok p : Prop :=
  match p_broadcaster p with BSend frame => G frame | _ => True end.

Context (HG : ∀ st b, encodeFrame "stats" st = inl b → G b).

(** A round of the broadcaster. *)
Lemma wake_step e p :
  plane_ok p → event_ok s (EvWake e) p → pending_ok p →
  ∃ p', plane_run s mime other (EvWake e) p = Some p' ∧ plane_ok p' ∧ pending_ok p'
        ∧ evolves G (w_hub (p_world p)) (w_hub (p_world p')).
Proof.
  intros Hp He Hf. pose proof (pok_running p Hp) as Hc. simpl. unfold p_running, pending_ok in *.
  assert (Hsame : ∃ p', Some (MkPlane (p_world p) (p_streams p) (p_broadcaster p)) = Some p'
      ∧ plane_ok p' ∧ pending_ok p' ∧ evolves G (w_hub (p_world p)) (w_hub (p_world p'))).
  { exists p. destruct p. by split. }
  unfold pending_ok in Hsame.
  destruct (p_broadcaster p) as [|frame|] eqn:Eb, e as [order|order now|i|order];
    try exact Hsame; simpl in *.
  - destruct (Close_settled order _ (pok_hub p Hp)) as (h' & E & Hset & Hcl); [apply He..|].
    rewrite E. simpl. eexists. split; [done|].
    assert (Hev : evolves G (w_hub (p_world p)) h') by by eapply Close_evolves.
    split; [|done]. by apply plane_ok_world.
  - destruct (Metrics.Sweep _ _ _) as [k c]. simpl. eexists. split; [done|]. split; [|done].
    apply plane_ok_world; try done; [apply (pok_hub p Hp)|]. unfold p_running. by rewrite Eb.
  - destruct (encodeFrame "stats" _) as [frame|err] eqn:Ef; simpl; [|exact Hsame].
    eexists. split; [done|]. split; [|split; [by eapply HG|done]].
    apply plane_ok_world; try done; [apply (pok_hub p Hp)|]. unfold p_running. by rewrite Eb.
  - destruct (Broadcast_settled order frame _ (pok_hub p Hp)) as (h' & E & Hset & Hs & Hcl).
    { intros x Hx. by apply He. }
    rewrite E. simpl. eexists. split; [done|].
    assert (Hev : evolves G (w_hub (p_world p)) h') by by eapply Broadcast_evolves.
    split; [|done]. apply plane_ok_world; try done; simpl; [by rewrite Hcl|].
    unfold p_running. by rewrite Eb.
Qed.

(** Every event is handled, and keeps the invariant; the frames sent are all [G]. *)
Lemma plane_step e p :
  plane_ok p → event_ok s e p → pending_ok p →
  ∃ p', plane_run s mime other e p = Some p' ∧ plane_ok p' ∧ pending_ok p'
        ∧ evolves G (w_hub (p_world p)) (w_hub (p_world p')).
Proof.
  intros Hp He Hf. destruct e as [i t r|n i|e]; [simpl..|by apply wake_step].
  - destruct (opens_stream s t r) eqn:Eo.
    { eexists. split; [done|]. split; [by apply plane_ok_connect|done]. }
    destruct (serve_request i t r (p_world p) Eo He) as (resp & w' & E & Hh). rewrite E.
    eexists. split; [done|]. simpl. rewrite Hh. split; [|done].
    apply plane_ok_world; rewrite ?Hh; try done; [apply (pok_hub p Hp)|apply (pok_running p Hp)].
  - destruct (p_streams p !! n) as [st|] eqn:En; [|by exists p].
    destruct (handleStream_step i st (p_world p) (pok_hub p Hp))
      as (st' & w' & -> & Hset & Hc & Hev & Heff & _). simpl.
    eexists. split; [done|]. split; [by apply (plane_ok_stream p n st st')|done].
Qed.

End Plane.

(** ** Counting *)

Lemma omap_NoDup {A} (f : A → option nat) (l : list A) :
  (∀ n n' a a' x, l !! n = Some a → l !! n' = Some a' → f a = Some x → f a' = Some x → n = n') →
  NoDup (omap f l).
Proof.
  induction l as [|a l IH]; intros H; [constructor|]. simpl.
  assert (Hl : NoDup (omap f l)).
  { apply IH. intros n n' b b' x Hn Hn' Hb Hb'.
    assert (S n = S n') by by apply (H (S n) (S n') b b' x). lia. }
  destruct (f a) as [x|] eqn:E; [|done]. apply NoDup_cons. split; [|done].
  intros (b & Hb & Hx)%list_elem_of_omap. apply list_elem_of_lookup in Hb as [n Hn].
  by specialize (H 0%nat (S n) a b x eq_refl Hn E Hx).
Qed.

Lemma length_omap_countb {A C} (f : A → option C) (l : list A) :
  length (omap f l) = countb (λ a, is_some (f a)) l.
Proof.
  induction l as [|a l IH]; simpl; [done|]. destruct (f a); simpl; [f_equal|]; exact IH.
Qed.

(** A chunk of output: a comment, or the frame of an encoded snapshot. *)
Definition snapshot_frame `{SnapshotEncoder} (f : list ascii) : Prop :=
  ∃ sp b, json_marshal sp = inl b ∧ f = frame_of "stats" b.

Lemma encodeFrame_good `{SnapshotEncoder} st b : encodeFrame "stats" st = inl b → snapshot_frame b.
Proof.
  unfold encodeFrame. destruct (json_marshal st) as [x|] eqn:E; [|done]. intros [= <-]. by exists st, x.
Qed.

(** ** Histories *)

Section Histories.
Context {P U B : Type} `{ProxyPackage P U} `{Codec B} `{SnapshotEncoder} `{JsonParser}.
Context (mime : string → option string) (other : spec_float → Z) (s : Server U).
Implicit Types p : plane (P := P) (B := B).

Lemma run_ok e p :
  plane_ok p → event_ok s e p → ∃ p', plane_run s mime other e p = Some p' ∧ plane_ok p'.
Proof.
  intros Hp He. assert (Hany : pending_ok (λ _, True) p).
  { unfold pending_ok. by destruct (p_broadcaster p). }
  destruct (plane_step mime other s (λ _, True) (λ _ _ _, I) e p Hp He Hany) as (p' & E & Hp' & _).
  by exists p'.
Qed.

Lemma runs_ok es :
  ∀ p, plane_ok p → events_ok s mime other es p →
  ∃ p', plane_runs s mime other es p = Some p' ∧ plane_ok p'.
Proof.
  induction es as [|e es IH]; intros p Hp He; [by exists p|]. destruct He as [He Hes].
  destruct (run_ok e p Hp He) as (p1 & E & Hp1). simpl. rewrite E in *. simpl. by apply IH.
Qed.

Lemma running_subscribers p :
  plane_ok p → p_running p = true →
  Len (w_hub (p_world p)) = Z.of_nat (countb (λ st, is_some (holds st)) (p_streams p)).
Proof.
  intros Hp Hr. unfold Len.
  assert (Hnd : NoDup (omap holds (p_streams p))) by (apply omap_NoDup, (pok_one p Hp)).
  rewrite <- length_omap_countb, <- (size_list_to_set (C := gset nat) _ Hnd). do 2 f_equal. apply set_eq. intros x.
  rewrite (pok_subs p Hp x Hr), elem_of_list_to_set, list_elem_of_omap. split.
  - intros (n & st & Hn & Hx). exists st. split; [|done]. by eapply list_elem_of_lookup_2.
  - intros (st & [n Hn]%list_elem_of_lookup & Hx). by exists n, st.
Qed.

(** *** Output *)

(** What every stream wrote is made of chunks, but for the beginning of one at the end of a stream
    whose write failed; and chunks are what waits for it. *)
Definition is_chunk (f : list ascii) : Prop := f = keepalive ∨ snapshot_frame f.

Definition leaves (st : stream) : Prop :=
  match st_pc st with StLeave _ | StGone => True | _ => False end.

Definition output_ok (st : stream) : Prop :=
  Forall is_chunk (st_out st)
  ∨ (leaves st ∧ ∃ cs c n, st_out st = cs ++ [take n c] ∧ Forall is_chunk cs ∧ is_chunk c).

Definition outputs_ok p : Prop :=
  frames_ok snapshot_frame (w_hub (p_world p)) ∧ pending_ok snapshot_frame p
  ∧ Forall output_ok (p_streams p).

Lemma output_running st : output_ok st → ¬ leaves st → Forall is_chunk (st_out st).
Proof. intros [?|[? _]]; done. Qed.

Lemma write_chunk_out i x chunk st :
  is_chunk chunk → Forall is_chunk (st_out st) → output_ok (write_chunk i x chunk st).
Proof.
  intros Hc Hst. unfold write_chunk. destruct (si_failed i) as [n|].
  - right. split; [done|]. by exists (st_out st), chunk, n.
  - left. by apply Forall_snoc_intro.
Qed.

Lemma handleStream_out i st (w : world P B) st' w' :
  frames_ok snapshot_frame (w_hub w) → output_ok st →
  handleStream s i st w = Some (st', w') → output_ok st'.
Proof.
  intros Hf Hst. unfold handleStream, open_stream.
  assert (Hrun : ¬ leaves st → Forall is_chunk (st_out st)) by by apply output_running.
  unfold leaves in Hrun. destruct (st_pc st) as [|x|x|x|] eqn:Epc; try specialize (Hrun ltac:(auto)).
  - destruct (Subscribe (w_hub w)) as [[x h]|]; simpl; [|done]. intros [= <- <-]. by left.
  - destruct (encodeFrame "stats" _) as [frame|err] eqn:E; intros [= <- <-]; [|by left].
    apply write_chunk_out; [|done]. right. by eapply encodeFrame_good.
  - destruct (si_select i).
    + intros [= <- <-]. by left.
    + intros [= <- <-]. apply write_chunk_out; [by left|done].
    + destruct (receive x (w_hub w)) as [[f|] h] eqn:E.
      * intros [= <- <-]. apply write_chunk_out; [|done]. right.
        apply (receive_evolves snapshot_frame) in E as (_ & _ & _ & Hfr). by apply Hfr.
      * destruct (heap (w_hub w) !! x) as [y|]; [destruct (ch_closed y)|]; intros [= <- <-]; by left.
  - destruct (Unsubscribe (Some x) (w_hub w)); cbn [mbind option_bind]; [|done]. intros [= <- <-].
    destruct Hst as [?|[_ ?]]; [by left|by right].
  - by intros [= <- <-].
Qed.

Lemma run_outputs e p p' :
  plane_ok p → event_ok s e p → outputs_ok p → plane_run s mime other e p = Some p' → outputs_ok p'.
Proof.
  intros Hp He (Hf & Hpe & Ho) E.
  destruct (plane_step mime other s snapshot_frame encodeFrame_good e p Hp He Hpe)
    as (p1 & E1 & _ & Hpe1 & Hev).
  rewrite E in E1. injection E1 as <-. split; [by apply Hev|]. split; [exact Hpe1|].
  destruct e as [i t r|n i|e]; simpl in E.
  - destruct (opens_stream s t r).
    + injection E as <-. simpl. apply Forall_snoc_intro; [done|]. left. apply Forall_nil_2.
    + destruct (serve_target _ _ _ _ _ _ _) as [[resp w']|]; [|done]. by injection E as <-.
  - destruct (p_streams p !! n) as [st|] eqn:En; [|by injection E as <-].
    destruct (handleStream s i st (p_world p)) as [[st' w']|] eqn:Eh; [|done].
    injection E as <-. simpl. apply Forall_insert; [done|].
    eapply handleStream_out; [exact Hf| |exact Eh]. by eapply Forall_lookup_1 in Ho.
  - destruct (StartBroadcaster s e _ (p_world p)) as [[b w']|]; [|done]. by injection E as <-.
Qed.

Lemma runs_outputs es :
  ∀ p p', plane_ok p → events_ok s mime other es p → outputs_ok p →
  plane_runs s mime other es p = Some p' → outputs_ok p'.
Proof.
  induction es as [|e es IH]; intros p p' Hp He Ho E; simpl in *; [by injection E as <-|].
  destruct He as [He Hes].
  destruct (plane_step mime other s snapshot_frame encodeFrame_good e p Hp He (proj1 (proj2 Ho)))
    as (p1 & E1 & Hp1 & _).
  assert (Ho1 : outputs_ok p1) by exact (run_outputs e p p1 Hp He Ho E1).
  rewrite E1 in E, Hes. exact (IH p1 p' Hp1 Hes Ho1 E).
Qed.

(** The chunks of an output. *)
Lemma chunks_of `{!OneLine} l :
  Forall is_chunk l → ∃ cs, l = chunk_bytes <$> cs ∧ Forall chunk_ok cs
    ∧ Forall (λ c, match c with Frame b => ∃ sp, json_marshal sp = inl b | Comment => True end) cs.
Proof.
  induction 1 as [|f l Hf _ (cs & -> & Hcs & Hm)]; [by exists []|].
  destruct Hf as [->|(sp & b & E & ->)].
  - exists (Comment :: cs). split; [done|]. split; by constructor.
  - exists (Frame b :: cs). split; [done|]. split; constructor; try done.
    + exact (marshal_one_line sp b E).
    + by exists sp.
Qed.

Lemma read_chunks `{!OneLine} l :
  Forall is_chunk l →
  ∃ bs, sse_parse (concat l) = (λ b, (bytes "stats", [b])) <$> bs
    ∧ Forall (λ b, ∃ sp, json_marshal sp = inl b) bs.
Proof.
  intros (cs & -> & Hcs & Hm)%chunks_of. rewrite <- (app_nil_r (concat _)), sse_chunks, app_nil_r by done.
  clear - Hm. induction Hm as [|[b|] cs Hc _ (bs & IH & Hbs)]; [by exists []|..]; simpl.
  - exists (b :: bs). rewrite fmap_cons. split; [f_equal; exact IH|by constructor].
  - exists bs. by split.
Qed.

(** *** Shutdown *)

(** The frames that wait for a subscriber, and the steps a stream has left once the hub is closed. *)
Definition waiting (h : Hub (list ascii)) (x : nat) : nat :=
  match heap h !! x with Some y => length (ch y) | None => 0%nat end.

Definition work (h : Hub (list ascii)) (st : stream) : nat :=
  match st_pc st with
  | StSubscribe => 4 | StFirst x => 3 + waiting h x | StLoop x => 2 + waiting h x
  | StLeave _ => 1 | StGone => 0
  end.

Lemma work_write h i x chunk st :
  (work h (write_chunk i x chunk st) ≤ 2 + waiting h x)%nat.
Proof. unfold write_chunk, work. destruct (si_failed i), (si_flush i); simpl; lia. Qed.

Lemma waiting_set h x y z : waiting (set_sub x y h) z = if decide (x = z) then length (ch y) else waiting h z.
Proof.
  unfold waiting, set_sub. simpl. case_decide as E; [subst; by rewrite lookup_insert_eq|].
  by rewrite lookup_insert_ne.
Qed.

Lemma Subscribe_closed (h : Hub (list ascii)) x h' :
  closed h = true → Subscribe h = Some (x, h') →
  x = next h ∧ ∀ z, waiting h' z = if decide (next h = z) then 0%nat else waiting h z.
Proof.
  unfold Subscribe. intros ->. cbn [closed]. set (h0 := MkHub _ _ _ _ _). intros E.
  assert (Hx : heap h0 !! next h = Some (MkSub [] false 0)) by apply lookup_insert_eq.
  unfold close_ch in E. rewrite Hx in E. cbn [ch_closed mbind option_bind] in E.
  injection E as <- <-. split; [done|]. intros z. rewrite waiting_set. simpl. case_decide; [done|].
  unfold waiting, h0. simpl. by rewrite lookup_insert_ne.
Qed.

(** The stream's own step: it comes closer to its end, and touches its own channel only. *)
Lemma handleStream_shutdown i st (w : world P B) st' w' :
  settled (w_hub w) → closed (w_hub w) = true →
  (∀ x, holds st = Some x → is_Some (heap (w_hub w) !! x)) →
  handleStream s i st w = Some (st', w') →
  (work (w_hub w') st' ≤ work (w_hub w) st - match si_select i with SelKeepalive => 0 | _ => 1 end)%nat
  ∧ ∀ z, is_Some (heap (w_hub w) !! z) → holds st ≠ Some z → waiting (w_hub w') z = waiting (w_hub w) z.
Proof.
  intros [Hok Hsubs] Hc Hk. specialize (Hsubs Hc). unfold handleStream, open_stream.
  pose proof (λ h x chunk, work_write h i x chunk st) as Hw.
  destruct st as [pc out]. unfold work at 2. unfold holds in *. cbn [st_pc st_out] in *.
  destruct pc as [|x|x|x|].
  - destruct (Subscribe (w_hub w)) as [[x h]|] eqn:E; simpl; [|done]. intros [= <- <-].
    apply (Subscribe_closed _ _ _ Hc) in E as [-> E]. unfold work. simpl. rewrite E.
    rewrite decide_True by done. split; [destruct (si_select i); lia|].
    intros z Hz _. rewrite E. case_decide as En; [|done]. subst z. apply (hok_next _ Hok) in Hz. lia.
  - destruct (encodeFrame "stats" _) as [frame|err]; intros [= <- <-]; (split; [|done]).
    + specialize (Hw (w_hub w) x frame). destruct (si_select i); lia.
    + unfold work. simpl. destruct (si_select i); lia.
  - destruct (Hk x eq_refl) as [y Hy]. assert (Hcl : ch_closed y = true).
    { apply not_false_iff_true. intros Ho. assert (Hin : x ∈ subs (w_hub w)).
      { apply (hok_open _ Hok). by exists y. } rewrite Hsubs in Hin. set_solver. }
    destruct (si_select i).
    + intros [= <- <-]. split; [|done]. unfold work. simpl. lia.
    + intros [= <- <-]. split; [|done]. specialize (Hw (w_hub w) x keepalive). lia.
    + unfold receive. rewrite Hy. destruct (ch y) as [|f q] eqn:Ey; simpl.
      * rewrite Hcl. intros [= <- <-]. split; [|done]. unfold work. simpl. lia.
      * intros [= <- <-]. cbn [w_hub set_hub]. set (h1 := set_sub x _ _).
        assert (E : ∀ z, waiting h1 z = if decide (x = z) then length q else waiting (w_hub w) z)
          by (intros z; apply waiting_set).
        specialize (Hw h1 x f). rewrite E, decide_True in Hw by done. split.
        -- unfold waiting. rewrite Hy, Ey. simpl. lia.
        -- intros z _ Hz. rewrite E. case_decide; [congruence|done].
  - simpl. rewrite bool_decide_eq_false_2 by (rewrite Hsubs; set_solver). simpl.
    intros [= <- <-]. split; [|done]. unfold work. simpl. destruct (si_select i); lia.
  - intros [= <- <-]. split; [|done]. unfold work. simpl. lia.
Qed.

(** One event of the plane, seen from stream [n]. *)
Lemma plane_shutdown e p p' n st :
  plane_ok p → event_ok s e p → p_running p = false → plane_run s mime other e p = Some p' →
  p_streams p !! n = Some st →
  p_running p' = false ∧ ∃ st', p_streams p' !! n = Some st'
  ∧ (work (w_hub (p_world p')) st' ≤ work (w_hub (p_world p)) st - if progress n e then 1 else 0)%nat.
Proof.
  intros Hp He Hr E Hn. destruct e as [i t r|m i|e]; simpl in *.
  - destruct (opens_stream s t r) eqn:Eo.
    { injection E as <-. split; [done|]. exists st. simpl. split; [by apply lookup_app_l_Some|lia]. }
    destruct (serve_request mime other s i t r (p_world p) Eo He) as (resp & w' & Es & Hh).
    rewrite Es in E. injection E as <-. split; [done|]. exists st. simpl. rewrite Hh. split; [done|lia].
  - destruct (p_streams p !! m) as [sm|] eqn:Em.
    2: { injection E as <-. split; [done|]. exists st. split; [done|].
         destruct (Nat.eqb_spec m n) as [->|]; [congruence|]. simpl. lia. }
    destruct (handleStream s i sm (p_world p)) as [[st' w']|] eqn:Eh; [|done]. injection E as <-.
    apply handleStream_shutdown in Eh as [Hown Hother];
      [|apply (pok_hub p Hp)|by rewrite (pok_running p Hp), Hr|intros x; by apply (pok_known p Hp m)].
    split; [done|]. simpl. destruct (Nat.eqb_spec m n) as [->|Hne].
    + rewrite Hn in Em. injection Em as <-. exists st'. simpl. split; [|by destruct (si_select i)].
      apply list_lookup_insert_eq. by eapply lookup_lt_Some.
    + exists st. rewrite list_lookup_insert_ne by done. split; [done|]. simpl.
      assert (Hw : ∀ x, holds st = Some x → waiting (w_hub w') x = waiting (w_hub (p_world p)) x).
      { intros x Hx. apply Hother; [by eapply (pok_known p Hp n)|]. intros Hx'. apply Hne.
        by apply (pok_one p Hp m n sm st x). }
      unfold work, holds in *. destruct (st_pc st); rewrite ?Hw by done; lia.
  - unfold p_running in Hr. destruct (p_broadcaster p) eqn:Eb; [done..|]. simpl in E.
    injection E as <-. split; [done|]. exists st. simpl. split; [done|lia].
Qed.

Lemma runs_shutdown es n :
  ∀ p st, plane_ok p → events_ok s mime other es p → p_running p = false →
  p_streams p !! n = Some st →
  ∃ p' st', plane_runs s mime other es p = Some p' ∧ plane_ok p' ∧ p_running p' = false
  ∧ p_streams p' !! n = Some st'
  ∧ (work (w_hub (p_world p')) st' ≤ work (w_hub (p_world p)) st - countb (progress n) es)%nat.
Proof.
  induction es as [|e es IH]; intros p st Hp He Hr Hn.
  { exists p, st. do 4 (split; [done|]). simpl. lia. }
  destruct He as [He Hes].
  destruct (run_ok e p Hp He) as (p1 & E1 & Hp1). rewrite E1 in Hes.
  destruct (plane_shutdown e p p1 n st Hp He Hr E1 Hn) as (Hr1 & st1 & Hn1 & Hw1).
  destruct (IH p1 st1 Hp1 Hes Hr1 Hn1) as (p2 & st2 & E2 & Hp2 & Hr2 & Hn2 & Hw2).
  exists p2, st2. simpl. rewrite E1. do 4 (split; [done|]). destruct (progress n e); lia.
Qed.

Lemma work_bound p n st :
  plane_ok p → p_streams p !! n = Some st →
  Z.of_nat (work (w_hub (p_world p)) st) ≤ 3 + buffer (w_hub (p_world p)).
Proof.
  intros Hp Hn. pose proof (proj1 (pok_hub p Hp)) as Hok. pose proof (hok_buffer _ Hok) as Hb.
  assert (Hw : ∀ x, Z.of_nat (waiting (w_hub (p_world p)) x) ≤ buffer (w_hub (p_world p))).
  { intros x. unfold waiting. destruct (heap (w_hub (p_world p)) !! x) as [y|] eqn:Hx; [|lia].
    pose proof (hok_bound _ Hok x y Hx) as Hl. unfold len in Hl. lia. }
  unfold work. destruct (st_pc st) as [|x|x|x|]; try specialize (Hw x); lia.
Qed.

(** ** The claims *)

(** C9.  Over any interleaving of requests (a permitted one for the stream starts a stream), steps
    of the streams and rounds of the broadcaster, from a hub nobody is connected to: nothing panics
    and every request is answered, no subscriber is shared or
    left behind by a stream that is gone, so that the number of subscribers is the number of
    running streams, and once the broadcaster has stopped there are none. *)
Theorem streams_never_leak (es : list plane_event) p :
  plane_start p → events_ok s mime other es p →
  ∃ p', plane_runs s mime other es p = Some p' ∧ plane_ok p'
    ∧ Len (w_hub (p_world p')) = if p_running p'
        then Z.of_nat (countb (λ st, is_some (holds st)) (p_streams p')) else 0.
Proof.
  intros Hp%plane_ok_start He. destruct (runs_ok es p Hp He) as (p' & E & Hp').
  exists p'. split; [done|]. split; [done|]. destruct (p_running p') eqn:Er.
  - by apply running_subscribers.
  - unfold Len. destruct (pok_hub p' Hp') as [_ ->]; [done|]. by rewrite (pok_running p' Hp'), Er.
Qed.

(** C17.  Whatever else happens, a client that parses what it received as the event-stream
    format says reads [stats] events only, whole, each with one line of data that is the
    encoding of a snapshot; the keepalives are invisible, and so is a chunk cut short. *)
Theorem stream_output `{!OneLine} (es : list plane_event) p p' (n : nat) (st : stream) :
  plane_start p → events_ok s mime other es p → plane_runs s mime other es p = Some p' →
  p_streams p' !! n = Some st →
  ∃ bs, sse_parse (concat (st_out st)) = (λ b, (bytes "stats", [b])) <$> bs
    ∧ Forall (λ b, ∃ sp, json_marshal sp = inl b) bs.
Proof.
  intros Hs He E Hn. assert (Hout : outputs_ok p').
  { eapply runs_outputs; [by apply plane_ok_start|exact He| |exact E].
    destruct Hs as ([b Hh] & Hs & Hb). unfold outputs_ok, pending_ok. rewrite Hs, Hb.
    split; [|split; [done|by apply Forall_nil]]. intros x y. rewrite Hh. simpl. by rewrite lookup_empty. }
  destruct Hout as (_ & _ & Ho). rewrite Forall_lookup in Ho.
  destruct (Ho n st Hn) as [Hcs|(_ & cs & c & k & -> & Hcs & Hc)]; [by apply read_chunks|].
  destruct (chunks_of [c]) as (k1 & E1 & Hk1 & _); [by apply Forall_singleton|].
  destruct k1 as [|k1 [|]]; [done| |done]. injection E1 as ->. apply Forall_cons in Hk1 as [Hk1 _].
  destruct (sse_partial k1 k Hk1) as [->|Hsilent]; [by apply read_chunks, Forall_snoc_intro|].
  destruct (chunks_of cs Hcs) as (k2 & -> & Hk2 & Hm). destruct (read_chunks _ Hcs) as (bs & Hbs & Hall).
  exists bs. split; [|exact Hall]. rewrite <- Hbs.
  transitivity (omap chunk_event k2).
  - rewrite concat_app. cbn [concat]. by rewrite app_nil_r, sse_chunks, Hsilent, app_nil_r.
  - rewrite <- (app_nil_r (concat _)), sse_chunks by done. symmetry. apply app_nil_r.
Qed.

(** C20.  After the broadcaster has stopped every stream ends: the client gets the frames that
    still wait for it, no more than the buffer holds, and its handler returns within three more
    steps besides keepalives, whatever the other parts of the program do. *)
Theorem shutdown_ends_streams (es : list plane_event) p (n : nat) (st : stream) :
  plane_ok p → events_ok s mime other es p → p_running p = false → p_streams p !! n = Some st →
  3 + buffer (w_hub (p_world p)) ≤ Z.of_nat (countb (progress n) es) →
  ∃ p' st', plane_runs s mime other es p = Some p' ∧ p_streams p' !! n = Some st' ∧ st_pc st' = StGone.
Proof.
  intros Hp He Hr Hn Hmany.
  destruct (runs_shutdown es n p st Hp He Hr Hn) as (p' & st' & E & _ & _ & Hn' & Hw).
  exists p', st'. split; [done|]. split; [done|]. pose proof (work_bound p n st Hp Hn).
  unfold work in Hw at 1. destruct (st_pc st'); [lia..|done].
Qed.

End Histories.

(** ** Examples *)

#[local] Instance sample_encoder : SnapshotEncoder := λ p, inl (bytes "{}").

#[local] Instance sample_one_line : OneLine.
Proof. intros p b [= <-]. eapply bool_decide_unpack. vm_compute. exact I. Qed.

Section Checking.
Context {P U B : Type} `{ProxyPackage P U} `{Codec B} `{SnapshotEncoder} `{JsonParser}.
Context (mime : string → option string) (other : spec_float → Z) (s : Server U).

(** The conditions on the events, decided. *)
Definition event_check (e : plane_event) (p : plane (P := P) (B := B)) : bool :=
  match e with
  | EvRequest i _ _ =>
      match s_redis s with
      | Some rl => is_some (ActiveKeys rl 200 (i_scan i)) && is_some (Redis.Reset (i_delete i))
      | None => true
      end
  | EvWake (WakeDone order) | EvWake (WakeSend order) =>
      bool_decide (NoDup order) && bool_decide (list_to_set order = subs (w_hub (p_world p)))
  | _ => true
  end.

Fixpoint events_check (es : list plane_event) (p : plane) : bool :=
  match es with
  | [] => true
  | e :: es => event_check e p
      && match plane_run s mime other e p with Some p => events_check es p | None => true end
  end.

Lemma events_check_ok es : ∀ p, events_check es p = true → events_ok s mime other es p.
Proof.
  induction es as [|e es IH]; intros p; simpl; [done|]. intros [He Hes]%andb_true_iff. split.
  - assert (Hr : ∀ order, bool_decide (NoDup order)
        && bool_decide (list_to_set order = subs (w_hub (p_world p))) = true →
      NoDup order ∧ ∀ x, x ∈ order ↔ x ∈ subs (w_hub (p_world p))).
    { intros order [Hnd%bool_decide_eq_true Hin%bool_decide_eq_true]%andb_true_iff. split; [done|].
      intros x. by rewrite <- Hin, elem_of_list_to_set. }
    destruct e as [i t r| |[order|order now|i|order]]; try done; try apply Hr, He.
    simpl in *. unfold scans_end. destruct (s_redis s) as [rl|]; [|done].
    apply andb_true_iff in He as [Hk Hd].
    destruct (ActiveKeys _ _ _), (Redis.Reset _); try discriminate; by split; eexists.
  - destruct (plane_run _ _ _ _ _); auto.
Qed.

Lemma stream_events_ok n i k : ∀ p, events_ok s mime other (replicate k (EvStream n i)) p.
Proof.
  induction k as [|k IH]; intros p; [done|]. cbn [replicate events_ok]. split; [done|].
  by destruct (plane_run _ _ _ _ _).
Qed.

End Checking.

Definition sample_plane : plane := MkPlane sample_world [] BSelect.
Definition step_ok (sel : select) : stream_input := MkStreamInput quiet sel None true.

(** A request with the token. *)
Definition admin (r : request) : request :=
  MkRequest (Method r) (Path r) (EscapedPath r) (RawQuery r)
    (<["X-Admin-Token" := ["s3cret"]]> (RHeader r)) (Body r) (BodyErr r) (RemoteAddr r).

Definition connect : request := anonymous "GET" "/api/stream".

(** A dashboard connects and gets its first snapshot, a keepalive and a tick's frame, and loses the
    connection in the middle of the next keepalive; a second one connects, a third has no token; a
    policy is set; the program shuts down. *)
Definition sample_events : list plane_event :=
  [EvRequest quiet (Guarded Stream) (admin connect); EvStream 0 (step_ok SelDone);
   EvStream 0 (step_ok SelDone); EvWake (WakeTick quiet); EvWake (WakeSend [0%nat]);
   EvStream 0 (step_ok SelKeepalive); EvStream 0 (step_ok SelFrame);
   EvStream 0 (MkStreamInput quiet SelKeepalive (Some 5%nat) true);
   EvRequest quiet (Guarded Stream) (admin connect); EvStream 1 (step_ok SelDone);
   EvRequest quiet (Guarded Stream) connect;
   EvRequest quiet (Guarded PolicySet) (admin (json_put "/api/policy" doc_rps));
   EvWake (WakeDone [0; 1]%nat)].

Definition no_type : string → option string := λ _, None.
Definition saturated : spec_float → Z := λ _, 0.

Lemma sample_plane_start : plane_start sample_plane.
Proof. split; [by exists 8|done]. Qed.

Lemma sample_events_ok : events_ok sample_server no_type saturated sample_events sample_plane.
Proof. apply events_check_ok. vm_compute. reflexivity. Qed.

Lemma streams_never_leak_witness :
  ∃ p', plane_runs sample_server no_type saturated sample_events sample_plane = Some p'
    ∧ Len (w_hub (p_world p')) = 0 ∧ p_running p' = false ∧ length (p_streams p') = 2%nat
    ∧ Limit (policy (w_manager (p_world p'))) = 7.
Proof.
  destruct (streams_never_leak no_type saturated sample_server sample_events sample_plane
    sample_plane_start sample_events_ok) as (p' & E & _ & Hl).
  exists p'. split; [exact E|].
  assert (Hr : (λ p, (p_running p, length (p_streams p), Limit (policy (w_manager (p_world p)))))
    <$> plane_runs sample_server no_type saturated sample_events sample_plane
    = Some (false, 2%nat, 7)) by (vm_compute; reflexivity).
  rewrite E in Hr. injection Hr as Hr Hn Hp. rewrite Hr in Hl. split; [exact Hl|].
  split; [exact Hr|]. split; [exact Hn|exact Hp].
Defined.

(** The stream as its client sees it: a frame, a keepalive, a frame, half a keepalive. *)
Lemma stream_output_witness :
  ∃ p' st bs, plane_runs sample_server no_type saturated sample_events sample_plane = Some p'
    ∧ p_streams p' !! 0%nat = Some st ∧ length (st_out st) = 4%nat
    ∧ sse_parse (concat (st_out st)) = (λ b, (bytes "stats", [b])) <$> bs ∧ length bs = 2%nat.
Proof.
  destruct (runs_ok no_type saturated sample_server sample_events sample_plane
    (plane_ok_start _ sample_plane_start) sample_events_ok) as (p' & E & _).
  assert (Hout : (p ← plane_runs sample_server no_type saturated sample_events sample_plane;
    st ← p_streams p !! 0%nat; Some (length (st_out st), length (sse_parse (concat (st_out st)))))
    = Some (4%nat, 2%nat)) by (vm_compute; reflexivity).
  rewrite E in Hout. cbn [mbind option_bind] in Hout.
  destruct (p_streams p' !! 0%nat) as [st|] eqn:Hst; [|discriminate Hout].
  injection Hout as Hlen Hev.
  destruct (stream_output no_type saturated sample_server sample_events sample_plane p' 0%nat st
    sample_plane_start sample_events_ok E Hst) as (bs & Hbs & _).
  exists p', st, bs. split; [exact E|]. split; [exact Hst|]. split; [exact Hlen|]. split; [exact Hbs|].
  by rewrite Hbs, length_fmap in Hev.
Defined.

(** The second dashboard, whose first snapshot was still to be sent when the program stopped. *)
Definition leaving : list plane_event := replicate 11 (EvStream 1 (step_ok SelFrame)).

Lemma shutdown_ends_streams_witness :
  ∃ p p' st', plane_runs sample_server no_type saturated sample_events sample_plane = Some p
    ∧ plane_runs sample_server no_type saturated leaving p = Some p'
    ∧ p_streams p' !! 1%nat = Some st' ∧ st_pc st' = StGone.
Proof.
  destruct (runs_ok no_type saturated sample_server sample_events sample_plane
    (plane_ok_start _ sample_plane_start) sample_events_ok) as (p & E & Hp).
  assert (Hc : (λ p, (p_running p, buffer (w_hub (p_world p)), is_some (p_streams p !! 1%nat)))
    <$> plane_runs sample_server no_type saturated sample_events sample_plane
    = Some (false, 8, true)) by (vm_compute; reflexivity).
  rewrite E in Hc. injection Hc as Hr Hb Hs.
  destruct (p_streams p !! 1%nat) as [st|] eqn:Hst; [|discriminate Hs].
  destruct (shutdown_ends_streams no_type saturated sample_server leaving p 1%nat st Hp
    (stream_events_ok _ _ _ _ _ _ p) Hr Hst) as (p' & st' & E' & Hn & Hg).
  - rewrite Hb. vm_compute. discriminate.
  - exists p, p', st'. split; [exact E|]. split; [exact E'|]. split; [exact Hn|exact Hg].
Defined.
